(** * pershing: placer and router

    A shallow embedding of [placer/placer.py] and [router/router.py].
    Python integers are [Z]; a voxel coordinate [(y, z, x)] is a triple of
    [Z]; numpy grids are total functions on coordinates together with their
    shape, indexed the way numpy does it (negative indices wrap around,
    indices beyond the shape raise [IndexError]). *)

From Stdlib Require Import String.
From Stdlib Require Import ZArith List Bool Lia QArith Qminmax Qround.
From Stdlib Require Import Permutation Sorted Lqa.
Import ListNotations.
Local Open Scope string_scope.
Local Open Scope list_scope.

Local Open Scope Z_scope.
Set Warnings "-register-all".

(** ** Coordinates *)

Definition coord : Type := (Z * Z * Z)%type.

Definition coord_eqb (p q : coord) : bool :=
  let '(py, pz, px) := p in
  let '(qy, qz, qx) := q in
  (py =? qy) && (pz =? qz) && (px =? qx).

Definition coord_eq_dec (p q : coord) : {p = q} + {p <> q}.
Proof. repeat decide equality. Defined.

(** Python's [c in l] on a list of coordinates. *)
Definition mem (c : coord) (l : list coord) : bool := existsb (coord_eqb c) l.

(** [xrange(start, stop)]: the integers [start, start+1, ..., stop-1]. *)
Definition xrange (start stop : Z) : list Z :=
  map (fun i => start + Z.of_nat i) (seq 0 (Z.to_nat (stop - start))).

(** ** Initial router: [Router.dumb_route] *)

Module Dumb.

Definition dumb_route (a b : coord) : list coord :=
  let '(ay, az, ax) := a in
  let '(by_, bz, bx) := b in
  (* Move horizontally from a to b *)
  let pass_x := map (fun x => (ay, az, x)) (xrange (Z.min ax bx) (Z.max ax bx + 1)) in
  (* Move vertically from bx to b *)
  let pass_z := map (fun z => (ay, z, bx)) (xrange (Z.min az bz) (Z.max az bz + 1)) in
  pass_x ++ pass_z.

(** The two passes of [dumb_route], separately. *)
Definition pass_x (a b : coord) : list coord :=
  let '(ay, az, ax) := a in
  let '(_, _, bx) := b in
  map (fun x => (ay, az, x)) (xrange (Z.min ax bx) (Z.max ax bx + 1)).

Definition pass_z (a b : coord) : list coord :=
  let '(ay, az, _) := a in
  let '(_, bz, bx) := b in
  map (fun z => (ay, z, bx)) (xrange (Z.min az bz) (Z.max az bz + 1)).

Definition corner (a b : coord) : coord :=
  let '(ay, az, _) := a in
  let '(_, _, bx) := b in
  (ay, az, bx).

End Dumb.

(** ** Outcomes of Python calls

    A call returns a value, raises an exception, or (for a loop modelled
    with fuel) is still running when the fuel is spent. *)

Inductive exn : Type :=
  | ValueError
  | IndexError
  | TypeError
  | KeyError
  | ZeroDivisionError.

Inductive outcome (A : Type) : Type :=
  | Returned (a : A)
  | Raised (e : exn)
  | OutOfFuel.

Arguments Returned {A} a.
Arguments Raised {A} e.
Arguments OutOfFuel {A}.

Definition bind {A B : Type} (m : outcome A) (k : A -> outcome B) : outcome B :=
  match m with
  | Returned a => k a
  | Raised e => Raised e
  | OutOfFuel => OutOfFuel
  end.

Notation "x <- m ;; k" := (bind m (fun x => k))
  (at level 61, m at next level, right associativity).

Fixpoint mapM {X Y : Type} (f : X -> outcome Y) (l : list X) : outcome (list Y) :=
  match l with
  | [] => Returned []
  | x :: t => y <- f x ;; t' <- mapM f t ;; Returned (y :: t')
  end.

(** ** Placer: [generate] *)

Module Placer.

(** One entry of a placement list:
    [{"name": ..., "placement": (y, z, x), "turns": ..., "pins": {...}}]. *)
Record cell_placement : Type := mk_cell_placement {
  name : String.string;
  placement : coord;
  turns : Z;
  pins : list (String.string * String.string)
}.

Definition set_placement (c : cell_placement) (p : coord) : cell_placement :=
  mk_cell_placement (name c) p (turns c) (pins c).

(** The pseudo-random source: the successive values of [random.random()],
    each in [0, 1).  A computation threads the number of draws made. *)
Definition rng : Type := nat -> Q.

(** [random.choice(seq)] is [seq[int(random() * len(seq))]]: the index drawn. *)
Definition choice_index (u : Q) (len : nat) : Z :=
  Qfloor (u * inject_Z (Z.of_nat len)).

(** The objects of the copied list are told apart by their position: the
    list holds one dict per cell, and [deepcopy] makes each a fresh object. *)
Definition choice (r : rng) (pos : nat) (l : list cell_placement) : outcome (nat * nat) :=
  let i := choice_index (r pos) (length l) in
  if (0 <=? i) && (i <? Z.of_nat (length l))
  then Returned (Z.to_nat i, S pos)
  else Raised IndexError.

(** [while cellB is cellA: cellB = random.choice(new_placements)] *)
Fixpoint pick_cellB (fuel : nat) (r : rng) (pos : nat) (l : list cell_placement)
    (cellA cellB : nat) : outcome (nat * nat) :=
  if Nat.eqb cellB cellA then
    match fuel with
    | O => OutOfFuel
    | S fuel' =>
        ip <- choice r pos l ;;
        pick_cellB fuel' r (snd ip) l cellA (fst ip)
    end
  else Returned (cellB, pos).

Fixpoint set_nth (l : list cell_placement) (i : nat) (c : cell_placement) : list cell_placement :=
  match l, i with
  | [], _ => []
  | _ :: t, O => c :: t
  | h :: t, S i' => h :: set_nth t i' c
  end.

Definition default_cell : cell_placement :=
  mk_cell_placement String.EmptyString (0, 0, 0) 0 [].

(** [cellA["placement"], cellB["placement"] = cellB["placement"], cellA["placement"]] *)
Definition interchange (l : list cell_placement) (cellA cellB : nat) : list cell_placement :=
  let ca := nth cellA l default_cell in
  let cb := nth cellB l default_cell in
  let pa := placement ca in
  let pb := placement cb in
  let l1 := set_nth l cellA (set_placement ca pb) in
  set_nth l1 cellB (set_placement (nth cellB l1 default_cell) pa).

Definition generate (fuel : nat) (r : rng) (old_placements : list cell_placement)
    (method : String.string) (displace_interchange_ratio : Z)
    : outcome (list cell_placement) :=
  let new_placements := old_placements in
  ap <- choice r 0 new_placements ;;
  let '(cellA, pos) := ap in
  threshold <- (if displace_interchange_ratio =? 0 then Raised ZeroDivisionError
                else Returned (1 / inject_Z displace_interchange_ratio)%Q) ;;
  let draw := r pos in
  if Qlt_le_dec threshold draw then
    bp <- pick_cellB fuel r (S pos) new_placements cellA cellA ;;
    Returned (interchange new_placements cellA (fst bp))
  else (* displace or reorient *)
    if String.eqb method "displace" then Returned new_placements
    else if String.eqb method "interchange" then Returned new_placements
    else Raised ValueError.


(** Sample inputs. *)

Definition two_cells : list cell_placement :=
  [ mk_cell_placement "AND" (0, 0, 0) 0 [("A", "n1"); ("Y", "n2")];
    mk_cell_placement "AND" (0, 0, 4) 0 [("A", "n2"); ("Y", "n3")] ].

(** A source whose second draw, 1/10, takes the displace/reorient branch. *)
Definition draws_displace : rng :=
  fun k => match k with 1%nat => (1 # 10)%Q | _ => 0%Q end.

(** A source whose second draw, 1/2, takes the interchange branch; the
    draws for cell B are 0, then 3/4. *)
Definition draws_interchange : rng :=
  fun k => match k with
           | 0%nat => 0%Q
           | 1%nat => (1 # 2)%Q
           | 2%nat => 0%Q
           | _ => (3 # 4)%Q
           end.



(** The index that takes the place of [k] when [i] and [j] are exchanged. *)
Definition transposed (i j k : nat) : nat :=
  if Nat.eqb k i then j else if Nat.eqb k j then i else k.

(** What [generate] returns for [two_cells] in the interchange branch. *)
Definition two_cells_generated : list cell_placement :=
  match generate 5 draws_interchange two_cells "displace" 5 with
  | Returned l => l
  | _ => []
  end.

End Placer.

(** ** Rip-up loop: [Router.normalize_net_scores]

    Scores are Python floats; they are modelled as exact rationals, with
    Python's [ZeroDivisionError] for a zero divisor. *)

Module Normalize.

(** A [net_scores] dict, as the list of its items. *)
Definition net_scores : Type := list (string * list Q).

(** [sum(net_scores.itervalues(), [])] *)
Definition flat (ns : net_scores) : list Q := concat (map snd ns).

(** Python's [min] and [max]: the first smallest (largest) item;
    [ValueError] on an empty sequence. *)
Definition py_min (l : list Q) : outcome Q :=
  match l with
  | [] => Raised ValueError
  | x :: t => Returned (fold_left (fun m y => if Qlt_le_dec y m then y else m) t x)
  end.

Definition py_max (l : list Q) : outcome Q :=
  match l with
  | [] => Raised ValueError
  | x :: t => Returned (fold_left (fun m y => if Qlt_le_dec m y then y else m) t x)
  end.

(** Python's own division, of a float by a float, without rounding; the
    division of float64 values of either kind is [NormalizeFloat.fdiv]. *)
Definition py_div (n d : Q) : outcome Q :=
  if Qeq_bool d 0 then Raised ZeroDivisionError else Returned (n / d)%Q.

Definition normalize_net_scores (ns : net_scores) (norm_margin : Q) : outcome net_scores :=
  let scores := flat ns in
  min_score <- py_min scores ;;
  max_score <- py_max scores ;;
  let norm_range := (1 - 2 * norm_margin)%Q in
  scale <- py_div norm_range (max_score - min_score)%Q ;;
  Returned (map (fun item =>
                   (fst item, map (fun score => (norm_margin + score * scale)%Q) (snd item)))
                ns).

Definition norm_margin_default : Q := 1 # 10.

(** Sample input: one net with two segments, each as long as its lower
    bound, the first without violations and the second with one:
    3 * 0 - 0.2 + 1 = 0.8 and 3 * 1 - 0.2 + 1 = 3.8. *)
Definition sample_scores : net_scores := [("n1", [4 # 5; 19 # 5]%Q)].

(** Sample input whose smallest score is 0, and what it is normalised to. *)
Definition zero_scores : net_scores := [("n1", [0; 3]%Q); ("n2", [3 # 2]%Q)].

Definition zero_scores_normalized : net_scores :=
  match normalize_net_scores zero_scores norm_margin_default with
  | Returned r => r
  | _ => []
  end.

End Normalize.

(** ** Rip-up loop: [Router.natural_selection] *)

Module Selection.
Import Placer Normalize.

(** [for i, norm_score in enumerate(norm_scores)], from index [i] on;
    [pos] counts the draws made. *)
Fixpoint select_segments (r : rng) (pos : nat) (net_name : string) (i : nat)
    (norm_scores : list Q) (rip_up : list (string * nat)) : list (string * nat) * nat :=
  match norm_scores with
  | [] => (rip_up, pos)
  | norm_score :: t =>
      let x := r pos in
      let rip_up :=
        if Qlt_le_dec x norm_score then rip_up ++ [(net_name, i)] else rip_up in
      select_segments r (S pos) net_name (S i) t rip_up
  end.

(** [for net_name, norm_scores in net_scores.iteritems()] *)
Fixpoint select_nets (r : rng) (pos : nat) (ns : net_scores)
    (rip_up : list (string * nat)) : list (string * nat) :=
  match ns with
  | [] => rip_up
  | (net_name, norm_scores) :: t =>
      let '(rip_up, pos) := select_segments r pos net_name 0 norm_scores rip_up in
      select_nets r pos t rip_up
  end.

Definition natural_selection (r : rng) (ns : net_scores) : list (string * nat) :=
  select_nets r 0 ns [].

End Selection.

(** ** numpy grids

    A three-dimensional array is its shape and its contents.  An index [i]
    along an axis of extent [n] is valid when [-n <= i < n]; a negative
    index counts from the end of the axis. *)

Module Grid.

Record grid (A : Type) : Type := mk_grid {
  shape : coord;
  cells : coord -> A
}.

Arguments mk_grid {A} shape cells.
Arguments shape {A} g.
Arguments cells {A} g c.

Definition np_index (n i : Z) : option Z :=
  if (0 <=? i) && (i <? n) then Some i
  else if (- n <=? i) && (i <? 0) then Some (i + n)
  else None.

Definition np_norm (dims c : coord) : option coord :=
  let '(h, d, w) := dims in
  let '(y, z, x) := c in
  match np_index h y, np_index d z, np_index w x with
  | Some y', Some z', Some x' => Some (y', z', x')
  | _, _, _ => None
  end.

(** [np.zeros(dimensions)], with [zero] the zero of the dtype. *)
Definition np_zeros {A : Type} (zero : A) (dims : coord) : outcome (grid A) :=
  let '(h, d, w) := dims in
  if (h <? 0) || (d <? 0) || (w <? 0) then Raised ValueError
  else Returned (mk_grid dims (fun _ => zero)).

(** [g[c]] *)
Definition np_get {A : Type} (g : grid A) (c : coord) : outcome A :=
  match np_norm (shape g) c with
  | Some c' => Returned (cells g c')
  | None => Raised IndexError
  end.

(** [g[c] = v] *)
Definition np_set {A : Type} (g : grid A) (c : coord) (v : A) : outcome (grid A) :=
  match np_norm (shape g) c with
  | Some c' => Returned (mk_grid (shape g) (fun q => if coord_eqb q c' then v else cells g q))
  | None => Raised IndexError
  end.

(** [try: g[c] = v / except IndexError: pass] *)
Definition np_set_try {A : Type} (g : grid A) (c : coord) (v : A) : grid A :=
  match np_set g c v with
  | Returned g' => g'
  | _ => g
  end.

(** Indexing at a position already known to be valid: no exception. *)
Definition at_ {A : Type} (g : grid A) (c : coord) : A :=
  match np_norm (shape g) c with
  | Some c' => cells g c'
  | None => cells g c
  end.

Definition put {A : Type} (g : grid A) (c : coord) (v : A) : grid A :=
  np_set_try g c v.

(** The proper voxels of a grid of shape [dims]. *)
Definition in_bounds (c dims : coord) : bool :=
  let '(y, z, x) := c in
  let '(height, width, length) := dims in
  (0 <=? y) && (y <? height) && (0 <=? z) && (z <? width) && (0 <=? x) && (x <? length).

End Grid.

(** ** Violation model: [Router.net_to_wire_and_violation] *)

Module Violation.
Import Grid.

Definition violation_directions : list (Z * Z) := [(1, 0); (-1, 0); (0, 1); (0, -1)].

(** The eight voxels around [(y, z, x)] visited by the nested loops
    [for vy in [0, -1]: for vz, vx in violation_directions]. *)
Definition neighbours (c : coord) : list coord :=
  let '(y, z, x) := c in
  flat_map (fun vy => map (fun d => (y + vy, z + fst d, x + snd d)) violation_directions)
           [0; -1].

Section BlockIds.

(** [block_names.index("redstone_wire")] and [block_names.index("stone")],
    the two block ids that [util.blocks] supplies. *)
Variables redstone stone : Z.

(** One round of the first loop. *)
Definition stamp (pins : list coord) (wv : grid Z * grid bool) (c : coord)
    : outcome (grid Z * grid bool) :=
  let '(wire, violation) := wv in
  let '(y, z, x) := c in
  (* Generate the wire itself *)
  wire <- np_set wire (y, z, x) redstone ;;
  wire <- np_set wire (y - 1, z, x) stone ;;
  (* Generate the violation matrix, unless it's a pin *)
  let violation :=
    if negb (mem c pins)
    then fold_left (fun v n => np_set_try v n true) (neighbours c) violation
    else violation in
  Returned (wire, violation).

(** One round of the second loop. *)
Definition unstamp (violation : grid bool) (c : coord) : outcome (grid bool) :=
  let '(y, z, x) := c in
  violation <- np_set violation (y, z, x) false ;;
  np_set violation (y - 1, z, x) false.

Fixpoint foldM {S X : Type} (f : S -> X -> outcome S) (l : list X) (s : S) : outcome S :=
  match l with
  | [] => Returned s
  | x :: t => s' <- f s x ;; foldM f t s'
  end.

(** [net] is a list of voxels, or [None] (what [maze_route] returns when it
    finds no path); iterating [None] raises [TypeError]. *)
Definition net_to_wire_and_violation (net : option (list coord)) (dimensions : coord)
    (pins : list coord) : outcome (grid Z * grid bool) :=
  wire <- np_zeros 0 dimensions ;;
  violation <- np_zeros false dimensions ;;
  match net with
  | None => Raised TypeError
  | Some net =>
      wv <- foldM (stamp pins) net (wire, violation) ;;
      (* Remove "wire" from the violation matrix *)
      violation <- foldM unstamp net (snd wv) ;;
      Returned (fst wv, violation)
  end.

End BlockIds.

End Violation.

(** ** Routings and their persistence:
    [Router.serialize_routing], [Router.deserialize_routing] *)

Module Routing.
Import Grid Violation.

(** [{"pins": [a, b], "net": path, "wire": w, "violation": v}]; the path is
    a list of voxels or [None]. *)
Record segment : Type := mk_segment {
  pins : coord * coord;
  net : option (list coord);
  wire : grid Z;
  violation : grid bool
}.

(** [{"pins": [...], "segments": [...]}] *)
Record net_routing : Type := mk_net_routing {
  net_pins : list coord;
  segments : list segment
}.

(** The routing dict, as the list of its items. *)
Definition routing : Type := list (string * net_routing).

(** JSON values: what [json.dump] writes on a line and [json.loads] reads
    back.  Tuples and lists are both written as arrays, and an array is read
    back as a list ([Stored.dump], [Stored.loads]). *)
Inductive json : Type :=
  | JNull
  | JNum (n : Z)
  | JStr (s : string)
  | JArr (l : list json)
  | JObj (items : list (string * json)).

Definition coord_json (c : coord) : json :=
  let '(y, z, x) := c in JArr [JNum y; JNum z; JNum x].

Definition path_json (p : option (list coord)) : json :=
  match p with
  | None => JNull
  | Some l => JArr (map coord_json l)
  end.

(** A segment after [del segment["violation"]] and [del segment["wire"]]. *)
Definition segment_json (s : segment) : json :=
  JObj [("pins", JArr [coord_json (fst (pins s)); coord_json (snd (pins s))]);
        ("net", path_json (net s))].

Definition net_routing_json (e : net_routing) : json :=
  JObj [("pins", JArr (map coord_json (net_pins e)));
        ("segments", JArr (map segment_json (segments e)))].

(** The two lines written to [f]. *)
Definition serialize_routing (original_routing : routing) (shape : coord) : json * json :=
  (JObj (map (fun item => (fst item, net_routing_json (snd item))) original_routing),
   coord_json shape).

(** [d[key]] *)
Fixpoint lookup (key : string) (items : list (string * json)) : outcome json :=
  match items with
  | [] => Raised KeyError
  | (k, v) :: t => if String.eqb k key then Returned v else lookup key t
  end.

Definition get (key : string) (j : json) : outcome json :=
  match j with
  | JObj items => lookup key items
  | _ => Raised TypeError
  end.

(** [y, z, x = coord] on a coordinate read back: its three numbers.  The
    value read back is a list where a tuple was written; unpacking it, and
    [coord not in pins] among values that are all lists, go as for tuples, so
    the violation model is run on the numbers. *)
Definition as_coord (j : json) : outcome coord :=
  match j with
  | JArr [JNum y; JNum z; JNum x] => Returned (y, z, x)
  | JArr _ => Raised ValueError
  | _ => Raised TypeError
  end.

Definition as_coords (j : json) : outcome (list coord) :=
  match j with
  | JArr l => mapM as_coord l
  | _ => Raised TypeError
  end.

Definition as_path (j : json) : outcome (option (list coord)) :=
  match j with
  | JNull => Returned None
  | _ => l <- as_coords j ;; Returned (Some l)
  end.

Section BlockIds.

Variables redstone stone : Z.

(** The body of the inner loop of [deserialize_routing]. *)
Definition deserialize_segment (shape : json) (seg : json) : outcome segment :=
  ps <- get "pins" seg ;;
  match ps with
  | JArr [a; b] =>
      n <- get "net" seg ;;
      a <- as_coord a ;;
      b <- as_coord b ;;
      n <- as_path n ;;
      shape <- as_coord shape ;;
      wv <- net_to_wire_and_violation redstone stone n shape [a; b] ;;
      Returned (mk_segment (a, b) n (fst wv) (snd wv))
  | JArr _ => Raised ValueError
  | _ => Raised TypeError
  end.

Definition deserialize_net (shape : json) (item : string * json)
    : outcome (string * net_routing) :=
  let '(net_name, net) := item in
  segs <- get "segments" net ;;
  match segs with
  | JArr segs =>
      segs <- mapM (deserialize_segment shape) segs ;;
      ps <- get "pins" net ;;
      ps <- as_coords ps ;;
      Returned (net_name, mk_net_routing ps segs)
  | _ => Raised TypeError
  end.

(** [f] holds the two lines read back. *)
Definition deserialize_routing (f : json * json) : outcome routing :=
  let '(routing, shape) := f in
  match routing with
  | JObj items => mapM (deserialize_net shape) items
  | _ => Raised TypeError
  end.

(** The numbers and the matrices of a segment read back, against the
    segment written. *)
Definition segment_restored (shape : coord) (s s' : segment) : Prop :=
  pins s' = pins s /\ net s' = net s /\
  net_to_wire_and_violation redstone stone (net s) shape [fst (pins s); snd (pins s)]
    = Returned (wire s', violation s').

Definition net_restored (shape : coord) (item item' : string * net_routing) : Prop :=
  fst item' = fst item /\ net_pins (snd item') = net_pins (snd item) /\
  Forall2 (segment_restored shape) (segments (snd item)) (segments (snd item')).

End BlockIds.

(** Sample input: two nets, three segments, on a 3x4x5 layout. *)
Definition empty_wire : grid Z := mk_grid (3, 4, 5) (fun _ => 0).
Definition empty_violation : grid bool := mk_grid (3, 4, 5) (fun _ => false).

Definition sample_routing : routing :=
  [ ("n1", mk_net_routing [(1, 0, 0); (1, 0, 2); (1, 2, 2)]
       [ mk_segment ((1, 0, 0), (1, 0, 2)) (Some [(1, 0, 0); (1, 0, 1); (1, 0, 2)])
           empty_wire empty_violation;
         mk_segment ((1, 0, 2), (1, 2, 2)) (Some [(1, 0, 2); (1, 1, 2); (1, 2, 2)])
           empty_wire empty_violation ]);
    ("n2", mk_net_routing [(1, 3, 0); (1, 3, 1)]
       [ mk_segment ((1, 3, 0), (1, 3, 1)) (Some [(1, 3, 0); (1, 3, 1)])
           empty_wire empty_violation ]) ].

End Routing.

(** ** Maze router: [Router.maze_route] *)

Module Maze.
Import Grid.

(* Possible list of movements *)
Definition EAST : Z := 1.
Definition MOVE_EAST : coord := (0, 0, 1).
Definition NORTH : Z := 2.
Definition MOVE_NORTH : coord := (0, 1, 0).
Definition WEST : Z := 3.
Definition MOVE_WEST : coord := (0, 0, -1).
Definition SOUTH : Z := 4.
Definition MOVE_SOUTH : coord := (0, -1, 0).
Definition UP : Z := 5.
Definition MOVE_UP : coord := (3, 0, 0).
Definition DOWN : Z := 6.
Definition MOVE_DOWN : coord := (-3, 0, 0).

(* Backtrace is the way you go from the start. *)
Definition movements : list coord :=
  [MOVE_EAST; MOVE_NORTH; MOVE_WEST; MOVE_SOUTH; MOVE_UP; MOVE_DOWN].
Definition backtraces : list Z := [WEST; SOUTH; EAST; NORTH; DOWN; UP].
Definition costs : list Z := [1; 1; 1; 1; 3; 3].
Definition backtrace_movements : list coord :=
  [MOVE_WEST; MOVE_SOUTH; MOVE_EAST; MOVE_NORTH; MOVE_DOWN; MOVE_UP].

Definition violation_cost : Z := 1000.

(** [zip(movements, backtraces, costs)] *)
Definition candidate_moves : list (coord * Z * Z) :=
  map (fun mbc => (fst (fst mbc), snd (fst mbc), snd mbc))
      (combine (combine movements backtraces) costs).

Definition add (c m : coord) : coord :=
  let '(y, z, x) := c in
  let '(dy, dz, dx) := m in
  (y + dy, z + dz, x + dx).

(** The ordering of the heap entries [(cost, location)]: Python compares
    tuples item by item. *)
Definition coord_ltb (p q : coord) : bool :=
  let '(py, pz, px) := p in
  let '(qy, qz, qx) := q in
  (py <? qy) || ((py =? qy) && ((pz <? qz) || ((pz =? qz) && (px <? qx)))).

Definition entry : Type := (Z * coord)%type.

Definition entry_ltb (e f : entry) : bool :=
  (fst e <? fst f) || ((fst e =? fst f) && coord_ltb (snd e) (snd f)).

Definition entry_eqb (e f : entry) : bool :=
  (fst e =? fst f) && coord_eqb (snd e) (snd f).

(** The heap, as the list of its entries. *)
Fixpoint heap_min (e : entry) (h : list entry) : entry :=
  match h with
  | [] => e
  | x :: t => heap_min (if entry_ltb x e then x else e) t
  end.

Fixpoint heap_remove (e : entry) (h : list entry) : list entry :=
  match h with
  | [] => []
  | x :: t => if entry_eqb x e then t else x :: heap_remove e t
  end.

(** [heapq.heappop]: the smallest entry, and the heap without it. *)
Definition heappop (h : list entry) : option (entry * list entry) :=
  match h with
  | [] => None
  | x :: t => let m := heap_min x t in Some (m, heap_remove m h)
  end.

Definition heappush (h : list entry) (e : entry) : list entry := e :: h.

Record state : Type := mk_state {
  cost_matrix : grid Z;
  backtrace_matrix : grid Z;
  visited : list coord;
  min_dist_heap : list entry
}.

Section Route.

Variables a b : coord.
Variable placed_layout : grid Z.
(** The usage matrix has the shape of the layout it is made from. *)
Variable usage_matrix : grid bool.

Definition violating (c : coord) : bool :=
  if mem c [a; b] then false
  else
    existsb (fun new_coord =>
               if negb (in_bounds new_coord (shape placed_layout)) then false
               else if mem new_coord [a; b] then false
               else at_ usage_matrix new_coord)
            (Violation.neighbours c).

(** One candidate movement from [location]. *)
Definition relax (location : coord) (st : state) (mbc : coord * Z * Z) : state :=
  let '(movement, backtrace, movement_cost) := mbc in
  let new_location := add location movement in
  if negb (in_bounds new_location (shape placed_layout)) then st
  else if mem new_location (visited st) then st
  else
    let new_location_cost :=
      if violating new_location
      then at_ (cost_matrix st) location + violation_cost
      else at_ (cost_matrix st) location + movement_cost in
    let improved :=
      (at_ (cost_matrix st) new_location =? -1)
      || (new_location_cost <? at_ (cost_matrix st) new_location) in
    let cost_matrix' :=
      if improved then put (cost_matrix st) new_location new_location_cost
      else cost_matrix st in
    let backtrace_matrix' :=
      if improved then put (backtrace_matrix st) new_location backtrace
      else backtrace_matrix st in
    let heap' :=
      if negb (mem new_location (map snd (min_dist_heap st)))
      then heappush (min_dist_heap st) (new_location_cost, new_location)
      else min_dist_heap st in
    mk_state cost_matrix' backtrace_matrix' (visited st) heap'.

(** [visited.add(location)] *)
Definition set_add (c : coord) (s : list coord) : list coord :=
  if mem c s then s else c :: s.

(** One round of the [while] loop, for a popped [location]. *)
Definition visit (location : coord) (heap : list entry) (st : state) : state :=
  fold_left (relax location) candidate_moves
    (mk_state (cost_matrix st) (backtrace_matrix st)
              (set_add location (visited st)) heap).

(** [while len(min_dist_heap) > 0: ...] *)
Fixpoint search (fuel : nat) (st : state) : outcome state :=
  match heappop (min_dist_heap st) with
  | None => Returned st
  | Some ((_, location), heap) =>
      match fuel with
      | O => OutOfFuel
      | S fuel' => search fuel' (visit location heap st)
      end
  end.

(** [backtraces.index(v)] *)
Fixpoint index_of (v : Z) (l : list Z) : outcome nat :=
  match l with
  | [] => Raised ValueError
  | x :: t => if x =? v then Returned O else i <- index_of v t ;; Returned (S i)
  end.

(** [net = [b]; while net[-1] != a: net.append(back_location)], from the
    voxel [cur] on. *)
Fixpoint backtrace_from (fuel : nat) (backtrace_matrix : grid Z) (cur : coord)
    : outcome (list coord) :=
  if coord_eqb cur a then Returned [cur]
  else
    match fuel with
    | O => OutOfFuel
    | S fuel' =>
        code <- np_get backtrace_matrix cur ;;
        i <- index_of code backtraces ;;
        let movement := nth i backtrace_movements (0, 0, 0) in
        let back_location := add cur movement in
        rest <- backtrace_from fuel' backtrace_matrix back_location ;;
        Returned (cur :: rest)
    end.

Definition initial_state : outcome state :=
  let cost_matrix := mk_grid (shape placed_layout) (fun _ => -1) in
  let backtrace_matrix := mk_grid (shape placed_layout) (fun _ => 0) in
  cost_matrix <- np_set cost_matrix a 0 ;;
  Returned (mk_state cost_matrix backtrace_matrix [] (heappush [] (0, a))).

(** The state when the [while] loop is left. *)
Definition maze_search (fuel : nat) : outcome state :=
  st <- initial_state ;;
  search fuel st.

Definition maze_route (fuel : nat) : outcome (option (list coord)) :=
  st <- maze_search fuel ;;
  (* Backtrace, if a path found *)
  if mem b (visited st) then
    net <- backtrace_from fuel (backtrace_matrix st) b ;;
    Returned (Some net)
  else Returned None.

(** The cost the search charges for the step from [p] to [q]. *)
Definition step_cost (p q : coord) : option Z :=
  match find (fun mbc => coord_eqb (add p (fst (fst mbc))) q) candidate_moves with
  | Some (_, _, movement_cost) =>
      Some (if violating q then violation_cost else movement_cost)
  | None => None
  end.

(** The accumulated cost of a returned net, which runs from [b] back to
    [a]: the sum of the costs of its steps, taken from [a] to [b]. *)
Fixpoint net_cost (net : list coord) : option Z :=
  match net with
  | [] => None
  | [_] => Some 0
  | q :: ((p :: _) as rest) =>
      match step_cost p q, net_cost rest with
      | Some c, Some r => Some (c + r)
      | _, _ => None
      end
  end.

End Route.

(** [b] can be reached from [a] by the six movements without leaving the
    layout. *)
Inductive reachable (dims a : coord) : coord -> Prop :=
  | reachable_start : in_bounds a dims = true -> reachable dims a a
  | reachable_step (c m : coord) :
      reachable dims a c -> In m movements -> in_bounds (add c m) dims = true ->
      reachable dims a (add c m).

(** |dz| + |dx| + 3 * ceil(|dy| / 3) *)
Definition lower_bound (a b : coord) : Z :=
  let '(ay, az, ax) := a in
  let '(by_, bz, bx) := b in
  Z.abs (bz - az) + Z.abs (bx - ax) + 3 * ((Z.abs (by_ - ay) + 2) / 3).

(** Sample input: an empty 4x3x3 layout. *)
Definition empty_layout : grid Z := mk_grid (4, 3, 3) (fun _ => 0).
Definition empty_usage : grid bool := mk_grid (4, 3, 3) (fun _ => false).

End Maze.

(** ** The voxels the maze search can reach, and their distance from the start *)

Module MazeInv.
Import Grid Maze.

(** Manhattan distance from [a]. *)
Definition dist (a c : coord) : Z :=
  let '(ay, az, ax) := a in
  let '(y, z, x) := c in
  Z.abs (y - ay) + Z.abs (z - az) + Z.abs (x - ax).

(** The voxels of the layout whose layer differs from that of [a] by a
    multiple of three. *)
Definition aligned (dims a c : coord) : Prop :=
  in_bounds c dims = true /\ (fst (fst c) - fst (fst a)) mod 3 = 0.

Definition discovered (st : state) (c : coord) : Prop :=
  In c (visited st) \/ In c (map snd (min_dist_heap st)).

(** What a candidate movement does to an aligned voxel. *)
Record move_spec (dims a u : coord) (mbc : coord * Z * Z) (i : nat) : Prop := {
  ms_nth : nth_error candidate_moves i = Some mbc;
  ms_index : index_of (snd (fst mbc)) backtraces = Returned i;
  ms_move : nth i movements (0, 0, 0) = fst (fst mbc);
  ms_cost : nth i costs 0 = snd mbc;
  ms_pos : 0 < snd mbc;
  ms_back : add (add u (fst (fst mbc))) (nth i backtrace_movements (0, 0, 0)) = u;
  ms_aligned : in_bounds (add u (fst (fst mbc))) dims = true ->
               aligned dims a (add u (fst (fst mbc)));
  ms_dist : dist a (add u (fst (fst mbc))) = dist a u + snd mbc
            \/ dist a (add u (fst (fst mbc))) = dist a u - snd mbc
}.

(** The state before the first round, when [a] is a voxel of the layout. *)
Definition start_state (dims a : coord) : state :=
  mk_state (put (mk_grid dims (fun _ => -1)) a 0) (mk_grid dims (fun _ => 0)) [] [(0, a)].

(** All voxels of a layout. *)
Definition all_voxels (dims : coord) : list coord :=
  let '(h, d, w) := dims in
  flat_map (fun y => flat_map (fun z => map (fun x => (y, z, x)) (xrange 0 w)) (xrange 0 d))
           (xrange 0 h).

End MazeInv.

(** ** Rip-up loop: the re-routing of the selected segments in
    [Router.re_route] *)

Module Reroute.
Import Grid Violation Routing Maze.

(** [routing[net_name]] *)
Fixpoint get_net (R : routing) (net_name : string) : outcome net_routing :=
  match R with
  | [] => Raised KeyError
  | (k, e) :: t => if String.eqb k net_name then Returned e else get_net t net_name
  end.

(** [segments[i]] *)
Definition get_segment (e : net_routing) (i : nat) : outcome segment :=
  match nth_error (segments e) i with
  | Some s => Returned s
  | None => Raised IndexError
  end.

Fixpoint replace_nth {X : Type} (l : list X) (i : nat) (x : X) : list X :=
  match l, i with
  | [], _ => []
  | _ :: t, O => x :: t
  | h :: t, S i' => h :: replace_nth t i' x
  end.

(** [routing[net_name]["segments"][i] = s], on the dicts held by [R]. *)
Fixpoint set_segment (R : routing) (net_name : string) (i : nat) (s : segment) : routing :=
  match R with
  | [] => []
  | (k, e) :: t =>
      if String.eqb k net_name
      then (k, mk_net_routing (net_pins e) (replace_nth (segments e) i s)) :: t
      else (k, e) :: set_segment t net_name i s
  end.

(** [np.logical_or(usage_matrix, w)] *)
Definition logical_or (usage_matrix : grid bool) (w : grid Z) : grid bool :=
  mk_grid (shape usage_matrix) (fun c => cells usage_matrix c || negb (cells w c =? 0)).

Section BlockIds.

Variables redstone stone : Z.

(** The first two statements of the loop body: the segment's path is
    replaced by what the maze router returns. *)
Definition assign_net (fuel : nat) (placed_layout : grid Z)
    (st : routing * grid bool) (sel : string * nat) : outcome (routing * coord * coord) :=
  let '(routing, usage_matrix) := st in
  let '(net_name, i) := sel in
  e <- get_net routing net_name ;;
  s <- get_segment e i ;;
  let '(a, b) := pins s in
  new_net <- maze_route a b placed_layout usage_matrix fuel ;;
  Returned (set_segment routing net_name i
              (mk_segment (pins s) new_net (wire s) (violation s)), a, b).

(** The body of [for net_name, i in sorted(rip_up, ...)]. *)
Definition reroute_segment (fuel : nat) (placed_layout : grid Z)
    (st : routing * grid bool) (sel : string * nat) : outcome (routing * grid bool) :=
  let '(net_name, i) := sel in
  rab <- assign_net fuel placed_layout st sel ;;
  let '(routing, a, b) := rab in
  e <- get_net routing net_name ;;
  s <- get_segment e i ;;
  wv <- net_to_wire_and_violation redstone stone (net s) (shape placed_layout) [a; b] ;;
  let routing :=
    set_segment routing net_name i (mk_segment (pins s) (net s) (fst wv) (snd wv)) in
  (* Re-add this net to the usage matrix *)
  Returned (routing, logical_or (snd st) (fst wv)).

(** The whole [for] loop over the selected segments, already sorted. *)
Definition reroute_selected (fuel : nat) (placed_layout : grid Z)
    (R : routing) (usage_matrix : grid bool) (rip_up : list (string * nat))
    : outcome (routing * grid bool) :=
  foldM (reroute_segment fuel placed_layout) rip_up (R, usage_matrix).

End BlockIds.

(** Sample input: a 2x1x3 layout; the first net joins two layers one
    apart, which no sequence of movements does. *)
Definition layers_layout : grid Z := mk_grid (2, 1, 3) (fun _ => 0).
Definition layers_usage : grid bool := mk_grid (2, 1, 3) (fun _ => false).
Definition layers_wire : grid Z := mk_grid (2, 1, 3) (fun _ => 0).
Definition layers_violation : grid bool := mk_grid (2, 1, 3) (fun _ => false).

Definition layers_routing : routing :=
  [ ("n1", mk_net_routing [(0, 0, 0); (1, 0, 0)]
       [ mk_segment ((0, 0, 0), (1, 0, 0)) (Some [(0, 0, 0); (0, 0, 0)])
           layers_wire layers_violation ]);
    ("n2", mk_net_routing [(1, 0, 0); (1, 0, 2)]
       [ mk_segment ((1, 0, 0), (1, 0, 2)) (Some [(1, 0, 0); (1, 0, 1); (1, 0, 2); (1, 0, 2)])
           layers_wire layers_violation ]) ].

End Reroute.

(** ** Net segmenter: [Router.create_net_segments] *)

Module Segmenter.

Definition edge : Type := (coord * coord)%type.

(** [scipy.spatial.distance.cityblock] on two coordinates. *)
Definition cityblock (p q : coord) : Z :=
  let '(py, pz, px) := p in
  let '(qy, qz, qx) := q in
  Z.abs (py - qy) + Z.abs (pz - qz) + Z.abs (px - qx).

(** [weights[(pin, pin2)]] *)
Definition weight (e : edge) : Z := cityblock (fst e) (snd e).

Definition edge_eqb (e f : edge) : bool :=
  coord_eqb (fst e) (fst f) && coord_eqb (snd e) (snd f).

(** A Python list index: a negative index counts from the end. *)
Definition py_pos (len : nat) (i : Z) : nat :=
  Z.to_nat (if i <? 0 then Z.of_nat len + i else i).

(** [find_set(u)]: the position of the first set holding [u], or -1. *)
Fixpoint find_set_from (sets : list (list coord)) (u : coord) (i : Z) : Z :=
  match sets with
  | [] => -1
  | s :: t => if mem u s then i else find_set_from t u (i + 1)
  end.

Definition find_set (sets : list (list coord)) (u : coord) : Z :=
  find_set_from sets u 0.

(** [s |= s'] on sets kept as duplicate-free lists. *)
Definition set_union (s s' : list coord) : list coord :=
  s ++ filter (fun x => negb (mem x s)) s'.

Fixpoint replace_at {X : Type} (l : list X) (i : nat) (x : X) : list X :=
  match l, i with
  | [], _ => []
  | _ :: t, O => x :: t
  | h :: t, S i' => h :: replace_at t i' x
  end.

(** [l.pop(i)] *)
Fixpoint pop_at {X : Type} (l : list X) (i : nat) : list X :=
  match l, i with
  | [], _ => []
  | _ :: t, O => t
  | h :: t, S i' => h :: pop_at t i'
  end.

(** [A.add(e)] *)
Definition edge_add (e : edge) (A : list edge) : list edge :=
  if existsb (edge_eqb e) A then A else e :: A.

(** The body of [for u, v in sorted(weights, key=weights.get)]. *)
Definition kruskal_step (st : list (list coord) * list edge) (e : edge)
    : list (list coord) * list edge :=
  let '(sets, A) := st in
  let '(u, v) := e in
  let u_i := find_set sets u in
  let v_i := find_set sets v in
  if negb (u_i =? v_i) then
    (* Union the two sets *)
    let pv := py_pos (length sets) v_i in
    let pu := py_pos (length sets) u_i in
    let sets := replace_at sets pv (set_union (nth pv sets []) (nth pu sets [])) in
    let sets := pop_at sets (py_pos (length sets) u_i) in
    (sets, edge_add (u, v) A)
  else (sets, A).

(** [sorted(keys, key=weights.get)]: a stable sort by weight. *)
Fixpoint insert_by_weight (e : edge) (l : list edge) : list edge :=
  match l with
  | [] => [e]
  | f :: t => if weight e <=? weight f then e :: l else f :: insert_by_weight e t
  end.

Definition sorted_by_weight (keys : list edge) : list edge :=
  fold_right insert_by_weight [] keys.

(** [keys] is the order in which iterating the dict [weights] yields its
    keys; a Python 2 dict promises none. *)
Definition minimum_spanning_tree (keys : list edge) (net_pins : list coord) : list edge :=
  (* Create sets for each of the pins *)
  let sets := map (fun pin => [pin]) net_pins in
  (* Create spanning tree! *)
  snd (fold_left kruskal_step (sorted_by_weight keys) (sets, [])).

(** What the keys of [weights] are, for a given pin list. *)
Definition weights_keys (net_pins : list coord) (keys : list edge) : Prop :=
  NoDup keys
  /\ forall u v, In (u, v) keys <-> In u net_pins /\ In v net_pins /\ u <> v.

(** The keys in the order the nested loops insert them. *)
Definition insertion_keys (net_pins : list coord) : list edge :=
  nodup (fun e f : edge =>
           match coord_eq_dec (fst e) (fst f), coord_eq_dec (snd e) (snd f) with
           | left E1, left E2 =>
               left (eq_trans (surjective_pairing e)
                       (eq_trans (f_equal2 pair E1 E2) (eq_sym (surjective_pairing f))))
           | right N, _ => right (fun E => N (f_equal fst E))
           | _, right N => right (fun E => N (f_equal snd E))
           end)
    (flat_map (fun pin =>
                 flat_map (fun pin2 => if coord_eqb pin pin2 then [] else [(pin, pin2)])
                          net_pins)
              net_pins).

(** [create_net_segments]: nets with fewer than two pins are left out.
    [keys_of] gives, for each pin list, the order of the dict keys. *)
Definition create_net_segments (keys_of : list coord -> list edge)
    (pin_locations : list (string * list coord)) : list (string * list edge) :=
  flat_map (fun item =>
              let '(net, pin_list) := item in
              if (length pin_list <? 2)%nat then []
              else [(net, minimum_spanning_tree (keys_of pin_list) pin_list)])
           pin_locations.

Definition total_weight (A : list edge) : Z := fold_right Z.add 0 (map weight A).

(** *** Kruskal's algorithm, from its textbook description

    The edges of the complete graph over the pins, each taken once, sorted
    by weight with ties in enumeration order; an edge is kept when its ends
    carry different component labels, and then the two components are given
    one label. *)

Fixpoint pairs (pins : list coord) : list edge :=
  match pins with
  | [] => []
  | p :: t => map (fun q => (p, q)) t ++ pairs t
  end.

Fixpoint position (pins : list coord) (p : coord) : Z :=
  match pins with
  | [] => 0
  | q :: t => if coord_eqb q p then 0 else 1 + position t p
  end.

Definition reference_step (st : (coord -> Z) * list edge) (e : edge)
    : (coord -> Z) * list edge :=
  let '(label, chosen) := st in
  let '(u, v) := e in
  if label u =? label v then st
  else ((fun x => if label x =? label u then label v else label x), e :: chosen).

Definition kruskal_reference (pins : list coord) : list edge :=
  snd (fold_left reference_step (sorted_by_weight (pairs pins)) (position pins, [])).

(** *** Graphs on edge lists *)

(** [conn E x y]: [x] and [y] are joined by edges of [E], taken in either
    direction. *)
Inductive conn (E : list edge) : coord -> coord -> Prop :=
  | conn_refl x : conn E x x
  | conn_edge x y : In (x, y) E -> conn E x y
  | conn_sym x y : conn E x y -> conn E y x
  | conn_trans x y z : conn E x y -> conn E y z -> conn E x z.

(** A forest, edge by edge: each edge joins two vertices that the edges
    before it leave apart. *)
Inductive acyclic : list edge -> Prop :=
  | acyclic_nil : acyclic []
  | acyclic_cons u v E : acyclic E -> ~ conn E u v -> acyclic ((u, v) :: E).

(** A spanning tree of the complete graph over [pins]. *)
Definition spanning_tree (pins : list coord) (T : list edge) : Prop :=
  acyclic T
  /\ (forall u v, In (u, v) T -> In u pins /\ In v pins)
  /\ (forall p q, In p pins -> In q pins -> conn T p q).

(** Sample input: the corners of a square of side 10. *)
Definition square_pins : list coord := [(0, 0, 0); (0, 0, 10); (0, 10, 0); (0, 10, 10)].

End Segmenter.

(** ** Partitions of the pins into connected components *)

Module SegmenterInv.
Import Segmenter.

Definition same_block (P : list (list coord)) (x y : coord) : Prop :=
  exists B, In B P /\ In x B /\ In y B.

(** [P] lists the connected components of the graph with vertices [V] and
    edges [E]. *)
Record partition_of (V : list coord) (E : list edge) (P : list (list coord)) : Prop := {
  part_nodup : NoDup (concat P);
  part_cover : forall x, In x (concat P) <-> In x V;
  part_sound : forall x y, same_block P x y -> conn E x y;
  part_complete : forall x y, In (x, y) E -> same_block P x y;
  part_nonempty : forall B, In B P -> B <> []
}.

(** The greedy choice: the edges of a list are taken in order, and one is
    kept exactly when the edges kept so far leave its ends apart. *)
Inductive greedy_run : list edge -> list edge -> list edge -> Prop :=
  | greedy_done A : greedy_run A [] A
  | greedy_skip A u v L A' :
      conn A u v -> greedy_run A L A' -> greedy_run A ((u, v) :: L) A'
  | greedy_take A u v L A' :
      ~ conn A u v -> greedy_run ((u, v) :: A) L A' -> greedy_run A ((u, v) :: L) A'.

Definition le_weight (e f : edge) : Prop := weight e <= weight f.

(** The sum of the weights, each capped at [k]. *)
Definition capped (k : Z) (E : list edge) : Z :=
  fold_right Z.add 0 (map (fun e => Z.min (weight e) k) E).

(** The edges of weight at most [t]. *)
Definition light (t : Z) (E : list edge) : list edge :=
  filter (fun e => weight e <=? t) E.

(** The edge list offers every pair of distinct vertices, in one direction
    at least, and nothing else. *)
Definition complete_on (V : list coord) (L : list edge) : Prop :=
  (forall u v, In (u, v) L -> In u V /\ In v V /\ u <> v)
  /\ (forall u v, In u V -> In v V -> u <> v -> In (u, v) L \/ In (v, u) L).

End SegmenterInv.

(** ** The wire and violation matrices in closed form *)

Module ViolationSpec.
Import Grid Violation.

(** The voxel under [c], where the supporting block goes. *)
Definition below (c : coord) : coord :=
  let '(y, z, x) := c in (y - 1, z, x).

(** [np.zeros] accepts a shape without negative entries. *)
Definition nonneg_dims (dims : coord) : bool :=
  let '(h, d, w) := dims in (0 <=? h) && (0 <=? d) && (0 <=? w).

(** The index [c] is accepted by an array of shape [dims]. *)
Definition indexable (dims c : coord) : bool :=
  match np_norm dims c with
  | Some _ => true
  | None => false
  end.

(** The index [c] stands for the voxel [q] of an array of shape [dims]. *)
Definition designates (dims c q : coord) : bool :=
  match np_norm dims c with
  | Some c' => coord_eqb q c'
  | None => false
  end.

(** Every voxel of the path, and the voxel under it, can be written. *)
Definition writable (dims : coord) (net : list coord) : bool :=
  forallb (fun c => indexable dims c && indexable dims (below c)) net.

(** The voxels written into [wire]: the path and the voxels under it. *)
Definition footprint (dims : coord) (net : list coord) (q : coord) : bool :=
  existsb (fun c => designates dims c q || designates dims (below c) q) net.

(** Its two parts. *)
Definition on_path (dims : coord) (net : list coord) (q : coord) : bool :=
  existsb (fun c => designates dims c q) net.

Definition under_path (dims : coord) (net : list coord) (q : coord) : bool :=
  existsb (fun c => designates dims (below c) q) net.

(** The voxels set in [violation] by the first loop: those around a voxel
    of the path that is no pin, on its layer and on the layer under it. *)
Definition marked (dims : coord) (pins net : list coord) (q : coord) : bool :=
  existsb (fun c => negb (mem c pins)
                    && existsb (fun n => designates dims n q) (neighbours c)) net.

(** Sample input: the initial route between two pins of layer 1 of a
    2x3x3 layout, with the block ids 55 and 1. *)
Definition sample_pins : list coord := [(1, 0, 0); (1, 0, 2)].
Definition sample_net : list coord := Dumb.dumb_route (1, 0, 0) (1, 0, 2).
Definition sample_matrices : grid Z * grid bool :=
  match net_to_wire_and_violation 55 1 (Some sample_net) (2, 3, 3) sample_pins with
  | Returned wv => wv
  | _ => (mk_grid (0, 0, 0) (fun _ => 0), mk_grid (0, 0, 0) (fun _ => false))
  end.

End ViolationSpec.

(** ** Usage and violation count:
    [Router.generate_usage_matrix], [Router.compute_net_violations] *)

Module Usage.
Import Grid Violation Routing MazeInv.

(** numpy broadcasts two shapes axis by axis: equal extents, or one of
    them 1. *)
Definition broadcast_axis (n m : Z) : option Z :=
  if n =? m then Some n
  else if n =? 1 then Some m
  else if m =? 1 then Some n
  else None.

Definition broadcast (s t : coord) : option coord :=
  let '(h, d, w) := s in
  let '(h', d', w') := t in
  match broadcast_axis h h', broadcast_axis d d', broadcast_axis w w' with
  | Some y, Some z, Some x => Some (y, z, x)
  | _, _, _ => None
  end.

(** The voxel of an operand of shape [s] that is used at the voxel [c] of
    the result: along an axis of extent 1 the single entry is repeated. *)
Definition stretch (s c : coord) : coord :=
  let '(h, d, w) := s in
  let '(y, z, x) := c in
  ((if h =? 1 then 0 else y), (if d =? 1 then 0 else z), (if w =? 1 then 0 else x)).

(** Truth value of an array entry. *)
Definition truth (v : Z) : bool := negb (v =? 0).

(** [np.logical_and(violation, occupieds)] *)
Definition np_logical_and (violation occupieds : grid bool) : outcome (grid bool) :=
  match broadcast (shape violation) (shape occupieds) with
  | Some s =>
      Returned (mk_grid s (fun c => cells violation (stretch (shape violation) c)
                                    && cells occupieds (stretch (shape occupieds) c)))
  | None => Raised ValueError
  end.

(** [np.logical_or(usage_matrix, segment["wire"])] *)
Definition np_logical_or (usage_matrix : grid bool) (w : grid Z) : outcome (grid bool) :=
  match broadcast (shape usage_matrix) (shape w) with
  | Some s =>
      Returned (mk_grid s (fun c => cells usage_matrix (stretch (shape usage_matrix) c)
                                    || truth (cells w (stretch (shape w) c))))
  | None => Raised ValueError
  end.

(** [sum(violations.flat)]: the number of entries that are set. *)
Definition count_true (g : grid bool) : Z :=
  Z.of_nat (length (filter (cells g) (all_voxels (shape g)))).

Definition compute_net_violations (violation occupieds : grid bool) : outcome Z :=
  violations <- np_logical_and violation occupieds ;;
  Returned (count_true violations).

(** [(net_name, i) in exclude] *)
Definition excluded (net_name : string) (i : nat) (exclude : list (string * nat)) : bool :=
  existsb (fun e => String.eqb (fst e) net_name && Nat.eqb (snd e) i) exclude.

(** [enumerate(l)] *)
Definition enumerate {X : Type} (l : list X) : list (nat * X) :=
  combine (seq 0 (length l)) l.

(** [np.copy(placed_layout)], as far as its entries are read as truth
    values. *)
Definition occupied (placed_layout : grid Z) : grid bool :=
  mk_grid (shape placed_layout) (fun c => truth (cells placed_layout c)).

Definition generate_usage_matrix (placed_layout : grid Z) (R : routing)
    (exclude : list (string * nat)) : outcome (grid bool) :=
  foldM (fun usage_matrix item =>
           let '(net_name, d) := item in
           foldM (fun usage_matrix iseg =>
                    let '(i, seg) := iseg in
                    if excluded net_name i exclude then Returned usage_matrix
                    else np_logical_or usage_matrix (wire seg))
                 (enumerate (segments d)) usage_matrix)
        R (occupied placed_layout).

(** Sample input: an empty 3x4x5 layout, for [Routing.sample_routing]. *)
Definition sample_layout : grid Z := mk_grid (3, 4, 5) (fun _ => 0).
Definition no_usage : grid bool := mk_grid (2, 3, 3) (fun _ => false).

End Usage.


(** ** The maze search on any layout *)

Module MazeGen.
Import Grid Maze MazeInv.

Section Route.

Variables a b : coord.
Variable placed_layout : grid Z.
Variable usage_matrix : grid bool.

(** What the search adds to the cost when it enters [v] by a movement of
    cost [movement_cost]. *)
Definition charge (v : coord) (movement_cost : Z) : Z :=
  if violating a b placed_layout usage_matrix v then violation_cost else movement_cost.

(** What holds of the state of the search whatever the usage matrix is.
    [closed u mbc] tells for which visited voxels and movements the
    neighbour is required to be discovered already. *)
Record Sound (closed : coord -> coord * Z * Z -> Prop) (st : state) : Prop := mk_Sound {
  g_shape_cost : shape (cost_matrix st) = shape placed_layout;
  g_shape_back : shape (backtrace_matrix st) = shape placed_layout;
  g_visited : forall v, In v (visited st) -> reachable (shape placed_layout) a v;
  g_heap : forall k v, In (k, v) (min_dist_heap st) ->
    reachable (shape placed_layout) a v /\ ~ In v (visited st);
  g_closed : forall u mbc, In u (visited st) -> In mbc candidate_moves ->
    closed u mbc -> in_bounds (add u (fst (fst mbc))) (shape placed_layout) = true ->
    discovered st (add u (fst (fst mbc)));
  g_start : In a (visited st)
            \/ (visited st = [] /\ exists k, min_dist_heap st = [(k, a)]);
  g_cost_start : at_ (cost_matrix st) a = 0;
  g_fresh : forall c, in_bounds c (shape placed_layout) = true -> ~ discovered st c ->
    at_ (cost_matrix st) c = -1;
  g_nodup_heap : NoDup (map snd (min_dist_heap st));
  g_nodup_visited : NoDup (visited st);
  g_cost : forall v, discovered st v -> 0 <= at_ (cost_matrix st) v;
  g_back : forall v, v <> a -> discovered st v ->
    exists i m bt w,
      index_of (at_ (backtrace_matrix st) v) backtraces = Returned i
      /\ In (m, bt, w) candidate_moves
      /\ In (add v (nth i backtrace_movements (0, 0, 0))) (visited st)
      /\ add (add v (nth i backtrace_movements (0, 0, 0))) m = v
      /\ at_ (cost_matrix st) v
         = at_ (cost_matrix st) (add v (nth i backtrace_movements (0, 0, 0))) + charge v w
}.

(** Between two rounds of the [while] loop. *)
Definition Between (st : state) : Prop := Sound (fun _ _ => True) st.

(** Inside the round of the popped voxel [u]; [done] lists the movements
    tried so far. *)
Definition During (u : coord) (done : list (coord * Z * Z)) (st : state) : Prop :=
  Sound (fun u' mbc => u' <> u \/ In mbc done) st
  /\ In u (visited st) /\ In a (visited st).

End Route.

(** Sample input: a 4x3x3 layout whose usage matrix is set in the middle
    of layer 0. *)
Definition busy_usage : grid bool := mk_grid (4, 3, 3) (fun c => coord_eqb c (0, 1, 1)).

Definition sample_route : list coord :=
  match maze_route (0, 0, 0) (3, 2, 2) empty_layout busy_usage 40 with
  | Returned (Some net) => net
  | _ => []
  end.

(** Sample input: a path through the inside of a 3x4x4 layout whose usage
    matrix is set in one corner, and the matrices of the path. *)
Definition inner_layout : grid Z := mk_grid (3, 4, 5) (fun _ => 0).
Definition corner_usage : grid bool := mk_grid (3, 4, 5) (fun c => coord_eqb c (0, 3, 4)).
Definition inner_path : list coord := [(1, 1, 3); (1, 1, 2); (1, 1, 1)].
Definition inner_matrices : grid Z * grid bool :=
  match Violation.net_to_wire_and_violation 55 1 (Some inner_path) (3, 4, 5)
          [(1, 1, 1); (1, 1, 3)] with
  | Returned wv => wv
  | _ => (mk_grid (0, 0, 0) (fun _ => 0), mk_grid (0, 0, 0) (fun _ => false))
  end.

End MazeGen.


(** ** Placer: [initial_placement], [compute_occupied_locations],
    [compute_overlap_penalty] *)

Module Layout.
Import Grid Violation Placer Maze MazeInv.

(** A cell of the library, as far as the placer reads it: [cell.name] and
    the array [cell.blocks]. *)
Record cell : Type := mk_cell {
  cell_name : string;
  blocks : grid Z
}.

(** An entry of [blif.cells]: [{"name": ..., "pins": {...}}]. *)
Record blif_cell : Type := mk_blif_cell {
  bc_name : string;
  bc_pins : list (string * string)
}.

(** [pregenerated_cells]: for each cell name, the list of its rotations. *)
Definition cell_table : Type := list (string * list cell).

(** [pregenerated_cells[key]] *)
Fixpoint lookup_cells (t : cell_table) (key : string) : outcome (list cell) :=
  match t with
  | [] => Raised KeyError
  | (k, v) :: t' => if String.eqb k key then Returned v else lookup_cells t' key
  end.

(** [l[i]] on a Python list: a negative index counts from the end. *)
Definition py_nth {X : Type} (l : list X) (i : Z) : outcome X :=
  let n := Z.of_nat (length l) in
  let j := if i <? 0 then i + n else i in
  if (0 <=? j) && (j <? n)
  then match nth_error l (Z.to_nat j) with
       | Some x => Returned x
       | None => Raised IndexError
       end
  else Raised IndexError.

(** [max] of a sequence of integers. *)
Definition py_max_int (l : list Z) : outcome Z :=
  match l with
  | [] => Raised ValueError
  | x :: t => Returned (fold_left Z.max t x)
  end.

(** [sum] of a sequence of integers. *)
Definition py_sum (l : list Z) : Z := fold_left Z.add l 0.

(** [a.shape[0]], [a.shape[1]], [a.shape[2]] *)
Definition shape0 {A : Type} (g : grid A) : Z := fst (fst (shape g)).
Definition shape1 {A : Type} (g : grid A) : Z := snd (fst (shape g)).
Definition shape2 {A : Type} (g : grid A) : Z := snd (shape g).

Definition spacing : Z := 1.

(** [pregenerated_cells[bc["name"]][0]] *)
Definition first_rotation (pregenerated_cells : cell_table) (bc : blif_cell) : outcome cell :=
  rotations <- lookup_cells pregenerated_cells (bc_name bc) ;;
  py_nth rotations 0.

(** The loop that lays the cells out on a line, from [x] on. *)
Fixpoint place_row (x : Z) (l : list (cell * blif_cell)) : list cell_placement :=
  match l with
  | [] => []
  | (c, bc) :: t =>
      mk_cell_placement (cell_name c) (0, 0, x) 0 (bc_pins bc)
        :: place_row (x + shape2 (blocks c) + spacing) t
  end.

Definition initial_placement (blif_cells : list blif_cell) (pregenerated_cells : cell_table)
    (dimensions : option (list Z)) : outcome (list cell_placement * list Z) :=
  cells <- mapM (first_rotation pregenerated_cells) blif_cells ;;
  dimensions <-
    match dimensions with
    | None =>
        max_height <- py_max_int (map (fun c => shape0 (blocks c)) cells) ;;
        let max_cell_widths :=
          map (fun c => Z.max (shape1 (blocks c)) (shape2 (blocks c))) cells in
        let width_estimate :=
          py_sum max_cell_widths + Z.of_nat (length max_cell_widths) * spacing in
        Returned [max_height; width_estimate; width_estimate]
    | Some d => if Nat.eqb (length d) 3 then Returned d else Raised ValueError
    end ;;
  Returned (place_row 0 (combine cells blif_cells), dimensions).

(** A value stored into an [int32] array. *)
Definition int32 (v : Z) : Z := (v + 2147483648) mod 4294967296 - 2147483648.

(** [grid[c] += 1] *)
Definition np_incr (g : grid Z) (c : coord) : outcome (grid Z) :=
  v <- np_get g c ;;
  np_set g c (int32 (v + 1)).

(** [pregenerated_cells[placement["name"]][placement["turns"]]] *)
Definition lookup_cell (pregenerated_cells : cell_table) (p : cell_placement) : outcome cell :=
  rotations <- lookup_cells pregenerated_cells (name p) ;;
  py_nth rotations (turns p).

(** The voxels [(yy + y, zz + z, xx + x)] visited by the three nested loops
    over an array of shape [s] anchored at [(yy, zz, xx)]. *)
Definition box (anchor s : coord) : list coord := map (add anchor) (all_voxels s).

Definition compute_occupied_locations (pregenerated_cells : cell_table)
    (placements : list cell_placement) (dimensions : coord) : outcome (grid Z) :=
  g <- np_zeros 0 dimensions ;;
  foldM (fun g p =>
           c <- lookup_cell pregenerated_cells p ;;
           foldM np_incr (box (placement p) (shape (blocks c))) g)
        placements g.

Definition compute_overlap_penalty (g : grid Z) : Z :=
  fold_left (fun penalty c =>
               let v := at_ g c in
               if 1 <? v then penalty + (v - 1) else penalty)
            (all_voxels (shape g)) 0.

(** The voxel [q] lies in the box of shape [s] anchored at [anchor]. *)
Definition covers (anchor s q : coord) : bool :=
  let '(yy, zz, xx) := anchor in
  let '(y, z, x) := q in
  in_bounds (y - yy, z - zz, x - xx) s.

(** The placements, each with its cell, whose box holds [q]. *)
Definition covering (q : coord) (pcs : list (cell_placement * cell))
    : list (cell_placement * cell) :=
  filter (fun pc => covers (placement (fst pc)) (shape (blocks (snd pc))) q) pcs.

(** Where the [i]-th cell of the line starts: the extents of the cells
    before it, plus one voxel of spacing after each. *)
Definition offset (cells : list cell) (i : nat) : Z :=
  py_sum (map (fun c => shape2 (blocks c) + spacing) (firstn i cells)).

(** The estimated width of the layout. *)
Definition width_estimate (cells : list cell) : Z :=
  py_sum (map (fun c => Z.max (shape1 (blocks c)) (shape2 (blocks c))) cells)
  + Z.of_nat (length cells) * spacing.

(** The placements of [place_row], each with the cell it places. *)
Fixpoint row_cells (x : Z) (l : list (cell * blif_cell)) : list (cell_placement * cell) :=
  match l with
  | [] => []
  | (c, bc) :: t =>
      (mk_cell_placement (cell_name c) (0, 0, x) 0 (bc_pins bc), c)
        :: row_cells (x + shape2 (blocks c) + spacing) t
  end.

(** A value stored into an [int8] array. *)
Definition int8 (v : Z) : Z := (v + 128) mod 256 - 128.

Definition create_layout (dimensions : coord) (placements : list cell_placement)
    (pregenerated_cells : cell_table) : outcome (grid Z) :=
  g <- np_zeros 0 dimensions ;;
  foldM (fun g p =>
           c <- lookup_cell pregenerated_cells p ;;
           foldM (fun g v =>
                    blockid <- np_get (blocks c) v ;;
                    np_set g (add (placement p) v) (int8 blockid))
                 (all_voxels (shape (blocks c))) g)
        placements g.

(** What the inner loops of [create_layout] write for one placement. *)
Definition cell_writes (p : cell_placement) (c : cell) : list (coord * Z) :=
  map (fun v => (add (placement p) v, int8 (at_ (blocks c) v)))
      (all_voxels (shape (blocks c))).

(** Where the voxel [q] of the layout lies in a box anchored at [anchor]. *)
Definition within (anchor q : coord) : coord :=
  let '(yy, zz, xx) := anchor in
  let '(y, z, x) := q in
  (y - yy, z - zz, x - xx).

(** One round of the first loops of [shrink_layout], on the pair of the
    minima and the maxima. *)
Definition grow (layout : grid Z) (mm : coord * coord) (c : coord) : coord * coord :=
  let '((min_y, min_z, min_x), (max_y, max_z, max_x)) := mm in
  let '(y, z, x) := c in
  let blockid := at_ layout c in
  if 0 <? blockid
  then ((Z.min min_y y, Z.min min_z z, Z.min min_x x),
        (Z.max max_y y, Z.max max_z z, Z.max max_x x))
  else mm.

Definition shrink_layout (layout : grid Z) : outcome (grid Z) :=
  let '((min_y, min_z, min_x), (max_y, max_z, max_x)) :=
    fold_left (grow layout) (all_voxels (shape layout)) (shape layout, (0, 0, 0)) in
  let dy := max_y - min_y + 1 in
  let dz := max_z - min_z + 1 in
  let dx := max_x - min_x + 1 in
  shrunk_layout <- np_zeros 0 (dy, dz, dx) ;;
  foldM (fun shrunk_layout c =>
           v <- np_get layout (add (min_y, min_z, min_x) c) ;;
           np_set shrunk_layout c (int8 v))
        (all_voxels (shape shrunk_layout)) shrunk_layout.

(** The layout holds a block at the voxel [c]. *)
Definition block_at (layout : grid Z) (c : coord) : Prop :=
  in_bounds c (shape layout) = true /\ 0 < at_ layout c.

(** Sample input: a 3x4x5 layout with two blocks. *)
Definition two_blocks : grid Z :=
  mk_grid (3, 4, 5)
    (fun c => if coord_eqb c (1, 1, 2) then 55 else if coord_eqb c (2, 3, 2) then 1 else 0).

(** Sample input: a library of two cells, each with one rotation, and a
    netlist of three cells. *)
Definition sample_table : cell_table :=
  [ ("AND", [mk_cell "AND" (mk_grid (2, 3, 4) (fun _ => 1))]);
    ("NOT", [mk_cell "NOT" (mk_grid (3, 2, 2) (fun _ => 1))]) ].

Definition sample_blif : list blif_cell :=
  [ mk_blif_cell "AND" [("A", "n1"); ("B", "n2"); ("Y", "n3")];
    mk_blif_cell "NOT" [("A", "n3"); ("Y", "n4")];
    mk_blif_cell "AND" [("A", "n4"); ("B", "n1"); ("Y", "n5")] ].

(** Two inverters on a line. *)
Definition two_inverters : list (cell_placement * cell) :=
  row_cells 0
    [ (mk_cell "NOT" (mk_grid (3, 2, 2) (fun _ => 1)),
       mk_blif_cell "NOT" [("A", "n3"); ("Y", "n4")]);
      (mk_cell "NOT" (mk_grid (3, 2, 2) (fun _ => 1)),
       mk_blif_cell "NOT" [("A", "n4"); ("Y", "n5")]) ].

Definition sample_placement : list cell_placement * list Z :=
  match initial_placement sample_blif sample_table None with
  | Returned r => r
  | _ => ([], [])
  end.

End Layout.


(** ** The routed layout: [Router.extract] *)

Module Routed.
Import Grid Violation Routing.

(** The body of the innermost loop. *)
Definition place_wire (routed_layout : grid Z) (c : coord) : outcome (grid Z) :=
  let '(y, z, x) := c in
  (* Place redstone *)
  routed_layout <- np_set routed_layout (y, z, x) 55 ;;
  (* Place material underneath *)
  if y =? 4 then np_set routed_layout (y - 1, z, x) 5
  else if y =? 1 then np_set routed_layout (y - 1, z, x) 1
  else Returned routed_layout.

(** [for y, z, x in segment["net"]]: iterating [None] raises [TypeError]. *)
Definition extract_segment (routed_layout : grid Z) (seg : segment) : outcome (grid Z) :=
  match net seg with
  | None => Raised TypeError
  | Some l => foldM place_wire l routed_layout
  end.

Definition extract (R : routing) (placed_layout : grid Z) : outcome (grid Z) :=
  foldM (fun routed_layout item =>
           foldM extract_segment (segments (snd item)) routed_layout)
        R placed_layout.

(** The voxels of all the paths of a routing. *)
Definition path_voxels (seg : segment) : list coord :=
  match net seg with
  | Some l => l
  | None => []
  end.

Definition routed_voxels (R : routing) : list coord :=
  flat_map (fun item => flat_map path_voxels (segments (snd item))) R.

(** The voxel over [q]. *)
Definition above (q : coord) : coord :=
  let '(y, z, x) := q in (y + 1, z, x).

(** [q] is under a voxel of a path, on a layer (0 or 3) where material is
    placed. *)
Definition supports (R : routing) (q : coord) : Prop :=
  In (above q) (routed_voxels R) /\ (fst (fst q) = 3 \/ fst (fst q) = 0).

(** What the innermost loop writes for one voxel. *)
Definition writes_of (c : coord) : list (coord * Z) :=
  let '(y, z, x) := c in
  ((y, z, x), 55)
    :: (if y =? 4 then [((y - 1, z, x), 5)]
        else if y =? 1 then [((y - 1, z, x), 1)]
        else []).

End Routed.


(** ** Pin locations and the initial routing:
    [Router.extract_pin_locations], [Router.initial_routing] *)

Module Pins.
Import Grid Violation Segmenter.

(** An entry of the dict [cell.ports]:
    [{"coordinates": (y, z, x), "facing": ...}]. *)
Record port : Type := mk_port {
  coordinates : coord;
  facing : string
}.

(** A cell of the library, as far as the router reads it: the dict
    [cell.ports], as the list of its items in iteration order. *)
Record cell : Type := mk_cell {
  ports : list (string * port)
}.

Definition cell_table : Type := list (string * list cell).

(** [d[key]] on a dict given as the list of its items. *)
Fixpoint dict_get {V : Type} (d : list (string * V)) (key : string) : outcome V :=
  match d with
  | [] => Raised KeyError
  | (k, v) :: t => if String.eqb k key then Returned v else dict_get t key
  end.

(** [net_pins[net_name].append(coord)] on a [defaultdict(list)]. *)
Fixpoint append_pin (net_pins : list (string * list coord)) (net_name : string) (c : coord)
    : list (string * list coord) :=
  match net_pins with
  | [] => [(net_name, [c])]
  | (k, l) :: t =>
      if String.eqb k net_name then (k, l ++ [c]) :: t
      else (k, l) :: append_pin t net_name c
  end.

(** [net_pins[net_name]] on a [defaultdict(list)]: a missing key gives the
    empty list. *)
Definition default_get (net_pins : list (string * list coord)) (net_name : string)
    : list coord :=
  match dict_get net_pins net_name with
  | Returned l => l
  | _ => []
  end.

(** The body of the inner loop. *)
Definition locate_port (p : Placer.cell_placement) (net_pins : list (string * list coord))
    (item : string * port) : outcome (list (string * list coord)) :=
  let '(pin, d) := item in
  let '(y, z, x) := coordinates d in
  let '(yy, zz, xx) := Placer.placement p in
  let coord := (y + yy, z + zz, x + xx) in
  net_name <- dict_get (Placer.pins p) pin ;;
  Returned (append_pin net_pins net_name coord).

(** [self.pregenerated_cells[cell_name][rotation]] *)
Definition lookup_cell (t : cell_table) (p : Placer.cell_placement) : outcome cell :=
  rotations <- dict_get t (Placer.name p) ;;
  Layout.py_nth rotations (Placer.turns p).

Definition extract_pin_locations (t : cell_table) (placements : list Placer.cell_placement)
    : outcome (list (string * list coord)) :=
  foldM (fun net_pins p =>
           c <- lookup_cell t p ;;
           foldM (locate_port p) (ports c) net_pins)
        placements [].

(** The net a port is connected to, and where the port lies. *)
Definition located (p : Placer.cell_placement) (item : string * port)
    : outcome (string * coord) :=
  net_name <- dict_get (Placer.pins p) (fst item) ;;
  Returned (net_name, Maze.add (coordinates (snd item)) (Placer.placement p)).

(** The located ports of one placed cell, and of all of them, in order. *)
Definition located_ports (t : cell_table) (p : Placer.cell_placement)
    : outcome (list (string * coord)) :=
  c <- lookup_cell t p ;;
  mapM (located p) (ports c).

(** The locations filed under the net [n]. *)
Definition of_net (n : string) (pairs : list (string * coord)) : list coord :=
  map snd (filter (fun nc => String.eqb (fst nc) n) pairs).

Section BlockIds.

Variables redstone stone : Z.

(** The body of the loop over the segments of a net. *)
Definition initial_segment (layout_dimensions : coord) (e : edge) : outcome Routing.segment :=
  let '(a, b) := e in
  let net := Dumb.dumb_route a b in
  wv <- net_to_wire_and_violation redstone stone (Some net) layout_dimensions [a; b] ;;
  Returned (Routing.mk_segment (a, b) (Some net) (fst wv) (snd wv)).

(** [keys_of] is as in [create_net_segments]; the segments of a net are
    taken in the order of the list of its edges. *)
Definition initial_routing (keys_of : list coord -> list edge) (t : cell_table)
    (placements : list Placer.cell_placement) (layout_dimensions : coord)
    : outcome Routing.routing :=
  pin_locations <- extract_pin_locations t placements ;;
  let net_segments := create_net_segments keys_of pin_locations in
  mapM (fun item : string * list edge =>
          let '(net_name, segment_endpoints) := item in
          segments <- mapM (initial_segment layout_dimensions) segment_endpoints ;;
          let net_pins := default_get pin_locations net_name in
          Returned (net_name, Routing.mk_net_routing net_pins segments))
       net_segments.

End BlockIds.

(** Sample input: an inverter with two ports, placed twice; the output of
    the first drives the input of the second. *)
Definition inverter : cell :=
  mk_cell [("A", mk_port (1, 0, 0) "west"); ("Y", mk_port (1, 0, 2) "east")].

Definition inverter_table : cell_table := [("NOT", [inverter])].

Definition inverter_chain : list Placer.cell_placement :=
  [ Placer.mk_cell_placement "NOT" (0, 0, 0) 0 [("A", "n1"); ("Y", "n2")];
    Placer.mk_cell_placement "NOT" (0, 2, 1) 0 [("A", "n2"); ("Y", "n3")] ].

Definition inverter_pins : list (string * list coord) :=
  match extract_pin_locations inverter_table inverter_chain with
  | Returned r => r
  | _ => []
  end.

End Pins.

(** ** Score normalisation on the numbers the router computes:
    [Router.normalize_net_scores] on Python floats and on numpy.float64 *)

Module NormalizeFloat.
Import Normalize.

(** The scores are Python floats when a caller writes them down, and
    numpy.float64 scalars when they come from [score_routing], whose
    violation count [sum(violations.flat)] is a numpy integer; [re_route]
    passes the latter.  The two differ in what a division by zero does. *)
Inductive number_kind : Type := python_float | numpy_float64.

(** A float64 value: a finite number, an infinity, or nan.  The sign of a
    zero is not kept: the only zero divisor of [normalize_net_scores] is a
    difference [x - x], which is +0.0. *)
Inductive float64 : Type :=
  | finite (q : Q)
  | infinity (negative : bool)
  | nan.

Definition is_finite (x : float64) : bool :=
  match x with
  | finite _ => true
  | _ => false
  end.

Definition is_zero (x : float64) : bool :=
  match x with
  | finite q => Qeq_bool q 0
  | _ => false
  end.

Definition negative (q : Q) : bool := if Qlt_le_dec q 0 then true else false.

Section Rounding.

(** The rounding of an exact result to float64: the nearest float, or an
    infinity when the result overflows.  An operation on finite operands is
    the exact operation followed by [rnd]. *)
Variable rnd : Q -> float64.

(** [x + y] *)
Definition fadd (x y : float64) : float64 :=
  match x, y with
  | nan, _ | _, nan => nan
  | finite p, finite q => rnd (p + q)
  | infinity s, finite _ => infinity s
  | finite _, infinity t => infinity t
  | infinity s, infinity t => if Bool.eqb s t then infinity s else nan
  end.

(** [-x] *)
Definition fneg (x : float64) : float64 :=
  match x with
  | finite q => finite (- q)
  | infinity s => infinity (negb s)
  | nan => nan
  end.

(** [x - y] *)
Definition fsub (x y : float64) : float64 :=
  match x, y with
  | finite p, finite q => rnd (p - q)
  | _, _ => fadd x (fneg y)
  end.

(** [x * y] *)
Definition fmul (x y : float64) : float64 :=
  match x, y with
  | nan, _ | _, nan => nan
  | finite p, finite q => rnd (p * q)
  | infinity s, finite q => if Qeq_bool q 0 then nan else infinity (xorb s (negative q))
  | finite p, infinity t => if Qeq_bool p 0 then nan else infinity (xorb (negative p) t)
  | infinity s, infinity t => infinity (xorb s t)
  end.

(** [x / y].  By zero, Python's float division raises, whatever [x] is;
    numpy's gives an infinity or nan (and warns). *)
Definition fdiv (kind : number_kind) (x y : float64) : outcome float64 :=
  if is_zero y then
    match kind with
    | python_float => Raised ZeroDivisionError
    | numpy_float64 =>
        Returned match x with
                 | finite p => if Qeq_bool p 0 then nan else infinity (negative p)
                 | infinity s => infinity s
                 | nan => nan
                 end
    end
  else
    Returned match x, y with
             | nan, _ | _, nan => nan
             | finite p, finite q => rnd (p / q)
             | infinity s, finite q => infinity (xorb s (negative q))
             | finite _, infinity _ => finite 0
             | infinity _, infinity _ => nan
             end.

Definition normalize_net_scores (kind : number_kind) (ns : net_scores) (norm_margin : Q)
    : outcome (list (string * list float64)) :=
  let scores := flat ns in
  min_score <- py_min scores ;;
  max_score <- py_max scores ;;
  let norm_range := fsub (finite 1) (fmul (finite 2) (finite norm_margin)) in
  scale <- fdiv kind norm_range (fsub (finite max_score) (finite min_score)) ;;
  Returned (map (fun item =>
                   (fst item,
                    map (fun score => fadd (finite norm_margin) (fmul (finite score) scale))
                        (snd item)))
                ns).

End Rounding.

(** Exact arithmetic: no rounding and no overflow. *)
Definition exact : Q -> float64 := finite.

(** Sample input: two segments with the same score 0.8. *)
Definition equal_scores : net_scores := [("n1", [4 # 5; 4 # 5]%Q)].

End NormalizeFloat.

(** ** The Python values behind a routing, and what [json] makes of them *)

Module Stored.
Import Grid Routing Maze.

(** The Python values a routing is made of.  [initial_routing] documents
    the pins as [(y, z, x)] tuples, and [extract_pin_locations], [dumb_route]
    and [maze_route] build every coordinate as a tuple. *)
Inductive py : Type :=
  | py_none
  | py_int (n : Z)
  | py_str (s : string)
  | py_tuple (items : list py)
  | py_list (items : list py)
  | py_dict (items : list (string * py)).

(** [json.dump]: a tuple and a list are both written as an array. *)
Fixpoint dump (v : py) : json :=
  match v with
  | py_none => JNull
  | py_int n => JNum n
  | py_str s => JStr s
  | py_tuple items => JArr (map dump items)
  | py_list items => JArr (map dump items)
  | py_dict items => JObj (map (fun kv => (fst kv, dump (snd kv))) items)
  end.

(** [json.loads]: an array is read as a list. *)
Fixpoint loads (j : json) : py :=
  match j with
  | JNull => py_none
  | JNum n => py_int n
  | JStr s => py_str s
  | JArr l => py_list (map loads l)
  | JObj items => py_dict (map (fun kv => (fst kv, loads (snd kv))) items)
  end.

Section Sequences.

Variable A : Type.
Variable eqb : A -> A -> bool.

Fixpoint seq_eqb (l l' : list A) : bool :=
  match l, l' with
  | [], [] => true
  | x :: t, y :: t' => eqb x y && seq_eqb t t'
  | _, _ => false
  end.

End Sequences.

Arguments seq_eqb {A} eqb l l'.

Fixpoint dict_value (key : string) (items : list (string * py)) : option py :=
  match items with
  | [] => None
  | (k, v) :: t => if String.eqb k key then Some v else dict_value key t
  end.

(** [v == w]: a tuple is never equal to a list. *)
Fixpoint py_eqb (v w : py) {struct v} : bool :=
  match v, w with
  | py_none, py_none => true
  | py_int n, py_int m => n =? m
  | py_str s, py_str t => String.eqb s t
  | py_tuple l, py_tuple l' => seq_eqb py_eqb l l'
  | py_list l, py_list l' => seq_eqb py_eqb l l'
  | py_dict d, py_dict d' =>
      Nat.eqb (length d) (length d')
      && forallb (fun kv => match dict_value (fst kv) d' with
                            | Some w' => py_eqb (snd kv) w'
                            | None => false
                            end) d
  | _, _ => false
  end.

(** Whether [hash(v)] returns: lists and dicts are unhashable. *)
Fixpoint hashable (v : py) : bool :=
  match v with
  | py_none | py_int _ | py_str _ => true
  | py_tuple items => forallb hashable items
  | py_list _ | py_dict _ => false
  end.

(** The values of the fields of a routing, as the router builds them. *)
Definition coord_py (c : coord) : py :=
  let '(y, z, x) := c in py_tuple [py_int y; py_int z; py_int x].

(** [routing[net_name]["pins"]] *)
Definition pins_py (net_pins : list coord) : py := py_list (map coord_py net_pins).

(** [segment["pins"]], built as [[a, b]] *)
Definition segment_pins_py (ab : coord * coord) : py :=
  py_list [coord_py (fst ab); coord_py (snd ab)].

(** [segment["net"]] *)
Definition path_py (p : option (list coord)) : py :=
  match p with
  | None => py_none
  | Some l => py_list (map coord_py l)
  end.

(** A segment after [del segment["violation"]] and [del segment["wire"]]. *)
Definition segment_py (s : segment) : py :=
  py_dict [("pins", segment_pins_py (pins s)); ("net", path_py (net s))].

Definition net_routing_py (e : net_routing) : py :=
  py_dict [("pins", pins_py (net_pins e));
           ("segments", py_list (map segment_py (segments e)))].

Definition routing_py (R : routing) : py :=
  py_dict (map (fun item => (fst item, net_routing_py (snd item))) R).

(** A coordinate handed to [maze_route]: held as a tuple, or as a list. *)
Inductive endpoint : Type :=
  | held_tuple (c : coord)
  | held_list (c : coord).

Definition as_endpoint (v : py) : option endpoint :=
  match v with
  | py_tuple [py_int y; py_int z; py_int x] => Some (held_tuple (y, z, x))
  | py_list [py_int y; py_int z; py_int x] => Some (held_list (y, z, x))
  | _ => None
  end.

(** [maze_route] on such endpoints.
    - A list [a]: [cost_matrix[a] = 0] indexes the first axis by each of the
      three numbers ([IndexError] when one of them is no index of that
      axis); then [a] is pushed, popped, and [visited.add(location)] raises
      [TypeError], a list being unhashable.
    - A tuple [a] and a list [b]: no coordinate of the search is equal to
      [b], so only [a] is exempt in [violating]; the search runs, and
      [b in visited] raises [TypeError]. *)
Definition maze_route_held (a b : endpoint) (placed_layout : grid Z)
    (usage_matrix : grid bool) (fuel : nat) : outcome (option (list coord)) :=
  match a, b with
  | held_tuple a, held_tuple b => maze_route a b placed_layout usage_matrix fuel
  | held_tuple a, held_list _ =>
      _ <- maze_search a a placed_layout usage_matrix fuel ;;
      Raised TypeError
  | held_list (y, z, x), _ =>
      let '(h, _, _) := shape placed_layout in
      match np_index h y, np_index h z, np_index h x with
      | Some _, Some _, Some _ => Raised TypeError
      | _, _, _ => Raised IndexError
      end
  end.

End Stored.

(** ** Maze router: routes clear of obstacles *)

Module MazeNear.
Import Grid Maze MazeInv.

(** [c] lies on a shortest route from [a] to [b]: going through [c] is no
    detour. *)
Definition between (a b c : coord) : Prop := dist a c + dist c b = dist a b.

Section Route.

Variables a b : coord.
Variable placed_layout : grid Z.
Variable usage_matrix : grid bool.

(** No voxel on a shortest route from [a] to [b] is violating: the usage
    matrix holds no obstacle next to such a voxel, the two ends apart.
    Anywhere else the layout may hold cells and wires. *)
Definition clear_routes : Prop :=
  forall c, aligned (shape placed_layout) a c -> between a b c ->
    violating a b placed_layout usage_matrix c = false.

(** The same, decided over the voxels of the layout. *)
Definition clear_routesb : bool :=
  forallb (fun c =>
             negb (((fst (fst c) - fst (fst a)) mod 3 =? 0)
                   && (dist a c + dist c b =? dist a b))
             || negb (violating a b placed_layout usage_matrix c))
          (all_voxels (shape placed_layout)).

(** What the costs of the search are bounded by: no cost and no heap key
    is below the distance from [a], and on the voxels between [a] and [b]
    cost and key are that distance. *)
Record Exact (st : state) : Prop := mk_Exact {
  x_low_visited : forall v, In v (visited st) -> dist a v <= at_ (cost_matrix st) v;
  x_low_heap : forall k v, In (k, v) (min_dist_heap st) ->
    dist a v <= k /\ dist a v <= at_ (cost_matrix st) v;
  x_visited : forall v, In v (visited st) -> between a b v ->
    at_ (cost_matrix st) v = dist a v;
  x_heap : forall k v, In (k, v) (min_dist_heap st) -> between a b v ->
    k = dist a v /\ at_ (cost_matrix st) v = dist a v
}.

(** Inside the round of the popped voxel [u]: no voxel between [a] and [b]
    that is still to be visited is nearer to [a] than [u]. *)
Definition Ahead (u : coord) (st : state) : Prop :=
  Exact st
  /\ forall x, aligned (shape placed_layout) a x -> between a b x ->
       ~ In x (visited st) -> dist a u <= dist a x.

End Route.

(** Sample input: a 4x3x4 layout with a block at (0, 1, 3), away from the
    routes between (0, 0, 0) and (3, 2, 1). *)
Definition block_layout : grid Z :=
  mk_grid (4, 3, 4) (fun c => if coord_eqb c (0, 1, 3) then 1 else 0).
Definition block_usage : grid bool := mk_grid (4, 3, 4) (fun c => coord_eqb c (0, 1, 3)).

End MazeNear.

(** * Proofs *)

Lemma coord_eqb_spec (p q : coord) : reflect (p = q) (coord_eqb p q).
Proof.
  destruct p as [[py pz] px], q as [[qy qz] qx]; unfold coord_eqb.
  destruct (Z.eqb_spec py qy), (Z.eqb_spec pz qz), (Z.eqb_spec px qx);
    simpl; constructor; congruence.
Qed.

Lemma coord_eqb_refl (p : coord) : coord_eqb p p = true.
Proof. destruct (coord_eqb_spec p p); congruence. Qed.

Lemma coord_eqb_eq (p q : coord) : coord_eqb p q = true <-> p = q.
Proof. destruct (coord_eqb_spec p q); split; congruence. Qed.

Lemma coord_eqb_neq (p q : coord) : coord_eqb p q = false <-> p <> q.
Proof. destruct (coord_eqb_spec p q); split; congruence. Qed.

Lemma mem_In (c : coord) (l : list coord) : mem c l = true <-> In c l.
Proof.
  unfold mem; rewrite existsb_exists; split.
  - intros (x & Hx & E); apply coord_eqb_eq in E; now subst.
  - intros H; exists c; split; [assumption | apply coord_eqb_refl].
Qed.

Lemma mem_not_In (c : coord) (l : list coord) : mem c l = false <-> ~ In c l.
Proof.
  rewrite <- mem_In; destruct (mem c l); split; congruence.
Qed.

Lemma xrange_length (start stop : Z) :
  length (xrange start stop) = Z.to_nat (stop - start).
Proof. unfold xrange; now rewrite length_map, length_seq. Qed.

Lemma xrange_In (start stop i : Z) :
  In i (xrange start stop) <-> start <= i < stop.
Proof.
  unfold xrange; rewrite in_map_iff; split.
  - intros (k & <- & Hk); apply in_seq in Hk; lia.
  - intros H; exists (Z.to_nat (i - start)); split; [lia | apply in_seq; lia].
Qed.

Lemma xrange_NoDup (start stop : Z) : NoDup (xrange start stop).
Proof.
  unfold xrange; apply Finite.Injective_map_NoDup; [ | apply seq_NoDup].
  intros i j H; lia.
Qed.

(** Occurrences of an element in the image of a duplicate-free list under
    an injective function. *)
Lemma count_occ_map_NoDup {A : Type} (f : A -> coord) (l : list A) (x : A) :
  (forall u v, f u = f v -> u = v) -> NoDup l -> In x l ->
  count_occ coord_eq_dec (map f l) (f x) = 1%nat.
Proof.
  intros Hinj Hnd; induction Hnd as [ | y l Hy Hnd IH]; intros Hin; [easy | ].
  simpl; destruct (coord_eq_dec (f y) (f x)) as [E | NE].
  - apply Hinj in E; subst y.
    f_equal; apply count_occ_not_In; rewrite in_map_iff.
    intros (u & Hu & Hul); apply Hinj in Hu; now subst.
  - destruct Hin as [-> | Hin]; [congruence | now apply IH].
Qed.

Module DumbProofs.
Import Dumb.

Lemma dumb_route_passes (a b : coord) : dumb_route a b = pass_x a b ++ pass_z a b.
Proof. destruct a as [[ay az] ax], b as [[by_ bz] bx]; reflexivity. Qed.

Lemma pass_x_length (a b : coord) :
  Z.of_nat (length (pass_x a b)) = Z.abs (snd a - snd b) + 1.
Proof.
  destruct a as [[ay az] ax], b as [[by_ bz] bx]; unfold pass_x.
  rewrite length_map, xrange_length; simpl; lia.
Qed.

Lemma pass_z_length (a b : coord) :
  Z.of_nat (length (pass_z a b)) = Z.abs (snd (fst a) - snd (fst b)) + 1.
Proof.
  destruct a as [[ay az] ax], b as [[by_ bz] bx]; unfold pass_z.
  rewrite length_map, xrange_length; simpl; lia.
Qed.

Lemma corner_once_pass_x (a b : coord) :
  count_occ coord_eq_dec (pass_x a b) (corner a b) = 1%nat.
Proof.
  destruct a as [[ay az] ax], b as [[by_ bz] bx]; unfold pass_x, corner.
  apply (count_occ_map_NoDup (fun x => (ay, az, x))).
  - intros u v H; congruence.
  - apply xrange_NoDup.
  - apply xrange_In; lia.
Qed.

Lemma corner_once_pass_z (a b : coord) :
  count_occ coord_eq_dec (pass_z a b) (corner a b) = 1%nat.
Proof.
  destruct a as [[ay az] ax], b as [[by_ bz] bx]; unfold pass_z, corner.
  apply (count_occ_map_NoDup (fun z => (ay, z, bx))).
  - intros u v H; congruence.
  - apply xrange_NoDup.
  - apply xrange_In; lia.
Qed.

(** C4, as stated, fails: routing from (0,0,0) to (0,2,3) gives seven
    voxels where the claim promises six, and the corner (0,0,3) is listed
    twice. *)
Lemma dumb_route_length_counterexample :
  let a := (0, 0, 0) in
  let b := (0, 2, 3) in
  fst (fst a) = fst (fst b) /\
  Z.of_nat (length (dumb_route a b)) <> Z.abs (snd a - snd b) + Z.abs (snd (fst a) - snd (fst b)) + 1 /\
  count_occ coord_eq_dec (dumb_route a b) (corner a b) <> 1%nat.
Proof. vm_compute; repeat split; congruence. Qed.

(** C4 (amended): for pins [a], [b] on one Y layer, [dumb_route] returns
    |ax-bx| + |az-bz| + 2 voxels; the corner (ay, az, bx) occurs once in the
    X pass and once more in the Z pass, twice in the path. *)
Theorem dumb_route_length (a b : coord) :
  fst (fst a) = fst (fst b) ->
  Z.of_nat (length (dumb_route a b))
    = Z.abs (snd a - snd b) + Z.abs (snd (fst a) - snd (fst b)) + 2
  /\ count_occ coord_eq_dec (pass_x a b) (corner a b) = 1%nat
  /\ count_occ coord_eq_dec (dumb_route a b) (corner a b) = 2%nat.
Proof.
  intros _; rewrite dumb_route_passes; repeat split.
  - rewrite length_app, Nat2Z.inj_add, pass_x_length, pass_z_length; lia.
  - apply corner_once_pass_x.
  - now rewrite count_occ_app, corner_once_pass_x, corner_once_pass_z.
Qed.

Lemma dumb_route_length_witness :
  Z.of_nat (length (dumb_route (1, 4, 2) (1, 0, 5))) = 3 + 4 + 2
  /\ count_occ coord_eq_dec (pass_x (1, 4, 2) (1, 0, 5)) (1, 4, 5) = 1%nat
  /\ count_occ coord_eq_dec (dumb_route (1, 4, 2) (1, 0, 5)) (1, 4, 5) = 2%nat.
Proof. apply (dumb_route_length (1, 4, 2) (1, 0, 5)); reflexivity. Defined.

End DumbProofs.

(** ** Placer *)

Module PlacerProofs.
Import Placer.







Lemma draws_interchange_valid : (forall k, 0 <= draws_interchange k /\ draws_interchange k < 1)%Q.
Proof. intros [ | [ | [ | k]]]; split; unfold Qle, Qlt; simpl; lia. Qed.

(** C7: in the displace/reorient branch the code accepts "displace" and
    "interchange" and raises [ValueError] for every other method, "reorient"
    included, although its docstring and its error message name "displace"
    and "reorient" as the two valid methods. *)
Theorem generate_reorient_raises :
  generate 0 draws_displace two_cells "reorient" 5 = Raised ValueError
  /\ generate 0 draws_displace two_cells "displace" 5 = Returned two_cells
  /\ generate 0 draws_displace two_cells "interchange" 5 = Returned two_cells.
Proof. repeat split; vm_compute; reflexivity. Qed.

(** The same for every placement and every source: in that branch the
    outcome depends on the method alone. *)
Lemma generate_method_branch (fuel : nat) (r : rng) (l : list cell_placement)
    (method : string) (ratio : Z) (cellA pos : nat) :
  choice r 0 l = Returned (cellA, pos) -> ratio <> 0 ->
  (r pos <= 1 / inject_Z ratio)%Q ->
  generate fuel r l method ratio =
    if String.eqb method "displace" then Returned l
    else if String.eqb method "interchange" then Returned l
    else Raised ValueError.
Proof.
  intros Hc Hratio Hd; unfold generate; rewrite Hc; simpl.
  apply Z.eqb_neq in Hratio; rewrite Hratio; simpl.
  destruct (Qlt_le_dec _ _) as [C | _]; [ | reflexivity].
  exfalso; apply (Qlt_irrefl (r pos)); eapply Qle_lt_trans; eassumption.
Qed.

End PlacerProofs.

(** ** Score normalisation *)

Module NormalizeProofs.
Import Normalize.

Lemma fold_min_spec (t : list Q) : forall x,
  let m := fold_left (fun m y => if Qlt_le_dec y m then y else m) t x in
  In m (x :: t) /\ forall y, In y (x :: t) -> (m <= y)%Q.
Proof.
  induction t as [ | z t IH]; intros x; simpl.
  - split; [now left | intros y [<- | []]; apply Qle_refl].
  - destruct (Qlt_le_dec z x) as [L | L].
    + destruct (IH z) as [Hin Hle]; simpl in Hin, Hle; split.
      * destruct Hin as [E | Hin]; [right; left; exact E | right; right; exact Hin].
      * intros y [<- | [<- | Hy]].
        -- apply Qle_trans with z; [apply Hle; now left | now apply Qlt_le_weak].
        -- apply Hle; now left.
        -- apply Hle; now right.
    + destruct (IH x) as [Hin Hle]; simpl in Hin, Hle; split.
      * destruct Hin as [E | Hin]; [left; exact E | right; right; exact Hin].
      * intros y [<- | [<- | Hy]].
        -- apply Hle; now left.
        -- apply Qle_trans with x; [apply Hle; now left | exact L].
        -- apply Hle; now right.
Qed.

Lemma fold_max_spec (t : list Q) : forall x,
  let m := fold_left (fun m y => if Qlt_le_dec m y then y else m) t x in
  In m (x :: t) /\ forall y, In y (x :: t) -> (y <= m)%Q.
Proof.
  induction t as [ | z t IH]; intros x; simpl.
  - split; [now left | intros y [<- | []]; apply Qle_refl].
  - destruct (Qlt_le_dec x z) as [L | L].
    + destruct (IH z) as [Hin Hle]; simpl in Hin, Hle; split.
      * destruct Hin as [E | Hin]; [right; left; exact E | right; right; exact Hin].
      * intros y [<- | [<- | Hy]].
        -- apply Qle_trans with z; [now apply Qlt_le_weak | apply Hle; now left].
        -- apply Hle; now left.
        -- apply Hle; now right.
    + destruct (IH x) as [Hin Hle]; simpl in Hin, Hle; split.
      * destruct Hin as [E | Hin]; [left; exact E | right; right; exact Hin].
      * intros y [<- | [<- | Hy]].
        -- apply Hle; now left.
        -- apply Qle_trans with x; [exact L | apply Hle; now left].
        -- apply Hle; now right.
Qed.

Lemma py_min_spec (l : list Q) (m : Q) :
  py_min l = Returned m -> In m l /\ forall y, In y l -> (m <= y)%Q.
Proof.
  destruct l as [ | x t]; simpl; [discriminate | ].
  intros E; injection E as <-; apply fold_min_spec.
Qed.

Lemma py_max_spec (l : list Q) (m : Q) :
  py_max l = Returned m -> In m l /\ forall y, In y l -> (y <= m)%Q.
Proof.
  destruct l as [ | x t]; simpl; [discriminate | ].
  intros E; injection E as <-; apply fold_max_spec.
Qed.

Lemma py_min_nonempty (l : list Q) : l <> [] -> exists m, py_min l = Returned m.
Proof. destruct l; [congruence | intros _; eexists; reflexivity]. Qed.

Lemma py_max_nonempty (l : list Q) : l <> [] -> exists m, py_max l = Returned m.
Proof. destruct l; [congruence | intros _; eexists; reflexivity]. Qed.

(** The largest and smallest scores coincide exactly when all scores do. *)
Lemma max_eq_min_iff (l : list Q) (lo hi : Q) :
  py_min l = Returned lo -> py_max l = Returned hi ->
  (hi == lo)%Q <-> (forall x y, In x l -> In y l -> (x == y)%Q).
Proof.
  intros Hlo Hhi.
  destruct (py_min_spec _ _ Hlo) as [Ilo Llo], (py_max_spec _ _ Hhi) as [Ihi Lhi].
  split.
  - intros E x y Hx Hy. apply Qle_antisym.
    + apply Qle_trans with hi; [now apply Lhi | ]. rewrite E. now apply Llo.
    + apply Qle_trans with hi; [now apply Lhi | ]. rewrite E. now apply Llo.
  - intros H; now apply H.
Qed.

Lemma py_div_zero (n d : Q) : (d == 0)%Q -> py_div n d = Raised ZeroDivisionError.
Proof. intros H; unfold py_div; apply Qeq_bool_iff in H; now rewrite H. Qed.

Lemma py_div_nonzero (n d : Q) : ~ (d == 0)%Q -> py_div n d = Returned (n / d)%Q.
Proof.
  intros H; unfold py_div; destruct (Qeq_bool d 0) eqn:E; [ | reflexivity].
  apply Qeq_bool_iff in E; contradiction.
Qed.

Lemma Qminus_zero_iff (x y : Q) : (x - y == 0)%Q <-> (x == y)%Q.
Proof.
  split; intros H.
  - rewrite <- (Qplus_0_l y), <- H; ring.
  - rewrite H; ring.
Qed.

(** C5: for the scores 0.8 and 3.8 the code returns
    0.1 + 0.8 * (0.8 / 3) = 47/150 and 0.1 + 3.8 * (0.8 / 3) = 167/150: the
    smallest score is not sent to 0.1 and the largest leaves the interval
    [0.1, 0.9], because the smallest score is not subtracted before
    scaling. *)
Theorem normalize_not_min_max :
  exists lo hi : Q,
    normalize_net_scores sample_scores norm_margin_default = Returned [("n1", [lo; hi])]
    /\ (lo == 47 # 150)%Q /\ (hi == 167 # 150)%Q
    /\ ~ (lo == 1 # 10)%Q /\ ~ (hi <= 9 # 10)%Q.
Proof.
  eexists; eexists; split; [vm_compute; reflexivity | ].
  repeat split; vm_compute; congruence.
Qed.

End NormalizeProofs.

(** ** Violation model *)

Module ViolationProofs.
Import Grid Violation.

(** C8: on a 2x3x3 grid, the initial route between the pins (1,0,0) and
    (1,0,2) passes through (1,0,1), whose neighbour (1,-1,1) is outside the
    grid.  The assignment does not raise [IndexError]: the index -1 counts
    from the end of the axis, and the violation grid is set at (1,2,1), which
    is a neighbour of no voxel of the path. *)
Theorem violation_wraps_negative :
  let a := (1, 0, 0) in
  let b := (1, 0, 2) in
  let net := Dumb.dumb_route a b in
  In (1, 0, 1) net
  /\ In (1, -1, 1) (neighbours (1, 0, 1))
  /\ in_bounds (1, -1, 1) (2, 3, 3) = false
  /\ in_bounds (1, 2, 1) (2, 3, 3) = true
  /\ (forall c, In c net -> ~ In (1, 2, 1) (neighbours c))
  /\ match net_to_wire_and_violation 55 1 (Some net) (2, 3, 3) [a; b] with
     | Returned (wire, violation) => np_get violation (1, 2, 1) = Returned true
     | _ => False
     end.
Proof.
  cbv zeta.
  split; [vm_compute; tauto | ].
  split; [simpl; tauto | ].
  split; [reflexivity | ].
  split; [reflexivity | ].
  split; [ | vm_compute; reflexivity].
  intros c Hc; vm_compute in Hc.
  destruct Hc as [<- | [<- | [<- | [<- | []]]]]; simpl; intuition congruence.
Qed.

End ViolationProofs.

(** ** Persistence of routings *)

Lemma mapM_map_id {X Y : Type} (f : Y -> outcome X) (g : X -> Y) (l : list X) :
  (forall x, f (g x) = Returned x) -> mapM f (map g l) = Returned l.
Proof.
  intros H; induction l as [ | x t IH]; simpl; [reflexivity | ].
  now rewrite H, IH.
Qed.

Lemma mapM_Forall2 {X Y : Type} (f : X -> outcome Y) (l : list X) :
  forall l', mapM f l = Returned l' -> Forall2 (fun x y => f x = Returned y) l l'.
Proof.
  induction l as [ | x t IH]; simpl; intros l' H.
  - injection H as <-; constructor.
  - destruct (f x) as [y | | ] eqn:Ex; simpl in H; try discriminate.
    destruct (mapM f t) as [t' | | ] eqn:Et; simpl in H; try discriminate.
    injection H as <-; constructor; [assumption | now apply IH].
Qed.

Lemma mapM_total {X Y : Type} (f : X -> outcome Y) (l : list X) :
  (forall x, In x l -> exists y, f x = Returned y) -> exists l', mapM f l = Returned l'.
Proof.
  induction l as [ | x t IH]; simpl; intros H; [eexists; reflexivity | ].
  destruct (H x (or_introl eq_refl)) as [y Ey].
  destruct IH as [t' Et]; [intros z Hz; apply H; now right | ].
  rewrite Ey, Et; simpl; eexists; reflexivity.
Qed.

Module RoutingProofs.
Import Grid Violation Routing.

Section BlockIds.

Variables redstone stone : Z.

Lemma as_coord_json (c : coord) : as_coord (coord_json c) = Returned c.
Proof. destruct c as [[y z] x]; reflexivity. Qed.

Lemma as_coords_json (l : list coord) : as_coords (JArr (map coord_json l)) = Returned l.
Proof. simpl; apply mapM_map_id, as_coord_json. Qed.

Lemma as_path_json (p : option (list coord)) : as_path (path_json p) = Returned p.
Proof.
  destruct p as [l | ]; [ | reflexivity].
  unfold path_json, as_path; now rewrite as_coords_json.
Qed.

(** What reading a written segment does: the path and the pins come back,
    and the two grids are computed anew from them. *)
Lemma deserialize_segment_json (shape : coord) (s : segment) :
  deserialize_segment redstone stone (coord_json shape) (segment_json s) =
    wv <- net_to_wire_and_violation redstone stone (net s) shape
            [fst (pins s); snd (pins s)] ;;
    Returned (mk_segment (fst (pins s), snd (pins s)) (net s) (fst wv) (snd wv)).
Proof.
  destruct s as [[[[ay az] ax] [[by_ bz] bx]] n w v], shape as [[h d] wd].
  unfold deserialize_segment, segment_json; simpl.
  destruct n as [l | ]; simpl; [ | reflexivity].
  now rewrite mapM_map_id by apply as_coord_json.
Qed.

Lemma deserialize_segment_restored (shape : coord) (s s' : segment) :
  deserialize_segment redstone stone (coord_json shape) (segment_json s) = Returned s' ->
  segment_restored redstone stone shape s s'.
Proof.
  rewrite deserialize_segment_json.
  destruct (net_to_wire_and_violation _ _ _ _ _) as [[w v] | | ] eqn:W;
    simpl; try discriminate.
  intros E; injection E as <-; unfold segment_restored; simpl.
  now destruct (pins s).
Qed.

Lemma Forall2_map_l {X Y Z' : Type} (P : Y -> Z' -> Prop) (g : X -> Y) (l : list X) :
  forall l', Forall2 P (map g l) l' -> Forall2 (fun x z => P (g x) z) l l'.
Proof.
  induction l as [ | x t IH]; simpl; intros l' H; inversion H; subst; constructor; auto.
Qed.

Lemma Forall2_impl {X Y : Type} (P Q : X -> Y -> Prop) (l : list X) :
  (forall x y, P x y -> Q x y) -> forall l', Forall2 P l l' -> Forall2 Q l l'.
Proof. intros H l' F; induction F; constructor; auto. Qed.

Lemma deserialize_net_restored (shape : coord) (item item' : string * net_routing) :
  deserialize_net redstone stone (coord_json shape)
    (fst item, net_routing_json (snd item)) = Returned item' ->
  net_restored redstone stone shape item item'.
Proof.
  unfold deserialize_net, net_routing_json; simpl.
  destruct (mapM _ (map segment_json _)) as [segs | | ] eqn:E; simpl; try discriminate.
  rewrite mapM_map_id by apply as_coord_json; simpl.
  intros H; injection H as <-; unfold net_restored; simpl.
  repeat split.
  apply mapM_Forall2, Forall2_map_l in E.
  eapply Forall2_impl; [ | exact E].
  intros s s'; apply deserialize_segment_restored.
Qed.

Lemma deserialize_restored (R R' : routing) (shape : coord) :
  deserialize_routing redstone stone (serialize_routing R shape) = Returned R' ->
  Forall2 (net_restored redstone stone shape) R R'.
Proof.
  unfold deserialize_routing, serialize_routing; intros E.
  apply mapM_Forall2, Forall2_map_l in E.
  eapply Forall2_impl; [ | exact E].
  intros item item'; apply deserialize_net_restored.
Qed.

Lemma deserialize_net_total (shape : coord) (item : string * net_routing) :
  (forall s, In s (segments (snd item)) ->
     exists wv, net_to_wire_and_violation redstone stone (net s) shape
                  [fst (pins s); snd (pins s)] = Returned wv) ->
  exists item', deserialize_net redstone stone (coord_json shape)
                  (fst item, net_routing_json (snd item)) = Returned item'.
Proof.
  intros H; unfold deserialize_net, net_routing_json; simpl.
  destruct (mapM_total (deserialize_segment redstone stone (coord_json shape))
              (map segment_json (segments (snd item)))) as [segs E].
  { intros j Hj; apply in_map_iff in Hj; destruct Hj as (s & <- & Hs).
    rewrite deserialize_segment_json.
    destruct (H s Hs) as [wv ->]; simpl; eexists; reflexivity. }
  rewrite E; simpl.
  rewrite mapM_map_id by apply as_coord_json; simpl.
  eexists; reflexivity.
Qed.

(** Reading back a written routing succeeds whenever the violation model
    succeeds on every segment's path for the written shape; the routing read
    has the same nets and, coordinate by coordinate, the same numbers in its
    pins and paths, and the wire and violation grids are those the violation
    model computes from the path. *)
Lemma roundtrip_numbers (R : routing) (shape : coord) :
  (forall item s, In item R -> In s (segments (snd item)) ->
     exists wv, net_to_wire_and_violation redstone stone (net s) shape
                  [fst (pins s); snd (pins s)] = Returned wv) ->
  exists R',
    deserialize_routing redstone stone (serialize_routing R shape) = Returned R'
    /\ Forall2 (net_restored redstone stone shape) R R'.
Proof.
  intros H.
  assert (T : exists R', deserialize_routing redstone stone (serialize_routing R shape)
                         = Returned R').
  { unfold deserialize_routing, serialize_routing.
    apply mapM_total; intros j Hj.
    apply in_map_iff in Hj; destruct Hj as (item & <- & Hitem).
    apply deserialize_net_total; intros s Hs; now apply (H item). }
  destruct T as [R' E]; exists R'; split; [exact E | now apply deserialize_restored].
Qed.

End BlockIds.

End RoutingProofs.

(** ** Maze router *)

Module GridProofs.
Import Grid.

Lemma in_bounds_iff (c dims : coord) :
  in_bounds c dims = true <->
  0 <= fst (fst c) < fst (fst dims) /\ 0 <= snd (fst c) < snd (fst dims)
  /\ 0 <= snd c < snd dims.
Proof.
  destruct c as [[y z] x], dims as [[h d] w]; unfold in_bounds; simpl.
  rewrite !andb_true_iff, !Z.leb_le, !Z.ltb_lt; tauto.
Qed.

Lemma np_index_in (n i : Z) : 0 <= i < n -> np_index n i = Some i.
Proof.
  intros H; unfold np_index.
  replace (0 <=? i) with true by (symmetry; apply Z.leb_le; lia).
  replace (i <? n) with true by (symmetry; apply Z.ltb_lt; lia).
  reflexivity.
Qed.

Lemma np_norm_in_bounds (c dims : coord) :
  in_bounds c dims = true -> np_norm dims c = Some c.
Proof.
  intros H; apply in_bounds_iff in H.
  destruct c as [[y z] x], dims as [[h d] w]; simpl in *.
  now rewrite !np_index_in by lia.
Qed.

Lemma shape_put {A : Type} (g : grid A) (c : coord) (v : A) : shape (put g c v) = shape g.
Proof.
  unfold put, np_set_try, np_set; destruct (np_norm (shape g) c); reflexivity.
Qed.

Lemma at_in_bounds {A : Type} (g : grid A) (c : coord) :
  in_bounds c (shape g) = true -> at_ g c = cells g c.
Proof. intros H; unfold at_; now rewrite np_norm_in_bounds. Qed.

Lemma at_put_same {A : Type} (g : grid A) (c : coord) (v : A) :
  in_bounds c (shape g) = true -> at_ (put g c v) c = v.
Proof.
  intros H; unfold at_; rewrite shape_put, np_norm_in_bounds by assumption.
  unfold put, np_set_try, np_set; rewrite np_norm_in_bounds by assumption.
  simpl; now rewrite coord_eqb_refl.
Qed.

Lemma at_put_other {A : Type} (g : grid A) (c q : coord) (v : A) :
  in_bounds c (shape g) = true -> in_bounds q (shape g) = true -> q <> c ->
  at_ (put g c v) q = at_ g q.
Proof.
  intros Hc Hq NE; unfold at_; rewrite shape_put, np_norm_in_bounds by assumption.
  unfold put, np_set_try, np_set; rewrite np_norm_in_bounds by assumption.
  simpl; apply coord_eqb_neq in NE; now rewrite NE.
Qed.

Lemma np_get_in_bounds {A : Type} (g : grid A) (c : coord) :
  in_bounds c (shape g) = true -> np_get g c = Returned (at_ g c).
Proof. intros H; unfold np_get, at_; now rewrite np_norm_in_bounds. Qed.

End GridProofs.

Module MazeMoves.
Import Grid Maze MazeInv GridProofs.

Lemma candidate_moves_eq :
  candidate_moves =
    [ ((0, 0, 1), 3, 1); ((0, 1, 0), 4, 1); ((0, 0, -1), 1, 1);
      ((0, -1, 0), 2, 1); ((3, 0, 0), 6, 3); ((-3, 0, 0), 5, 3) ].
Proof. reflexivity. Qed.

Lemma mod3_iff (n : Z) : n mod 3 = 0 <-> exists q, n = q * 3.
Proof.
  rewrite Z.mod_divide by lia; split; intros [q Hq]; exists q; lia.
Qed.

Lemma aligned_iff (dims a c : coord) :
  aligned dims a c <->
  in_bounds c dims = true /\ exists q, fst (fst c) - fst (fst a) = q * 3.
Proof. unfold aligned; now rewrite mod3_iff. Qed.

Lemma dist_nonneg (a c : coord) : 0 <= dist a c.
Proof. destruct a as [[ay az] ax], c as [[y z] x]; simpl; lia. Qed.

Lemma dist_zero (a c : coord) : dist a c = 0 -> c = a.
Proof.
  destruct a as [[ay az] ax], c as [[y z] x]; simpl; intros H.
  repeat f_equal; lia.
Qed.

Lemma dist_self (a : coord) : dist a a = 0.
Proof. destruct a as [[ay az] ax]; simpl; lia. Qed.

Lemma move_facts (dims a u : coord) (mbc : coord * Z * Z) :
  In mbc candidate_moves -> aligned dims a u -> exists i, move_spec dims a u mbc i.
Proof.
  intros Hm Hu; apply aligned_iff in Hu; destruct Hu as [Hb [q Hq]].
  destruct a as [[ay az] ax], u as [[y z] x]; simpl in Hq.
  rewrite candidate_moves_eq in Hm; simpl in Hm.
  destruct Hm as [<- | [<- | [<- | [<- | [<- | [<- | []]]]]]];
    [exists 0%nat | exists 1%nat | exists 2%nat | exists 3%nat | exists 4%nat | exists 5%nat];
    (split; simpl;
     [ reflexivity | reflexivity | reflexivity | reflexivity | lia
     | repeat f_equal; lia
     | intros Hin; apply aligned_iff; split; [exact Hin | simpl ]
     | lia ]).
  all: try (exists q; lia).
  - exists (q + 1); lia.
  - exists (q - 1); lia.
Qed.

(** Every aligned voxel other than [a] has an aligned neighbour that is
    closer to [a] by exactly the cost of the movement. *)
Lemma predecessor (dims a x : coord) :
  in_bounds a dims = true -> aligned dims a x -> x <> a ->
  exists p mbc, In mbc candidate_moves /\ aligned dims a p
    /\ add p (fst (fst mbc)) = x /\ dist a p + snd mbc = dist a x /\ 0 < snd mbc.
Proof.
  intros Ha Hx NE; apply aligned_iff in Hx; destruct Hx as [Hb [q Hq]].
  apply in_bounds_iff in Ha, Hb.
  destruct a as [[ay az] ax], x as [[y z] x], dims as [[h d] w]; simpl in *.
  assert (AL : forall p, in_bounds p (h, d, w) = true ->
                (exists q', fst (fst p) - ay = q' * 3) -> aligned (h, d, w) (ay, az, ax) p).
  { intros p Hp Hq'; apply aligned_iff; now split. }
  destruct (Z_lt_ge_dec ax x) as [Lx | Gx].
  { exists (y, z, x - 1), ((0, 0, 1), 3, 1); simpl; repeat split;
      [cbv; tauto | apply in_bounds_iff; simpl; lia | apply mod3_iff; exists (q); simpl; lia
      | repeat f_equal; lia | lia]. }
  destruct (Z_lt_ge_dec x ax) as [Lx' | Gx'].
  { exists (y, z, x + 1), ((0, 0, -1), 1, 1); simpl; repeat split;
      [cbv; tauto | apply in_bounds_iff; simpl; lia | apply mod3_iff; exists (q); simpl; lia
      | repeat f_equal; lia | lia]. }
  destruct (Z_lt_ge_dec az z) as [Lz | Gz].
  { exists (y, z - 1, x), ((0, 1, 0), 4, 1); simpl; repeat split;
      [cbv; tauto | apply in_bounds_iff; simpl; lia | apply mod3_iff; exists (q); simpl; lia
      | repeat f_equal; lia | lia]. }
  destruct (Z_lt_ge_dec z az) as [Lz' | Gz'].
  { exists (y, z + 1, x), ((0, -1, 0), 2, 1); simpl; repeat split;
      [cbv; tauto | apply in_bounds_iff; simpl; lia | apply mod3_iff; exists (q); simpl; lia
      | repeat f_equal; lia | lia]. }
  destruct (Z_lt_ge_dec ay y) as [Ly | Gy].
  { exists (y - 3, z, x), ((3, 0, 0), 6, 3); simpl; repeat split;
      [cbv; tauto | apply in_bounds_iff; simpl; lia | apply mod3_iff; exists (q - 1); simpl; lia
      | repeat f_equal; lia | lia]. }
  assert (y < ay).
  { destruct (Z.eq_dec y ay) as [-> | ]; [ | lia].
    exfalso; apply NE; repeat f_equal; lia. }
  exists (y + 3, z, x), ((-3, 0, 0), 5, 3); simpl; repeat split;
    [cbv; tauto | apply in_bounds_iff; simpl; lia | apply mod3_iff; exists (q + 1); simpl; lia
    | repeat f_equal; lia | lia].
Qed.

End MazeMoves.

Module HeapProofs.
Import Maze.

Lemma entry_eqb_eq (e f : entry) : entry_eqb e f = true <-> e = f.
Proof.
  destruct e as [k c], f as [k' c']; unfold entry_eqb; simpl.
  rewrite andb_true_iff, Z.eqb_eq, coord_eqb_eq; split.
  - intros [-> ->]; reflexivity.
  - intros E; injection E; auto.
Qed.

Lemma entry_ltb_le (e f : entry) : entry_ltb e f = true -> fst e <= fst f.
Proof.
  unfold entry_ltb; rewrite orb_true_iff, andb_true_iff, Z.ltb_lt, Z.eqb_eq; lia.
Qed.

Lemma entry_ltb_ge (e f : entry) : entry_ltb e f = false -> fst f <= fst e.
Proof.
  unfold entry_ltb; rewrite orb_false_iff, Z.ltb_ge; lia.
Qed.

Lemma heap_min_spec (h : list entry) : forall e,
  In (heap_min e h) (e :: h) /\ forall x, In x (e :: h) -> fst (heap_min e h) <= fst x.
Proof.
  induction h as [ | y t IH]; intros e; simpl.
  - split; [now left | intros x [<- | []]; lia].
  - destruct (IH (if entry_ltb y e then y else e)) as [Hin Hle].
    destruct (entry_ltb y e) eqn:L.
    + split.
      * destruct Hin as [E | Hin]; [right; left; exact E | right; right; exact Hin].
      * intros x [<- | [<- | Hx]].
        -- apply Z.le_trans with (fst y); [apply Hle; now left | now apply entry_ltb_le].
        -- apply Hle; now left.
        -- apply Hle; now right.
    + split.
      * destruct Hin as [E | Hin]; [left; exact E | right; right; exact Hin].
      * intros x [<- | [<- | Hx]].
        -- apply Hle; now left.
        -- apply Z.le_trans with (fst e); [apply Hle; now left | now apply entry_ltb_ge].
        -- apply Hle; now right.
Qed.

Lemma heap_remove_incl (e : entry) (h : list entry) :
  forall x, In x (heap_remove e h) -> In x h.
Proof.
  induction h as [ | y t IH]; simpl; intros x Hx; [assumption | ].
  destruct (entry_eqb y e); [now right | ].
  destruct Hx as [<- | Hx]; [now left | right; now apply IH].
Qed.

Lemma heap_remove_rest (e : entry) (h : list entry) :
  forall x, In x h -> x = e \/ In x (heap_remove e h).
Proof.
  induction h as [ | y t IH]; simpl; intros x Hx; [contradiction | ].
  destruct (entry_eqb y e) eqn:E.
  - apply entry_eqb_eq in E; subst y.
    destruct Hx as [<- | Hx]; [now left | now right].
  - destruct Hx as [<- | Hx]; [right; now left | ].
    destruct (IH x Hx) as [-> | H]; [now left | right; now right].
Qed.

Lemma heap_remove_nodup (e : entry) (h : list entry) :
  NoDup (map snd h) -> In e h ->
  NoDup (map snd (heap_remove e h)) /\ ~ In (snd e) (map snd (heap_remove e h)).
Proof.
  induction h as [ | y t IH]; simpl; intros ND Hin; [contradiction | ].
  inversion ND as [ | ? ? Hy NDt]; subst.
  destruct (entry_eqb y e) eqn:E.
  - apply entry_eqb_eq in E; subst y; now split.
  - destruct Hin as [-> | Hin]; [rewrite (proj2 (entry_eqb_eq e e) eq_refl) in E; discriminate | ].
    destruct (IH NDt Hin) as [ND' Hn]; simpl; split.
    + constructor; [ | exact ND'].
      intros C; apply Hy. apply in_map_iff in C; destruct C as (x & Ex & Hx).
      apply in_map_iff; exists x; split; [exact Ex | now apply (heap_remove_incl e t)].
    + intros [C | C]; [ | now apply Hn].
      apply Hy; rewrite C; now apply in_map.
Qed.

Lemma heappop_spec (h h' : list entry) (m : entry) :
  heappop h = Some (m, h') ->
  In m h
  /\ (forall x, In x h -> fst m <= fst x)
  /\ (forall x, In x h' -> In x h)
  /\ (forall x, In x h -> x = m \/ In x h')
  /\ (NoDup (map snd h) -> NoDup (map snd h') /\ ~ In (snd m) (map snd h')).
Proof.
  destruct h as [ | y t]; simpl; [discriminate | ].
  intros E; injection E as <- <-.
  destruct (heap_min_spec t y) as [Hin Hle].
  repeat split.
  - exact Hin.
  - exact Hle.
  - apply (heap_remove_incl (heap_min y t) (y :: t)).
  - apply (heap_remove_rest (heap_min y t) (y :: t)).
  - now apply (heap_remove_nodup (heap_min y t) (y :: t)).
  - now apply (heap_remove_nodup (heap_min y t) (y :: t)).
Qed.

Lemma heappop_none (h : list entry) : heappop h = None -> h = [].
Proof. destruct h; [reflexivity | discriminate]. Qed.

End HeapProofs.

Module MazeProofs.
Import Grid Maze MazeInv GridProofs MazeMoves HeapProofs.

Section Correct.

Variables a b : coord.
Variable placed_layout : grid Z.
Variable usage_matrix : grid bool.

Let dims : coord := shape placed_layout.

(** The start lies in the layout. *)
Hypothesis Ha : in_bounds a dims = true.

Lemma initial_state_eq : initial_state a placed_layout = Returned (start_state dims a).
Proof.
  unfold initial_state, start_state, put, np_set_try, np_set; simpl; fold dims.
  now rewrite np_norm_in_bounds.
Qed.

Lemma aligned_start : aligned dims a a.
Proof. split; [exact Ha | now rewrite Z.sub_diag]. Qed.

Lemma set_add_fresh (c : coord) (l : list coord) : ~ In c l -> set_add c l = c :: l.
Proof. intros H; unfold set_add; apply mem_not_In in H; now rewrite H. Qed.

Lemma relax_visited (st : state) (u : coord) (mbc : coord * Z * Z) :
  visited (relax a b placed_layout usage_matrix u st mbc) = visited st.
Proof.
  destruct mbc as [[m bt] w]; unfold relax.
  destruct (negb (in_bounds _ _)); [reflexivity | ].
  destruct (mem _ (visited st)); reflexivity.
Qed.

Lemma fold_relax_visited (u : coord) (l : list (coord * Z * Z)) : forall st,
  visited (fold_left (relax a b placed_layout usage_matrix u) l st) = visited st.
Proof.
  induction l as [ | x t IH]; intros st; simpl; [reflexivity | ].
  now rewrite IH, relax_visited.
Qed.

Lemma add_inj (p m m' : coord) : add p m = add p m' -> m = m'.
Proof.
  destruct p as [[y z] x], m as [[dy dz] dx], m' as [[dy' dz'] dx']; simpl.
  intros E; injection E; intros; repeat f_equal; lia.
Qed.

Lemma candidate_cost (mbc mbc' : coord * Z * Z) :
  In mbc candidate_moves -> In mbc' candidate_moves -> fst (fst mbc) = fst (fst mbc') ->
  snd mbc = snd mbc' /\ 0 < snd mbc.
Proof.
  rewrite candidate_moves_eq; simpl.
  intros [<- | [<- | [<- | [<- | [<- | [<- | []]]]]]]
         [<- | [<- | [<- | [<- | [<- | [<- | []]]]]]]; simpl; intros E;
    try discriminate E; split; lia.
Qed.

Lemma net_cost_cons (q p : coord) (rest : list coord) :
  net_cost a b placed_layout usage_matrix (q :: p :: rest) =
    match step_cost a b placed_layout usage_matrix p q,
          net_cost a b placed_layout usage_matrix (p :: rest) with
    | Some c, Some r => Some (c + r)
    | _, _ => None
    end.
Proof. reflexivity. Qed.

Lemma backtrace_from_step (fuel : nat) (bt : grid Z) (cur : coord) :
  coord_eqb cur a = false ->
  backtrace_from a (S fuel) bt cur =
    (code <- np_get bt cur ;;
     i <- index_of code backtraces ;;
     rest <- backtrace_from a fuel bt (add cur (nth i backtrace_movements (0, 0, 0))) ;;
     Returned (cur :: rest)).
Proof. intros H; simpl; now rewrite H. Qed.

Lemma candidate_movement (mbc : coord * Z * Z) :
  In mbc candidate_moves -> In (fst (fst mbc)) movements.
Proof.
  rewrite candidate_moves_eq; simpl.
  intros [<- | [<- | [<- | [<- | [<- | [<- | []]]]]]]; cbv; tauto.
Qed.

Lemma movement_candidate (m : coord) :
  In m movements -> exists mbc, In mbc candidate_moves /\ fst (fst mbc) = m.
Proof.
  intros H.
  assert (H' : In m (map (fun mbc : coord * Z * Z => fst (fst mbc)) candidate_moves))
    by exact H.
  apply in_map_iff in H'; destruct H' as (mbc & E & Hm); now exists mbc.
Qed.

(** Reachability by the six movements inside the layout is alignment. *)
Lemma reachable_aligned (c : coord) : reachable dims a c <-> aligned dims a c.
Proof.
  split.
  - induction 1 as [ | c m Hr IH Hm Hb]; [apply aligned_start | ].
    destruct (movement_candidate m Hm) as (mbc & Hc & <-).
    destruct (move_facts dims a c mbc Hc IH) as [i MS].
    now apply (ms_aligned _ _ _ _ _ MS).
  - remember (Z.to_nat (dist a c)) as n eqn:Hn; revert c Hn.
    induction n as [n IH] using lt_wf_ind; intros c Hn Hc.
    destruct (coord_eq_dec c a) as [-> | NE]; [now apply reachable_start | ].
    destruct (predecessor dims a c Ha Hc NE) as (p & mbc & Hm & Hp & Ep & Dp & Wp).
    assert (Np := dist_nonneg a p).
    rewrite <- Ep; apply reachable_step.
    + apply (IH (Z.to_nat (dist a p))); [lia | reflexivity | exact Hp].
    + now apply candidate_movement.
    + rewrite Ep; apply Hc.
Qed.

Lemma lower_bound_aligned (c : coord) : aligned dims a c -> lower_bound a c = dist a c.
Proof.
  intros Hc; apply aligned_iff in Hc; destruct Hc as [_ [q Hq]].
  destruct a as [[ay az] ax], c as [[y z] x]; unfold lower_bound, dist; cbn [fst snd] in Hq.
  assert (E : (Z.abs (y - ay) + 2) / 3 = Z.abs q).
  { symmetry; apply (Z.div_unique _ 3 (Z.abs q) 2); lia. }
  rewrite E; lia.
Qed.

End Correct.

End MazeProofs.

(** ** Rip-up loop: re-routing *)

Module RerouteProofs.
Import Grid Violation Routing Maze Reroute.

(** Whenever the maze router returns [None] for a selected segment, the
    loop body raises: [None] is stored as the segment's path and then
    iterated by the violation model. *)
Lemma reroute_segment_unreachable (redstone stone : Z) (fuel : nat) (placed_layout : grid Z)
    (R : routing) (usage_matrix : grid bool) (net_name : string) (i : nat)
    (e : net_routing) (s : segment) :
  get_net R net_name = Returned e -> get_segment e i = Returned s ->
  maze_route (fst (pins s)) (snd (pins s)) placed_layout usage_matrix fuel = Returned None ->
  (exists R', assign_net fuel placed_layout (R, usage_matrix) (net_name, i)
              = Returned (R', fst (pins s), snd (pins s))
     /\ R' = set_segment R net_name i (mk_segment (pins s) None (wire s) (violation s)))
  /\ exists x, reroute_segment redstone stone fuel placed_layout (R, usage_matrix) (net_name, i)
               = Raised x.
Proof.
  intros He Hs Hm.
  assert (Ea : assign_net fuel placed_layout (R, usage_matrix) (net_name, i)
               = Returned (set_segment R net_name i
                             (mk_segment (pins s) None (wire s) (violation s)),
                           fst (pins s), snd (pins s))).
  { unfold assign_net; rewrite He; cbn [bind]; rewrite Hs; cbn [bind].
    destruct (pins s) as [pa pb]; cbn [fst snd] in *; now rewrite Hm. }
  split; [eexists; split; [exact Ea | reflexivity] | ].
  unfold reroute_segment; rewrite Ea; cbn [bind].
  assert (Hg : forall R0, get_net R0 net_name = Returned e ->
            get_net (set_segment R0 net_name i
                       (mk_segment (pins s) None (wire s) (violation s))) net_name
            = Returned (mk_net_routing (net_pins e)
                          (replace_nth (segments e) i
                             (mk_segment (pins s) None (wire s) (violation s))))).
  { induction R0 as [ | [k e0] t IH]; simpl; [discriminate | ].
    destruct (String.eqb k net_name) eqn:Ek; simpl; rewrite Ek;
      [intros E; inversion E; subst; reflexivity | exact IH]. }
  rewrite (Hg R He); cbn [bind].
  assert (Hn : forall l j x (y : segment), nth_error l j = Some x ->
            nth_error (replace_nth l j y) j = Some y).
  { induction l as [ | h t IH]; intros [ | j] x y; simpl; try discriminate; auto.
    apply IH. }
  unfold get_segment in *; simpl segments.
  destruct (nth_error (segments e) i) as [s0 | ] eqn:En; [ | discriminate].
  rewrite (Hn _ _ _ _ En); cbn [bind net].
  unfold net_to_wire_and_violation, np_zeros.
  destruct (shape placed_layout) as [[h d] w].
  destruct ((h <? 0) || (d <? 0) || (w <? 0)); cbn [bind]; eexists; reflexivity.
Qed.

(** C2: in a 2x1x3 layout the segment of net n1 joins (0,0,0) and
    (1,0,0), which the maze router cannot connect.  With n1 and n2 selected,
    the maze router returns [None] for n1; the loop stores [None] as the
    segment's path, and raises [TypeError] before n2 is looked at. *)
Theorem reroute_unreachable_raises :
  maze_route (0, 0, 0) (1, 0, 0) layers_layout layers_usage 20 = Returned None
  /\ match assign_net 20 layers_layout (layers_routing, layers_usage) ("n1", 0%nat) with
     | Returned (R', _, _) =>
         (e <- get_net R' "n1" ;; s <- get_segment e 0 ;; Returned (net s)) = Returned None
     | _ => False
     end
  /\ reroute_selected 55 1 20 layers_layout layers_routing layers_usage
       [("n1", 0%nat); ("n2", 0%nat)] = Raised TypeError.
Proof. repeat split; vm_compute; reflexivity. Qed.

End RerouteProofs.

(** ** Net segmenter *)

Module PartitionProofs.
Import Segmenter SegmenterInv.

Lemma conn_mono (E E' : list edge) (x y : coord) :
  (forall e, In e E -> In e E') -> conn E x y -> conn E' x y.
Proof.
  intros H C; induction C as [x | x y Hxy | x y _ IH | x y z _ IH1 _ IH2].
  - apply conn_refl.
  - apply conn_edge; now apply H.
  - now apply conn_sym.
  - now apply conn_trans with y.
Qed.

Lemma conn_cons (e : edge) (E : list edge) (x y : coord) : conn E x y -> conn (e :: E) x y.
Proof. apply conn_mono; intros f Hf; now right. Qed.

Lemma conn_head (u v : coord) (E : list edge) : conn ((u, v) :: E) u v.
Proof. apply conn_edge; now left. Qed.

Lemma in_concat_block (P : list (list coord)) (x : coord) :
  In x (concat P) <-> exists B, In B P /\ In x B.
Proof.
  rewrite in_concat; split; intros (B & H1 & H2); exists B; tauto.
Qed.

Lemma concat_perm (P Q : list (list coord)) :
  Permutation P Q -> Permutation (concat P) (concat Q).
Proof.
  induction 1 as [ | B P Q _ IH | B C P | P Q R _ IH1 _ IH2]; simpl.
  - constructor.
  - now apply Permutation_app_head.
  - rewrite !app_assoc; apply Permutation_app_tail, Permutation_app_comm.
  - now transitivity (concat Q).
Qed.

Lemma pop_perm {X : Type} (Q : list X) : forall i B,
  nth_error Q i = Some B -> Permutation (B :: pop_at Q i) Q.
Proof.
  induction Q as [ | h t IH]; intros [ | i] B; simpl; try discriminate.
  - intros E; injection E as ->; apply Permutation_refl.
  - intros E. transitivity (h :: B :: pop_at t i); [apply perm_swap | ].
    constructor; now apply IH.
Qed.

Lemma replace_perm {X : Type} (P : list X) (U : X) : forall j B,
  nth_error P j = Some B -> Permutation (replace_at P j U) (U :: pop_at P j).
Proof.
  induction P as [ | h t IH]; intros [ | j] B; simpl; try discriminate.
  - intros _; apply Permutation_refl.
  - intros E. transitivity (h :: U :: pop_at t j); [ | apply perm_swap].
    constructor; now apply (IH j B).
Qed.

Lemma nth_error_replace_other {X : Type} (P : list X) (U : X) : forall i j,
  i <> j -> nth_error (replace_at P j U) i = nth_error P i.
Proof.
  induction P as [ | h t IH]; intros [ | i] [ | j] NE; simpl; try reflexivity;
    try congruence.
  apply IH; congruence.
Qed.

Lemma nth_error_replace_same {X : Type} (P : list X) (U : X) : forall j B,
  nth_error P j = Some B -> nth_error (replace_at P j U) j = Some U.
Proof.
  induction P as [ | h t IH]; intros [ | j] B; simpl; try discriminate; auto.
  apply IH.
Qed.

Lemma length_replace {X : Type} (P : list X) (U : X) : forall j,
  length (replace_at P j U) = length P.
Proof. induction P as [ | h t IH]; intros [ | j]; simpl; auto. Qed.

Lemma length_pop {X : Type} (Q : list X) : forall i B,
  nth_error Q i = Some B -> S (length (pop_at Q i)) = length Q.
Proof.
  intros i B H; apply pop_perm in H; apply Permutation_length in H; exact H.
Qed.

Lemma set_union_disjoint (s s' : list coord) :
  (forall x, In x s' -> ~ In x s) -> set_union s s' = s ++ s'.
Proof.
  intros H; unfold set_union; f_equal.
  induction s' as [ | y t IH]; simpl; [reflexivity | ].
  replace (mem y s) with false
    by (symmetry; apply mem_not_In, H; now left).
  simpl; f_equal; apply IH; intros x Hx; apply H; now right.
Qed.

(** In a partition, a vertex lies in one block only. *)
Lemma unique_block_pos (P : list (list coord)) :
  NoDup (concat P) -> forall i j B1 B2 x,
  nth_error P i = Some B1 -> nth_error P j = Some B2 -> In x B1 -> In x B2 -> i = j.
Proof.
  induction P as [ | h t IH]; intros ND [ | i] [ | j] B1 B2 x; simpl;
    try discriminate; intros E1 E2 H1 H2; simpl in ND.
  - reflexivity.
  - injection E1 as ->. exfalso.
    apply NoDup_app_remove_l in ND as ND'.
    assert (In x (concat t)).
    { apply in_concat_block; exists B2; split; [eapply nth_error_In; eassumption | exact H2]. }
    revert ND H1 H. clear. intros ND H1 H.
    induction B1 as [ | y B IH]; [contradiction | ].
    simpl in ND; inversion ND as [ | ? ? Hy ND']; subst.
    destruct H1 as [-> | H1]; [apply Hy, in_or_app; now right | now apply IH].
  - injection E2 as ->. exfalso.
    assert (In x (concat t)).
    { apply in_concat_block; exists B1; split; [eapply nth_error_In; eassumption | exact H1]. }
    revert ND H2 H. clear. intros ND H2 H.
    induction B2 as [ | y B IH]; [contradiction | ].
    simpl in ND; inversion ND as [ | ? ? Hy ND']; subst.
    destruct H2 as [-> | H2]; [apply Hy, in_or_app; now right | now apply IH].
  - f_equal; apply (IH (NoDup_app_remove_l _ _ ND) i j B1 B2 x); assumption.
Qed.

Lemma unique_block (P : list (list coord)) (B1 B2 : list coord) (x : coord) :
  NoDup (concat P) -> In B1 P -> In B2 P -> In x B1 -> In x B2 -> B1 = B2.
Proof.
  intros ND H1 H2 X1 X2.
  apply In_nth_error in H1, H2; destruct H1 as [i Hi], H2 as [j Hj].
  assert (i = j) by (eapply unique_block_pos; eassumption).
  subst j; congruence.
Qed.

Lemma same_block_sym (P : list (list coord)) (x y : coord) :
  same_block P x y -> same_block P y x.
Proof. intros (B & H & Hx & Hy); exists B; tauto. Qed.

Lemma same_block_trans (P : list (list coord)) (x y z : coord) :
  NoDup (concat P) -> same_block P x y -> same_block P y z -> same_block P x z.
Proof.
  intros ND (B & H & Hx & Hy) (B' & H' & Hy' & Hz).
  assert (B = B') by (eapply unique_block; eassumption).
  subst B'; exists B; tauto.
Qed.

Lemma same_block_refl (V : list coord) (E : list edge) (P : list (list coord)) (x : coord) :
  partition_of V E P -> In x V -> same_block P x x.
Proof.
  intros HP Hx; apply (part_cover _ _ _ HP), in_concat_block in Hx.
  destruct Hx as (B & H & Hx); exists B; tauto.
Qed.

(** In a partition, vertices joined by edges share a block. *)
Lemma conn_same_block (V : list coord) (E : list edge) (P : list (list coord)) (x y : coord) :
  partition_of V E P -> In x V -> conn E x y -> same_block P x y /\ In y V.
Proof.
  intros HP Hx C; revert Hx.
  assert (Hin : forall a b, same_block P a b -> In a V /\ In b V).
  { intros a b (B & H & Ha & Hb); split; apply (part_cover _ _ _ HP), in_concat_block;
      exists B; tauto. }
  assert (Key : (In x V \/ In y V) -> same_block P x y).
  { induction C as [x | x y Hxy | x y _ IH | x y z _ IH1 _ IH2]; intros Hx.
    - destruct Hx; now apply (same_block_refl V E P x HP).
    - now apply (part_complete _ _ _ HP).
    - apply same_block_sym, IH; tauto.
    - destruct Hx as [Hx | Hz].
      + assert (S1 := IH1 (or_introl Hx)).
        apply (same_block_trans P x y z (part_nodup _ _ _ HP) S1).
        apply IH2; left; now apply (Hin x y).
      + assert (S2 := IH2 (or_intror Hz)).
        apply (same_block_trans P x y z (part_nodup _ _ _ HP)); [ | exact S2].
        apply IH1; right; now apply (Hin y z). }
  intros Hx; split; [apply Key; now left | ].
  apply (Hin x y), Key; now left.
Qed.

(** Joining the blocks of [u] and [v] gives the components of the graph
    with the edge [(u, v)] added. *)
Lemma merge_partition (V : list coord) (E : list edge) (P : list (list coord))
    (u v : coord) (i j : nat) (Bi Bj : list coord) :
  partition_of V E P ->
  nth_error P i = Some Bi -> In u Bi -> nth_error P j = Some Bj -> In v Bj -> i <> j ->
  partition_of V ((u, v) :: E) (pop_at (replace_at P j (set_union Bj Bi)) i)
  /\ S (length (pop_at (replace_at P j (set_union Bj Bi)) i)) = length P.
Proof.
  intros HP Hi Hu Hj Hv NE.
  assert (ND := part_nodup _ _ _ HP).
  assert (Dis : forall x, In x Bi -> ~ In x Bj).
  { intros x H1 H2; apply NE; eapply unique_block_pos; eassumption. }
  rewrite (set_union_disjoint Bj Bi Dis).
  set (U := Bj ++ Bi). set (Q := replace_at P j U). set (P' := pop_at Q i).
  assert (HQi : nth_error Q i = Some Bi).
  { unfold Q; now rewrite nth_error_replace_other. }
  assert (Perm1 : Permutation (Bi :: P') Q) by (now apply pop_perm).
  assert (Perm2 : Permutation Q (U :: pop_at P j)) by (now apply (replace_perm P U j Bj)).
  assert (Perm3 : Permutation (Bj :: pop_at P j) P) by (now apply pop_perm).
  assert (PermC : Permutation (concat P') (concat P)).
  { apply (Permutation_app_inv_l Bi).
    change (Bi ++ concat P') with (concat (Bi :: P')).
    rewrite (concat_perm _ _ Perm1), (concat_perm _ _ Perm2).
    rewrite <- (concat_perm _ _ Perm3); simpl; unfold U.
    rewrite <- app_assoc.
    rewrite !app_assoc; apply Permutation_app_tail, Permutation_app_comm. }
  assert (F1 : forall B, In B P' -> B = U \/ In B P).
  { intros B H.
    assert (H1 : In B (U :: pop_at P j)).
    { apply (Permutation_in _ Perm2), (Permutation_in _ Perm1); now right. }
    destruct H1 as [<- | H1]; [now left | right].
    apply (Permutation_in _ Perm3); now right. }
  assert (HvU : In v U) by (apply in_or_app; now left).
  assert (HuU : In u U) by (apply in_or_app; now right).
  assert (F2 : In U P').
  { assert (H : In U (Bi :: P')).
    { apply (Permutation_in _ (Permutation_sym Perm1)).
      apply (nth_error_In Q j); unfold Q; now apply (nth_error_replace_same P U j Bj). }
    destruct H as [E' | H]; [ | exact H].
    exfalso; apply (Dis v); [rewrite E'; exact HvU | exact Hv]. }
  assert (F3 : forall B, In B P -> B = Bi \/ B = Bj \/ In B P').
  { intros B H. apply (Permutation_in _ (Permutation_sym Perm3)) in H.
    destruct H as [<- | H]; [tauto | ].
    assert (H1 : In B (Bi :: P')).
    { apply (Permutation_in _ (Permutation_sym Perm1)), (Permutation_in _ (Permutation_sym Perm2)).
      now right. }
    destruct H1 as [<- | H1]; tauto. }
  assert (Hfwd : forall x y, same_block P x y -> same_block P' x y).
  { intros x y (B & HB & Hx & Hy).
    destruct (F3 B HB) as [-> | [-> | H]].
    - exists U; repeat split; [exact F2 | | ]; apply in_or_app; now right.
    - exists U; repeat split; [exact F2 | | ]; apply in_or_app; now left.
    - exists B; tauto. }
  assert (HiP : In Bi P) by (eapply nth_error_In; eassumption).
  assert (HjP : In Bj P) by (eapply nth_error_In; eassumption).
  assert (ToV : forall x, In x U -> conn ((u, v) :: E) x v).
  { intros x Hx; apply in_app_or in Hx; destruct Hx as [Hx | Hx].
    - apply conn_cons, (part_sound _ _ _ HP); exists Bj; tauto.
    - apply conn_trans with u; [ | apply conn_head].
      apply conn_cons, (part_sound _ _ _ HP); exists Bi; tauto. }
  split; [split | ].
  - apply (Permutation_NoDup (Permutation_sym PermC) ND).
  - intros x; rewrite <- (part_cover _ _ _ HP); split; intros H.
    + apply (Permutation_in _ PermC H).
    + apply (Permutation_in _ (Permutation_sym PermC) H).
  - intros x y (B & HB & Hx & Hy).
    destruct (F1 B HB) as [-> | H].
    + apply conn_trans with v; [now apply ToV | apply conn_sym; now apply ToV].
    + apply conn_cons, (part_sound _ _ _ HP); exists B; tauto.
  - intros x y [E' | H].
    + injection E' as <- <-. exists U; tauto.
    + apply Hfwd, (part_complete _ _ _ HP), H.
  - intros B HB; destruct (F1 B HB) as [-> | H].
    + intros C; rewrite C in HvU; contradiction.
    + now apply (part_nonempty _ _ _ HP).
  - unfold P'; rewrite (length_pop Q i Bi HQi); unfold Q; apply length_replace.
Qed.

Lemma initial_partition (V : list coord) :
  NoDup V -> partition_of V [] (map (fun pin => [pin]) V).
Proof.
  intros ND.
  assert (C : concat (map (fun pin : coord => [pin]) V) = V).
  { induction V as [ | x t IH]; simpl; [reflexivity | ].
    f_equal; apply IH; now inversion ND. }
  split.
  - now rewrite C.
  - intros x; now rewrite C.
  - intros x y (B & HB & Hx & Hy).
    apply in_map_iff in HB; destruct HB as (p & <- & _).
    destruct Hx as [<- | []], Hy as [<- | []]; apply conn_refl.
  - contradiction.
  - intros B HB; apply in_map_iff in HB; destruct HB as (p & <- & _); discriminate.
Qed.

Lemma conn_blocks (V : list coord) (E : list edge) (P : list (list coord)) (x y : coord) :
  NoDup (concat P) -> (forall z, In z (concat P) <-> In z V) ->
  (forall a b, In (a, b) E -> same_block P a b) ->
  In x V -> conn E x y -> same_block P x y.
Proof.
  intros ND Cov Cmp Hx C.
  assert (Hin : forall a b, same_block P a b -> In a V /\ In b V).
  { intros a b (B & H & Ha & Hb); split; apply Cov, in_concat_block; exists B; tauto. }
  assert (Key : (In x V \/ In y V) -> same_block P x y).
  { clear Hx. induction C as [x | x y Hxy | x y _ IH | x y z _ IH1 _ IH2]; intros Hv.
    - assert (Hx' : In x V) by tauto.
      apply Cov, in_concat_block in Hx'; destruct Hx' as (B & H & Hb); exists B; tauto.
    - now apply Cmp.
    - apply same_block_sym, IH; tauto.
    - destruct Hv as [Hv | Hv].
      + assert (S1 := IH1 (or_introl Hv)).
        apply (same_block_trans P x y z ND S1), IH2; left; now apply (Hin x y).
      + assert (S2 := IH2 (or_intror Hv)).
        apply (same_block_trans P x y z ND); [ | exact S2].
        apply IH1; right; now apply (Hin y z). }
  apply Key; now left.
Qed.

(** Every forest on [V] has a partition into components, with as many
    blocks as [V] has vertices less the number of edges. *)
Lemma forest_count (V : list coord) (A : list edge) :
  NoDup V -> acyclic A -> (forall u v, In (u, v) A -> In u V /\ In v V) ->
  exists P, partition_of V A P /\ (length A + length P = length V)%nat.
Proof.
  intros ND HA; induction HA as [ | u v E HE IH Hn]; intros Hin.
  - exists (map (fun pin => [pin]) V); split; [now apply initial_partition | ].
    simpl; apply length_map.
  - destruct IH as (P & HP & Hlen); [intros a b H; apply Hin; now right | ].
    destruct (Hin u v (or_introl eq_refl)) as [Hu Hv].
    apply (part_cover _ _ _ HP), in_concat_block in Hu, Hv.
    destruct Hu as (Bi & HBi & Hu), Hv as (Bj & HBj & Hv).
    apply In_nth_error in HBi, HBj; destruct HBi as [i Hi], HBj as [j Hj].
    assert (NE : i <> j).
    { intros ->. apply Hn, (part_sound _ _ _ HP). exists Bi.
      assert (Bi = Bj) by congruence; subst Bj.
      split; [eapply nth_error_In; eassumption | tauto]. }
    destruct (merge_partition V E P u v i j Bi Bj HP Hi Hu Hj Hv NE) as [HP' Hl].
    eexists; split; [exact HP' | simpl; lia].
Qed.

(** A partition has at least as many blocks as any partition it refines. *)
Lemma blocks_le : forall Q P : list (list coord),
  NoDup (concat Q) -> (forall B, In B Q -> B <> []) -> NoDup (concat P) ->
  (forall x, In x (concat Q) -> In x (concat P)) ->
  (forall x y, In x (concat Q) -> same_block P x y -> same_block Q x y) ->
  (length Q <= length P)%nat.
Proof.
  induction Q as [ | B Q IH]; intros P NDQ NE NDP Sub Ref; simpl; [lia | ].
  destruct B as [ | r B]; [exfalso; apply (NE []); [now left | reflexivity] | ].
  simpl in NDQ.
  assert (Hr : In r (concat P)) by (apply Sub; simpl; now left).
  apply in_concat_block in Hr; destruct Hr as (C & HC & HrC).
  apply In_nth_error in HC; destruct HC as [k Hk].
  assert (Perm := pop_perm P k C Hk).
  assert (PermC := concat_perm _ _ Perm); simpl in PermC.
  assert (NDP' : NoDup (concat (pop_at P k))).
  { apply (NoDup_app_remove_l C), (Permutation_NoDup (Permutation_sym PermC) NDP). }
  assert (Out' : forall x, In x (concat Q) -> In x (r :: B) -> False).
  { intros x Hx Hb.
    assert (ND2 : NoDup ((r :: B) ++ concat Q)) by exact NDQ.
    revert ND2 Hx Hb; generalize (r :: B) as B0; intros B0 ND2 Hx Hb.
    induction B0 as [ | b B0 IHB]; [contradiction | ].
    simpl in ND2; inversion ND2 as [ | ? ? Hb' ND3]; subst.
    destruct Hb as [-> | Hb]; [apply Hb', in_or_app; now right | now apply IHB]. }
  assert (L : (length Q <= length (pop_at P k))%nat).
  { apply IH.
    - change (NoDup ((r :: B) ++ concat Q)) in NDQ. now apply NoDup_app_remove_l in NDQ.
    - intros B' HB'; apply NE; now right.
    - exact NDP'.
    - intros x Hx.
      assert (HxP : In x (concat P)) by (apply Sub; simpl; right; apply in_or_app; now right).
      apply (Permutation_in _ (Permutation_sym PermC)) in HxP.
      apply in_app_or in HxP; destruct HxP as [HxC | HxP]; [ | exact HxP].
      exfalso.
      assert (S1 : same_block ((r :: B) :: Q) x r).
      { apply Ref; [simpl; right; apply in_or_app; now right | ].
        exists C; split; [eapply nth_error_In; eassumption | tauto]. }
      destruct S1 as (B' & [<- | HB'] & Hx' & Hr').
      + now apply (Out' x).
      + apply (Out' r); [apply in_concat_block; exists B'; tauto | now left].
    - intros x y Hx (B' & HB' & Hx' & Hy').
      assert (S1 : same_block ((r :: B) :: Q) x y).
      { apply Ref; [simpl; right; apply in_or_app; now right | ].
        exists B'; split; [ | tauto].
        apply (Permutation_in _ Perm); now right. }
      destruct S1 as (B'' & [<- | HB''] & Hx'' & Hy'').
      + exfalso; now apply (Out' x).
      + exists B''; tauto. }
  rewrite <- (length_pop P k C Hk); lia.
Qed.

End PartitionProofs.

Module KruskalTheory.
Import Segmenter SegmenterInv PartitionProofs.

Lemma insert_perm (e : edge) (l : list edge) : Permutation (insert_by_weight e l) (e :: l).
Proof.
  induction l as [ | f t IH]; simpl; [apply Permutation_refl | ].
  destruct (weight e <=? weight f); [apply Permutation_refl | ].
  transitivity (f :: e :: t); [now constructor | apply perm_swap].
Qed.

Lemma sorted_perm (l : list edge) : Permutation (sorted_by_weight l) l.
Proof.
  induction l as [ | e t IH]; simpl; [constructor | ].
  transitivity (e :: sorted_by_weight t); [apply insert_perm | now constructor].
Qed.

Lemma insert_sorted (e : edge) (l : list edge) :
  StronglySorted le_weight l -> StronglySorted le_weight (insert_by_weight e l).
Proof.
  induction 1 as [ | f t Ht IH Hf]; simpl; [repeat constructor | ].
  destruct (weight e <=? weight f) eqn:L.
  - apply Z.leb_le in L; constructor; [now constructor | ].
    constructor; [exact L | ].
    rewrite Forall_forall in Hf |- *; intros x Hx.
    specialize (Hf x Hx); unfold le_weight in *; lia.
  - apply Z.leb_gt in L; constructor; [exact IH | ].
    rewrite Forall_forall in Hf |- *; intros x Hx.
    apply (Permutation_in _ (insert_perm e t)) in Hx.
    destruct Hx as [<- | Hx]; [unfold le_weight; lia | now apply Hf].
Qed.

Lemma sorted_sorted (l : list edge) : StronglySorted le_weight (sorted_by_weight l).
Proof.
  induction l as [ | e t IH]; simpl; [constructor | now apply insert_sorted].
Qed.

(** A sorted list splits, at any threshold, into the light edges and the
    heavier ones. *)
Lemma sorted_split (L : list edge) (t : Z) :
  StronglySorted le_weight L ->
  exists L1 L2, L = L1 ++ L2
    /\ (forall e, In e L1 -> weight e <= t) /\ (forall e, In e L2 -> t < weight e).
Proof.
  induction 1 as [ | f l Hl IH Hf].
  - exists [], []; repeat split; contradiction.
  - destruct (Z_le_gt_dec (weight f) t) as [Le | Gt].
    + destruct IH as (L1 & L2 & -> & H1 & H2).
      exists (f :: L1), L2; repeat split; [ | exact H2].
      intros e [<- | He]; [exact Le | now apply H1].
    + exists [], (f :: l); repeat split; [contradiction | ].
      rewrite Forall_forall in Hf.
      intros e [<- | He]; [lia | ]. specialize (Hf e He); unfold le_weight in Hf; lia.
Qed.

(** *** The greedy choice *)

Lemma greedy_new (A L A' : list edge) :
  greedy_run A L A' -> exists N, A' = N ++ A /\ forall e, In e N -> In e L.
Proof.
  induction 1 as [A | A u v L A' _ _ IH | A u v L A' _ _ IH].
  - exists []; split; [reflexivity | contradiction].
  - destruct IH as (N & -> & HN); exists N; split; [reflexivity | ].
    intros e He; right; now apply HN.
  - destruct IH as (N & -> & HN); exists (N ++ [(u, v)]); split.
    + now rewrite <- app_assoc.
    + intros e He; apply in_app_or in He; destruct He as [He | [<- | []]];
        [right; now apply HN | now left].
Qed.

Lemma greedy_app (A L1 L2 A' : list edge) :
  greedy_run A (L1 ++ L2) A' ->
  exists A1, greedy_run A L1 A1 /\ greedy_run A1 L2 A'.
Proof.
  revert A; induction L1 as [ | [u v] L1 IH]; intros A H; simpl in H.
  - exists A; split; [constructor | exact H].
  - inversion H as [ | ? ? ? ? ? Hc Hr | ? ? ? ? ? Hc Hr]; subst.
    + destruct (IH _ Hr) as (A1 & H1 & H2); exists A1; split; [ | exact H2].
      now apply greedy_skip.
    + destruct (IH _ Hr) as (A1 & H1 & H2); exists A1; split; [ | exact H2].
      now apply greedy_take.
Qed.

Lemma greedy_acyclic (A L A' : list edge) :
  greedy_run A L A' -> acyclic A -> acyclic A'.
Proof.
  induction 1 as [A | A u v L A' _ _ IH | A u v L A' Hn _ IH]; intros HA; auto.
  apply IH; now constructor.
Qed.

Lemma greedy_conn_mono (A L A' : list edge) (x y : coord) :
  greedy_run A L A' -> conn A x y -> conn A' x y.
Proof.
  intros H; destruct (greedy_new _ _ _ H) as (N & -> & _).
  apply conn_mono; intros e He; apply in_or_app; now right.
Qed.

(** Every edge offered ends up with its two ends joined. *)
Lemma greedy_joins (A L A' : list edge) :
  greedy_run A L A' -> forall u v, In (u, v) L -> conn A' u v.
Proof.
  induction 1 as [A | A u v L A' Hc Hr IH | A u v L A' Hn Hr IH]; intros x y Hin.
  - contradiction.
  - destruct Hin as [E | Hin]; [ | now apply IH].
    injection E as <- <-; now apply (greedy_conn_mono A L A').
  - destruct Hin as [E | Hin]; [ | now apply IH].
    injection E as <- <-; apply (greedy_conn_mono _ L A' _ _ Hr), conn_head.
Qed.

(** *** Counting edges below a threshold *)

Lemma cityblock_sym (p q : coord) : cityblock p q = cityblock q p.
Proof. destruct p as [[py pz] px], q as [[qy qz] qx]; simpl; lia. Qed.

Lemma weight_nonneg (e : edge) : 0 <= weight e.
Proof. destruct e as [[[py pz] px] [[qy qz] qx]]; unfold weight; simpl; lia. Qed.

Lemma light_in (t : Z) (E : list edge) (e : edge) :
  In e (light t E) <-> In e E /\ weight e <= t.
Proof. unfold light; now rewrite filter_In, Z.leb_le. Qed.

Lemma light_all (t : Z) (E : list edge) :
  (forall e, In e E -> weight e <= t) -> light t E = E.
Proof.
  induction E as [ | e E IH]; intros H; simpl; [reflexivity | ].
  replace (weight e <=? t) with true by (symmetry; apply Z.leb_le, H; now left).
  f_equal; apply IH; intros f Hf; apply H; now right.
Qed.

Lemma light_none (t : Z) (E : list edge) :
  (forall e, In e E -> t < weight e) -> light t E = [].
Proof.
  induction E as [ | e E IH]; intros H; simpl; [reflexivity | ].
  replace (weight e <=? t) with false
    by (symmetry; apply Z.leb_gt, H; now left).
  apply IH; intros f Hf; apply H; now right.
Qed.

Lemma acyclic_light (t : Z) (E : list edge) : acyclic E -> acyclic (light t E).
Proof.
  induction 1 as [ | u v E HE IH Hn]; simpl; [constructor | ].
  destruct (weight (u, v) <=? t); [ | exact IH].
  constructor; [exact IH | ].
  intros C; apply Hn; revert C; apply conn_mono.
  intros e He; now apply light_in in He.
Qed.

Lemma acyclic_noloop (E : list edge) (u v : coord) : acyclic E -> In (u, v) E -> u <> v.
Proof.
  induction 1 as [ | a b E HE IH Hn]; intros Hin; [contradiction | ].
  destruct Hin as [E' | Hin]; [ | now apply IH].
  injection E' as -> ->; intros ->; apply Hn, conn_refl.
Qed.

(** After a greedy run over a sorted offer of the complete graph, the
    edges kept below a threshold are as many as the vertices less the
    components of the graph of all edges below the threshold. *)
Lemma greedy_light (V : list coord) (L F : list edge) (t : Z) :
  NoDup V -> complete_on V L -> StronglySorted le_weight L -> greedy_run [] L F ->
  exists P, (length (light t F) + length P = length V)%nat
    /\ NoDup (concat P) /\ (forall x, In x (concat P) <-> In x V)
    /\ (forall B, In B P -> B <> [])
    /\ (forall x y, In x V -> In y V -> x <> y -> cityblock x y <= t -> same_block P x y).
Proof.
  intros ND [Hin Hall] HS Hrun.
  destruct (sorted_split L t HS) as (L1 & L2 & -> & H1 & H2).
  destruct (greedy_app _ _ _ _ Hrun) as (F1 & R1 & R2).
  destruct (greedy_new _ _ _ R1) as (N1 & -> & HN1); rewrite app_nil_r in *.
  destruct (greedy_new _ _ _ R2) as (N2 & -> & HN2).
  assert (EL : light t (N2 ++ N1) = N1).
  { unfold light; rewrite filter_app; fold (light t N2) (light t N1).
    rewrite light_none by (intros e He; apply H2, HN2, He).
    rewrite light_all by (intros e He; apply H1, HN1, He). reflexivity. }
  destruct (forest_count V N1 ND) as (P & HP & Hlen).
  { apply (greedy_acyclic _ _ _ R1); constructor. }
  { intros u v Huv.
    destruct (Hin u v) as (Hu & Hv & _); [apply in_or_app; left; now apply HN1 | tauto]. }
  exists P; rewrite EL; repeat split; try apply HP; try exact Hlen.
  intros x y Hx Hy NE Hw.
  apply (conn_same_block V N1 P x y HP Hx).
  assert (Hxy : In (x, y) L1 \/ In (y, x) L1).
  { destruct (Hall x y Hx Hy NE) as [H | H]; apply in_app_or in H; destruct H as [H | H].
    - now left.
    - apply H2 in H; unfold weight in H; simpl in H; lia.
    - now right.
    - apply H2 in H; unfold weight in H; simpl in H; rewrite cityblock_sym in H; lia. }
  destruct Hxy as [H | H];
    [ | apply conn_sym]; now apply (greedy_joins _ _ _ R1).
Qed.

(** No forest on the same vertices has more edges below a threshold. *)
Lemma forest_light_le (V : list coord) (L F T : list edge) (t : Z) :
  NoDup V -> complete_on V L -> StronglySorted le_weight L -> greedy_run [] L F ->
  acyclic T -> (forall u v, In (u, v) T -> In u V /\ In v V) ->
  (length (light t T) <= length (light t F))%nat.
Proof.
  intros ND HC HS Hrun HT Tin.
  destruct (greedy_light V L F t ND HC HS Hrun) as (P & Hlen & NDP & Cov & NEP & Hblk).
  destruct (forest_count V (light t T) ND (acyclic_light t T HT)) as (PT & HPT & HlenT).
  { intros u v Huv; apply light_in in Huv; now apply Tin. }
  assert (Hle : (length P <= length PT)%nat).
  { apply blocks_le; try assumption.
    - apply (part_nodup _ _ _ HPT).
    - intros x Hx; apply (part_cover _ _ _ HPT), Cov, Hx.
    - intros x y Hx Hs.
      apply (conn_blocks V (light t T) P x y NDP Cov); [ | now apply Cov | ].
      + intros a b Hab; apply light_in in Hab; destruct Hab as [Hab Hw].
        destruct (Tin a b Hab) as [Ha Hb].
        apply Hblk; [exact Ha | exact Hb | now apply (acyclic_noloop T) | exact Hw].
      + now apply (part_sound _ _ _ HPT). }
  lia.
Qed.

(** *** From counts to weights *)

Lemma capped_succ (k : Z) (E : list edge) :
  0 <= k ->
  capped (k + 1) E = capped k E + Z.of_nat (length E) - Z.of_nat (length (light k E)).
Proof.
  intros Hk; induction E as [ | e E IH]; [reflexivity | ].
  unfold capped in *; simpl map; simpl fold_right; simpl light.
  rewrite IH; destruct (weight e <=? k) eqn:L.
  - apply Z.leb_le in L; simpl length; lia.
  - apply Z.leb_gt in L; simpl length; lia.
Qed.

Lemma capped_zero (E : list edge) : capped 0 E = 0.
Proof.
  induction E as [ | e E IH]; [reflexivity | ].
  unfold capped in *; simpl; rewrite IH.
  assert (H := weight_nonneg e); lia.
Qed.

Lemma capped_big (k : Z) (E : list edge) :
  (forall e, In e E -> weight e <= k) -> capped k E = total_weight E.
Proof.
  induction E as [ | e E IH]; intros H; [reflexivity | ].
  unfold capped, total_weight in *; simpl.
  rewrite IH by (intros f Hf; apply H; now right).
  specialize (H e (or_introl eq_refl)); lia.
Qed.

Lemma total_weight_nonneg (E : list edge) : 0 <= total_weight E.
Proof.
  induction E as [ | e E IH]; unfold total_weight in *; simpl; [lia | ].
  assert (H := weight_nonneg e); lia.
Qed.

Lemma weight_le_total (E : list edge) (e : edge) : In e E -> weight e <= total_weight E.
Proof.
  induction E as [ | f E IH]; [contradiction | ].
  unfold total_weight in *; simpl; intros [<- | H].
  - assert (P := total_weight_nonneg E); unfold total_weight in P; lia.
  - specialize (IH H); assert (P := weight_nonneg f); lia.
Qed.

(** With as many edges in all, and at least as many below every
    threshold, the total weight is no larger. *)
Lemma dominated_weight (F T : list edge) :
  length F = length T ->
  (forall t, (length (light t T) <= length (light t F))%nat) ->
  total_weight F <= total_weight T.
Proof.
  intros Hlen Hdom.
  assert (Cap : forall k : nat, capped (Z.of_nat k) F <= capped (Z.of_nat k) T).
  { induction k as [ | k IH]; [simpl; rewrite !capped_zero; lia | ].
    rewrite Nat2Z.inj_succ; unfold Z.succ.
    rewrite !capped_succ by lia.
    specialize (Hdom (Z.of_nat k)); lia. }
  set (k := Z.to_nat (total_weight F + total_weight T)).
  assert (PF := total_weight_nonneg F). assert (PT := total_weight_nonneg T).
  rewrite <- (capped_big (Z.of_nat k) F), <- (capped_big (Z.of_nat k) T).
  - apply Cap.
  - intros e He; apply weight_le_total in He; unfold k; lia.
  - intros e He; apply weight_le_total in He; unfold k; lia.
Qed.

(** A spanning tree has one edge less than there are vertices. *)
Lemma spanning_count (V : list coord) (T : list edge) :
  NoDup V -> V <> [] -> spanning_tree V T -> S (length T) = length V.
Proof.
  intros ND NE (HT & Tin & Tsp).
  destruct (forest_count V T ND HT Tin) as (P & HP & Hlen).
  assert (L1 : (length P <= length [V])%nat).
  { apply blocks_le.
    - apply (part_nodup _ _ _ HP).
    - apply (part_nonempty _ _ _ HP).
    - simpl; now rewrite app_nil_r.
    - intros x Hx; simpl; rewrite app_nil_r; now apply (part_cover _ _ _ HP).
    - intros x y Hx (B & [<- | []] & Hx' & Hy').
      apply (conn_same_block V T P x y HP Hx'), Tsp; assumption. }
  assert (L2 : (1 <= length P)%nat).
  { destruct V as [ | x V]; [congruence | ].
    assert (Hx : In x (concat P)) by (apply (part_cover _ _ _ HP); now left).
    destruct P; [contradiction | simpl; lia]. }
  simpl in L1; lia.
Qed.

Lemma greedy_spanning (V : list coord) (L F : list edge) :
  complete_on V L -> greedy_run [] L F -> spanning_tree V F.
Proof.
  intros [Hin Hall] Hrun; repeat split.
  - apply (greedy_acyclic _ _ _ Hrun); constructor.
  - destruct (greedy_new _ _ _ Hrun) as (N & -> & HN); rewrite app_nil_r in H.
    now apply (Hin u v), HN.
  - destruct (greedy_new _ _ _ Hrun) as (N & -> & HN); rewrite app_nil_r in H.
    now apply (Hin u v), HN.
  - intros p q Hp Hq.
    destruct (coord_eq_dec p q) as [-> | NE]; [apply conn_refl | ].
    destruct (Hall p q Hp Hq NE) as [H | H];
      [ | apply conn_sym]; now apply (greedy_joins _ _ _ Hrun).
Qed.

(** The greedy choice over a sorted offer of the complete graph is a
    spanning tree of least total weight. *)
Theorem greedy_minimal (V : list coord) (L F T : list edge) :
  NoDup V -> V <> [] -> complete_on V L -> StronglySorted le_weight L ->
  greedy_run [] L F -> spanning_tree V T ->
  total_weight F <= total_weight T.
Proof.
  intros ND NE HC HS Hrun HT.
  apply dominated_weight.
  - assert (H1 := spanning_count V F ND NE (greedy_spanning V L F HC Hrun)).
    assert (H2 := spanning_count V T ND NE HT). lia.
  - intros t; destruct HT as (HT & Tin & _).
    now apply (forest_light_le V L F T t).
Qed.

End KruskalTheory.

Module SegmenterProofs.
Import Segmenter SegmenterInv PartitionProofs KruskalTheory.

Lemma find_set_from_spec (sets : list (list coord)) (u : coord) : forall i,
  (exists B, In B sets /\ In u B) ->
  exists k B, find_set_from sets u i = i + Z.of_nat k
    /\ nth_error sets k = Some B /\ In u B.
Proof.
  induction sets as [ | s t IH]; intros i (B & HB & Hu); [contradiction | ].
  simpl; destruct (mem u s) eqn:M.
  - exists 0%nat, s; repeat split; [lia | now apply mem_In].
  - destruct (IH (i + 1)) as (k & B' & E & Hn & Hu').
    + destruct HB as [-> | HB]; [apply mem_not_In in M; contradiction | exists B; tauto].
    + exists (S k), B'; repeat split; [lia | exact Hn | exact Hu'].
Qed.

Lemma find_set_spec (V : list coord) (E : list edge) (sets : list (list coord)) (u : coord) :
  partition_of V E sets -> In u V ->
  exists k B, find_set sets u = Z.of_nat k /\ nth_error sets k = Some B /\ In u B.
Proof.
  intros HP Hu; apply (part_cover _ _ _ HP), in_concat_block in Hu.
  destruct (find_set_from_spec sets u 0 Hu) as (k & B & E' & H); exists k, B.
  split; [unfold find_set; rewrite E'; lia | exact H].
Qed.

Lemma py_pos_nat (len k : nat) : py_pos len (Z.of_nat k) = k.
Proof.
  unfold py_pos.
  replace (Z.of_nat k <? 0) with false by (symmetry; apply Z.ltb_ge; lia).
  apply Nat2Z.id.
Qed.

Lemma edge_eqb_eq (e f : edge) : edge_eqb e f = true <-> e = f.
Proof.
  destruct e as [a b], f as [c d]; unfold edge_eqb; simpl.
  rewrite andb_true_iff, !coord_eqb_eq; split; [intros [-> ->]; reflexivity | ].
  intros E; injection E; auto.
Qed.

Lemma edge_add_new (e : edge) (A : list edge) : ~ In e A -> edge_add e A = e :: A.
Proof.
  intros H; unfold edge_add.
  destruct (existsb (edge_eqb e) A) eqn:X; [ | reflexivity].
  apply existsb_exists in X; destruct X as (f & Hf & E).
  apply edge_eqb_eq in E; subst f; contradiction.
Qed.

(** One round of the loop makes the greedy choice and keeps [sets] the
    components of the edges chosen. *)
Lemma kruskal_step_spec (V : list coord) (sets : list (list coord)) (A : list edge)
    (u v : coord) :
  partition_of V A sets -> In u V -> In v V ->
  (conn A u v /\ kruskal_step (sets, A) (u, v) = (sets, A))
  \/ (~ conn A u v
      /\ snd (kruskal_step (sets, A) (u, v)) = (u, v) :: A
      /\ partition_of V ((u, v) :: A) (fst (kruskal_step (sets, A) (u, v)))).
Proof.
  intros HP Hu Hv.
  destruct (find_set_spec V A sets u HP Hu) as (i & Bi & Ei & Hi & HuB).
  destruct (find_set_spec V A sets v HP Hv) as (j & Bj & Ej & Hj & HvB).
  unfold kruskal_step; rewrite Ei, Ej.
  destruct (Z.of_nat i =? Z.of_nat j) eqn:Q; simpl negb; cbv iota.
  - left; split; [ | reflexivity].
    apply Z.eqb_eq, Nat2Z.inj in Q; subst j.
    assert (Bi = Bj) by congruence; subst Bj.
    apply (part_sound _ _ _ HP); exists Bi; split; [eapply nth_error_In; eassumption | tauto].
  - right. apply Z.eqb_neq in Q.
    assert (NE : i <> j) by congruence.
    assert (Hn : ~ conn A u v).
    { intros C. destruct (conn_same_block V A sets u v HP Hu C) as [(B & HB & H1 & H2) _].
      apply In_nth_error in HB; destruct HB as [p Hp].
      assert (i = p) by (eapply (unique_block_pos sets (part_nodup _ _ _ HP)); eassumption).
      assert (j = p) by (eapply (unique_block_pos sets (part_nodup _ _ _ HP)); eassumption).
      congruence. }
    rewrite length_replace, !py_pos_nat.
    rewrite (nth_error_nth _ _ _ Hi), (nth_error_nth _ _ _ Hj).
    destruct (merge_partition V A sets u v i j Bi Bj HP Hi HuB Hj HvB NE) as [HP' _].
    cbn [fst snd]; split; [exact Hn | split; [ | exact HP']].
    apply edge_add_new; intros C; apply Hn; now apply conn_edge.
Qed.

Lemma kruskal_loop_greedy (V : list coord) : forall L sets A,
  partition_of V A sets -> (forall u v, In (u, v) L -> In u V /\ In v V) ->
  greedy_run A L (snd (fold_left kruskal_step L (sets, A))).
Proof.
  induction L as [ | [u v] L IH]; intros sets A HP Hin; [constructor | ].
  change (fold_left kruskal_step ((u, v) :: L) (sets, A))
    with (fold_left kruskal_step L (kruskal_step (sets, A) (u, v))).
  destruct (Hin u v (or_introl eq_refl)) as [Hu Hv].
  assert (Hin' : forall a b, In (a, b) L -> In a V /\ In b V)
    by (intros a b H; apply Hin; now right).
  destruct (kruskal_step_spec V sets A u v HP Hu Hv) as [[C E] | (Hn & E & HP')].
  - rewrite E; apply greedy_skip; [exact C | now apply IH].
  - destruct (kruskal_step (sets, A) (u, v)) as [sets' A']; simpl in E, HP'; subst A'.
    apply greedy_take; [exact Hn | now apply IH].
Qed.

(** *** The textbook version *)

Lemma conn_label (A : list edge) (label : coord -> Z) (x y : coord) :
  (forall a b, In (a, b) A -> label a = label b) -> conn A x y -> label x = label y.
Proof.
  intros H C; induction C as [x | x y Hxy | x y _ IH | x y z _ IH1 _ IH2];
    [reflexivity | now apply H | now symmetry | congruence].
Qed.

Lemma reference_loop_greedy (V : list coord) : forall L label A,
  (forall a b, In (a, b) A -> label a = label b) ->
  (forall x y, In x V -> In y V -> label x = label y -> conn A x y) ->
  (forall u v, In (u, v) L -> In u V /\ In v V) ->
  greedy_run A L (snd (fold_left reference_step L (label, A))).
Proof.
  induction L as [ | [u v] L IH]; intros label A H1 H2 Hin; [constructor | ].
  change (fold_left reference_step ((u, v) :: L) (label, A))
    with (fold_left reference_step L (reference_step (label, A) (u, v))).
  destruct (Hin u v (or_introl eq_refl)) as [Hu Hv].
  assert (Hin' : forall a b, In (a, b) L -> In a V /\ In b V)
    by (intros a b H; apply Hin; now right).
  unfold reference_step at 2.
  destruct (label u =? label v) eqn:Q.
  - apply Z.eqb_eq in Q.
    apply greedy_skip; [now apply H2 | now apply IH].
  - apply Z.eqb_neq in Q.
    apply greedy_take; [intros C; apply Q; now apply (conn_label A) | ].
    apply IH; [ | | exact Hin'].
    + intros a b [E | Hab].
      * injection E as <- <-. rewrite Z.eqb_refl.
        destruct (label v =? label u) eqn:Q'; [reflexivity | reflexivity].
      * now rewrite (H1 a b Hab).
    + intros x y Hx Hy.
      destruct (label x =? label u) eqn:Qx, (label y =? label u) eqn:Qy;
        rewrite ?Z.eqb_eq, ?Z.eqb_neq in *; intros E.
      * apply conn_cons, H2; congruence.
      * apply conn_trans with u; [apply conn_cons, H2; congruence | ].
        apply conn_trans with v; [apply conn_head | apply conn_cons, H2; congruence].
      * apply conn_sym.
        apply conn_trans with u; [apply conn_cons, H2; congruence | ].
        apply conn_trans with v; [apply conn_head | apply conn_cons, H2; congruence].
      * apply conn_cons, H2; congruence.
Qed.

Lemma position_inj (V : list coord) (x y : coord) :
  In x V -> In y V -> position V x = position V y -> x = y.
Proof.
  assert (P : forall l z, 0 <= position l z).
  { induction l as [ | q t IH]; intros z; cbn [position]; [lia | ].
    destruct (coord_eqb q z); [lia | specialize (IH z); lia]. }
  induction V as [ | q t IH]; [contradiction | ]; cbn [position]; intros Hx Hy.
  destruct (coord_eqb_spec q x) as [Ex | Nx], (coord_eqb_spec q y) as [Ey | Ny].
  - intros _; congruence.
  - specialize (P t y); lia.
  - specialize (P t x); lia.
  - intros E; apply IH; [destruct Hx; tauto | destruct Hy; tauto | lia].
Qed.

(** *** The edges offered *)

Lemma pairs_in (V : list coord) (u v : coord) :
  In (u, v) (pairs V) -> In u V /\ In v V /\ (NoDup V -> u <> v).
Proof.
  induction V as [ | p t IH]; simpl; [contradiction | ]; intros H.
  apply in_app_or in H; destruct H as [H | H].
  - apply in_map_iff in H; destruct H as (q & E & Hq); injection E as <- <-.
    repeat split; [now left | now right | ].
    intros ND ->; inversion ND; contradiction.
  - destruct (IH H) as (Hu & Hv & Hn); repeat split; [now right | now right | ].
    intros ND; apply Hn; now inversion ND.
Qed.

Lemma pairs_all (V : list coord) (u v : coord) :
  In u V -> In v V -> u <> v -> In (u, v) (pairs V) \/ In (v, u) (pairs V).
Proof.
  induction V as [ | p t IH]; simpl; [contradiction | ]; intros Hu Hv NE.
  destruct Hu as [-> | Hu], Hv as [-> | Hv]; [congruence | | | ].
  - left; apply in_or_app; left; now apply in_map.
  - right; apply in_or_app; left; now apply in_map.
  - destruct (IH Hu Hv NE); [left | right]; apply in_or_app; now right.
Qed.

Lemma complete_pairs (V : list coord) :
  NoDup V -> complete_on V (sorted_by_weight (pairs V)).
Proof.
  intros ND; split.
  - intros u v H; apply (Permutation_in _ (sorted_perm _)) in H.
    destruct (pairs_in V u v H) as (Hu & Hv & Hn); auto.
  - intros u v Hu Hv NE.
    destruct (pairs_all V u v Hu Hv NE) as [H | H]; [left | right];
      apply (Permutation_in _ (Permutation_sym (sorted_perm _))), H.
Qed.

Lemma complete_keys (V : list coord) (keys : list edge) :
  weights_keys V keys -> complete_on V (sorted_by_weight keys).
Proof.
  intros [_ HK]; split.
  - intros u v H; apply (Permutation_in _ (sorted_perm _)) in H; now apply HK.
  - intros u v Hu Hv NE; left.
    apply (Permutation_in _ (Permutation_sym (sorted_perm _))), HK; auto.
Qed.

Lemma insertion_keys_ok (V : list coord) : weights_keys V (insertion_keys V).
Proof.
  unfold insertion_keys; split; [apply NoDup_nodup | ].
  intros u v; rewrite nodup_In, in_flat_map; split.
  - intros (p & Hp & H); apply in_flat_map in H; destruct H as (q & Hq & H).
    destruct (coord_eqb_spec p q) as [ | NE]; [contradiction | ].
    destruct H as [E | []]; injection E as <- <-; auto.
  - intros (Hu & Hv & NE); exists u; split; [exact Hu | ].
    apply in_flat_map; exists v; split; [exact Hv | ].
    apply coord_eqb_neq in NE; rewrite NE; now left.
Qed.

(** The code's run and the textbook run are both greedy. *)
Lemma minimum_spanning_tree_greedy (keys : list edge) (pins : list coord) :
  NoDup pins -> weights_keys pins keys ->
  greedy_run [] (sorted_by_weight keys) (minimum_spanning_tree keys pins).
Proof.
  intros ND HK; unfold minimum_spanning_tree.
  apply (kruskal_loop_greedy pins); [now apply initial_partition | ].
  intros u v H; destruct (complete_keys pins keys HK) as [Hin _].
  destruct (Hin u v H); tauto.
Qed.

Lemma kruskal_reference_greedy (pins : list coord) :
  NoDup pins ->
  greedy_run [] (sorted_by_weight (pairs pins)) (kruskal_reference pins).
Proof.
  intros ND; unfold kruskal_reference.
  apply (reference_loop_greedy pins).
  - contradiction.
  - intros x y Hx Hy E; rewrite (position_inj pins x y Hx Hy E); apply conn_refl.
  - intros u v H; destruct (complete_pairs pins ND) as [Hin _].
    destruct (Hin u v H); tauto.
Qed.

(** What [minimum_spanning_tree] returns for duplicate-free pins. *)
Lemma minimum_spanning_tree_correct (keys : list edge) (pins : list coord) :
  NoDup pins -> (2 <= length pins)%nat -> weights_keys pins keys ->
  spanning_tree pins (minimum_spanning_tree keys pins)
  /\ S (length (minimum_spanning_tree keys pins)) = length pins
  /\ (forall T, spanning_tree pins T ->
        total_weight (minimum_spanning_tree keys pins) <= total_weight T)
  /\ total_weight (minimum_spanning_tree keys pins) = total_weight (kruskal_reference pins).
Proof.
  intros ND Hlen HK.
  assert (NE : pins <> []) by (destruct pins; [simpl in Hlen; lia | discriminate]).
  assert (G1 := minimum_spanning_tree_greedy keys pins ND HK).
  assert (G2 := kruskal_reference_greedy pins ND).
  assert (C1 := complete_keys pins keys HK).
  assert (C2 := complete_pairs pins ND).
  assert (S1 := greedy_spanning pins _ _ C1 G1).
  assert (S2 := greedy_spanning pins _ _ C2 G2).
  split; [exact S1 | split; [now apply spanning_count | split]].
  - intros T HT; apply (greedy_minimal pins _ _ T ND NE C1 (sorted_sorted keys) G1 HT).
  - apply Z.le_antisymm.
    + apply (greedy_minimal pins _ _ _ ND NE C1 (sorted_sorted keys) G1 S2).
    + apply (greedy_minimal pins _ _ _ ND NE C2 (sorted_sorted _) G2 S1).
Qed.

(** C3: for every net of at least two (distinct) pins, whatever the order
    in which the dict yields its keys, the segments recorded for the net form
    a tree spanning all the pins (acyclic, every two pins joined, one edge
    less than pins), no spanning tree of the pins weighs less, and the total
    weight is that of the textbook Kruskal run on the same pins. *)
Theorem create_net_segments_mst (keys_of : list coord -> list edge)
    (pin_locations : list (string * list coord)) (net : string) (pins : list coord) :
  In (net, pins) pin_locations ->
  NoDup pins -> (2 <= length pins)%nat -> weights_keys pins (keys_of pins) ->
  exists A,
    In (net, A) (create_net_segments keys_of pin_locations)
    /\ A = minimum_spanning_tree (keys_of pins) pins
    /\ spanning_tree pins A
    /\ S (length A) = length pins
    /\ (forall T, spanning_tree pins T -> total_weight A <= total_weight T)
    /\ total_weight A = total_weight (kruskal_reference pins).
Proof.
  intros Hin ND Hlen HK.
  exists (minimum_spanning_tree (keys_of pins) pins); split; [ | split; [reflexivity | ]].
  - unfold create_net_segments; apply in_flat_map; exists (net, pins); split; [exact Hin | ].
    replace (length pins <? 2)%nat with false
      by (symmetry; apply Nat.ltb_ge; exact Hlen).
    now left.
  - now apply minimum_spanning_tree_correct.
Qed.

Lemma create_net_segments_mst_witness :
  exists A,
    In ("n1", A) (create_net_segments insertion_keys [("n0", [(0, 0, 0)]); ("n1", square_pins)])
    /\ A = minimum_spanning_tree (insertion_keys square_pins) square_pins
    /\ spanning_tree square_pins A
    /\ S (length A) = length square_pins
    /\ (forall T, spanning_tree square_pins T -> total_weight A <= total_weight T)
    /\ total_weight A = total_weight (kruskal_reference square_pins).
Proof.
  apply (create_net_segments_mst insertion_keys
           [("n0", [(0, 0, 0)]); ("n1", square_pins)] "n1" square_pins).
  - simpl; tauto.
  - repeat constructor; simpl; intuition congruence.
  - simpl; lia.
  - apply insertion_keys_ok.
Defined.

(** The square of the specification: three edges, total weight 30. *)
Example square_segments :
  length (minimum_spanning_tree (insertion_keys square_pins) square_pins) = 3%nat
  /\ total_weight (minimum_spanning_tree (insertion_keys square_pins) square_pins) = 30.
Proof. split; vm_compute; reflexivity. Qed.

End SegmenterProofs.

(** * Further properties of the code *)

(** ** The initial router *)

Module DumbExtra.
Import Dumb DumbProofs.

(** X1: every voxel of the initial route lies on the layer of [a] and
    inside the rectangle spanned by the two pins. *)
Theorem dumb_route_in_rectangle (a b : coord) :
  Forall (fun c =>
            fst (fst c) = fst (fst a)
            /\ Z.min (snd (fst a)) (snd (fst b)) <= snd (fst c)
                 <= Z.max (snd (fst a)) (snd (fst b))
            /\ Z.min (snd a) (snd b) <= snd c <= Z.max (snd a) (snd b))
         (dumb_route a b).
Proof.
  rewrite dumb_route_passes; apply Forall_app.
  destruct a as [[ay az] ax], b as [[by_ bz] bx]; unfold pass_x, pass_z; simpl.
  split; apply Forall_forall; intros c Hc; apply in_map_iff in Hc;
    destruct Hc as (i & <- & Hi); apply xrange_In in Hi; simpl; lia.
Qed.

(** X2: the initial route always holds the pin [a] and the voxel
    of [b] moved to the layer of [a]; it holds [b] itself exactly when the
    two pins are on one layer. *)
Theorem dumb_route_endpoints (a b : coord) :
  In a (dumb_route a b)
  /\ In (fst (fst a), snd (fst b), snd b) (dumb_route a b)
  /\ (In b (dumb_route a b) <-> fst (fst b) = fst (fst a)).
Proof.
  assert (R := dumb_route_in_rectangle a b); rewrite Forall_forall in R.
  assert (T : In b (dumb_route a b) -> fst (fst b) = fst (fst a)).
  { intros H; now destruct (R _ H) as [E _]. }
  clear R; revert T; rewrite dumb_route_passes.
  destruct a as [[ay az] ax], b as [[by_ bz] bx]; unfold pass_x, pass_z; simpl; intros T.
  assert (Ha : In (ay, az, ax)
                 (map (fun x => (ay, az, x)) (xrange (Z.min ax bx) (Z.max ax bx + 1)))).
  { apply in_map_iff; exists ax; split; [reflexivity | apply xrange_In; lia]. }
  assert (Hb : In (ay, bz, bx)
                 (map (fun z => (ay, z, bx)) (xrange (Z.min az bz) (Z.max az bz + 1)))).
  { apply in_map_iff; exists bz; split; [reflexivity | apply xrange_In; lia]. }
  split; [apply in_or_app; now left | ].
  split; [apply in_or_app; now right | ].
  split; [exact T | ].
  intros ->; apply in_or_app; now right.
Qed.

End DumbExtra.


(** ** The wire and violation matrices *)

Module ViolationModel.
Import Grid Violation ViolationSpec GridProofs.

Lemma np_norm_bounds (dims c q : coord) :
  np_norm dims c = Some q -> in_bounds q dims = true.
Proof.
  destruct dims as [[h d] w], c as [[y z] x]; unfold np_norm, np_index.
  intros H; apply in_bounds_iff.
  destruct ((0 <=? y) && (y <? h)) eqn:Y1; [ | destruct ((- h <=? y) && (y <? 0)) eqn:Y2];
  (destruct ((0 <=? z) && (z <? d)) eqn:Z1; [ | destruct ((- d <=? z) && (z <? 0)) eqn:Z2]);
  (destruct ((0 <=? x) && (x <? w)) eqn:X1; [ | destruct ((- w <=? x) && (x <? 0)) eqn:X2]);
  try discriminate H; injection H as <-; simpl;
  repeat match goal with
         | E : (_ && _) = true |- _ => apply andb_prop in E; destruct E
         | E : (_ <=? _) = true |- _ => apply Z.leb_le in E
         | E : (_ <? _) = true |- _ => apply Z.ltb_lt in E
         end; lia.
Qed.

Lemma designates_bounds (dims c q : coord) :
  designates dims c q = true -> in_bounds q dims = true.
Proof.
  unfold designates; destruct (np_norm dims c) as [c' | ] eqn:E; [ | discriminate].
  intros H; apply coord_eqb_eq in H; subst; eapply np_norm_bounds; eauto.
Qed.

Lemma designates_self (dims c : coord) :
  in_bounds c dims = true -> designates dims c c = true.
Proof.
  intros H; unfold designates; rewrite np_norm_in_bounds by assumption.
  apply coord_eqb_refl.
Qed.

Lemma np_index_valid (n i : Z) :
  - n <= i < n -> np_index n i = Some (if 0 <=? i then i else i + n).
Proof.
  intros H; unfold np_index.
  destruct (Z.leb_spec 0 i), (Z.ltb_spec i n), (Z.leb_spec (- n) i), (Z.ltb_spec i 0);
    simpl; try reflexivity; lia.
Qed.

(** A voxel of the array is a valid index, and so is the voxel under it:
    on layer 0 the index -1 stands for the top layer. *)
Lemma in_bounds_writable (dims c : coord) :
  in_bounds c dims = true -> indexable dims c && indexable dims (below c) = true.
Proof.
  intros H; unfold indexable; rewrite np_norm_in_bounds by assumption.
  apply in_bounds_iff in H.
  destruct dims as [[h d] w], c as [[y z] x]; cbn [fst snd] in H.
  unfold below, np_norm; rewrite !np_index_valid by lia; reflexivity.
Qed.

Lemma np_set_spec {A : Type} (g : grid A) (c : coord) (v : A) :
  if indexable (shape g) c
  then exists g', np_set g c v = Returned g' /\ shape g' = shape g
         /\ forall q, cells g' q = if designates (shape g) c q then v else cells g q
  else np_set g c v = Raised IndexError.
Proof.
  unfold indexable, np_set, designates.
  destruct (np_norm (shape g) c) as [c' | ]; [ | reflexivity].
  eexists; split; [reflexivity | split; [reflexivity | intros q; reflexivity]].
Qed.

Lemma np_set_try_spec {A : Type} (g : grid A) (c : coord) (v : A) :
  shape (np_set_try g c v) = shape g
  /\ forall q, cells (np_set_try g c v) q = if designates (shape g) c q then v else cells g q.
Proof.
  unfold np_set_try, np_set, designates.
  destruct (np_norm (shape g) c) as [c' | ]; split; try reflexivity; intros q; reflexivity.
Qed.

Lemma mark_spec (l : list coord) : forall v : grid bool,
  shape (fold_left (fun v n => np_set_try v n true) l v) = shape v
  /\ forall q, cells (fold_left (fun v n => np_set_try v n true) l v) q
               = cells v q || existsb (fun n => designates (shape v) n q) l.
Proof.
  induction l as [ | n t IH]; intros v; simpl.
  - split; [reflexivity | intros q; now rewrite orb_false_r].
  - destruct (IH (np_set_try v n true)) as [S C].
    destruct (np_set_try_spec v n true) as [S1 C1].
    split; [congruence | ].
    intros q; rewrite C, C1, S1.
    destruct (designates (shape v) n q); simpl; [now rewrite orb_true_r | reflexivity].
Qed.

Lemma footprint_parts (dims : coord) (net : list coord) (q : coord) :
  footprint dims net q = on_path dims net q || under_path dims net q.
Proof.
  induction net as [ | c t IH]; [reflexivity | ].
  cbn [footprint on_path under_path existsb].
  fold (footprint dims t q); fold (on_path dims t q); fold (under_path dims t q).
  rewrite IH.
  destruct (designates dims c q), (designates dims (below c) q), (on_path dims t q);
    reflexivity.
Qed.

Section BlockIds.

Variables redstone stone : Z.

Lemma stamp_spec (dims : coord) (pins : list coord) (w : grid Z) (v : grid bool) (c : coord) :
  shape w = dims -> shape v = dims ->
  if indexable dims c && indexable dims (below c)
  then exists w' v', stamp redstone stone pins (w, v) c = Returned (w', v')
         /\ shape w' = dims /\ shape v' = dims
         /\ (forall q, cells w' q = if designates dims (below c) q then stone
                                    else if designates dims c q then redstone
                                    else cells w q)
         /\ (forall q, cells v' q =
               cells v q || (negb (mem c pins)
                             && existsb (fun n => designates dims n q) (neighbours c)))
  else stamp redstone stone pins (w, v) c = Raised IndexError.
Proof.
  intros Sw Sv; unfold stamp; destruct c as [[y z] x].
  change (y - 1, z, x) with (below (y, z, x)); set (c := (y, z, x)).
  assert (H1 := np_set_spec w c redstone); rewrite Sw in H1.
  destruct (indexable dims c); cbn [andb]; [ | rewrite H1; reflexivity].
  destruct H1 as (w1 & E1 & S1 & C1); rewrite E1; cbn [bind].
  assert (H2 := np_set_spec w1 (below c) stone); rewrite S1 in H2.
  destruct (indexable dims (below c)); [ | rewrite H2; reflexivity].
  destruct H2 as (w2 & E2 & S2 & C2); rewrite E2; cbn [bind].
  destruct (mark_spec (neighbours c) v) as [Sm Cm]; rewrite Sv in Sm, Cm.
  eexists; eexists; split; [reflexivity | ].
  split; [congruence | ].
  split; [destruct (negb (mem c pins)); congruence | ].
  split.
  - intros q; rewrite C2, C1; reflexivity.
  - intros q; destruct (negb (mem c pins)); cbn [andb];
      [apply Cm | now rewrite orb_false_r].
Qed.

Lemma stamps_spec (dims : coord) (pins : list coord) (net : list coord) :
  forall (w : grid Z) (v : grid bool), shape w = dims -> shape v = dims ->
  if writable dims net
  then exists w' v', foldM (stamp redstone stone pins) net (w, v) = Returned (w', v')
         /\ shape w' = dims /\ shape v' = dims
         /\ (forall q, cells v' q = cells v q || marked dims pins net q)
         /\ (forall q, footprint dims net q = false -> cells w' q = cells w q)
         /\ (forall q, footprint dims net q = true ->
                       cells w' q = (if under_path dims net q && negb (on_path dims net q)
                                     then stone
                                     else if on_path dims net q && negb (under_path dims net q)
                                     then redstone
                                     else cells w' q)
                       /\ (cells w' q = redstone \/ cells w' q = stone))
  else foldM (stamp redstone stone pins) net (w, v) = Raised IndexError.
Proof.
  induction net as [ | c t IH]; intros w v Sw Sv.
  - cbn [writable forallb foldM]; exists w, v.
    split; [reflexivity | split; [exact Sw | split; [exact Sv | ]]].
    split; [intros q; cbn [marked existsb]; now rewrite orb_false_r | ].
    split; [reflexivity | discriminate].
  - cbn [writable forallb foldM].
    assert (H := stamp_spec dims pins w v c Sw Sv).
    destruct (indexable dims c && indexable dims (below c)); cbn [andb];
      [ | rewrite H; reflexivity].
    destruct H as (w1 & v1 & E1 & Sw1 & Sv1 & Cw1 & Cv1); rewrite E1; cbn [bind].
    specialize (IH w1 v1 Sw1 Sv1); unfold writable in IH.
    destruct (forallb _ t); [ | exact IH].
    destruct IH as (w' & v' & E & Sw' & Sv' & Cv & Cw0 & Cw).
    exists w', v'; split; [exact E | ].
    split; [exact Sw' | split; [exact Sv' | ]].
    split; [ | split].
    + intros q; rewrite Cv, Cv1; cbn [marked existsb]; now rewrite orb_assoc.
    + intros q; cbn [footprint existsb]; intros F.
      apply orb_false_elim in F; destruct F as [F1 F2].
      apply orb_false_elim in F1; destruct F1 as [Fa Fb].
      rewrite (Cw0 q F2), Cw1, Fa, Fb; reflexivity.
    + intros q F.
      cbn [on_path under_path existsb].
      fold (on_path dims t q); fold (under_path dims t q).
      destruct (footprint dims t q) eqn:Ft.
      * destruct (Cw q Ft) as [Cx Cy]; split; [ | exact Cy].
        destruct (under_path dims t q) eqn:U, (on_path dims t q) eqn:O;
          [ | | | rewrite footprint_parts, O, U in Ft; discriminate];
          cbn [andb negb orb] in Cx |- *;
          destruct (designates dims (below c) q), (designates dims c q);
          cbn [andb negb orb]; try reflexivity; exact Cx.
      * rewrite footprint_parts in Ft; apply orb_false_elim in Ft; destruct Ft as [O U].
        assert (Ft : footprint dims t q = false) by (now rewrite footprint_parts, O, U).
        rewrite O, U, !orb_false_r.
        rewrite (Cw0 q Ft), Cw1.
        cbn [footprint existsb] in F; fold (footprint dims t q) in F.
        rewrite Ft, orb_false_r in F.
        destruct (designates dims (below c) q), (designates dims c q);
          cbn [andb negb]; try discriminate F; split; auto.
Qed.

Lemma unstamp_spec (dims : coord) (v : grid bool) (c : coord) :
  shape v = dims ->
  if indexable dims c && indexable dims (below c)
  then exists v', unstamp v c = Returned v' /\ shape v' = dims
         /\ (forall q, cells v' q =
               cells v q && negb (designates dims c q || designates dims (below c) q))
  else unstamp v c = Raised IndexError.
Proof.
  intros Sv; unfold unstamp; destruct c as [[y z] x].
  change (y - 1, z, x) with (below (y, z, x)); set (c := (y, z, x)).
  assert (H1 := np_set_spec v c false); rewrite Sv in H1.
  destruct (indexable dims c); cbn [andb]; [ | rewrite H1; reflexivity].
  destruct H1 as (v1 & E1 & S1 & C1); rewrite E1; cbn [bind].
  assert (H2 := np_set_spec v1 (below c) false); rewrite S1 in H2.
  destruct (indexable dims (below c)); [ | exact H2].
  destruct H2 as (v2 & E2 & S2 & C2).
  exists v2; split; [exact E2 | split; [congruence | ]].
  intros q; rewrite C2, C1.
  destruct (designates dims (below c) q), (designates dims c q), (cells v q); reflexivity.
Qed.

Lemma unstamps_spec (dims : coord) (net : list coord) :
  forall v : grid bool, shape v = dims ->
  if writable dims net
  then exists v', foldM unstamp net v = Returned v' /\ shape v' = dims
         /\ (forall q, cells v' q = cells v q && negb (footprint dims net q))
  else foldM unstamp net v = Raised IndexError.
Proof.
  induction net as [ | c t IH]; intros v Sv.
  - cbn [writable forallb foldM]; exists v.
    split; [reflexivity | split; [exact Sv | ]].
    intros q; cbn [footprint existsb negb]; now rewrite andb_true_r.
  - cbn [writable forallb foldM].
    assert (H := unstamp_spec dims v c Sv).
    destruct (indexable dims c && indexable dims (below c)); cbn [andb];
      [ | rewrite H; reflexivity].
    destruct H as (v1 & E1 & Sv1 & Cv1); rewrite E1; cbn [bind].
    specialize (IH v1 Sv1); unfold writable in IH.
    destruct (forallb _ t); [ | exact IH].
    destruct IH as (v' & E & Sv' & Cv).
    exists v'; split; [exact E | split; [exact Sv' | ]].
    intros q; rewrite Cv, Cv1.
    change (footprint dims (c :: t) q)
      with ((designates dims c q || designates dims (below c) q) || footprint dims t q).
    destruct (cells v q), (designates dims c q), (designates dims (below c) q),
             (footprint dims t q); reflexivity.
Qed.

Lemma np_zeros_spec {A : Type} (zero : A) (dims : coord) :
  np_zeros zero dims =
    if nonneg_dims dims then Returned (mk_grid dims (fun _ => zero)) else Raised ValueError.
Proof.
  destruct dims as [[h d] w]; unfold np_zeros, nonneg_dims.
  destruct (Z.ltb_spec h 0), (Z.ltb_spec d 0), (Z.ltb_spec w 0),
           (Z.leb_spec 0 h), (Z.leb_spec 0 d), (Z.leb_spec 0 w); simpl; try reflexivity; lia.
Qed.

(** The whole call, in closed form. *)
Lemma net_to_wire_and_violation_spec (net : list coord) (dims : coord) (pins : list coord) :
  if nonneg_dims dims
  then if writable dims net
       then exists wire violation,
              net_to_wire_and_violation redstone stone (Some net) dims pins
                = Returned (wire, violation)
              /\ shape wire = dims /\ shape violation = dims
              /\ (forall q, cells violation q
                            = marked dims pins net q && negb (footprint dims net q))
              /\ (forall q, footprint dims net q = false -> cells wire q = 0)
              /\ (forall q, footprint dims net q = true ->
                            cells wire q
                              = (if under_path dims net q && negb (on_path dims net q)
                                 then stone
                                 else if on_path dims net q && negb (under_path dims net q)
                                 then redstone
                                 else cells wire q)
                            /\ (cells wire q = redstone \/ cells wire q = stone))
       else net_to_wire_and_violation redstone stone (Some net) dims pins = Raised IndexError
  else net_to_wire_and_violation redstone stone (Some net) dims pins = Raised ValueError.
Proof.
  unfold net_to_wire_and_violation; rewrite !np_zeros_spec.
  destruct (nonneg_dims dims); [ | reflexivity]; cbn [bind].
  assert (H := stamps_spec dims pins net (mk_grid dims (fun _ => 0))
                 (mk_grid dims (fun _ => false)) eq_refl eq_refl).
  destruct (writable dims net) eqn:W; [ | rewrite H; reflexivity].
  destruct H as (w' & v' & E & Sw & Sv & Cv & Cw0 & Cw); rewrite E; cbn [bind snd fst].
  assert (H := unstamps_spec dims net v' Sv); rewrite W in H.
  destruct H as (v'' & E' & Sv' & Cv'); rewrite E'; cbn [bind].
  exists w', v''; split; [reflexivity | ].
  split; [exact Sw | split; [exact Sv' | ]].
  split; [ | split].
  - intros q; rewrite Cv', Cv; reflexivity.
  - intros q F; rewrite (Cw0 q F); reflexivity.
  - exact Cw.
Qed.

(** X3: the call succeeds exactly when no dimension is negative and every
    voxel of the path, and the voxel under it, is a valid index of the
    arrays; a negative dimension raises [ValueError], an invalid index
    [IndexError]. *)
Theorem net_to_wire_and_violation_outcome (net : list coord) (dims : coord)
    (pins : list coord) :
  match net_to_wire_and_violation redstone stone (Some net) dims pins with
  | Returned (wire, violation) =>
      nonneg_dims dims = true /\ writable dims net = true
      /\ shape wire = dims /\ shape violation = dims
  | Raised e =>
      (e = ValueError /\ nonneg_dims dims = false)
      \/ (e = IndexError /\ nonneg_dims dims = true /\ writable dims net = false)
  | OutOfFuel => False
  end.
Proof.
  assert (H := net_to_wire_and_violation_spec net dims pins).
  destruct (nonneg_dims dims); [ | rewrite H; left; now split].
  destruct (writable dims net); [ | rewrite H; right; now repeat split].
  destruct H as (w & v & E & Sw & Sv & _); rewrite E; now repeat split.
Qed.

(** X4: a path that stays inside the arrays never raises, whatever its
    layer: under a voxel of layer 0 the index -1 is the top layer, and the
    supporting block is written there. *)
Theorem wire_inside_never_raises (net : list coord) (dims : coord) (pins : list coord) :
  nonneg_dims dims = true ->
  (forall c, In c net -> in_bounds c dims = true) ->
  exists wire violation,
    net_to_wire_and_violation redstone stone (Some net) dims pins = Returned (wire, violation)
    /\ forall z x, In (0, z, x) net ->
         cells wire (fst (fst dims) - 1, z, x) = redstone
         \/ cells wire (fst (fst dims) - 1, z, x) = stone.
Proof.
  intros N Hin.
  assert (H := net_to_wire_and_violation_spec net dims pins).
  assert (W : writable dims net = true).
  { apply forallb_forall; intros c Hc; now apply in_bounds_writable, Hin. }
  rewrite W, N in H.
  destruct H as (w & v & E & Sw & Sv & Cv & Cw0 & Cw).
  exists w, v; split; [exact E | ].
  intros z x Hc; apply Cw.
  apply existsb_exists; exists (0, z, x); split; [exact Hc | ].
  apply orb_true_iff; right.
  specialize (Hin _ Hc); apply in_bounds_iff in Hin.
  destruct dims as [[h d] w0]; cbn [fst snd] in *.
  unfold designates, below, np_norm; rewrite !np_index_valid by lia.
  replace (0 <=? 0 - 1) with false by reflexivity.
  replace (0 <=? z) with true by (symmetry; apply Z.leb_le; lia).
  replace (0 <=? x) with true by (symmetry; apply Z.leb_le; lia).
  replace (0 - 1 + h) with (h - 1) by lia; apply coord_eqb_refl.
Qed.

(** X5: the violation matrix in closed form.  An entry is set exactly
    when it is one of the eight entries around a voxel of the path that is
    no pin (its four horizontal neighbours, and the four of the voxel under
    it, as numpy resolves the indices) and is neither a voxel of the path
    nor the voxel under one. *)
Theorem violation_closed_form (net : list coord) (dims : coord) (pins : list coord)
    (wire : grid Z) (violation : grid bool) :
  net_to_wire_and_violation redstone stone (Some net) dims pins = Returned (wire, violation) ->
  forall q, cells violation q = marked dims pins net q && negb (footprint dims net q).
Proof.
  intros E.
  assert (H := net_to_wire_and_violation_spec net dims pins).
  destruct (nonneg_dims dims); [ | congruence].
  destruct (writable dims net); [ | congruence].
  destruct H as (w & v & E' & _ & _ & Cv & _).
  rewrite E in E'; injection E' as -> ->; exact Cv.
Qed.

(** X6: the wire matrix.  It is 0 away from the path and the voxels under
    it; a voxel of the path that is not under another one holds the redstone
    id, a voxel under the path that is not on it holds the stone id, and a
    voxel that is both holds one of the two. *)
Theorem wire_contents (net : list coord) (dims : coord) (pins : list coord)
    (wire : grid Z) (violation : grid bool) :
  net_to_wire_and_violation redstone stone (Some net) dims pins = Returned (wire, violation) ->
  forall q,
    (on_path dims net q = false -> under_path dims net q = false -> cells wire q = 0)
    /\ (on_path dims net q = true -> under_path dims net q = false -> cells wire q = redstone)
    /\ (on_path dims net q = false -> under_path dims net q = true -> cells wire q = stone)
    /\ (on_path dims net q = true -> under_path dims net q = true ->
        cells wire q = redstone \/ cells wire q = stone).
Proof.
  intros E q.
  assert (H := net_to_wire_and_violation_spec net dims pins).
  destruct (nonneg_dims dims); [ | congruence].
  destruct (writable dims net); [ | congruence].
  destruct H as (w & v & E' & _ & _ & _ & Cw0 & Cw).
  rewrite E in E'; injection E' as -> ->.
  specialize (Cw0 q); specialize (Cw q); rewrite footprint_parts in Cw0, Cw.
  repeat split; intros O U; rewrite O, U in *; cbn [orb andb negb] in *.
  - now apply Cw0.
  - now apply Cw.
  - now apply Cw.
  - now apply Cw.
Qed.

End BlockIds.

Lemma wire_inside_never_raises_witness :
  exists wire violation,
    net_to_wire_and_violation 55 1 (Some (Dumb.dumb_route (0, 0, 0) (0, 0, 2))) (2, 3, 3)
      [(0, 0, 0); (0, 0, 2)] = Returned (wire, violation)
    /\ forall z x, In (0, z, x) (Dumb.dumb_route (0, 0, 0) (0, 0, 2)) ->
         cells wire (fst (fst (2, 3, 3)) - 1, z, x) = 55
         \/ cells wire (fst (fst (2, 3, 3)) - 1, z, x) = 1.
Proof.
  apply (wire_inside_never_raises 55 1); [reflexivity | ].
  intros c Hc; vm_compute in Hc.
  repeat (destruct Hc as [<- | Hc]; [reflexivity | ]); destruct Hc.
Defined.

Lemma violation_closed_form_witness :
  cells (snd sample_matrices) (1, 1, 1)
    = marked (2, 3, 3) sample_pins sample_net (1, 1, 1)
      && negb (footprint (2, 3, 3) sample_net (1, 1, 1)).
Proof.
  apply (violation_closed_form 55 1 sample_net (2, 3, 3) sample_pins
           (fst sample_matrices) (snd sample_matrices)).
  reflexivity.
Defined.

Lemma wire_contents_witness :
  (on_path (2, 3, 3) sample_net (1, 0, 1) = false ->
   under_path (2, 3, 3) sample_net (1, 0, 1) = false ->
   cells (fst sample_matrices) (1, 0, 1) = 0)
  /\ (on_path (2, 3, 3) sample_net (1, 0, 1) = true ->
      under_path (2, 3, 3) sample_net (1, 0, 1) = false ->
      cells (fst sample_matrices) (1, 0, 1) = 55)
  /\ (on_path (2, 3, 3) sample_net (1, 0, 1) = false ->
      under_path (2, 3, 3) sample_net (1, 0, 1) = true ->
      cells (fst sample_matrices) (1, 0, 1) = 1)
  /\ (on_path (2, 3, 3) sample_net (1, 0, 1) = true ->
      under_path (2, 3, 3) sample_net (1, 0, 1) = true ->
      cells (fst sample_matrices) (1, 0, 1) = 55 \/ cells (fst sample_matrices) (1, 0, 1) = 1).
Proof.
  apply (wire_contents 55 1 sample_net (2, 3, 3) sample_pins
           (fst sample_matrices) (snd sample_matrices)).
  reflexivity.
Defined.

End ViolationModel.


(** ** Usage matrix and violation count *)

Module UsageProofs.
Import Grid Violation ViolationSpec Routing MazeInv Usage GridProofs ViolationModel.

Lemma all_voxels_iff (dims c : coord) : In c (all_voxels dims) <-> in_bounds c dims = true.
Proof.
  rewrite in_bounds_iff.
  destruct c as [[y z] x], dims as [[h d] w]; cbn [fst snd]; unfold all_voxels.
  rewrite in_flat_map; split.
  - intros (y' & Hy & H); apply in_flat_map in H; destruct H as (z' & Hz & H).
    apply in_map_iff in H; destruct H as (x' & E & Hx); injection E as -> -> ->.
    apply xrange_In in Hy, Hz, Hx; lia.
  - intros H; exists y; split; [apply xrange_In; lia | ].
    apply in_flat_map; exists z; split; [apply xrange_In; lia | ].
    apply in_map, xrange_In; lia.
Qed.

Lemma broadcast_same (s : coord) : broadcast s s = Some s.
Proof.
  destruct s as [[h d] w]; unfold broadcast, broadcast_axis; now rewrite !Z.eqb_refl.
Qed.

Lemma stretch_in_bounds (s c : coord) : in_bounds c s = true -> stretch s c = c.
Proof.
  intros H; apply in_bounds_iff in H.
  destruct c as [[y z] x], s as [[h d] w]; cbn [fst snd] in H; unfold stretch.
  destruct (Z.eqb_spec h 1), (Z.eqb_spec d 1), (Z.eqb_spec w 1); repeat f_equal; lia.
Qed.

Lemma count_true_ext (g g' : grid bool) :
  shape g = shape g' ->
  (forall c, in_bounds c (shape g) = true -> cells g c = cells g' c) ->
  count_true g = count_true g'.
Proof.
  intros S H; unfold count_true; rewrite <- S; do 2 f_equal.
  apply filter_ext_in; intros c Hc; now apply H, all_voxels_iff.
Qed.

Lemma truth_true (v : Z) : truth v = true <-> v <> 0.
Proof. unfold truth; destruct (Z.eqb_spec v 0); simpl; split; congruence. Qed.

Lemma np_logical_or_same (u : grid bool) (w : grid Z) :
  shape w = shape u ->
  exists u', np_logical_or u w = Returned u' /\ shape u' = shape u
    /\ forall q, in_bounds q (shape u) = true ->
         cells u' q = cells u q || truth (cells w q).
Proof.
  intros S; unfold np_logical_or; rewrite S, broadcast_same.
  eexists; split; [reflexivity | split; [reflexivity | ]].
  intros q Hq; cbn [cells]; now rewrite stretch_in_bounds.
Qed.

(** X7: a segment does not violate itself.  With the segment's own wire
    added to a usage matrix, its violation count is what it was without. *)
Theorem own_wire_not_counted (redstone stone : Z) (net : list coord) (dims : coord)
    (pins : list coord) (wire : grid Z) (violation usage_matrix : grid bool) :
  net_to_wire_and_violation redstone stone (Some net) dims pins = Returned (wire, violation) ->
  shape usage_matrix = dims ->
  exists usage', np_logical_or usage_matrix wire = Returned usage'
    /\ compute_net_violations violation usage'
       = compute_net_violations violation usage_matrix.
Proof.
  intros E Su.
  assert (H := net_to_wire_and_violation_spec redstone stone net dims pins).
  destruct (nonneg_dims dims); [ | congruence].
  destruct (writable dims net); [ | congruence].
  destruct H as (w & v & E' & Sw & Sv & Cv & Cw0 & _).
  rewrite E in E'; injection E' as -> ->.
  destruct (np_logical_or_same usage_matrix w) as (u' & Eu & Su' & Cu); [congruence | ].
  exists u'; split; [exact Eu | ].
  unfold compute_net_violations, np_logical_and.
  rewrite Su', Sv, Su, broadcast_same; cbn [bind]; f_equal.
  apply count_true_ext; [reflexivity | ].
  cbn [shape cells]; intros c Hc.
  rewrite stretch_in_bounds by exact Hc.
  rewrite Cu by (now rewrite Su).
  rewrite Cv.
  destruct (footprint dims net c) eqn:F; [now rewrite !andb_false_r | ].
  rewrite (Cw0 c F); cbn [truth Z.eqb negb]; now rewrite orb_false_r.
Qed.

Lemma own_wire_not_counted_witness :
  exists usage', np_logical_or no_usage (fst sample_matrices) = Returned usage'
    /\ compute_net_violations (snd sample_matrices) usage'
       = compute_net_violations (snd sample_matrices) no_usage.
Proof.
  apply (own_wire_not_counted 55 1 sample_net (2, 3, 3) sample_pins); reflexivity.
Defined.

Section Exclude.

Variable exclude : list (string * nat).
Variable dims : coord.

(** The inner loop, over the segments of one net from index [k] on. *)
Lemma usage_of_segments (net_name : string) (l : list segment) :
  (forall seg, In seg l -> shape (wire seg) = dims) ->
  forall (k : nat) (u0 : grid bool), shape u0 = dims ->
  exists u,
    foldM (fun usage_matrix (iseg : nat * segment) =>
             let '(i, seg) := iseg in
             if excluded net_name i exclude then Returned usage_matrix
             else np_logical_or usage_matrix (wire seg))
          (combine (seq k (length l)) l) u0 = Returned u
    /\ shape u = dims
    /\ forall q, in_bounds q dims = true ->
         (cells u q = true <->
          cells u0 q = true
          \/ exists i seg, nth_error l i = Some seg
               /\ excluded net_name (k + i) exclude = false /\ cells (wire seg) q <> 0).
Proof.
  induction l as [ | s t IH]; intros Hs k u0 S0.
  - exists u0; split; [reflexivity | split; [exact S0 | ]].
    intros q Hq; split; [now left | ].
    intros [H | (i & seg & H & _)]; [exact H | destruct i; discriminate].
  - cbn [length seq combine foldM].
    assert (Ht : forall seg, In seg t -> shape (wire seg) = dims)
      by (intros seg Hseg; apply Hs; now right).
    destruct (excluded net_name k exclude) eqn:X; cbn [bind].
    + destruct (IH Ht (S k) u0 S0) as (u & E & Su & Cu).
      exists u; split; [exact E | split; [exact Su | ]].
      intros q Hq; rewrite (Cu q Hq); split.
      * intros [H | (i & seg & H & Hx & Hw)]; [now left | right].
        exists (S i), seg; split; [exact H | split; [ | exact Hw]].
        now replace (k + S i)%nat with (S k + i)%nat by lia.
      * intros [H | (i & seg & H & Hx & Hw)]; [now left | right].
        destruct i as [ | i].
        -- rewrite Nat.add_0_r in Hx; congruence.
        -- exists i, seg; split; [exact H | split; [ | exact Hw]].
           now replace (S k + i)%nat with (k + S i)%nat by lia.
    + destruct (np_logical_or_same u0 (wire s)) as (u1 & E1 & S1 & C1).
      { rewrite S0; apply Hs; now left. }
      rewrite E1; cbn [bind].
      destruct (IH Ht (S k) u1) as (u & E & Su & Cu); [congruence | ].
      exists u; split; [exact E | split; [exact Su | ]].
      intros q Hq; rewrite (Cu q Hq), C1 by (now rewrite S0).
      rewrite orb_true_iff, truth_true; split.
      * intros [[H | H] | (i & seg & H & Hx & Hw)].
        -- now left.
        -- right; exists 0%nat, s; split; [reflexivity | split; [ | exact H]].
           now rewrite Nat.add_0_r.
        -- right; exists (S i), seg; split; [exact H | split; [ | exact Hw]].
           now replace (k + S i)%nat with (S k + i)%nat by lia.
      * intros [H | (i & seg & H & Hx & Hw)]; [left; now left | ].
        destruct i as [ | i].
        -- injection H as ->; left; now right.
        -- right; exists i, seg; split; [exact H | split; [ | exact Hw]].
           now replace (S k + i)%nat with (k + S i)%nat by lia.
Qed.

Lemma usage_of_nets (R : routing) :
  (forall net_name d seg, In (net_name, d) R -> In seg (segments d) ->
     shape (wire seg) = dims) ->
  forall u0 : grid bool, shape u0 = dims ->
  exists u,
    foldM (fun usage_matrix (item : string * net_routing) =>
             let '(net_name, d) := item in
             foldM (fun usage_matrix (iseg : nat * segment) =>
                      let '(i, seg) := iseg in
                      if excluded net_name i exclude then Returned usage_matrix
                      else np_logical_or usage_matrix (wire seg))
                   (enumerate (segments d)) usage_matrix)
          R u0 = Returned u
    /\ shape u = dims
    /\ forall q, in_bounds q dims = true ->
         (cells u q = true <->
          cells u0 q = true
          \/ exists net_name d i seg, In (net_name, d) R
               /\ nth_error (segments d) i = Some seg
               /\ excluded net_name i exclude = false /\ cells (wire seg) q <> 0).
Proof.
  induction R as [ | [net_name d] t IH]; intros Hs u0 S0.
  - exists u0; split; [reflexivity | split; [exact S0 | ]].
    intros q Hq; split; [now left | ].
    intros [H | (n & e & i & seg & [] & _)]; exact H.
  - cbn [foldM]; unfold enumerate.
    destruct (usage_of_segments net_name (segments d)) with (k := 0%nat) (u0 := u0)
      as (u1 & E1 & S1 & C1); [intros seg Hseg; apply (Hs net_name d); [now left | exact Hseg]
                              | exact S0 | ].
    rewrite E1; cbn [bind].
    destruct (IH) with (u0 := u1) as (u & E & Su & Cu);
      [intros n e seg Hn Hseg; apply (Hs n e); [now right | exact Hseg] | exact S1 | ].
    exists u; split; [exact E | split; [exact Su | ]].
    intros q Hq; rewrite (Cu q Hq), (C1 q Hq); split.
    + intros [[H | (i & seg & H & Hx & Hw)] | (n & e & i & seg & Hn & H & Hx & Hw)].
      * now left.
      * right; exists net_name, d, i, seg; repeat split; try assumption; now left.
      * right; exists n, e, i, seg; repeat split; try assumption; now right.
    + intros [H | (n & e & i & seg & [Hn | Hn] & H & Hx & Hw)].
      * left; now left.
      * injection Hn as <- <-; left; right; exists i, seg; now repeat split.
      * right; exists n, e, i, seg; now repeat split.
Qed.

End Exclude.

(** X8: when every wire matrix has the shape of the layout, the usage
    matrix is computed, has that shape, and is set at a voxel exactly when
    the layout holds a block there or the wire of a segment that is not
    excluded does. *)
Theorem generate_usage_matrix_spec (placed_layout : grid Z) (R : routing)
    (exclude : list (string * nat)) :
  (forall net_name d seg, In (net_name, d) R -> In seg (segments d) ->
     shape (wire seg) = shape placed_layout) ->
  exists usage_matrix,
    generate_usage_matrix placed_layout R exclude = Returned usage_matrix
    /\ shape usage_matrix = shape placed_layout
    /\ forall q, in_bounds q (shape placed_layout) = true ->
         (cells usage_matrix q = true <->
          cells placed_layout q <> 0
          \/ exists net_name d i seg, In (net_name, d) R
               /\ nth_error (segments d) i = Some seg
               /\ excluded net_name i exclude = false /\ cells (wire seg) q <> 0).
Proof.
  intros Hs.
  destruct (usage_of_nets exclude (shape placed_layout) R Hs (occupied placed_layout) eq_refl)
    as (u & E & Su & Cu).
  exists u; split; [exact E | split; [exact Su | ]].
  intros q Hq; rewrite (Cu q Hq); cbn [occupied cells]; now rewrite truth_true.
Qed.

Lemma generate_usage_matrix_spec_witness :
  exists usage_matrix,
    generate_usage_matrix sample_layout sample_routing [("n1", 0%nat)] = Returned usage_matrix
    /\ shape usage_matrix = shape sample_layout
    /\ forall q, in_bounds q (shape sample_layout) = true ->
         (cells usage_matrix q = true <->
          cells sample_layout q <> 0
          \/ exists net_name d i seg, In (net_name, d) sample_routing
               /\ nth_error (segments d) i = Some seg
               /\ excluded net_name i [("n1", 0%nat)] = false /\ cells (wire seg) q <> 0).
Proof.
  apply (generate_usage_matrix_spec sample_layout sample_routing [("n1", 0%nat)]).
  intros net_name d seg Hn Hseg.
  destruct Hn as [E | [E | []]]; injection E as <- <-; simpl in Hseg;
    repeat (destruct Hseg as [<- | Hseg]; [reflexivity | ]); destruct Hseg.
Defined.

End UsageProofs.


(** ** The maze router on any layout *)

Module MazeGeneral.
Import Grid Maze MazeInv MazeGen GridProofs MazeMoves HeapProofs.

Lemma move_index (u : coord) (mbc : coord * Z * Z) :
  In mbc candidate_moves ->
  exists i, index_of (snd (fst mbc)) backtraces = Returned i
    /\ add (add u (fst (fst mbc))) (nth i backtrace_movements (0, 0, 0)) = u
    /\ 0 < snd mbc.
Proof.
  rewrite candidate_moves_eq; destruct u as [[y z] x]; simpl.
  intros [<- | [<- | [<- | [<- | [<- | [<- | []]]]]]];
    [exists 0%nat | exists 1%nat | exists 2%nat | exists 3%nat | exists 4%nat | exists 5%nat];
    simpl; (split; [reflexivity | split; [repeat f_equal; lia | lia]]).
Qed.

Lemma reachable_in_bounds (dims a c : coord) :
  reachable dims a c -> in_bounds c dims = true.
Proof. intros H; destruct H; assumption. Qed.

Lemma search_mono (a b : coord) (placed_layout : grid Z) (usage_matrix : grid bool) :
  forall fuel st st', search a b placed_layout usage_matrix fuel st = Returned st' ->
  forall fuel', (fuel <= fuel')%nat ->
  search a b placed_layout usage_matrix fuel' st = Returned st'.
Proof.
  induction fuel as [ | fuel IH]; intros st st' E fuel' Hf.
  - destruct fuel'; simpl in *;
      destruct (heappop (min_dist_heap st)) as [[[k u] heap] | ]; congruence.
  - destruct fuel' as [ | fuel']; [lia | ].
    simpl in *; destruct (heappop (min_dist_heap st)) as [[[k u] heap] | ]; [ | exact E].
    apply (IH _ _ E); lia.
Qed.

Section General.

Variables a b : coord.
Variable placed_layout : grid Z.
Variable usage_matrix : grid bool.

Let dims : coord := shape placed_layout.

Hypothesis Ha : in_bounds a dims = true.

Let Snd := Sound a b placed_layout usage_matrix.
Let Btw := Between a b placed_layout usage_matrix.
Let Dur := During a b placed_layout usage_matrix.
Let chg := charge a b placed_layout usage_matrix.

Lemma discovered_in_bounds closed st c :
  Snd closed st -> discovered st c -> in_bounds c dims = true.
Proof.
  intros HI [H | H]; apply (reachable_in_bounds dims a).
  - now apply (g_visited _ _ _ _ _ _ HI).
  - apply in_map_iff in H; destruct H as ([k v] & <- & Hk).
    now apply (g_heap _ _ _ _ _ _ HI k v).
Qed.

Lemma charge_pos (v : coord) (w : Z) : 0 < w -> 0 < chg v w.
Proof.
  intros H; unfold chg, charge.
  destruct (violating a b placed_layout usage_matrix v); [reflexivity | exact H].
Qed.

Lemma start_sound : Btw (start_state dims a).
Proof.
  unfold start_state; split; simpl.
  - now rewrite shape_put.
  - reflexivity.
  - contradiction.
  - intros k v [E | []]; injection E as <- <-; split; [now apply reachable_start | tauto].
  - contradiction.
  - right; split; [reflexivity | now exists 0].
  - now rewrite at_put_same.
  - intros c Hc Hn. rewrite at_put_other; [now rewrite at_in_bounds | exact Ha | exact Hc | ].
    intros ->; apply Hn; right; now left.
  - constructor; [simpl; tauto | constructor].
  - constructor.
  - intros v [[] | [<- | []]]; rewrite at_put_same; [lia | exact Ha].
  - intros v NE [[] | [E | []]]; simpl in E; congruence.
Qed.

(** Popping the smallest entry and marking its voxel visited. *)
Lemma pop_during (st : state) (k : Z) (u : coord) (heap : list entry) :
  Btw st -> heappop (min_dist_heap st) = Some ((k, u), heap) ->
  Dur u [] (mk_state (cost_matrix st) (backtrace_matrix st) (u :: visited st) heap)
  /\ ~ In u (visited st).
Proof.
  intros HI Hpop.
  destruct (heappop_spec _ _ _ Hpop) as (Hin & Hmin & Hsub & Hrest & Hnd).
  destruct (Hnd (g_nodup_heap _ _ _ _ _ _ HI)) as [ND Hu]; simpl in Hu.
  destruct (g_heap _ _ _ _ _ _ HI k u Hin) as (Ru & Vu).
  assert (Hfwd : forall c, discovered st c ->
            discovered (mk_state (cost_matrix st) (backtrace_matrix st)
                                 (u :: visited st) heap) c).
  { intros c [H | H]; [left; now right | ].
    apply in_map_iff in H; destruct H as ([k' v] & <- & Hk').
    destruct (Hrest _ Hk') as [E | H]; [injection E as _ ->; left; now left | ].
    right; apply in_map_iff; exists (k', v); now split. }
  assert (Hbwd : forall c, discovered (mk_state (cost_matrix st) (backtrace_matrix st)
                                 (u :: visited st) heap) c -> discovered st c).
  { intros c [[<- | H] | H]; simpl in *.
    - right; apply in_map_iff; exists (k, u); now split.
    - now left.
    - right; apply in_map_iff in H; destruct H as (e & <- & He).
      apply in_map; now apply Hsub. }
  assert (Hstart : In a (u :: visited st)).
  { destruct (g_start _ _ _ _ _ _ HI) as [H | [_ [k0 H]]]; [now right | ].
    rewrite H in Hin; destruct Hin as [E | []]; injection E as _ <-; now left. }
  split; [ | exact Vu].
  split; [split; simpl | split; [now left | exact Hstart]].
  - apply (g_shape_cost _ _ _ _ _ _ HI).
  - apply (g_shape_back _ _ _ _ _ _ HI).
  - intros v [<- | Hv]; [exact Ru | now apply (g_visited _ _ _ _ _ _ HI)].
  - intros k' v Hk'.
    destruct (g_heap _ _ _ _ _ _ HI k' v (Hsub _ Hk')) as (Rv & Vv).
    split; [exact Rv | ].
    intros [<- | C]; [ | contradiction].
    apply Hu, in_map_iff; exists (k', u); now split.
  - intros u' mbc [<- | Hu'] Hm [NE | []] Hb; [congruence | ].
    apply Hfwd, (g_closed _ _ _ _ _ _ HI u' mbc Hu' Hm I Hb).
  - now left.
  - apply (g_cost_start _ _ _ _ _ _ HI).
  - intros c Hc Hn; apply (g_fresh _ _ _ _ _ _ HI c Hc); intros D; apply Hn, Hfwd, D.
  - exact ND.
  - constructor; [exact Vu | apply (g_nodup_visited _ _ _ _ _ _ HI)].
  - intros v D; apply (g_cost _ _ _ _ _ _ HI), Hbwd, D.
  - intros v NE D.
    destruct (g_back _ _ _ _ _ _ HI v NE (Hbwd _ D)) as (i & m & bt & w & Hi & Hm & Hv & Hb & Hc).
    exists i, m, bt, w; repeat split; try assumption; now right.
Qed.

(** A movement whose target is outside the layout, or discovered already
    and not improved, leaves the state as it is. *)
Lemma during_skip (st : state) (u : coord) (done : list (coord * Z * Z)) (mbc : coord * Z * Z) :
  Dur u done st ->
  discovered st (add u (fst (fst mbc))) \/ in_bounds (add u (fst (fst mbc))) dims = false ->
  Dur u (mbc :: done) st.
Proof.
  intros (HI & Hu & Hs) Hskip; split; [ | now split].
  destruct HI as [S1 S2 V H C St C0 F N1 N2 Cn B]; split; try assumption.
  intros u' mbc' Hu' Hm' Hc Hb.
  destruct (coord_eq_dec u' u) as [-> | NE]; [ | apply C; auto].
  destruct Hc as [NE | [<- | Hd]]; [congruence | | apply C; auto].
  destruct Hskip as [D | Hn]; [exact D | fold dims in Hb; congruence].
Qed.

(** A movement that sets the cost and the backtrace of its target [v],
    which is in the heap afterwards. *)
Lemma during_improve (st : state) (u : coord) (done : list (coord * Z * Z))
    (m : coord) (bt w : Z) (heap' : list entry) :
  Dur u done st -> In (m, bt, w) candidate_moves ->
  in_bounds (add u m) dims = true -> ~ In (add u m) (visited st) ->
  NoDup (map snd heap') ->
  (forall e, In e (min_dist_heap st) -> In e heap') ->
  (forall e, In e heap' -> snd e = add u m \/ In e (min_dist_heap st)) ->
  In (add u m) (map snd heap') ->
  Dur u ((m, bt, w) :: done)
    (mk_state (put (cost_matrix st) (add u m) (at_ (cost_matrix st) u + chg (add u m) w))
              (put (backtrace_matrix st) (add u m) bt) (visited st) heap').
Proof.
  intros HD Hm Bv Vv ND Hsub Hsup Hv. pose proof HD as (HI & Hu & Hs).
  destruct (move_index u (m, bt, w) Hm) as (i & Hi & Hb & Hw); cbn [fst snd] in Hi, Hb, Hw.
  set (v := add u m) in *.
  set (nc := at_ (cost_matrix st) u + chg v w).
  assert (Sc := g_shape_cost _ _ _ _ _ _ HI). assert (Sb := g_shape_back _ _ _ _ _ _ HI).
  fold dims in Sc, Sb.
  assert (Hin : forall c, discovered st c -> in_bounds c dims = true).
  { intros c D; now apply (discovered_in_bounds _ st c HI). }
  assert (Pc := charge_pos v w Hw).
  assert (Cu : 0 <= at_ (cost_matrix st) u) by (apply (g_cost _ _ _ _ _ _ HI); now left).
  assert (NEu : u <> v) by (intros E; apply Vv; now rewrite <- E).
  assert (NEa : a <> v) by (intros E; apply Vv; now rewrite <- E).
  destruct st as [cm bm vis hp]; cbn [cost_matrix backtrace_matrix visited min_dist_heap] in *.
  assert (Hfwd : forall c, discovered (mk_state cm bm vis hp) c ->
            discovered (mk_state (put cm v nc) (put bm v bt) vis heap') c).
  { intros c [D | D]; [now left | right].
    cbn [min_dist_heap] in *; apply in_map_iff in D; destruct D as (e & <- & He).
    apply in_map; now apply Hsub. }
  assert (Hbwd : forall c, c <> v ->
            discovered (mk_state (put cm v nc) (put bm v bt) vis heap') c ->
            discovered (mk_state cm bm vis hp) c).
  { intros c NE [D | D]; [now left | right].
    cbn [min_dist_heap] in *; apply in_map_iff in D; destruct D as (e & <- & He).
    destruct (Hsup e He) as [E | H]; [congruence | now apply in_map]. }
  split; [split; cbn [cost_matrix backtrace_matrix visited min_dist_heap]
         | split; assumption].
  - now rewrite shape_put.
  - now rewrite shape_put.
  - apply (g_visited _ _ _ _ _ _ HI).
  - intros k' v0 Hk'. destruct (Hsup _ Hk') as [E | H].
    + cbn [snd] in E; subst v0; split; [ | exact Vv].
      apply reachable_step; [now apply (g_visited _ _ _ _ _ _ HI) | | exact Bv].
      now apply (MazeProofs.candidate_movement (m, bt, w)).
    + now apply (g_heap _ _ _ _ _ _ HI k' v0).
  - intros u' mbc' Hu' Hm' Hc Hb'.
    destruct (coord_eq_dec u' u) as [-> | NE];
      [ | apply Hfwd, (g_closed _ _ _ _ _ _ HI u' mbc' Hu' Hm'); auto].
    destruct Hc as [NE | [<- | Hd]]; [congruence | right; exact Hv | ].
    apply Hfwd, (g_closed _ _ _ _ _ _ HI u mbc' Hu' Hm'); auto.
  - now left.
  - rewrite at_put_other; [apply (g_cost_start _ _ _ _ _ _ HI) | now rewrite Sc
                          | now rewrite Sc | exact NEa].
  - intros c Hc Hn.
    assert (NE : c <> v) by (intros ->; apply Hn; right; exact Hv).
    rewrite at_put_other; [ | now rewrite Sc | now rewrite Sc | exact NE].
    apply (g_fresh _ _ _ _ _ _ HI c Hc); intros D; apply Hn, Hfwd, D.
  - exact ND.
  - apply (g_nodup_visited _ _ _ _ _ _ HI).
  - intros x D. destruct (coord_eq_dec x v) as [-> | NE].
    + rewrite at_put_same by (now rewrite Sc). unfold nc; lia.
    + rewrite at_put_other; [ | now rewrite Sc | rewrite Sc; apply Hin, (Hbwd _ NE D) | exact NE].
      apply (g_cost _ _ _ _ _ _ HI), (Hbwd _ NE D).
  - intros x NE D. destruct (coord_eq_dec x v) as [-> | NEv].
    + exists i, m, bt, w. rewrite at_put_same by (now rewrite Sb).
      rewrite Hb. repeat split; try assumption.
      rewrite at_put_same by (now rewrite Sc).
      rewrite at_put_other; [reflexivity | now rewrite Sc | rewrite Sc; apply Hin; now left
                            | exact NEu].
    + destruct (g_back _ _ _ _ _ _ HI x NE (Hbwd _ NEv D))
        as (j & m' & bt' & w' & Hj & Hm' & Hvj & Hbj & Hcj).
      exists j, m', bt', w'.
      rewrite at_put_other;
        [ | now rewrite Sb | rewrite Sb; apply Hin, (Hbwd _ NEv D) | exact NEv].
      repeat split; try assumption.
      rewrite at_put_other;
        [ | now rewrite Sc | rewrite Sc; apply Hin, (Hbwd _ NEv D) | exact NEv].
      rewrite at_put_other; [exact Hcj | now rewrite Sc | rewrite Sc; apply Hin; now left | ].
      intros E; apply Vv; now rewrite <- E.
Qed.

(** Trying one movement from the popped voxel. *)
Lemma relax_during (st : state) (u : coord) (done : list (coord * Z * Z)) (mbc : coord * Z * Z) :
  Dur u done st -> In mbc candidate_moves ->
  Dur u (mbc :: done) (relax a b placed_layout usage_matrix u st mbc).
Proof.
  intros HD Hm. pose proof HD as (HI & Hu & Hs).
  destruct (move_index u mbc Hm) as (i & _ & _ & Hw).
  destruct mbc as [[m bt] w]; cbn [fst snd] in Hw.
  unfold relax; fold dims.
  set (v := add u m) in *.
  destruct (in_bounds v dims) eqn:Bv; cbn [negb];
    [ | apply (during_skip st u done (m, bt, w) HD); now right].
  destruct (mem v (visited st)) eqn:Vv;
    [apply (during_skip st u done (m, bt, w) HD); left; left; now apply mem_In | ].
  apply mem_not_In in Vv.
  replace (if violating a b placed_layout usage_matrix v
           then at_ (cost_matrix st) u + violation_cost
           else at_ (cost_matrix st) u + w)
    with (at_ (cost_matrix st) u + chg v w)
    by (unfold chg, charge; now destruct (violating a b placed_layout usage_matrix v)).
  set (nc := at_ (cost_matrix st) u + chg v w).
  destruct (mem v (map snd (min_dist_heap st))) eqn:Hh; cbn [negb].
  - (* already in the heap *)
    apply mem_In in Hh.
    destruct ((at_ (cost_matrix st) v =? -1) || (nc <? at_ (cost_matrix st) v)) eqn:Imp.
    + apply (during_improve st u done m bt w (min_dist_heap st) HD Hm Bv Vv);
        [apply (g_nodup_heap _ _ _ _ _ _ HI) | auto | auto | exact Hh].
    + destruct st as [cm bm vis hp]; cbn [cost_matrix backtrace_matrix visited min_dist_heap] in *.
      apply (during_skip _ u done (m, bt, w) HD); left; now right.
  - (* a new voxel *)
    apply mem_not_In in Hh.
    assert (Nd : ~ discovered st v) by (intros [C | C]; contradiction).
    rewrite (g_fresh _ _ _ _ _ _ HI v Bv Nd); cbn [Z.eqb orb].
    apply (during_improve st u done m bt w (heappush (min_dist_heap st) (nc, v)) HD Hm Bv Vv).
    + constructor; [exact Hh | apply (g_nodup_heap _ _ _ _ _ _ HI)].
    + intros e He; now right.
    + intros e [<- | He]; [now left | now right].
    + now left.
Qed.

Lemma fold_relax_during (u : coord) (l : list (coord * Z * Z)) : forall done st,
  Dur u done st -> (forall x, In x l -> In x candidate_moves) ->
  Dur u (rev l ++ done) (fold_left (relax a b placed_layout usage_matrix u) l st).
Proof.
  induction l as [ | x t IH]; intros done st HM Hl; simpl; [exact HM | ].
  rewrite <- app_assoc; simpl.
  apply IH; [apply relax_during; [exact HM | apply Hl; now left] | ].
  intros y Hy; apply Hl; now right.
Qed.

(** One round of the loop keeps the invariant and visits one more voxel. *)
Lemma visit_sound (st : state) (k : Z) (u : coord) (heap : list entry) :
  Btw st -> heappop (min_dist_heap st) = Some ((k, u), heap) ->
  Btw (visit a b placed_layout usage_matrix u heap st)
  /\ visited (visit a b placed_layout usage_matrix u heap st) = u :: visited st.
Proof.
  intros HI Hpop.
  destruct (pop_during st k u heap HI Hpop) as [HD Vu].
  assert (Ev : set_add u (visited st) = u :: visited st)
    by (now apply MazeProofs.set_add_fresh).
  split.
  - assert (HM : Dur u (rev candidate_moves ++ [])
                   (visit a b placed_layout usage_matrix u heap st)).
    { unfold visit; rewrite Ev; apply fold_relax_during; [exact HD | auto]. }
    set (st' := visit a b placed_layout usage_matrix u heap st) in *; clearbody st'.
    set (done := rev candidate_moves ++ []) in *.
    assert (Hd : forall mbc, In mbc candidate_moves -> In mbc done).
    { intros mbc Hm; unfold done; rewrite app_nil_r; now apply in_rev in Hm. }
    clearbody done.
    destruct HM as (HG & _).
    destruct HG as [S1 S2 V H C St C0 F N1 N2 Cn B]; split; try assumption.
    intros u' mbc Hu' Hm _ Hb; apply C; auto.
  - unfold visit; rewrite MazeProofs.fold_relax_visited; cbn [visited]; exact Ev.
Qed.

Lemma visited_volume (st : state) :
  Btw st -> (length (visited st) <= length (all_voxels dims))%nat.
Proof.
  intros HI; apply NoDup_incl_length; [apply (g_nodup_visited _ _ _ _ _ _ HI) | ].
  intros c Hc; apply UsageProofs.all_voxels_iff.
  apply (reachable_in_bounds _ a), (g_visited _ _ _ _ _ _ HI c Hc).
Qed.

(** Whenever the [while] loop is left, the invariant holds and the heap is
    empty. *)
Lemma search_sound : forall fuel st st',
  Btw st -> search a b placed_layout usage_matrix fuel st = Returned st' ->
  Btw st' /\ min_dist_heap st' = [].
Proof.
  induction fuel as [ | fuel IH]; intros st st' HI E; simpl in E;
    destruct (heappop (min_dist_heap st)) as [[[k u] heap] | ] eqn:Hpop; try discriminate E.
  - injection E as <-; split; [exact HI | now apply heappop_none].
  - apply (IH _ _ (proj1 (visit_sound st k u heap HI Hpop)) E).
  - injection E as <-; split; [exact HI | now apply heappop_none].
Qed.

(** The loop is left after at most as many rounds as the layout has
    voxels. *)
Lemma search_total : forall fuel st,
  Btw st -> (length (all_voxels dims) < fuel + length (visited st))%nat ->
  exists st', search a b placed_layout usage_matrix fuel st = Returned st'.
Proof.
  induction fuel as [ | fuel IH]; intros st HI Hf.
  - assert (B := visited_volume st HI); lia.
  - simpl. destruct (heappop (min_dist_heap st)) as [[[k u] heap] | ] eqn:Hpop.
    + destruct (visit_sound st k u heap HI Hpop) as [HI' Hv].
      apply IH; [exact HI' | rewrite Hv; simpl; lia].
    + now exists st.
Qed.

(** With the heap empty, the visited voxels are the reachable ones. *)
Lemma final_reachable (st : state) (x : coord) :
  Btw st -> min_dist_heap st = [] -> (In x (visited st) <-> reachable dims a x).
Proof.
  intros HI He; split; [apply (g_visited _ _ _ _ _ _ HI) | ].
  induction 1 as [Hx | c m Hr IH Hm Hb].
  - destruct (g_start _ _ _ _ _ _ HI) as [Hs | [_ [k Hs]]]; [exact Hs | congruence].
  - destruct (MazeProofs.movement_candidate m Hm) as (mbc & Hc & <-).
    destruct (g_closed _ _ _ _ _ _ HI c mbc IH Hc I Hb) as [D | D]; [exact D | ].
    rewrite He in D; contradiction.
Qed.

Lemma step_cost_charge (p q : coord) (mbc : coord * Z * Z) :
  In mbc candidate_moves -> add p (fst (fst mbc)) = q ->
  step_cost a b placed_layout usage_matrix p q = Some (chg q (snd mbc)).
Proof.
  intros Hm Ea; unfold step_cost.
  destruct (find _ candidate_moves) as [[[m' bt'] w'] | ] eqn:F.
  - apply find_some in F; destruct F as [Hm' E]; simpl in E.
    apply coord_eqb_eq in E. rewrite <- Ea in E. apply MazeProofs.add_inj in E.
    destruct (MazeProofs.candidate_cost (m', bt', w') mbc Hm' Hm E) as [Ew _]; simpl in Ew.
    now rewrite Ew.
  - apply (find_none _ _ F) in Hm. rewrite Ea, coord_eqb_refl in Hm; discriminate.
Qed.

(** The backtrace from a visited voxel ends, within as many steps as the
    cost of the voxel. *)
Lemma backtrace_total (st : state) :
  Btw st ->
  forall n cur, Z.to_nat (at_ (cost_matrix st) cur) = n -> In cur (visited st) ->
  forall fuel, (n <= fuel)%nat ->
  exists net, backtrace_from a fuel (backtrace_matrix st) cur = Returned net.
Proof.
  intros HI n; induction n as [n IH] using lt_wf_ind; intros cur Hn Hc fuel Hf.
  destruct (coord_eq_dec cur a) as [-> | NE].
  - exists [a]; destruct fuel; simpl; now rewrite coord_eqb_refl.
  - destruct (g_back _ _ _ _ _ _ HI cur NE (or_introl Hc))
      as (i & m & bt & w & Hi & Hm & Hp & Hb & Hcost).
    set (p := add cur (nth i backtrace_movements (0, 0, 0))) in *.
    destruct (MazeProofs.candidate_cost _ _ Hm Hm eq_refl) as [_ Wp]; cbn [snd] in Wp.
    assert (Pc := charge_pos cur w Wp). fold chg in Hcost.
    assert (Cp : 0 <= at_ (cost_matrix st) p) by (apply (g_cost _ _ _ _ _ _ HI); now left).
    destruct fuel as [ | fuel]; [lia | ].
    destruct (IH (Z.to_nat (at_ (cost_matrix st) p))) with (cur := p) (fuel := fuel)
      as (tl & Etl); [lia | reflexivity | exact Hp | lia | ].
    exists (cur :: tl).
    apply coord_eqb_neq in NE; rewrite (MazeProofs.backtrace_from_step _ _ _ _ NE).
    rewrite np_get_in_bounds.
    + cbn [bind]; rewrite Hi; cbn [bind]. fold p. now rewrite Etl.
    + rewrite (g_shape_back _ _ _ _ _ _ HI).
      apply (reachable_in_bounds _ a), (g_visited _ _ _ _ _ _ HI cur Hc).
Qed.

(** What the backtrace from a visited voxel returns. *)
Lemma backtrace_sound (st : state) :
  Btw st ->
  forall fuel cur net, In cur (visited st) ->
  backtrace_from a fuel (backtrace_matrix st) cur = Returned net ->
  hd a net = cur /\ last net a = a
  /\ Forall (fun c => In c (visited st)
                      /\ at_ (cost_matrix st) c <= at_ (cost_matrix st) cur) net
  /\ NoDup net
  /\ net_cost a b placed_layout usage_matrix net = Some (at_ (cost_matrix st) cur).
Proof.
  intros HI; induction fuel as [ | fuel IH]; intros cur net Hc E.
  - simpl in E. destruct (coord_eqb cur a) eqn:Ea; [ | discriminate].
    apply coord_eqb_eq in Ea; subst cur; injection E as <-.
    rewrite (g_cost_start _ _ _ _ _ _ HI).
    repeat split; [ | constructor; [tauto | constructor]].
    constructor; [ | constructor]. split; [exact Hc | ].
    rewrite (g_cost_start _ _ _ _ _ _ HI); lia.
  - destruct (coord_eq_dec cur a) as [-> | NE].
    + simpl in E; rewrite coord_eqb_refl in E; injection E as <-.
      rewrite (g_cost_start _ _ _ _ _ _ HI).
      repeat split; [ | constructor; [tauto | constructor]].
      constructor; [ | constructor]. split; [exact Hc | ].
      rewrite (g_cost_start _ _ _ _ _ _ HI); lia.
    + destruct (g_back _ _ _ _ _ _ HI cur NE (or_introl Hc))
        as (i & m & bt & w & Hi & Hm & Hp & Hb & Hcost).
      set (p := add cur (nth i backtrace_movements (0, 0, 0))) in *.
      destruct (MazeProofs.candidate_cost _ _ Hm Hm eq_refl) as [_ Wp]; cbn [snd] in Wp.
      assert (Pc := charge_pos cur w Wp). fold chg in Hcost.
      assert (NE' := NE). apply coord_eqb_neq in NE'.
      rewrite (MazeProofs.backtrace_from_step _ _ _ _ NE') in E.
      rewrite np_get_in_bounds in E
        by (rewrite (g_shape_back _ _ _ _ _ _ HI);
            apply (reachable_in_bounds _ a), (g_visited _ _ _ _ _ _ HI cur Hc)).
      cbn [bind] in E; rewrite Hi in E; cbn [bind] in E. fold p in E.
      destruct (backtrace_from a fuel (backtrace_matrix st) p) as [rest | | ] eqn:Er;
        cbn [bind] in E; try discriminate E.
      injection E as <-.
      destruct (IH p rest Hp Er) as (Hh & Hl & Hall & Hnd & Hcst).
      destruct rest as [ | p' tl]; [discriminate Hcst | ].
      cbn [hd] in Hh; subst p'.
      split; [reflexivity | ].
      split; [exact Hl | ].
      split; [ | split].
      * constructor; [split; [exact Hc | lia] | ].
        eapply Forall_impl; [ | exact Hall].
        intros c [H1 H2]; split; [exact H1 | lia].
      * constructor; [ | exact Hnd].
        intros C. rewrite Forall_forall in Hall. destruct (Hall _ C) as [_ H2]. lia.
      * rewrite MazeProofs.net_cost_cons, Hcst.
        rewrite (step_cost_charge p cur (m, bt, w) Hm Hb); cbn [snd].
        f_equal; lia.
Qed.

(** X9: whatever the usage matrix holds, a start inside the layout gets a
    path to every end that is inside the layout on a layer that differs from
    the layer of the start by a multiple of three, and [None] for every other
    end: blocks and wires in the way raise the cost of a path and never
    prevent one.  Both loops end. *)
Theorem maze_route_finds_path :
  exists N, forall fuel, (N <= fuel)%nat ->
    (aligned (shape placed_layout) a b ->
       exists net, maze_route a b placed_layout usage_matrix fuel = Returned (Some net))
    /\ (~ aligned (shape placed_layout) a b ->
        maze_route a b placed_layout usage_matrix fuel = Returned None).
Proof.
  fold dims.
  destruct (search_total (S (length (all_voxels dims))) (start_state dims a) start_sound)
    as (st & Es); [simpl; lia | ].
  destruct (search_sound _ _ _ start_sound Es) as [HI He].
  exists (S (length (all_voxels dims)) + Z.to_nat (at_ (cost_matrix st) b))%nat.
  intros fuel Hf.
  assert (Em : maze_search a b placed_layout usage_matrix fuel = Returned st).
  { unfold maze_search; rewrite (MazeProofs.initial_state_eq a placed_layout Ha).
    apply (search_mono _ _ _ _ _ _ _ Es); lia. }
  unfold maze_route; rewrite Em; cbn [bind]. split.
  - intros Hr; apply (MazeProofs.reachable_aligned a placed_layout Ha) in Hr.
    assert (Hv : In b (visited st)) by (now apply final_reachable).
    destruct (backtrace_total st HI _ b eq_refl Hv fuel) as (net & Eb); [lia | ].
    exists net. apply mem_In in Hv; rewrite Hv, Eb; reflexivity.
  - intros Hn. destruct (mem b (visited st)) eqn:Hv; [ | reflexivity].
    exfalso; apply Hn, (MazeProofs.reachable_aligned a placed_layout Ha).
    apply (final_reachable st b HI He), mem_In, Hv.
Qed.

(** X10: a returned path starts at [b] and ends at [a], stays inside the
    layout, passes through no voxel twice, and goes by the six movements;
    the costs of its steps (1000 into a violating voxel, otherwise the cost
    of the movement) add up to [cost_matrix[b]]. *)
Theorem maze_route_path (fuel : nat) (net : list coord) :
  maze_route a b placed_layout usage_matrix fuel = Returned (Some net) ->
  exists st, maze_search a b placed_layout usage_matrix fuel = Returned st
    /\ hd a net = b /\ last net a = a
    /\ Forall (fun c => in_bounds c (shape placed_layout) = true) net
    /\ NoDup net
    /\ net_cost a b placed_layout usage_matrix net = Some (at_ (cost_matrix st) b).
Proof.
  unfold maze_route; intros E.
  destruct (maze_search a b placed_layout usage_matrix fuel) as [st | | ] eqn:Em;
    cbn [bind] in E; try discriminate E.
  exists st; split; [reflexivity | ].
  unfold maze_search in Em; rewrite (MazeProofs.initial_state_eq a placed_layout Ha) in Em.
  cbn [bind] in Em.
  destruct (search_sound _ _ _ start_sound Em) as [HI He].
  destruct (mem b (visited st)) eqn:Hv; [ | discriminate E].
  apply mem_In in Hv.
  destruct (backtrace_from a fuel (backtrace_matrix st) b) as [net' | | ] eqn:Eb;
    cbn [bind] in E; try discriminate E.
  injection E as ->.
  destruct (backtrace_sound st HI fuel b net Hv Eb) as (Hh & Hl & Hall & Hnd & Hc).
  repeat split; try assumption.
  eapply Forall_impl; [ | exact Hall].
  intros c [H _]. apply (reachable_in_bounds _ a), (g_visited _ _ _ _ _ _ HI c H).
Qed.

End General.

Lemma maze_route_finds_path_witness :
  exists N, forall fuel, (N <= fuel)%nat ->
    (aligned (shape empty_layout) (0, 0, 0) (3, 2, 2) ->
       exists net, maze_route (0, 0, 0) (3, 2, 2) empty_layout busy_usage fuel
                   = Returned (Some net))
    /\ (~ aligned (shape empty_layout) (0, 0, 0) (3, 2, 2) ->
        maze_route (0, 0, 0) (3, 2, 2) empty_layout busy_usage fuel = Returned None).
Proof.
  apply (maze_route_finds_path (0, 0, 0) (3, 2, 2) empty_layout busy_usage); reflexivity.
Defined.

Lemma maze_route_path_witness :
  exists st, maze_search (0, 0, 0) (3, 2, 2) empty_layout busy_usage 40 = Returned st
    /\ hd (0, 0, 0) sample_route = (3, 2, 2) /\ last sample_route (0, 0, 0) = (0, 0, 0)
    /\ Forall (fun c => in_bounds c (shape empty_layout) = true) sample_route
    /\ NoDup sample_route
    /\ net_cost (0, 0, 0) (3, 2, 2) empty_layout busy_usage sample_route
       = Some (at_ (cost_matrix st) (3, 2, 2)).
Proof.
  apply (maze_route_path (0, 0, 0) (3, 2, 2) empty_layout busy_usage eq_refl 40 sample_route).
  vm_compute; reflexivity.
Defined.

End MazeGeneral.

(** ** Natural selection *)

Module SelectionProofs.
Import Placer Normalize Selection.

Section Draws.

Variable r : rng.
Hypothesis Hr : forall k, (0 <= r k /\ r k < 1)%Q.

Lemma select_segments_spec (net_name : string) (norm_scores : list Q) :
  forall pos i rip_up,
    let res := fst (select_segments r pos net_name i norm_scores rip_up) in
    (forall e, In e rip_up -> In e res)
    /\ (forall e, In e res ->
          In e rip_up
          \/ exists j s, e = (net_name, (i + j)%nat) /\ nth_error norm_scores j = Some s
                         /\ (0 < s)%Q)
    /\ (forall j s, nth_error norm_scores j = Some s -> (1 <= s)%Q ->
          In (net_name, (i + j)%nat) res).
Proof.
  induction norm_scores as [ | x t IH]; intros pos i rip_up; cbn [select_segments].
  - cbn [fst]; split; [auto | split; [auto | ]].
    intros j s H; destruct j; discriminate.
  - set (rip_up' := if Qlt_le_dec (r pos) x then rip_up ++ [(net_name, i)] else rip_up).
    destruct (IH (S pos) (S i) rip_up') as (I1 & I2 & I3).
    assert (Hsub : forall e, In e rip_up -> In e rip_up').
    { intros e He; unfold rip_up'; destruct (Qlt_le_dec (r pos) x); [ | exact He].
      apply in_or_app; now left. }
    split; [intros e He; apply I1, Hsub, He | split].
    + intros e He. destruct (I2 e He) as [H | (j & s & -> & Hj & Hs)].
      * unfold rip_up' in H; destruct (Qlt_le_dec (r pos) x) as [L | G]; [ | now left].
        apply in_app_or in H; destruct H as [H | [<- | []]]; [now left | right].
        exists 0%nat, x; rewrite Nat.add_0_r; split; [reflexivity | split; [reflexivity | ]].
        destruct (Hr pos) as [H0 _]; lra.
      * right; exists (S j), s; split; [f_equal; lia | split; assumption].
    + intros j s Hj Hs. destruct j as [ | j].
      * injection Hj as ->; rewrite Nat.add_0_r; apply I1.
        unfold rip_up'; destruct (Qlt_le_dec (r pos) s) as [L | G].
        -- apply in_or_app; right; now left.
        -- destruct (Hr pos) as [_ H1]; lra.
      * replace (i + S j)%nat with (S i + j)%nat by lia. exact (I3 j s Hj Hs).
Qed.

Lemma select_nets_spec (ns : net_scores) :
  forall pos rip_up,
    let res := select_nets r pos ns rip_up in
    (forall e, In e rip_up -> In e res)
    /\ (forall e, In e res ->
          In e rip_up
          \/ exists norm_scores s, In (fst e, norm_scores) ns
               /\ nth_error norm_scores (snd e) = Some s /\ (0 < s)%Q)
    /\ (forall net_name norm_scores i s, In (net_name, norm_scores) ns ->
          nth_error norm_scores i = Some s -> (1 <= s)%Q -> In (net_name, i) res).
Proof.
  induction ns as [ | [net_name norm_scores] t IH]; intros pos rip_up; cbn [select_nets].
  - split; [auto | split; [auto | ]]. intros n l i s [].
  - assert (H := select_segments_spec net_name norm_scores pos 0%nat rip_up).
    destruct (select_segments r pos net_name 0 norm_scores rip_up) as [rip_up' pos'].
    cbn [fst] in H; destruct H as (S1 & S2 & S3).
    destruct (IH pos' rip_up') as (I1 & I2 & I3).
    split; [intros e He; apply I1, S1, He | split].
    + intros e He. destruct (I2 e He) as [H | (l & s & Hin & Hn & Hs)].
      * destruct (S2 e H) as [H' | (j & s & -> & Hj & Hs)]; [now left | right].
        exists norm_scores, s; cbn [fst snd]; split; [now left | split; assumption].
      * right; exists l, s; split; [now right | split; assumption].
    + intros n l i s [E | Hin] Hn Hs.
      * injection E as <- <-; apply I1. now apply (S3 i s Hn Hs).
      * now apply (I3 n l i s).
Qed.

(** X12: with every draw in [0, 1), a segment whose normalised score is
    at least 1 is always selected for rip-up, and a selected segment always
    has a positive score: one whose score is 0 or less is never selected. *)
Theorem natural_selection_bounds (ns : net_scores) :
  (forall net_name norm_scores i s, In (net_name, norm_scores) ns ->
     nth_error norm_scores i = Some s -> (1 <= s)%Q ->
     In (net_name, i) (natural_selection r ns))
  /\ (forall net_name i, In (net_name, i) (natural_selection r ns) ->
        exists norm_scores s, In (net_name, norm_scores) ns
          /\ nth_error norm_scores i = Some s /\ (0 < s)%Q).
Proof.
  destruct (select_nets_spec ns 0%nat []) as (_ & I2 & I3); split.
  - exact I3.
  - intros net_name i H; destruct (I2 _ H) as [[] | H']; exact H'.
Qed.

End Draws.

Lemma natural_selection_bounds_witness :
  (forall net_name norm_scores i s, In (net_name, norm_scores) zero_scores_normalized ->
     nth_error norm_scores i = Some s -> (1 <= s)%Q ->
     In (net_name, i) (natural_selection draws_interchange zero_scores_normalized))
  /\ (forall net_name i,
        In (net_name, i) (natural_selection draws_interchange zero_scores_normalized) ->
        exists norm_scores s, In (net_name, norm_scores) zero_scores_normalized
          /\ nth_error norm_scores i = Some s /\ (0 < s)%Q).
Proof.
  apply (natural_selection_bounds draws_interchange).
  exact PlacerProofs.draws_interchange_valid.
Defined.

End SelectionProofs.


(** ** The placer's move generator *)

Module GenerateProofs.
Import Placer PlacerProofs.

Lemma length_set_nth (l : list cell_placement) : forall i c,
  length (set_nth l i c) = length l.
Proof.
  induction l as [ | h t IH]; intros [ | i] c; simpl; try reflexivity; now rewrite IH.
Qed.

Lemma nth_set_nth (l : list cell_placement) : forall i c k,
  (i < length l)%nat ->
  nth k (set_nth l i c) default_cell = if Nat.eqb k i then c else nth k l default_cell.
Proof.
  induction l as [ | h t IH]; intros [ | i] c [ | k] Hi; simpl in *; try lia; try reflexivity.
  apply IH; lia.
Qed.

Lemma set_placement_same (c : cell_placement) : set_placement c (placement c) = c.
Proof. now destruct c. Qed.

Lemma interchange_nth (l : list cell_placement) (cellA cellB k : nat) :
  (cellA < length l)%nat -> (cellB < length l)%nat -> cellA <> cellB ->
  nth k (interchange l cellA cellB) default_cell
    = set_placement (nth k l default_cell)
        (placement (nth (transposed cellA cellB k) l default_cell)).
Proof.
  intros HA HB NE; unfold interchange, transposed.
  rewrite nth_set_nth by (now rewrite length_set_nth).
  rewrite !nth_set_nth by assumption.
  destruct (Nat.eqb_spec cellB cellA) as [E | _]; [congruence | ].
  destruct (Nat.eqb_spec k cellB) as [-> | NB].
  - destruct (Nat.eqb_spec cellB cellA) as [E | _]; [congruence | reflexivity].
  - destruct (Nat.eqb_spec k cellA) as [-> | NA]; [reflexivity | ].
    now rewrite set_placement_same.
Qed.

Lemma length_interchange (l : list cell_placement) (cellA cellB : nat) :
  length (interchange l cellA cellB) = length l.
Proof. unfold interchange; now rewrite !length_set_nth. Qed.

Lemma choice_bound (r : rng) (pos : nat) (l : list cell_placement) (i pos' : nat) :
  choice r pos l = Returned (i, pos') -> (i < length l)%nat.
Proof.
  unfold choice. destruct ((0 <=? _) && (_ <? _)) eqn:E; [ | discriminate].
  intros H; injection H as <- _.
  apply andb_prop in E; destruct E as [E1 E2].
  apply Z.leb_le in E1; apply Z.ltb_lt in E2; lia.
Qed.

Lemma pick_cellB_spec (r : rng) (l : list cell_placement) (cellA : nat) :
  forall fuel pos cellB0 cellB pos',
    pick_cellB fuel r pos l cellA cellB0 = Returned (cellB, pos') ->
    cellB <> cellA /\ (cellB = cellB0 \/ (cellB < length l)%nat).
Proof.
  induction fuel as [ | fuel IH]; intros pos cellB0 cellB pos' E; simpl in E;
    destruct (Nat.eqb_spec cellB0 cellA) as [-> | NE]; try discriminate E.
  - injection E as <- _; split; [exact NE | now left].
  - destruct (choice r pos l) as [[i p] | | ] eqn:C; simpl in E; try discriminate E.
    destruct (IH _ _ _ _ E) as [H1 [-> | H2]]; split; try assumption; right;
      [eapply choice_bound; exact C | exact H2].
  - injection E as <- _; split; [exact NE | now left].
Qed.

Lemma map_nth_eq {X : Type} (f : cell_placement -> X) (l l' : list cell_placement) :
  length l' = length l ->
  (forall k, f (nth k l' default_cell) = f (nth k l default_cell)) ->
  map f l' = map f l.
Proof.
  intros Hlen H; apply (nth_ext _ _ (f default_cell) (f default_cell)).
  - now rewrite !length_map.
  - intros k _; rewrite !map_nth; apply H.
Qed.

(** X13: whatever is drawn, a placement returned by [generate] holds the
    same cells at the same positions of the list, with the same names, turns
    and pins; at most the placements of two of them are exchanged, and no
    cell gets a placement that no cell had. *)
Theorem generate_exchanges (fuel : nat) (r : rng) (old_placements new : list cell_placement)
    (method : string) (ratio : Z) :
  generate fuel r old_placements method ratio = Returned new ->
  length new = length old_placements
  /\ map name new = map name old_placements
  /\ map turns new = map turns old_placements
  /\ map pins new = map pins old_placements
  /\ exists i j, (i < length old_placements)%nat /\ (j < length old_placements)%nat
       /\ forall k, placement (nth k new default_cell)
                    = placement (nth (transposed i j k) old_placements default_cell).
Proof.
  intros E.
  assert (H : exists i j, (i < length old_placements)%nat /\ (j < length old_placements)%nat
            /\ length new = length old_placements
            /\ forall k, nth k new default_cell
                 = set_placement (nth k old_placements default_cell)
                     (placement (nth (transposed i j k) old_placements default_cell))).
  { unfold generate in E.
    destruct (choice r 0 old_placements) as [[cellA pos] | | ] eqn:C; simpl in E;
      try discriminate E.
    assert (HA := choice_bound _ _ _ _ _ C).
    destruct (ratio =? 0); simpl in E; [discriminate E | ].
    destruct (Qlt_le_dec _ _).
    - destruct (pick_cellB fuel r (S pos) old_placements cellA cellA) as [[cellB p] | | ] eqn:P;
        simpl in E; try discriminate E.
      injection E as <-.
      destruct (pick_cellB_spec _ _ _ _ _ _ _ _ P) as [NE [-> | HB]]; [congruence | ].
      exists cellA, cellB; split; [exact HA | split; [exact HB | split]].
      + apply length_interchange.
      + intros k; apply interchange_nth; auto.
    - assert (new = old_placements).
      { destruct (String.eqb method "displace"); [congruence | ].
        destruct (String.eqb method "interchange"); congruence. }
      subst new; exists cellA, cellA; split; [exact HA | split; [exact HA | split]];
        [reflexivity | ].
      intros k; unfold transposed.
      destruct (Nat.eqb_spec k cellA) as [-> | _]; now rewrite set_placement_same. }
  destruct H as (i & j & Hi & Hj & Hlen & Hk).
  split; [exact Hlen | ].
  split; [apply map_nth_eq; [exact Hlen | intros k; now rewrite Hk] | ].
  split; [apply map_nth_eq; [exact Hlen | intros k; now rewrite Hk] | ].
  split; [apply map_nth_eq; [exact Hlen | intros k; now rewrite Hk] | ].
  exists i, j; split; [exact Hi | split; [exact Hj | ]].
  intros k; now rewrite Hk.
Qed.

Lemma generate_exchanges_witness :
  length two_cells_generated = length two_cells
  /\ map name two_cells_generated = map name two_cells
  /\ map turns two_cells_generated = map turns two_cells
  /\ map pins two_cells_generated = map pins two_cells
  /\ exists i j, (i < length two_cells)%nat /\ (j < length two_cells)%nat
       /\ forall k, placement (nth k two_cells_generated default_cell)
                    = placement (nth (transposed i j k) two_cells default_cell).
Proof.
  apply (generate_exchanges 5 draws_interchange two_cells two_cells_generated "displace" 5).
  reflexivity.
Defined.

End GenerateProofs.


(** ** The placer's layout functions *)

Module LayoutProofs.
Import Grid Violation Placer Maze MazeInv Layout GridProofs.

Lemma penalty_fold (g : grid Z) (l : list coord) : forall p0,
  let f := fun penalty c =>
             let v := at_ g c in if 1 <? v then penalty + (v - 1) else penalty in
  p0 <= fold_left f l p0
  /\ (fold_left f l p0 = p0 <-> forall c, In c l -> at_ g c <= 1).
Proof.
  induction l as [ | c t IH]; intros p0; cbn [fold_left].
  - split; [lia | split; [intros _ c [] | reflexivity]].
  - cbv zeta in IH.
    destruct (Z.ltb_spec 1 (at_ g c)) as [L | G].
    + destruct (IH (p0 + (at_ g c - 1))) as [I1 I2]. split; [lia | ].
      split; [intros E; lia | ].
      intros H; specialize (H c (or_introl eq_refl)); lia.
    + destruct (IH p0) as [I1 I2]. split; [exact I1 | ].
      rewrite I2; split.
      * intros H q [<- | Hq]; [exact G | now apply H].
      * intros H q Hq; apply H; now right.
Qed.


Lemma int32_small (v : Z) : -2147483648 <= v < 2147483648 -> int32 v = v.
Proof. intros H; unfold int32; rewrite Z.mod_small by lia; lia. Qed.

Lemma np_incr_in_bounds (g : grid Z) (c : coord) :
  in_bounds c (shape g) = true ->
  exists g', np_incr g c = Returned g' /\ shape g' = shape g
    /\ forall q, cells g' q = if coord_eqb q c then int32 (cells g c + 1) else cells g q.
Proof.
  intros H; unfold np_incr; rewrite np_get_in_bounds, at_in_bounds by assumption.
  cbn [bind]; unfold np_set; rewrite np_norm_in_bounds by assumption.
  eexists; split; [reflexivity | split; [reflexivity | intros q; reflexivity]].
Qed.

(** Incrementing along a list of voxels of the grid adds, at each voxel,
    the number of times it is listed. *)
Lemma incr_fold (L : list coord) : forall g : grid Z,
  (forall c, In c L -> in_bounds c (shape g) = true) ->
  (forall q, 0 <= cells g q) ->
  (forall q, cells g q + Z.of_nat (count_occ coord_eq_dec L q) < 2147483648) ->
  exists g', foldM np_incr L g = Returned g' /\ shape g' = shape g
    /\ forall q, cells g' q = cells g q + Z.of_nat (count_occ coord_eq_dec L q).
Proof.
  induction L as [ | c t IH]; intros g Hin H0 Hb.
  - exists g; split; [reflexivity | split; [reflexivity | intros q; simpl; lia]].
  - destruct (np_incr_in_bounds g c (Hin c (or_introl eq_refl))) as (g1 & E1 & S1 & C1).
    cbn [foldM]; rewrite E1; cbn [bind].
    assert (Hc : int32 (cells g c + 1) = cells g c + 1).
    { apply int32_small. specialize (H0 c); specialize (Hb c).
      rewrite (count_occ_cons_eq coord_eq_dec t (eq_refl c)) in Hb. lia. }
    assert (C1' : forall q, cells g1 q + Z.of_nat (count_occ coord_eq_dec t q)
                     = cells g q + Z.of_nat (count_occ coord_eq_dec (c :: t) q)).
    { intros q; rewrite C1. destruct (coord_eqb_spec q c) as [-> | NE].
      - rewrite Hc, (count_occ_cons_eq coord_eq_dec t (eq_refl c)); lia.
      - rewrite (count_occ_cons_neq coord_eq_dec t) by congruence; lia. }
    destruct (IH g1) as (g' & E & S' & C').
    + intros q Hq; rewrite S1; apply Hin; now right.
    + intros q; rewrite C1.
      destruct (coord_eqb q c); [rewrite Hc; specialize (H0 c); lia | apply H0].
    + intros q; rewrite C1'; apply Hb.
    + exists g'; split; [exact E | split; [congruence | ]].
      intros q; rewrite C', C1'; reflexivity.
Qed.

Lemma NoDup_flat_map {A B : Type} (f : A -> list B) (l : list A) :
  NoDup l -> (forall x, In x l -> NoDup (f x)) ->
  (forall x y b, In x l -> In y l -> In b (f x) -> In b (f y) -> x = y) ->
  NoDup (flat_map f l).
Proof.
  induction 1 as [ | x t Hx Hnd IH]; intros Hf Hd; simpl; [constructor | ].
  apply NoDup_app.
  - apply Hf; now left.
  - apply IH; [intros y Hy; apply Hf; now right | ].
    intros y z b Hy Hz; apply Hd; now right.
  - intros b Hb Hb'. apply in_flat_map in Hb'; destruct Hb' as (y & Hy & Hby).
    apply Hx. replace x with y; [exact Hy | ].
    symmetry; apply (Hd x y b); auto; [now left | now right].
Qed.

Lemma all_voxels_NoDup (dims : coord) : NoDup (all_voxels dims).
Proof.
  destruct dims as [[h d] w]; unfold all_voxels.
  apply NoDup_flat_map; [apply xrange_NoDup | | ].
  - intros y _; apply NoDup_flat_map; [apply xrange_NoDup | | ].
    + intros z _. apply Finite.Injective_map_NoDup; [ | apply xrange_NoDup].
      intros x x' E; congruence.
    + intros z z' b _ _ Hb Hb'. apply in_map_iff in Hb, Hb'.
      destruct Hb as (x & <- & _), Hb' as (x' & E & _). congruence.
  - intros y y' b _ _ Hb Hb'. apply in_flat_map in Hb, Hb'.
    destruct Hb as (z & _ & Hb), Hb' as (z' & _ & Hb'). apply in_map_iff in Hb, Hb'.
    destruct Hb as (x & <- & _), Hb' as (x' & E & _). congruence.
Qed.

Lemma box_In (anchor s q : coord) : In q (box anchor s) <-> covers anchor s q = true.
Proof.
  destruct anchor as [[yy zz] xx], q as [[y z] x]; unfold covers, box.
  rewrite in_map_iff; split.
  - intros ([[y' z'] x'] & E & Hin). apply UsageProofs.all_voxels_iff in Hin.
    simpl in E; injection E as <- <- <-.
    now replace (yy + y' - yy) with y' by lia; replace (zz + z' - zz) with z' by lia;
      replace (xx + x' - xx) with x' by lia.
  - intros H; exists (y - yy, z - zz, x - xx); split;
      [simpl; repeat f_equal; lia | now apply UsageProofs.all_voxels_iff].
Qed.

Lemma box_count (anchor s q : coord) :
  count_occ coord_eq_dec (box anchor s) q = if covers anchor s q then 1%nat else 0%nat.
Proof.
  destruct (covers anchor s q) eqn:B.
  - apply box_In in B; unfold box in *. apply in_map_iff in B; destruct B as (u & <- & Hu).
    apply count_occ_map_NoDup; [intros v v'; apply MazeProofs.add_inj
                               | apply all_voxels_NoDup | exact Hu].
  - apply count_occ_not_In; intros H; apply box_In in H; congruence.
Qed.

(** The loop over the placements adds, at each voxel, the number of boxes
    that hold it. *)
Lemma occupied_fold (t : cell_table) (pcs : list (cell_placement * cell)) :
  forall g : grid Z,
  Forall (fun pc => lookup_cell t (fst pc) = Returned (snd pc)) pcs ->
  (forall pc q, In pc pcs -> covers (placement (fst pc)) (shape (blocks (snd pc))) q = true ->
     in_bounds q (shape g) = true) ->
  (forall q, 0 <= cells g q) ->
  (forall q, cells g q + Z.of_nat (length (covering q pcs)) < 2147483648) ->
  exists g',
    foldM (fun g p =>
             c <- lookup_cell t p ;;
             foldM np_incr (box (placement p) (shape (blocks c))) g)
          (map fst pcs) g = Returned g'
    /\ shape g' = shape g
    /\ forall q, cells g' q = cells g q + Z.of_nat (length (covering q pcs)).
Proof.
  induction pcs as [ | [p c] pcs IH]; intros g F Hin H0 Hb.
  - exists g; split; [reflexivity | split; [reflexivity | intros q; simpl; lia]].
  - inversion F as [ | ? ? Hl F']; subst; cbn [fst snd] in Hl.
    cbn [map fst foldM]; rewrite Hl; cbn [bind].
    assert (Hcount : forall q,
              Z.of_nat (length (covering q ((p, c) :: pcs)))
              = Z.of_nat (count_occ coord_eq_dec (box (placement p) (shape (blocks c))) q)
                + Z.of_nat (length (covering q pcs))).
    { intros q; unfold covering; cbn [filter fst snd]; rewrite box_count.
      destruct (covers (placement p) (shape (blocks c)) q); cbn [length]; lia. }
    destruct (incr_fold (box (placement p) (shape (blocks c))) g) as (g1 & E1 & S1 & C1).
    + intros q Hq; apply (Hin (p, c) q); [now left | now apply box_In].
    + exact H0.
    + intros q; specialize (Hb q); rewrite Hcount in Hb; lia.
    + rewrite E1. destruct (IH g1) as (g' & E & S' & C').
      * exact F'.
      * intros pc q Hpc Hq; rewrite S1; apply (Hin pc q); [now right | exact Hq].
      * intros q; rewrite C1; specialize (H0 q); lia.
      * intros q; rewrite C1; specialize (Hb q); rewrite Hcount in Hb; lia.
      * exists g'; split; [exact E | split; [congruence | ]].
        intros q; rewrite C', C1, Hcount; lia.
Qed.

(** X15: when every cell is found and every box lies inside the grid,
    [compute_occupied_locations] returns a grid that holds, at each voxel,
    the number of placements whose box holds that voxel. *)
Theorem occupied_counts (t : cell_table) (pcs : list (cell_placement * cell))
    (dimensions : coord) :
  ViolationSpec.nonneg_dims dimensions = true ->
  Forall (fun pc => lookup_cell t (fst pc) = Returned (snd pc)) pcs ->
  (forall pc q, In pc pcs -> covers (placement (fst pc)) (shape (blocks (snd pc))) q = true ->
     in_bounds q dimensions = true) ->
  Z.of_nat (length pcs) < 2147483648 ->
  exists g, compute_occupied_locations t (map fst pcs) dimensions = Returned g
    /\ shape g = dimensions
    /\ forall q, cells g q = Z.of_nat (length (covering q pcs)).
Proof.
  intros N F Hin Hlen; unfold compute_occupied_locations.
  rewrite ViolationModel.np_zeros_spec, N; cbn [bind].
  destruct (occupied_fold t pcs (mk_grid dimensions (fun _ => 0)) F) as (g & E & Sg & Cg).
  - exact Hin.
  - intros q; simpl; lia.
  - intros q; cbn [cells]. assert (L := filter_length_le
      (fun pc => covers (placement (fst pc)) (shape (blocks (snd pc))) q) pcs).
    unfold covering; lia.
  - exists g; split; [exact E | split; [exact Sg | ]].
    intros q; rewrite Cg; cbn [cells]; lia.
Qed.

Lemma occupied_counts_witness :
  exists g, compute_occupied_locations sample_table
              (map fst (row_cells 0 [(mk_cell "NOT" (mk_grid (3, 2, 2) (fun _ => 1)),
                                      mk_blif_cell "NOT" [("A", "n3"); ("Y", "n4")])]))
              (3, 2, 2) = Returned g
    /\ shape g = (3, 2, 2)
    /\ forall q, cells g q
         = Z.of_nat (length (covering q
             (row_cells 0 [(mk_cell "NOT" (mk_grid (3, 2, 2) (fun _ => 1)),
                            mk_blif_cell "NOT" [("A", "n3"); ("Y", "n4")])]))).
Proof.
  apply (occupied_counts sample_table).
  - reflexivity.
  - repeat constructor.
  - intros pc q [<- | []] H; destruct q as [[y z] x].
    unfold covers in H; cbn [row_cells fst snd placement] in H.
    now rewrite !Z.sub_0_r in H.
  - reflexivity.
Defined.

Lemma fold_add_shift (l : list Z) : forall a,
  fold_left Z.add l a = a + fold_left Z.add l 0.
Proof.
  induction l as [ | x t IH]; intros a; cbn [fold_left]; [lia | ].
  rewrite (IH (a + x)), (IH (0 + x)); lia.
Qed.

Lemma py_sum_cons (a : Z) (l : list Z) : py_sum (a :: l) = a + py_sum l.
Proof. unfold py_sum; cbn [fold_left]; rewrite fold_add_shift; lia. Qed.

Lemma py_sum_nonneg (l : list Z) :
  (forall z, In z l -> 0 <= z) -> 0 <= py_sum l /\ forall z, In z l -> z <= py_sum l.
Proof.
  induction l as [ | a t IH]; intros H.
  - split; [unfold py_sum; simpl; lia | intros z []].
  - rewrite py_sum_cons.
    destruct IH as [I1 I2]; [intros z Hz; apply H; now right | ].
    assert (Ha := H a (or_introl eq_refl)).
    split; [lia | intros z [<- | Hz]; [lia | specialize (I2 z Hz); lia]].
Qed.

Lemma fold_max_ge (l : list Z) : forall a,
  a <= fold_left Z.max l a /\ forall x, In x l -> x <= fold_left Z.max l a.
Proof.
  induction l as [ | y t IH]; intros a; cbn [fold_left]; [split; [lia | intros x []] | ].
  destruct (IH (Z.max a y)) as [I1 I2]; split; [lia | ].
  intros x [<- | Hx]; [lia | now apply I2].
Qed.

Lemma py_max_int_ge (l : list Z) (m : Z) :
  py_max_int l = Returned m -> forall x, In x l -> x <= m.
Proof.
  destruct l as [ | a t]; [discriminate | ]; cbn [py_max_int].
  intros E; injection E as <-; destruct (fold_max_ge t a) as [I1 I2].
  intros x [<- | Hx]; [exact I1 | now apply I2].
Qed.

Lemma nonneg_dims_iff (dims : coord) :
  ViolationSpec.nonneg_dims dims = true
  <-> 0 <= fst (fst dims) /\ 0 <= snd (fst dims) /\ 0 <= snd dims.
Proof.
  destruct dims as [[h d] w]; unfold ViolationSpec.nonneg_dims; cbn [fst snd].
  rewrite !andb_true_iff, !Z.leb_le; tauto.
Qed.

Lemma row_cells_placements (l : list (cell * blif_cell)) : forall x,
  map fst (row_cells x l) = place_row x l.
Proof.
  induction l as [ | [c bc] t IH]; intros x; cbn [row_cells place_row map fst];
    [reflexivity | now rewrite IH].
Qed.

Lemma length_place_row (l : list (cell * blif_cell)) : forall x,
  length (place_row x l) = length l.
Proof.
  induction l as [ | [c bc] t IH]; intros x; cbn [place_row length];
    [reflexivity | now rewrite IH].
Qed.

Lemma place_row_nth (l : list (cell * blif_cell)) : forall x i c bc,
  nth_error l i = Some (c, bc) ->
  nth_error (place_row x l) i
    = Some (mk_cell_placement (cell_name c) (0, 0, x + offset (map fst l) i) 0 (bc_pins bc)).
Proof.
  induction l as [ | [c0 bc0] t IH]; intros x i c bc H; destruct i as [ | i];
    try discriminate H.
  - injection H as -> ->. cbn [place_row nth_error].
    replace (x + offset (map fst ((c, bc) :: t)) 0) with x
      by (unfold offset, py_sum; simpl; lia).
    reflexivity.
  - cbn [place_row nth_error map fst]. cbn [nth_error] in H. rewrite (IH _ _ _ _ H).
    unfold offset; cbn [firstn map]; rewrite py_sum_cons.
    replace (x + shape2 (blocks c0) + spacing
             + py_sum (map (fun c1 => shape2 (blocks c1) + spacing) (firstn i (map fst t))))
      with (x + (shape2 (blocks c0) + spacing
                 + py_sum (map (fun c1 => shape2 (blocks c1) + spacing)
                             (firstn i (map fst t))))) by lia.
    reflexivity.
Qed.

Lemma nth_error_combine {A B : Type} (l : list A) : forall (l' : list B) i a b,
  nth_error l i = Some a -> nth_error l' i = Some b ->
  nth_error (combine l l') i = Some (a, b).
Proof.
  induction l as [ | x t IH]; intros [ | y t'] [ | i] a b; simpl; try discriminate.
  - intros E E'; injection E as ->; injection E' as ->; reflexivity.
  - apply IH.
Qed.

Lemma map_fst_combine_eq {A B : Type} (l : list A) : forall l' : list B,
  length l = length l' -> map fst (combine l l') = l.
Proof.
  induction l as [ | x t IH]; intros [ | y t'] H; simpl in *; try discriminate;
    [reflexivity | ].
  f_equal; apply IH; lia.
Qed.

Lemma Forall2_combine {A B : Type} (R : A -> B -> Prop) (l : list A) (l' : list B) :
  Forall2 R l l' -> forall a b, In (b, a) (combine l' l) -> R a b.
Proof.
  induction 1 as [ | x y t t' Hxy F IH]; intros a b Hin; simpl in Hin; [contradiction | ].
  destruct Hin as [E | Hin]; [injection E as <- <-; exact Hxy | now apply IH].
Qed.

Lemma initial_placement_returned (blif : list blif_cell) (t : cell_table)
    (placements : list cell_placement) (dimensions : list Z) :
  initial_placement blif t None = Returned (placements, dimensions) ->
  exists cells max_height,
    Forall2 (fun bc c => first_rotation t bc = Returned c) blif cells
    /\ py_max_int (map (fun c => shape0 (blocks c)) cells) = Returned max_height
    /\ dimensions = [max_height; width_estimate cells; width_estimate cells]
    /\ placements = place_row 0 (combine cells blif).
Proof.
  unfold initial_placement; intros E.
  destruct (mapM (first_rotation t) blif) as [cells | | ] eqn:M; cbn [bind] in E;
    try discriminate E.
  destruct (py_max_int _) as [mh | | ] eqn:Mx; cbn [bind] in E; try discriminate E.
  injection E as <- <-. exists cells, mh.
  split; [now apply mapM_Forall2 | split; [exact Mx | split; [ | reflexivity]]].
  unfold width_estimate; now rewrite length_map.
Qed.

(** X16: without given dimensions, [initial_placement] lays the cells out
    on one line, in the order of the netlist, each in its first rotation: the
    [i]-th placement is anchored at [(0, 0, x)] with [x] the sum of the
    extents along the third axis of the cells before it, plus one for each of
    them; the estimated dimensions are the largest extent along the first
    axis, and twice the sum over the cells of the larger of the other two
    extents plus one. *)
Theorem initial_placement_row (blif : list blif_cell) (t : cell_table)
    (placements : list cell_placement) (dimensions : list Z) :
  initial_placement blif t None = Returned (placements, dimensions) ->
  exists cells max_height,
    Forall2 (fun bc c => first_rotation t bc = Returned c) blif cells
    /\ py_max_int (map (fun c => shape0 (blocks c)) cells) = Returned max_height
    /\ dimensions = [max_height; width_estimate cells; width_estimate cells]
    /\ length placements = length blif
    /\ forall i bc c, nth_error blif i = Some bc -> nth_error cells i = Some c ->
         nth_error placements i
           = Some (mk_cell_placement (cell_name c) (0, 0, offset cells i) 0 (bc_pins bc)).
Proof.
  intros E.
  destruct (initial_placement_returned _ _ _ _ E) as (cells & mh & F & Mx & -> & ->).
  assert (Hlen : length cells = length blif) by (symmetry; eapply Forall2_length; exact F).
  exists cells, mh; split; [exact F | split; [exact Mx | split; [reflexivity | split]]].
  - rewrite length_place_row, length_combine; lia.
  - intros i bc c Hb Hc.
    rewrite (place_row_nth _ 0 i c bc (nth_error_combine _ _ _ _ _ Hc Hb)).
    now rewrite map_fst_combine_eq by exact Hlen.
Qed.

Lemma initial_placement_row_witness :
  exists cells max_height,
    Forall2 (fun bc c => first_rotation sample_table bc = Returned c) sample_blif cells
    /\ py_max_int (map (fun c => shape0 (blocks c)) cells) = Returned max_height
    /\ snd sample_placement = [max_height; width_estimate cells; width_estimate cells]
    /\ length (fst sample_placement) = length sample_blif
    /\ forall i bc c, nth_error sample_blif i = Some bc -> nth_error cells i = Some c ->
         nth_error (fst sample_placement) i
           = Some (mk_cell_placement (cell_name c) (0, 0, offset cells i) 0 (bc_pins bc)).
Proof.
  apply (initial_placement_row sample_blif sample_table).
  reflexivity.
Defined.

Lemma row_cells_In (l : list (cell * blif_cell)) :
  (forall cb, In cb l -> 0 <= shape2 (blocks (fst cb))) ->
  forall x p c, In (p, c) (row_cells x l) ->
  exists bc X, In (c, bc) l
    /\ p = mk_cell_placement (cell_name c) (0, 0, X) 0 (bc_pins bc)
    /\ x <= X
    /\ X + shape2 (blocks c) + spacing
       <= x + py_sum (map (fun c => shape2 (blocks c) + spacing) (map fst l)).
Proof.
  induction l as [ | [c0 bc0] t IH]; intros Hw x p c Hin; cbn [row_cells] in Hin;
    [contradiction | ].
  assert (H0 := Hw (c0, bc0) (or_introl eq_refl)); cbn [fst] in H0.
  assert (Ht : forall cb, In cb t -> 0 <= shape2 (blocks (fst cb)))
    by (intros cb Hcb; apply Hw; now right).
  assert (Ps : 0 <= py_sum (map (fun c => shape2 (blocks c) + spacing) (map fst t))).
  { refine (proj1 (py_sum_nonneg _ _)).
    intros z Hz; apply in_map_iff in Hz; destruct Hz as (c1 & <- & H1).
    apply in_map_iff in H1; destruct H1 as (cb & <- & Hcb).
    specialize (Ht cb Hcb); unfold spacing; lia. }
  cbn [map fst]; rewrite py_sum_cons.
  destruct Hin as [E | Hin].
  - injection E as <- <-. exists bc0, x; split; [now left | split; [reflexivity | ]].
    unfold spacing in *; lia.
  - destruct (IH Ht _ p c Hin) as (bc & X & H1 & H2 & H3 & H4).
    exists bc, X; split; [now right | split; [exact H2 | ]].
    unfold spacing in *; lia.
Qed.

Lemma filter_none {X : Type} (P : X -> bool) (l : list X) :
  (forall a, In a l -> P a = false) -> filter P l = [].
Proof.
  induction l as [ | a t IH]; intros H; cbn [filter]; [reflexivity | ].
  rewrite (H a (or_introl eq_refl)); apply IH; intros b Hb; apply H; now right.
Qed.

(** The boxes of a line of cells are disjoint. *)
Lemma row_cells_disjoint (l : list (cell * blif_cell)) :
  (forall cb, In cb l -> 0 <= shape2 (blocks (fst cb))) ->
  forall x q, (length (covering q (row_cells x l)) <= 1)%nat.
Proof.
  induction l as [ | [c0 bc0] t IH]; intros Hw x q; cbn [row_cells]; [simpl; lia | ].
  assert (Ht : forall cb, In cb t -> 0 <= shape2 (blocks (fst cb)))
    by (intros cb Hcb; apply Hw; now right).
  unfold covering; cbn [filter fst snd placement].
  destruct (covers (0, 0, x) (shape (blocks c0)) q) eqn:C; [ | apply (IH Ht)].
  rewrite filter_none; [simpl; lia | ].
  intros [p c] Hin; cbn [fst snd].
  destruct (row_cells_In t Ht _ p c Hin) as (bc & X & _ & -> & HX & _).
  cbn [placement]. apply not_true_is_false; intros C'.
  destruct q as [[y z] x']; unfold covers in C, C'.
  apply in_bounds_iff in C, C'; cbn [fst snd] in C, C'.
  unfold shape2 in HX; unfold spacing in HX; lia.
Qed.

(** X17: the initial placement has no overlap.  When each cell of the
    library has the name it is filed under and no negative extent, the boxes
    of the initial placement lie inside the estimated dimensions, no voxel is
    occupied by two cells, and the overlap penalty is 0. *)
Theorem initial_placement_no_overlap (blif : list blif_cell) (t : cell_table)
    (placements : list cell_placement) (max_height width : Z) :
  initial_placement blif t None = Returned (placements, [max_height; width; width]) ->
  (forall key rotations c,
     lookup_cells t key = Returned rotations -> py_nth rotations 0 = Returned c ->
     cell_name c = key /\ ViolationSpec.nonneg_dims (shape (blocks c)) = true) ->
  exists g,
    compute_occupied_locations t placements (max_height, width, width) = Returned g
    /\ shape g = (max_height, width, width)
    /\ (forall q, 0 <= cells g q <= 1)
    /\ compute_overlap_penalty g = 0.
Proof.
  intros E Hlib.
  destruct (initial_placement_returned _ _ _ _ E) as (cells & mh & F & Mx & D & ->).
  injection D as -> ->.
  assert (Hlen : length cells = length blif) by (symmetry; eapply Forall2_length; exact F).
  set (l := combine cells blif).
  assert (Hl : forall c bc, In (c, bc) l ->
            In c cells /\ lookup_cells t (cell_name c) <> Raised KeyError
            /\ lookup_cell t (mk_cell_placement (cell_name c) (0, 0, 0) 0 (bc_pins bc))
               = Returned c
            /\ ViolationSpec.nonneg_dims (shape (blocks c)) = true).
  { intros c bc Hin. assert (R := Forall2_combine _ _ _ F bc c Hin); cbn beta in R.
    unfold first_rotation in R.
    destruct (lookup_cells t (bc_name bc)) as [rots | | ] eqn:L; cbn [bind] in R;
      try discriminate R.
    destruct (Hlib _ _ _ L R) as [Hn Hs].
    split; [eapply in_combine_l; exact Hin | ].
    split; [rewrite Hn, L; discriminate | ].
    split; [ | exact Hs].
    unfold lookup_cell; cbn [name turns]; rewrite Hn, L; exact R. }
  assert (Hw : forall cb, In cb l -> 0 <= shape2 (blocks (fst cb))).
  { intros [c bc] Hin; destruct (Hl c bc Hin) as (_ & _ & _ & Hs).
    apply nonneg_dims_iff in Hs; apply Hs. }
  assert (Hcells : forall c, In c cells ->
             0 <= shape0 (blocks c) /\ 0 <= shape1 (blocks c) /\ 0 <= shape2 (blocks c)).
  { intros c Hc. destruct (In_nth_error _ _ Hc) as [i Hi].
    assert (Hbi : exists bc, nth_error blif i = Some bc).
    { destruct (nth_error blif i) as [bc | ] eqn:Eb; [now exists bc | ].
      apply nth_error_None in Eb. assert (i < length cells)%nat; [ | lia].
      apply nth_error_Some; congruence. }
    destruct Hbi as [bc Hb].
    assert (Hin : In (c, bc) l)
      by (eapply nth_error_In; apply nth_error_combine; eassumption).
    destruct (Hl c bc Hin) as (_ & _ & _ & Hs). now apply nonneg_dims_iff in Hs. }
  set (widths := map (fun c => Z.max (shape1 (blocks c)) (shape2 (blocks c))) cells).
  assert (Pw : 0 <= py_sum widths /\ forall z, In z widths -> z <= py_sum widths).
  { apply py_sum_nonneg; intros z Hz; apply in_map_iff in Hz; destruct Hz as (c & <- & Hc).
    specialize (Hcells c Hc); lia. }
  assert (HW : width_estimate cells = py_sum widths + Z.of_nat (length cells))
    by (unfold width_estimate, spacing; fold widths; lia).
  assert (Htotal : py_sum (map (fun c => shape2 (blocks c) + spacing) cells)
                   <= width_estimate cells).
  { rewrite HW; unfold widths, spacing. clear.
    induction cells as [ | c cs IH]; [unfold py_sum; simpl; lia | ].
    cbn [map length]; rewrite !py_sum_cons; lia. }
  assert (Hmh : forall c, In c cells -> shape0 (blocks c) <= mh).
  { intros c Hc; apply (py_max_int_ge _ _ Mx).
    now apply (in_map (fun c0 => shape0 (blocks c0))). }
  assert (Nd : ViolationSpec.nonneg_dims (mh, width_estimate cells, width_estimate cells)
               = true).
  { apply nonneg_dims_iff; cbn [fst snd].
    destruct cells as [ | c cs]; [discriminate Mx | ].
    assert (H1 := Hcells c (or_introl eq_refl)). assert (H2 := Hmh c (or_introl eq_refl)).
    lia. }
  assert (Hpcs : forall p c, In (p, c) (row_cells 0 l) ->
            exists bc X, In (c, bc) l
              /\ p = mk_cell_placement (cell_name c) (0, 0, X) 0 (bc_pins bc)
              /\ 0 <= X /\ X + shape2 (blocks c) + spacing <= width_estimate cells).
  { intros p c Hin. destruct (row_cells_In l Hw 0 p c Hin) as (bc & X & H1 & H2 & H3 & H4).
    exists bc, X; split; [exact H1 | split; [exact H2 | split; [exact H3 | ]]].
    unfold l in H4; rewrite map_fst_combine_eq in H4 by exact Hlen. lia. }
  unfold compute_occupied_locations; rewrite ViolationModel.np_zeros_spec, Nd; cbn [bind].
  rewrite <- (row_cells_placements l 0).
  destruct (occupied_fold t (row_cells 0 l)
              (mk_grid (mh, width_estimate cells, width_estimate cells) (fun _ => 0)))
    as (g & Eg & Sg & Cg).
  - apply Forall_forall; intros [p c] Hin; cbn [fst snd].
    destruct (Hpcs p c Hin) as (bc & X & H1 & -> & _).
    destruct (Hl c bc H1) as (_ & _ & Hlk & _). exact Hlk.
  - intros [p c] q Hin Hq; cbn [fst snd shape] in *.
    destruct (Hpcs p c Hin) as (bc & X & H1 & -> & H3 & H4).
    destruct (Hl c bc H1) as (Hc & _ & _ & _).
    specialize (Hcells c Hc); specialize (Hmh c Hc).
    assert (Hd : Z.max (shape1 (blocks c)) (shape2 (blocks c)) <= py_sum widths).
    { apply Pw; unfold widths; apply in_map_iff; now exists c. }
    destruct q as [[y z] x]; unfold covers in Hq; cbn [placement] in Hq.
    apply in_bounds_iff in Hq; apply in_bounds_iff; cbn [fst snd] in *.
    unfold shape0, shape1, shape2, spacing in *; lia.
  - intros q; simpl; lia.
  - intros q; cbn [Grid.cells]. assert (L := row_cells_disjoint l Hw 0 q). lia.
  - exists g; split; [exact Eg | split; [exact Sg | ]].
    assert (H1 : forall q, 0 <= Grid.cells g q <= 1).
    { intros q; rewrite Cg; cbn [Grid.cells].
      assert (L := row_cells_disjoint l Hw 0 q). lia. }
    split; [exact H1 | ].
    unfold compute_overlap_penalty.
    apply (proj2 (proj2 (penalty_fold g (all_voxels (shape g)) 0))).
    intros c Hc; apply UsageProofs.all_voxels_iff in Hc.
    rewrite at_in_bounds by exact Hc. apply H1.
Qed.

Lemma initial_placement_no_overlap_witness :
  exists g,
    compute_occupied_locations sample_table (fst sample_placement) (3, 13, 13) = Returned g
    /\ shape g = (3, 13, 13)
    /\ (forall q, 0 <= cells g q <= 1)
    /\ compute_overlap_penalty g = 0.
Proof.
  apply (initial_placement_no_overlap sample_blif sample_table (fst sample_placement) 3 13).
  - reflexivity.
  - intros key rotations c L R. unfold sample_table in L; cbn [lookup_cells] in L.
    destruct (String.eqb "AND" key) eqn:E1.
    + apply String.eqb_eq in E1; subst key; injection L as <-.
      vm_compute in R; injection R as <-; split; reflexivity.
    + destruct (String.eqb "NOT" key) eqn:E2; [ | discriminate L].
      apply String.eqb_eq in E2; subst key; injection L as <-.
      vm_compute in R; injection R as <-; split; reflexivity.
Defined.

End LayoutProofs.


(** ** Sequences of writes into a grid *)

Module WriteProofs.
Import Grid Violation GridProofs.

Lemma foldM_app {S X : Type} (f : S -> X -> outcome S) (l1 l2 : list X) : forall s,
  foldM f (l1 ++ l2) s = bind (foldM f l1 s) (foldM f l2).
Proof.
  induction l1 as [ | x t IH]; intros s; cbn [app foldM]; [reflexivity | ].
  destruct (f s x); cbn [bind]; [apply IH | reflexivity | reflexivity].
Qed.

Lemma foldM_flat_map {S X Y : Type} (f : S -> Y -> outcome S) (h : X -> list Y)
    (l : list X) : forall s,
  foldM (fun s x => foldM f (h x) s) l s = foldM f (flat_map h l) s.
Proof.
  induction l as [ | x t IH]; intros s; cbn [flat_map foldM]; [reflexivity | ].
  rewrite foldM_app. destruct (foldM f (h x) s); cbn [bind]; [apply IH | reflexivity | reflexivity].
Qed.

Lemma foldM_ext_in {S X : Type} (f f' : S -> X -> outcome S) (l : list X) :
  (forall s x, In x l -> f s x = f' s x) -> forall s, foldM f l s = foldM f' l s.
Proof.
  induction l as [ | x t IH]; intros H s; cbn [foldM]; [reflexivity | ].
  rewrite (H s x (or_introl eq_refl)).
  destruct (f' s x); cbn [bind]; try reflexivity.
  apply IH; intros s' y Hy; apply H; now right.
Qed.

(** Writing a list of values at voxels of the grid: a voxel that is not
    written keeps its value, a written voxel holds one of the values written
    to it. *)
Lemma writes_spec (W : list (coord * Z)) : forall g : grid Z,
  (forall w, In w W -> in_bounds (fst w) (shape g) = true) ->
  exists g', foldM (fun g w => np_set g (fst w) (snd w)) W g = Returned g'
    /\ shape g' = shape g
    /\ forall q, (~ In q (map fst W) -> cells g' q = cells g q)
                 /\ (In q (map fst W) -> exists v, In (q, v) W /\ cells g' q = v).
Proof.
  induction W as [ | [c v] t IH]; intros g Hin.
  - exists g; split; [reflexivity | split; [reflexivity | ]].
    intros q; split; [reflexivity | intros []].
  - cbn [foldM fst snd]. unfold np_set at 1.
    rewrite np_norm_in_bounds by (apply (Hin (c, v)); now left). cbn [bind].
    set (g1 := mk_grid (shape g) (fun q => if coord_eqb q c then v else cells g q)).
    destruct (IH g1) as (g' & E & S' & C'); [intros w Hw; apply Hin; now right | ].
    exists g'; split; [exact E | split; [exact S' | ]].
    intros q; destruct (C' q) as [C1 C2]; cbn [map fst]; split.
    + intros Hn. rewrite C1 by (intros H; apply Hn; now right).
      cbn [g1 cells]. destruct (coord_eqb_spec q c) as [-> | NE]; [ | reflexivity].
      exfalso; apply Hn; now left.
    + intros Hq. destruct (in_dec coord_eq_dec q (map fst t)) as [Ht | Ht].
      * destruct (C2 Ht) as (v' & Hv' & Ev'); exists v'; split; [now right | exact Ev'].
      * destruct Hq as [<- | Hq]; [ | contradiction].
        exists v; split; [now left | ].
        rewrite (C1 Ht); cbn [g1 cells]; now rewrite coord_eqb_refl.
Qed.

End WriteProofs.

(** ** Shrinking a layout *)

Module ShrinkProofs.
Import Grid Violation Placer Maze MazeInv Layout GridProofs WriteProofs LayoutProofs.

Lemma int8_small (v : Z) : -128 <= v <= 127 -> int8 v = v.
Proof. intros H; unfold int8; rewrite Z.mod_small by lia; lia. Qed.

(** Each of the six bounds is computed on its own. *)
Lemma fold_proj {S : Type} (step : S -> coord -> S) (pi : S -> Z) (pc : coord -> Z)
    (op : Z -> Z -> Z) (P : coord -> bool) :
  (forall s c, pi (step s c) = if P c then op (pi s) (pc c) else pi s) ->
  forall L s, pi (fold_left step L s)
              = fold_left (fun m c => if P c then op m (pc c) else m) L (pi s).
Proof.
  intros H; induction L as [ | c t IH]; intros s; cbn [fold_left]; [reflexivity | ].
  now rewrite IH, H.
Qed.

Lemma fold_min_attained (P : coord -> bool) (pc : coord -> Z) (L : list coord) : forall m0,
  let m := fold_left (fun m c => if P c then Z.min m (pc c) else m) L m0 in
  m <= m0 /\ (forall c, In c L -> P c = true -> m <= pc c)
  /\ (m = m0 \/ exists c, In c L /\ P c = true /\ pc c = m).
Proof.
  induction L as [ | c t IH]; intros m0; cbn [fold_left].
  - split; [lia | split; [intros c [] | now left]].
  - cbv zeta; destruct (P c) eqn:Pc;
      [destruct (IH (Z.min m0 (pc c))) as (I1 & I2 & I3)
      | destruct (IH m0) as (I1 & I2 & I3)]; cbv zeta in I1, I2, I3.
    + split; [lia | split].
      * intros c' [<- | Hc'] H; [lia | now apply I2].
      * destruct I3 as [E | (c' & H1 & H2 & H3)].
        -- destruct (Z.min_spec m0 (pc c)) as [[_ Em] | [_ Em]];
             [left; rewrite E; exact Em | right; exists c; split; [now left | split]];
             [exact Pc | rewrite E; now symmetry].
        -- right; exists c'; split; [now right | now split].
    + split; [exact I1 | split].
      * intros c' [<- | Hc'] H; [congruence | now apply I2].
      * destruct I3 as [E | (c' & H1 & H2 & H3)]; [now left | ].
        right; exists c'; split; [now right | now split].
Qed.

Lemma fold_max_attained (P : coord -> bool) (pc : coord -> Z) (L : list coord) : forall m0,
  let m := fold_left (fun m c => if P c then Z.max m (pc c) else m) L m0 in
  m0 <= m /\ (forall c, In c L -> P c = true -> pc c <= m)
  /\ (m = m0 \/ exists c, In c L /\ P c = true /\ pc c = m).
Proof.
  induction L as [ | c t IH]; intros m0; cbn [fold_left].
  - split; [lia | split; [intros c [] | now left]].
  - cbv zeta; destruct (P c) eqn:Pc;
      [destruct (IH (Z.max m0 (pc c))) as (I1 & I2 & I3)
      | destruct (IH m0) as (I1 & I2 & I3)]; cbv zeta in I1, I2, I3.
    + split; [lia | split].
      * intros c' [<- | Hc'] H; [lia | now apply I2].
      * destruct I3 as [E | (c' & H1 & H2 & H3)].
        -- destruct (Z.max_spec m0 (pc c)) as [[_ Em] | [_ Em]];
             [right; exists c; split; [now left | split] | left; rewrite E; exact Em];
             [exact Pc | rewrite E; now symmetry].
        -- right; exists c'; split; [now right | now split].
    + split; [exact I1 | split].
      * intros c' [<- | Hc'] H; [congruence | now apply I2].
      * destruct I3 as [E | (c' & H1 & H2 & H3)]; [now left | ].
        right; exists c'; split; [now right | now split].
Qed.

Section Bounds.

Variable layout : grid Z.

Let P (c : coord) : bool := 0 <? at_ layout c.
Let py (c : coord) : Z := fst (fst c).
Let pz (c : coord) : Z := snd (fst c).
Let px (c : coord) : Z := snd c.

Lemma grow_components (mm : coord * coord) (c : coord) :
  py (fst (grow layout mm c)) = (if P c then Z.min (py (fst mm)) (py c) else py (fst mm))
  /\ pz (fst (grow layout mm c)) = (if P c then Z.min (pz (fst mm)) (pz c) else pz (fst mm))
  /\ px (fst (grow layout mm c)) = (if P c then Z.min (px (fst mm)) (px c) else px (fst mm))
  /\ py (snd (grow layout mm c)) = (if P c then Z.max (py (snd mm)) (py c) else py (snd mm))
  /\ pz (snd (grow layout mm c)) = (if P c then Z.max (pz (snd mm)) (pz c) else pz (snd mm))
  /\ px (snd (grow layout mm c)) = (if P c then Z.max (px (snd mm)) (px c) else px (snd mm)).
Proof.
  destruct mm as [[[min_y min_z] min_x] [[max_y max_z] max_x]], c as [[y z] x].
  unfold grow, P; destruct (0 <? at_ layout (y, z, x)); repeat split.
Qed.

(** The minima and maxima computed by the first three loops. *)
Lemma bounds_spec (p : coord) :
  block_at layout p ->
  exists lo hi,
    fold_left (grow layout) (all_voxels (shape layout)) (shape layout, (0, 0, 0)) = (lo, hi)
    /\ (forall c, block_at layout c ->
          py lo <= py c <= py hi /\ pz lo <= pz c <= pz hi /\ px lo <= px c <= px hi)
    /\ (exists c, block_at layout c /\ py c = py lo)
    /\ (exists c, block_at layout c /\ pz c = pz lo)
    /\ (exists c, block_at layout c /\ px c = px lo)
    /\ (exists c, block_at layout c /\ py c = py hi)
    /\ (exists c, block_at layout c /\ pz c = pz hi)
    /\ (exists c, block_at layout c /\ px c = px hi).
Proof.
  intros [Bp Pp].
  set (L := all_voxels (shape layout)).
  set (r := fold_left (grow layout) L (shape layout, (0, 0, 0))).
  assert (HL : forall c, In c L <-> in_bounds c (shape layout) = true)
    by (intros c; apply UsageProofs.all_voxels_iff).
  assert (HP : forall c, P c = true <-> 0 < at_ layout c)
    by (intros c; unfold P; apply Z.ltb_lt).
  assert (Hblk : forall c, In c L -> P c = true -> block_at layout c).
  { intros c Hc Hpc; split; [now apply HL | now apply HP]. }
  assert (Bp' := Bp); apply in_bounds_iff in Bp'.
  assert (Hp : In p L /\ P p = true) by (split; [now apply HL | now apply HP]).
  destruct Hp as [HpL HpP].
  assert (Ey : py (fst r) = fold_left (fun m c => if P c then Z.min m (py c) else m) L
                              (py (shape layout)))
    by (apply (fold_proj (grow layout) (fun s => py (fst s)) py Z.min P);
        intros s c; apply grow_components).
  assert (Ez : pz (fst r) = fold_left (fun m c => if P c then Z.min m (pz c) else m) L
                              (pz (shape layout)))
    by (apply (fold_proj (grow layout) (fun s => pz (fst s)) pz Z.min P);
        intros s c; apply grow_components).
  assert (Ex : px (fst r) = fold_left (fun m c => if P c then Z.min m (px c) else m) L
                              (px (shape layout)))
    by (apply (fold_proj (grow layout) (fun s => px (fst s)) px Z.min P);
        intros s c; apply grow_components).
  assert (Fy : py (snd r) = fold_left (fun m c => if P c then Z.max m (py c) else m) L 0)
    by (apply (fold_proj (grow layout) (fun s => py (snd s)) py Z.max P);
        intros s c; apply grow_components).
  assert (Fz : pz (snd r) = fold_left (fun m c => if P c then Z.max m (pz c) else m) L 0)
    by (apply (fold_proj (grow layout) (fun s => pz (snd s)) pz Z.max P);
        intros s c; apply grow_components).
  assert (Fx : px (snd r) = fold_left (fun m c => if P c then Z.max m (px c) else m) L 0)
    by (apply (fold_proj (grow layout) (fun s => px (snd s)) px Z.max P);
        intros s c; apply grow_components).
  destruct (fold_min_attained P py L (py (shape layout))) as (Ay1 & Ay2 & Ay3).
  destruct (fold_min_attained P pz L (pz (shape layout))) as (Az1 & Az2 & Az3).
  destruct (fold_min_attained P px L (px (shape layout))) as (Ax1 & Ax2 & Ax3).
  destruct (fold_max_attained P py L 0) as (By1 & By2 & By3).
  destruct (fold_max_attained P pz L 0) as (Bz1 & Bz2 & Bz3).
  destruct (fold_max_attained P px L 0) as (Bx1 & Bx2 & Bx3).
  cbv zeta in *. rewrite <- Ey in *. rewrite <- Ez in *. rewrite <- Ex in *.
  rewrite <- Fy in *. rewrite <- Fz in *. rewrite <- Fx in *.
  clearbody r. destruct r as [lo hi]; cbn [fst snd] in *.
  exists lo, hi; split; [reflexivity | ].
  assert (Hlo : forall (pc : coord -> Z) m0,
            pc lo <= pc p -> pc p < m0 ->
            (pc lo = m0 \/ exists c, In c L /\ P c = true /\ pc c = pc lo) ->
            exists c, block_at layout c /\ pc c = pc lo).
  { intros pc m0 H1 H2 [E | (c & Hc & Hpc & Ec)]; [lia | ].
    exists c; split; [now apply Hblk | exact Ec]. }
  assert (Hhi : forall (pc : coord -> Z),
            pc p <= pc hi -> 0 <= pc p ->
            (pc hi = 0 \/ exists c, In c L /\ P c = true /\ pc c = pc hi) ->
            exists c, block_at layout c /\ pc c = pc hi).
  { intros pc H1 H2 [E | (c & Hc & Hpc & Ec)].
    - exists p; split; [now split | lia].
    - exists c; split; [now apply Hblk | exact Ec]. }
  split.
  - intros c [Bc Pc]. apply HL in Bc. apply HP in Pc.
    specialize (Ay2 c Bc Pc); specialize (Az2 c Bc Pc); specialize (Ax2 c Bc Pc).
    specialize (By2 c Bc Pc); specialize (Bz2 c Bc Pc); specialize (Bx2 c Bc Pc). lia.
  - specialize (Ay2 p HpL HpP); specialize (Az2 p HpL HpP); specialize (Ax2 p HpL HpP).
    specialize (By2 p HpL HpP); specialize (Bz2 p HpL HpP); specialize (Bx2 p HpL HpP).
    unfold py, pz, px in *.
    split; [apply (Hlo (fun c => fst (fst c)) (fst (fst (shape layout)))); [lia | lia | exact Ay3] | ].
    split; [apply (Hlo (fun c => snd (fst c)) (snd (fst (shape layout)))); [lia | lia | exact Az3] | ].
    split; [apply (Hlo (fun c => snd c) (snd (shape layout))); [lia | lia | exact Ax3] | ].
    split; [apply (Hhi (fun c => fst (fst c))); [lia | lia | exact By3] | ].
    split; [apply (Hhi (fun c => snd (fst c))); [lia | lia | exact Bz3] | ].
    apply (Hhi (fun c => snd c)); [lia | lia | exact Bx3].
Qed.

(** Without a block, the minima and maxima stay what they were. *)
Lemma bounds_empty (L : list coord) (mm : coord * coord) :
  (forall c, In c L -> at_ layout c <= 0) -> fold_left (grow layout) L mm = mm.
Proof.
  induction L as [ | c t IH]; intros H; cbn [fold_left]; [reflexivity | ].
  assert (E : grow layout mm c = mm).
  { destruct mm as [[[min_y min_z] min_x] [[max_y max_z] max_x]], c as [[y z] x].
    unfold grow. specialize (H _ (or_introl eq_refl)).
    destruct (Z.ltb_spec 0 (at_ layout (y, z, x))); [lia | reflexivity]. }
  rewrite E; apply IH; intros c' Hc'; apply H; now right.
Qed.

End Bounds.

(** The second three loops. *)
Lemma fill_spec (layout : grid Z) (lo dims : coord) :
  ViolationSpec.nonneg_dims dims = true ->
  (forall c, in_bounds c dims = true -> in_bounds (add lo c) (shape layout) = true) ->
  exists shrunk,
    foldM (fun shrunk_layout c =>
             v <- np_get layout (add lo c) ;;
             np_set shrunk_layout c (int8 v))
          (all_voxels dims) (mk_grid dims (fun _ => 0)) = Returned shrunk
    /\ shape shrunk = dims
    /\ forall c, in_bounds c dims = true -> at_ shrunk c = int8 (at_ layout (add lo c)).
Proof.
  intros N Hin.
  set (W := map (fun c => (c, int8 (at_ layout (add lo c)))) (all_voxels dims)).
  destruct (writes_spec W (mk_grid dims (fun _ => 0))) as (g & E & Sg & Cg).
  { intros w Hw; unfold W in Hw; apply in_map_iff in Hw; destruct Hw as (c & <- & Hc).
    now apply UsageProofs.all_voxels_iff. }
  exists g; split; [ | split; [exact Sg | ]].
  - rewrite <- E; unfold W. clear E Cg Sg.
    generalize (mk_grid dims (fun _ : coord => 0)).
    assert (H : forall c, In c (all_voxels dims) -> in_bounds (add lo c) (shape layout) = true)
      by (intros c Hc; now apply Hin, UsageProofs.all_voxels_iff).
    induction (all_voxels dims) as [ | c t IH]; intros g0; cbn [map foldM fst snd];
      [reflexivity | ].
    rewrite np_get_in_bounds by (apply H; now left). cbn [bind].
    destruct (np_set g0 c (int8 (at_ layout (add lo c)))); cbn [bind]; try reflexivity.
    apply IH; intros c' Hc'; apply H; now right.
  - intros c Hc. rewrite at_in_bounds by (now rewrite Sg).
    destruct (Cg c) as [_ C2].
    destruct C2 as (v & Hv & Ev).
    + unfold W; rewrite map_map; cbn [fst]; rewrite map_id.
      now apply UsageProofs.all_voxels_iff.
    + rewrite Ev. unfold W in Hv; apply in_map_iff in Hv; destruct Hv as (c' & E' & _).
      now injection E' as -> <-.
Qed.

(** X18: a layout that holds a block (a positive entry) is cut down to the
    bounding box of its blocks.  The result has the extents of the box, its
    entries are those of the layout inside the box, every block of the
    layout is inside the box, and each of the six faces of the box holds a
    block. *)
Theorem shrink_layout_bounding_box (layout : grid Z) (p : coord) :
  block_at layout p ->
  (forall c, in_bounds c (shape layout) = true -> -128 <= at_ layout c <= 127) ->
  exists lo hi shrunk,
    shrink_layout layout = Returned shrunk
    /\ shape shrunk = (fst (fst hi) - fst (fst lo) + 1, snd (fst hi) - snd (fst lo) + 1,
                       snd hi - snd lo + 1)
    /\ (forall c, in_bounds c (shape shrunk) = true ->
          in_bounds (add lo c) (shape layout) = true
          /\ at_ shrunk c = at_ layout (add lo c))
    /\ (forall c, block_at layout c ->
          fst (fst lo) <= fst (fst c) <= fst (fst hi)
          /\ snd (fst lo) <= snd (fst c) <= snd (fst hi)
          /\ snd lo <= snd c <= snd hi)
    /\ (exists c, block_at layout c /\ fst (fst c) = fst (fst lo))
    /\ (exists c, block_at layout c /\ snd (fst c) = snd (fst lo))
    /\ (exists c, block_at layout c /\ snd c = snd lo)
    /\ (exists c, block_at layout c /\ fst (fst c) = fst (fst hi))
    /\ (exists c, block_at layout c /\ snd (fst c) = snd (fst hi))
    /\ (exists c, block_at layout c /\ snd c = snd hi).
Proof.
  intros Hp H8.
  destruct (bounds_spec layout p Hp)
    as (lo & hi & E & Hbox & Ly & Lz & Lx & Uy & Uz & Ux).
  assert (Hlo := Hbox p Hp).
  assert (Hface : forall c, block_at layout c ->
            0 <= fst (fst c) < fst (fst (shape layout))
            /\ 0 <= snd (fst c) < snd (fst (shape layout))
            /\ 0 <= snd c < snd (shape layout)).
  { intros c [Bc _]; now apply in_bounds_iff in Bc. }
  destruct Ly as (cy & By & Ey), Lz as (cz & Bz & Ez), Lx as (cx & Bx & Ex),
           Uy as (dy & Cy & Fy), Uz as (dz & Cz & Fz), Ux as (dx & Cx & Fx).
  assert (Hy := Hface _ By); assert (Hz := Hface _ Bz); assert (Hx := Hface _ Bx).
  assert (Gy := Hface _ Cy); assert (Gz := Hface _ Cz); assert (Gx := Hface _ Cx).
  set (dims := (fst (fst hi) - fst (fst lo) + 1, snd (fst hi) - snd (fst lo) + 1,
                snd hi - snd lo + 1)).
  assert (Hin : forall c, in_bounds c dims = true -> in_bounds (add lo c) (shape layout) = true).
  { intros c Hc; apply in_bounds_iff in Hc; apply in_bounds_iff.
    destruct lo as [[ly lz] lx], hi as [[hy hz] hx], c as [[y z] x];
      unfold dims in Hc; cbn [fst snd add] in *. lia. }
  assert (N : ViolationSpec.nonneg_dims dims = true).
  { apply nonneg_dims_iff; unfold dims; cbn [fst snd]; lia. }
  destruct (fill_spec layout lo dims N Hin) as (shrunk & Ef & Sf & Cf).
  exists lo, hi, shrunk.
  split.
  - unfold shrink_layout; rewrite E.
    destruct lo as [[ly lz] lx], hi as [[hy hz] hx]; cbn [fst snd] in *.
    fold dims. rewrite ViolationModel.np_zeros_spec, N; cbn [bind shape]. exact Ef.
  - split; [exact Sf | ].
    split.
    + intros c Hc; rewrite Sf in Hc. split; [now apply Hin | ].
      rewrite (Cf c Hc); apply int8_small, H8, Hin, Hc.
    + split; [exact Hbox | ].
      split; [now exists cy | split; [now exists cz | split; [now exists cx | ]]].
      split; [now exists dy | split; [now exists dz | now exists dx]].
Qed.

Lemma two_blocks_int8 (c : coord) :
  in_bounds c (shape two_blocks) = true -> -128 <= at_ two_blocks c <= 127.
Proof.
  intros H; rewrite at_in_bounds by exact H; unfold two_blocks; cbn [cells].
  destruct (coord_eqb c (1, 1, 2)); [lia | ]. destruct (coord_eqb c (2, 3, 2)); lia.
Qed.

Lemma shrink_layout_bounding_box_witness :
  exists lo hi shrunk,
    shrink_layout two_blocks = Returned shrunk
    /\ shape shrunk = (fst (fst hi) - fst (fst lo) + 1, snd (fst hi) - snd (fst lo) + 1,
                       snd hi - snd lo + 1)
    /\ (forall c, in_bounds c (shape shrunk) = true ->
          in_bounds (add lo c) (shape two_blocks) = true
          /\ at_ shrunk c = at_ two_blocks (add lo c))
    /\ (forall c, block_at two_blocks c ->
          fst (fst lo) <= fst (fst c) <= fst (fst hi)
          /\ snd (fst lo) <= snd (fst c) <= snd (fst hi)
          /\ snd lo <= snd c <= snd hi)
    /\ (exists c, block_at two_blocks c /\ fst (fst c) = fst (fst lo))
    /\ (exists c, block_at two_blocks c /\ snd (fst c) = snd (fst lo))
    /\ (exists c, block_at two_blocks c /\ snd c = snd lo)
    /\ (exists c, block_at two_blocks c /\ fst (fst c) = fst (fst hi))
    /\ (exists c, block_at two_blocks c /\ snd (fst c) = snd (fst hi))
    /\ (exists c, block_at two_blocks c /\ snd c = snd hi).
Proof.
  apply (shrink_layout_bounding_box two_blocks (1, 1, 2)).
  - split; [reflexivity | vm_compute; reflexivity].
  - exact two_blocks_int8.
Defined.

(** X19: a layout without a block.  When an extent is 2 or more, the
    extents computed for the result are negative and [np.zeros] raises
    [ValueError]; when the layout has no voxel at all, the result is given one
    voxel, and reading the layout for it raises [IndexError]; otherwise the
    result is an array without voxels. *)
Theorem shrink_layout_empty (layout : grid Z) :
  ViolationSpec.nonneg_dims (shape layout) = true ->
  (forall c, in_bounds c (shape layout) = true -> at_ layout c <= 0) ->
  (2 <= fst (fst (shape layout)) \/ 2 <= snd (fst (shape layout)) \/ 2 <= snd (shape layout) ->
     shrink_layout layout = Raised ValueError)
  /\ (shape layout = (0, 0, 0) -> shrink_layout layout = Raised IndexError)
  /\ (fst (fst (shape layout)) <= 1 -> snd (fst (shape layout)) <= 1 ->
      snd (shape layout) <= 1 -> shape layout <> (0, 0, 0) ->
      exists shrunk, shrink_layout layout = Returned shrunk
        /\ shape shrunk = (1 - fst (fst (shape layout)), 1 - snd (fst (shape layout)),
                           1 - snd (shape layout))
        /\ all_voxels (shape shrunk) = []).
Proof.
  intros N H0.
  assert (E : fold_left (grow layout) (all_voxels (shape layout)) (shape layout, (0, 0, 0))
              = (shape layout, (0, 0, 0))).
  { apply bounds_empty; intros c Hc; now apply H0, UsageProofs.all_voxels_iff. }
  apply nonneg_dims_iff in N.
  unfold shrink_layout; rewrite E; clear E.
  destruct (shape layout) as [[h d] w] eqn:Sh; cbn [fst snd] in *.
  rewrite ViolationModel.np_zeros_spec.
  split; [ | split].
  - intros H2.
    replace (ViolationSpec.nonneg_dims (0 - h + 1, 0 - d + 1, 0 - w + 1)) with false;
      [reflexivity | ].
    symmetry; apply not_true_is_false; intros C; apply nonneg_dims_iff in C;
      cbn [fst snd] in C; lia.
  - intros E; injection E as -> -> ->. cbn [ViolationSpec.nonneg_dims Z.leb andb bind].
    unfold np_get; rewrite Sh; reflexivity.
  - intros Hh Hd Hw NE.
    replace (ViolationSpec.nonneg_dims (0 - h + 1, 0 - d + 1, 0 - w + 1)) with true
      by (symmetry; apply nonneg_dims_iff; cbn [fst snd]; lia).
    cbn [bind shape].
    assert (Ev : all_voxels (0 - h + 1, 0 - d + 1, 0 - w + 1) = []).
    { destruct (all_voxels (0 - h + 1, 0 - d + 1, 0 - w + 1)) as [ | c t] eqn:Ev;
        [reflexivity | exfalso].
      assert (Hc : In c (all_voxels (0 - h + 1, 0 - d + 1, 0 - w + 1)))
        by (rewrite Ev; now left).
      apply UsageProofs.all_voxels_iff, in_bounds_iff in Hc; cbn [fst snd] in Hc.
      apply NE; repeat f_equal; lia. }
    rewrite Ev; cbn [foldM].
    eexists; split; [reflexivity | cbn [shape]; split; [f_equal; [f_equal | ]; lia | ]].
    replace (1 - h, 1 - d, 1 - w) with (0 - h + 1, 0 - d + 1, 0 - w + 1)
      by (f_equal; [f_equal | ]; lia).
    exact Ev.
Qed.

Lemma shrink_layout_empty_witness :
  (2 <= fst (fst (shape Maze.empty_layout)) \/ 2 <= snd (fst (shape Maze.empty_layout))
   \/ 2 <= snd (shape Maze.empty_layout) ->
     shrink_layout Maze.empty_layout = Raised ValueError)
  /\ (shape Maze.empty_layout = (0, 0, 0) -> shrink_layout Maze.empty_layout = Raised IndexError)
  /\ (fst (fst (shape Maze.empty_layout)) <= 1 -> snd (fst (shape Maze.empty_layout)) <= 1 ->
      snd (shape Maze.empty_layout) <= 1 -> shape Maze.empty_layout <> (0, 0, 0) ->
      exists shrunk, shrink_layout Maze.empty_layout = Returned shrunk
        /\ shape shrunk = (1 - fst (fst (shape Maze.empty_layout)),
                           1 - snd (fst (shape Maze.empty_layout)),
                           1 - snd (shape Maze.empty_layout))
        /\ all_voxels (shape shrunk) = []).
Proof.
  apply (shrink_layout_empty Maze.empty_layout).
  - reflexivity.
  - intros c Hc; rewrite at_in_bounds by exact Hc; simpl; lia.
Defined.

End ShrinkProofs.


(** ** The routed layout *)

Module RoutedProofs.
Import Grid Violation Routing Routed GridProofs WriteProofs.

Lemma bind_Returned {A : Type} (m : outcome A) : bind m Returned = m.
Proof. now destruct m. Qed.

Lemma place_wire_writes (g : grid Z) (c : coord) :
  place_wire g c = foldM (fun g w => np_set g (fst w) (snd w)) (writes_of c) g.
Proof.
  destruct c as [[y z] x]; unfold place_wire, writes_of; cbn [foldM fst snd].
  destruct (np_set g (y, z, x) 55) as [g1 | | ]; cbn [bind]; try reflexivity.
  destruct (y =? 4); [cbn [foldM fst snd]; now rewrite bind_Returned | ].
  destruct (y =? 1); [cbn [foldM fst snd]; now rewrite bind_Returned | reflexivity].
Qed.

Lemma extract_writes (R : routing) :
  (forall net_name d seg, In (net_name, d) R -> In seg (segments d) -> net seg <> None) ->
  forall g, extract R g
            = foldM (fun g w => np_set g (fst w) (snd w))
                    (flat_map writes_of (routed_voxels R)) g.
Proof.
  intros Hs g; unfold extract, routed_voxels.
  rewrite <- (foldM_flat_map (fun g w => np_set g (fst w) (snd w)) writes_of).
  rewrite <- (foldM_flat_map (fun g c => foldM (fun g w => np_set g (fst w) (snd w))
                                              (writes_of c) g)
                             (fun item => flat_map path_voxels (segments (snd item)))).
  apply foldM_ext_in; intros g0 [net_name d] Hd; cbn [snd].
  rewrite <- (foldM_flat_map (fun g c => foldM (fun g w => np_set g (fst w) (snd w))
                                              (writes_of c) g) path_voxels).
  apply foldM_ext_in; intros g1 seg Hseg.
  unfold extract_segment, path_voxels.
  specialize (Hs net_name d seg Hd Hseg).
  destruct (net seg) as [l | ]; [ | congruence].
  apply foldM_ext_in; intros g2 c _; apply place_wire_writes.
Qed.

Lemma writes_of_In (V : list coord) (q : coord) (v : Z) :
  In (q, v) (flat_map writes_of V) ->
  (v = 55 /\ In q V)
  \/ (v = 5 /\ fst (fst q) = 3 /\ In (above q) V)
  \/ (v = 1 /\ fst (fst q) = 0 /\ In (above q) V).
Proof.
  intros H; apply in_flat_map in H; destruct H as ([[y z] x] & Hc & Hw).
  unfold writes_of in Hw; destruct Hw as [E | Hw].
  - injection E as <- <-; left; now split.
  - destruct (Z.eqb_spec y 4) as [-> | N4].
    + destruct Hw as [E | []]; injection E as <- <-; right; left.
      split; [reflexivity | split; [reflexivity | exact Hc]].
    + destruct (Z.eqb_spec y 1) as [-> | N1]; [ | contradiction].
      destruct Hw as [E | []]; injection E as <- <-; right; right.
      split; [reflexivity | split; [reflexivity | exact Hc]].
Qed.

Lemma writes_of_written (V : list coord) (q : coord) :
  In q V \/ (In (above q) V /\ (fst (fst q) = 3 \/ fst (fst q) = 0)) ->
  In q (map fst (flat_map writes_of V)).
Proof.
  intros [H | [H Hy]]; apply in_map_iff.
  - exists (q, 55); split; [reflexivity | ].
    apply in_flat_map; exists q; split; [exact H | ].
    destruct q as [[y z] x]; now left.
  - destruct q as [[y z] x]; cbn [fst snd above] in *.
    exists ((y, z, x), if y =? 3 then 5 else 1); split; [reflexivity | ].
    apply in_flat_map; exists (y + 1, z, x); split; [exact H | ].
    unfold writes_of; right.
    destruct Hy as [-> | ->]; cbn; now left.
Qed.

(** X20: when every segment has a path and every voxel of every path lies
    inside the layout, [extract] returns a layout of the same shape in which
    every path voxel that is not under a path voxel of layer 1 or 4 holds
    redstone wire (55); a voxel under a path voxel of layer 4 (of layer 1)
    that is not itself a path voxel holds block 5 (block 1); and every other
    voxel is as in the placed layout. *)
Theorem extract_places_wires (R : routing) (placed_layout : grid Z) :
  (forall net_name d seg, In (net_name, d) R -> In seg (segments d) -> net seg <> None) ->
  (forall c, In c (routed_voxels R) -> in_bounds c (shape placed_layout) = true) ->
  exists routed_layout,
    extract R placed_layout = Returned routed_layout
    /\ shape routed_layout = shape placed_layout
    /\ forall q,
         (In q (routed_voxels R) -> ~ supports R q -> cells routed_layout q = 55)
         /\ (~ In q (routed_voxels R) -> In (above q) (routed_voxels R) ->
             fst (fst q) = 3 -> cells routed_layout q = 5)
         /\ (~ In q (routed_voxels R) -> In (above q) (routed_voxels R) ->
             fst (fst q) = 0 -> cells routed_layout q = 1)
         /\ (~ In q (routed_voxels R) -> ~ supports R q ->
             cells routed_layout q = cells placed_layout q).
Proof.
  intros Hs Hin; rewrite (extract_writes R Hs).
  set (V := routed_voxels R) in *.
  destruct (writes_spec (flat_map writes_of V) placed_layout) as (g & E & Sg & Cg).
  { intros [q v] Hw; cbn [fst].
    destruct (writes_of_In V q v Hw) as [[_ H] | [(_ & Hy & H) | (_ & Hy & H)]].
    - now apply Hin.
    - specialize (Hin _ H); apply in_bounds_iff in Hin; apply in_bounds_iff.
      destruct q as [[y z] x]; cbn [fst snd above] in *; lia.
    - specialize (Hin _ H); apply in_bounds_iff in Hin; apply in_bounds_iff.
      destruct q as [[y z] x]; cbn [fst snd above] in *; lia. }
  exists g; split; [exact E | split; [exact Sg | ]].
  intros q; destruct (Cg q) as [C1 C2]; unfold supports; fold V.
  split; [ | split; [ | split]].
  - intros Hq Hn. destruct C2 as (v & Hv & ->); [apply writes_of_written; now left | ].
    destruct (writes_of_In V q v Hv) as [[-> _] | [(_ & Hy & H) | (_ & Hy & H)]];
      [reflexivity | | ]; exfalso; apply Hn; split; auto.
  - intros Hq Ha Hy. destruct C2 as (v & Hv & ->); [apply writes_of_written; right; auto | ].
    destruct (writes_of_In V q v Hv) as [[_ H] | [(-> & _ & _) | (_ & Hy' & _)]];
      [contradiction | reflexivity | lia].
  - intros Hq Ha Hy. destruct C2 as (v & Hv & ->); [apply writes_of_written; right; auto | ].
    destruct (writes_of_In V q v Hv) as [[_ H] | [(_ & Hy' & _) | (-> & _ & _)]];
      [contradiction | lia | reflexivity].
  - intros Hq Hn. apply C1. intros H; apply in_map_iff in H; destruct H as ([q' v] & <- & Hw).
    cbn [fst] in *.
    destruct (writes_of_In V q' v Hw) as [[_ H] | [(_ & Hy & H) | (_ & Hy & H)]];
      [contradiction | | ]; apply Hn; split; auto.
Qed.

Lemma extract_places_wires_witness :
  exists routed_layout,
    extract sample_routing Usage.sample_layout = Returned routed_layout
    /\ shape routed_layout = shape Usage.sample_layout
    /\ forall q,
         (In q (routed_voxels sample_routing) -> ~ supports sample_routing q ->
          cells routed_layout q = 55)
         /\ (~ In q (routed_voxels sample_routing) ->
             In (above q) (routed_voxels sample_routing) ->
             fst (fst q) = 3 -> cells routed_layout q = 5)
         /\ (~ In q (routed_voxels sample_routing) ->
             In (above q) (routed_voxels sample_routing) ->
             fst (fst q) = 0 -> cells routed_layout q = 1)
         /\ (~ In q (routed_voxels sample_routing) -> ~ supports sample_routing q ->
             cells routed_layout q = cells Usage.sample_layout q).
Proof.
  apply (extract_places_wires sample_routing Usage.sample_layout).
  - intros net_name d seg Hn Hseg.
    destruct Hn as [E | [E | []]]; injection E as <- <-; simpl in Hseg;
      repeat (destruct Hseg as [<- | Hseg]; [discriminate | ]); destruct Hseg.
  - intros c Hc; vm_compute in Hc.
    repeat (destruct Hc as [<- | Hc]; [reflexivity | ]); destruct Hc.
Defined.

End RoutedProofs.


(** ** The placed layout *)

Module CreateProofs.
Import Grid Violation Placer Maze MazeInv Layout GridProofs WriteProofs LayoutProofs.

Lemma add_within (anchor q : coord) : add anchor (within anchor q) = q.
Proof.
  destruct anchor as [[yy zz] xx], q as [[y z] x]; cbn [add within].
  f_equal; [f_equal | ]; lia.
Qed.

Lemma within_add (anchor v : coord) : within anchor (add anchor v) = v.
Proof.
  destruct anchor as [[yy zz] xx], v as [[y z] x]; cbn [add within].
  f_equal; [f_equal | ]; lia.
Qed.

Lemma covers_within (anchor s q : coord) :
  covers anchor s q = in_bounds (within anchor q) s.
Proof. destruct anchor as [[yy zz] xx], q as [[y z] x]; reflexivity. Qed.

Lemma copy_writes (src : grid Z) (f : coord -> coord) (L : list coord) :
  (forall v, In v L -> in_bounds v (shape src) = true) ->
  forall g,
    foldM (fun g v => blockid <- np_get src v ;; np_set g (f v) (int8 blockid)) L g
    = foldM (fun g w => np_set g (fst w) (snd w))
            (map (fun v => (f v, int8 (at_ src v))) L) g.
Proof.
  induction L as [ | v t IH]; intros H g; cbn [map foldM fst snd]; [reflexivity | ].
  rewrite np_get_in_bounds by (apply H; now left). cbn [bind].
  destruct (np_set g (f v) (int8 (at_ src v))); cbn [bind]; try reflexivity.
  apply IH; intros v' Hv'; apply H; now right.
Qed.

Lemma create_writes (t : cell_table) (pcs : list (cell_placement * cell)) :
  Forall (fun pc => lookup_cell t (fst pc) = Returned (snd pc)) pcs ->
  forall g,
    foldM (fun g p =>
             c <- lookup_cell t p ;;
             foldM (fun g v =>
                      blockid <- np_get (blocks c) v ;;
                      np_set g (add (placement p) v) (int8 blockid))
                   (all_voxels (shape (blocks c))) g)
          (map fst pcs) g
    = foldM (fun g w => np_set g (fst w) (snd w))
            (flat_map (fun pc => cell_writes (fst pc) (snd pc)) pcs) g.
Proof.
  induction 1 as [ | [p c] pcs Hl F IH]; intros g; cbn [map fst snd foldM flat_map];
    [reflexivity | ].
  cbn [fst snd] in Hl; rewrite Hl; cbn [bind].
  rewrite copy_writes by (intros v Hv; now apply UsageProofs.all_voxels_iff).
  rewrite foldM_app. fold (cell_writes p c).
  destruct (foldM _ (cell_writes p c) g); cbn [bind]; [apply IH | reflexivity | reflexivity].
Qed.

Lemma cell_writes_In (pcs : list (cell_placement * cell)) (q : coord) (v : Z) :
  In (q, v) (flat_map (fun pc => cell_writes (fst pc) (snd pc)) pcs) ->
  exists pc, In pc (covering q pcs)
    /\ v = int8 (at_ (blocks (snd pc)) (within (placement (fst pc)) q)).
Proof.
  intros H; apply in_flat_map in H; destruct H as ([p c] & Hpc & Hw); cbn [fst snd] in Hw.
  unfold cell_writes in Hw; apply in_map_iff in Hw; destruct Hw as (u & E & Hu).
  injection E as <- <-. exists (p, c); cbn [fst snd]; split.
  - apply filter_In; split; [exact Hpc | cbn [fst snd]].
    rewrite covers_within, within_add. now apply UsageProofs.all_voxels_iff.
  - now rewrite within_add.
Qed.

Lemma cell_writes_written (pcs : list (cell_placement * cell)) (q : coord)
    (pc : cell_placement * cell) :
  In pc (covering q pcs) ->
  In q (map fst (flat_map (fun pc => cell_writes (fst pc) (snd pc)) pcs)).
Proof.
  intros H; apply filter_In in H; destruct H as [Hpc Hq].
  rewrite covers_within in Hq.
  apply in_map_iff.
  exists (q, int8 (at_ (blocks (snd pc)) (within (placement (fst pc)) q))); split;
    [reflexivity | ].
  apply in_flat_map; exists pc; split; [exact Hpc | ].
  unfold cell_writes; apply in_map_iff; exists (within (placement (fst pc)) q).
  split; [now rewrite add_within | now apply UsageProofs.all_voxels_iff].
Qed.

(** X21: when every cell is found, the boxes of the placements lie inside
    the layout and no two of them share a voxel, [create_layout] returns a
    layout that holds, inside the box of each placement, the blocks of its
    cell, and 0 outside the boxes. *)
Theorem create_layout_spec (t : cell_table) (pcs : list (cell_placement * cell))
    (dimensions : coord) :
  ViolationSpec.nonneg_dims dimensions = true ->
  Forall (fun pc => lookup_cell t (fst pc) = Returned (snd pc)) pcs ->
  (forall pc q, In pc pcs -> covers (placement (fst pc)) (shape (blocks (snd pc))) q = true ->
     in_bounds q dimensions = true) ->
  (forall q, (length (covering q pcs) <= 1)%nat) ->
  (forall pc v, In pc pcs -> in_bounds v (shape (blocks (snd pc))) = true ->
     -128 <= at_ (blocks (snd pc)) v <= 127) ->
  exists g, create_layout dimensions (map fst pcs) t = Returned g
    /\ shape g = dimensions
    /\ forall q,
         (covering q pcs = [] -> cells g q = 0)
         /\ (forall pc, In pc (covering q pcs) ->
               cells g q = at_ (blocks (snd pc)) (within (placement (fst pc)) q)).
Proof.
  intros N F Hin Hd H8; unfold create_layout.
  rewrite ViolationModel.np_zeros_spec, N; cbn [bind].
  rewrite (create_writes t pcs F).
  set (W := flat_map (fun pc => cell_writes (fst pc) (snd pc)) pcs).
  destruct (writes_spec W (mk_grid dimensions (fun _ => 0))) as (g & E & Sg & Cg).
  { intros [q v] Hw; cbn [fst shape].
    destruct (cell_writes_In pcs q v Hw) as (pc & Hpc & _).
    apply filter_In in Hpc; destruct Hpc as [Hpc Hq]. now apply (Hin pc q). }
  exists g; split; [exact E | split; [exact Sg | ]].
  intros q; destruct (Cg q) as [C1 C2]; split.
  - intros Hn; rewrite C1; [reflexivity | ].
    intros Hq; apply in_map_iff in Hq; destruct Hq as ([q' v] & <- & Hw); cbn [fst] in Hn.
    destruct (cell_writes_In pcs q' v Hw) as (pc & Hpc & _). rewrite Hn in Hpc; contradiction.
  - intros pc Hpc. destruct C2 as (v & Hv & ->); [now apply (cell_writes_written pcs q pc) | ].
    destruct (cell_writes_In pcs q v Hv) as (pc' & Hpc' & ->).
    assert (pc' = pc).
    { specialize (Hd q). destruct (covering q pcs) as [ | a [ | b r]]; simpl in Hd;
        [contradiction | | lia].
      destruct Hpc as [<- | []], Hpc' as [<- | []]; reflexivity. }
    subst pc'. apply filter_In in Hpc; destruct Hpc as [Hp Hq].
    rewrite covers_within in Hq. now apply ShrinkProofs.int8_small, H8.
Qed.

Lemma create_layout_spec_witness :
  exists g, create_layout (3, 2, 5) (map fst two_inverters) sample_table = Returned g
    /\ shape g = (3, 2, 5)
    /\ forall q,
         (covering q two_inverters = [] -> cells g q = 0)
         /\ (forall pc, In pc (covering q two_inverters) ->
               cells g q = at_ (blocks (snd pc)) (within (placement (fst pc)) q)).
Proof.
  apply (create_layout_spec sample_table two_inverters (3, 2, 5)).
  - reflexivity.
  - repeat constructor.
  - intros pc q [<- | [<- | []]] H; destruct q as [[y z] x]; unfold covers in H;
      cbn [fst snd placement blocks shape] in H;
      apply in_bounds_iff in H; apply in_bounds_iff; cbn [fst snd] in *;
      unfold shape2, spacing in *; cbn [fst snd blocks shape] in *; lia.
  - intros q; apply row_cells_disjoint.
    intros cb [<- | [<- | []]]; unfold shape2; simpl; lia.
  - intros pc v [<- | [<- | []]] Hv; rewrite at_in_bounds by exact Hv; simpl; lia.
Defined.

End CreateProofs.


(** ** Reading a routing back, and building the initial segments *)

Module PersistenceProofs.
Import Grid Violation ViolationSpec Routing GridProofs ViolationModel RoutingProofs.

Lemma mapM_not_fuel {X Y : Type} (f : X -> outcome Y) (l : list X) :
  (forall x, In x l -> f x <> OutOfFuel) -> mapM f l <> OutOfFuel.
Proof.
  induction l as [ | x t IH]; intros H; cbn [mapM]; [discriminate | ].
  assert (Hx := H x (or_introl eq_refl)).
  destruct (f x); cbn [bind]; [ | discriminate | congruence].
  assert (Ht : mapM f t <> OutOfFuel) by (apply IH; intros y Hy; apply H; now right).
  destruct (mapM f t); cbn [bind]; [discriminate | discriminate | congruence].
Qed.

Section BlockIds.

Variables redstone stone : Z.

Lemma violation_model_ends (n : option (list coord)) (dims : coord) (pins : list coord) :
  net_to_wire_and_violation redstone stone n dims pins <> OutOfFuel.
Proof.
  destruct n as [l | ].
  - assert (H := net_to_wire_and_violation_spec redstone stone l dims pins).
    destruct (nonneg_dims dims); [ | rewrite H; discriminate].
    destruct (writable dims l); [ | rewrite H; discriminate].
    destruct H as (w & v & -> & _); discriminate.
  - unfold net_to_wire_and_violation; rewrite !np_zeros_spec.
    destruct (nonneg_dims dims); cbn [bind]; discriminate.
Qed.

Lemma violation_model_no_path (dims : coord) (pins : list coord) :
  exists e, net_to_wire_and_violation redstone stone None dims pins = Raised e.
Proof.
  unfold net_to_wire_and_violation; rewrite !np_zeros_spec.
  destruct (nonneg_dims dims); cbn [bind]; eexists; reflexivity.
Qed.

Lemma deserialize_ends (R : routing) (shape : coord) :
  deserialize_routing redstone stone (serialize_routing R shape) <> OutOfFuel.
Proof.
  unfold deserialize_routing, serialize_routing.
  apply mapM_not_fuel; intros j Hj.
  apply in_map_iff in Hj; destruct Hj as (item & <- & Hitem).
  unfold deserialize_net, net_routing_json; simpl.
  assert (Hs : mapM (deserialize_segment redstone stone (coord_json shape))
                 (map segment_json (segments (snd item))) <> OutOfFuel).
  { apply mapM_not_fuel; intros js Hjs.
    apply in_map_iff in Hjs; destruct Hjs as (s & <- & Hs).
    rewrite deserialize_segment_json.
    assert (H := violation_model_ends (net s) shape [fst (pins s); snd (pins s)]).
    destruct (net_to_wire_and_violation _ _ _ _ _); cbn [bind]; congruence. }
  destruct (mapM _ (map segment_json _)); simpl; [ | discriminate | congruence].
  rewrite mapM_map_id by apply as_coord_json; simpl; discriminate.
Qed.

(** X22: a written routing can be read back exactly when the violation
    model succeeds on every segment for the written shape.  In particular a
    routing that holds a segment without a path, as the rip-up loop leaves it
    when the maze router finds none, is written without complaint and raises
    when it is read. *)
Theorem deserialize_returns_iff (R : routing) (shape : coord) :
  ((exists R', deserialize_routing redstone stone (serialize_routing R shape) = Returned R')
   <-> (forall item s, In item R -> In s (segments (snd item)) ->
          exists wv, net_to_wire_and_violation redstone stone (net s) shape
                       [fst (pins s); snd (pins s)] = Returned wv))
  /\ (forall item s, In item R -> In s (segments (snd item)) -> net s = None ->
        exists e, deserialize_routing redstone stone (serialize_routing R shape) = Raised e).
Proof.
  assert (Hfwd : forall R', deserialize_routing redstone stone (serialize_routing R shape)
                            = Returned R' ->
            forall item s, In item R -> In s (segments (snd item)) ->
            exists wv, net_to_wire_and_violation redstone stone (net s) shape
                         [fst (pins s); snd (pins s)] = Returned wv).
  { intros R' E item s Hitem Hs.
    assert (F := deserialize_restored redstone stone R R' shape E).
    assert (G : forall l l', Forall2 (net_restored redstone stone shape) l l' ->
              In item l -> exists item', net_restored redstone stone shape item item').
    { induction 1 as [ | x y t t' Hxy F' IH]; intros Hin; [contradiction | ].
      destruct Hin as [<- | Hin]; [now exists y | now apply IH]. }
    destruct (G R R' F Hitem) as (item' & _ & _ & Fs).
    assert (G' : forall l l', Forall2 (segment_restored redstone stone shape) l l' ->
              In s l -> exists s', segment_restored redstone stone shape s s').
    { induction 1 as [ | x y t t' Hxy F' IH]; intros Hin; [contradiction | ].
      destruct Hin as [<- | Hin]; [now exists y | now apply IH]. }
    destruct (G' _ _ Fs Hs) as (s' & _ & _ & Es).
    eexists; exact Es. }
  split; [split | ].
  - intros [R' E]; exact (Hfwd R' E).
  - intros H. unfold deserialize_routing, serialize_routing.
    apply mapM_total; intros j Hj.
    apply in_map_iff in Hj; destruct Hj as (item & <- & Hitem).
    apply deserialize_net_total; intros s Hs; now apply (H item).
  - intros item s Hitem Hs Hn.
    destruct (deserialize_routing redstone stone (serialize_routing R shape))
      as [R' | e | ] eqn:E.
    + destruct (Hfwd R' eq_refl item s Hitem Hs) as [wv Ewv]. rewrite Hn in Ewv.
      destruct (violation_model_no_path shape [fst (pins s); snd (pins s)]) as [e Ee].
      congruence.
    + now exists e.
    + exfalso; exact (deserialize_ends R shape E).
Qed.

End BlockIds.

End PersistenceProofs.

Module InitialSegment.
Import Dumb DumbProofs Grid Violation ViolationSpec GridProofs ViolationModel.

Lemma dumb_route_inside (a b : coord) (dims : coord) :
  in_bounds a dims = true -> in_bounds b dims = true ->
  forall c, In c (dumb_route a b) -> in_bounds c dims = true.
Proof.
  intros Ha Hb c Hc; apply in_bounds_iff in Ha, Hb; apply in_bounds_iff.
  rewrite dumb_route_passes in Hc.
  destruct a as [[ay az] ax], b as [[by_ bz] bx]; unfold pass_x, pass_z in Hc.
  cbn [fst snd] in *.
  apply in_app_or in Hc; destruct Hc as [Hc | Hc]; apply in_map_iff in Hc;
    destruct Hc as (i & <- & Hi); apply xrange_In in Hi; cbn [fst snd]; lia.
Qed.

(** X23: the initial segment between two pins inside the layout is always
    built.  The violation model succeeds on the initial route, whose voxels
    all lie inside the layout (also when the pins are on different layers);
    the wire matrix holds a block at each voxel of the route, and the
    violation matrix is not set at any of them. *)
Theorem initial_segment_built (redstone stone : Z) (a b dims : coord) :
  in_bounds a dims = true -> in_bounds b dims = true ->
  exists wire violation,
    net_to_wire_and_violation redstone stone (Some (dumb_route a b)) dims [a; b]
      = Returned (wire, violation)
    /\ forall c, In c (dumb_route a b) ->
         in_bounds c dims = true
         /\ (cells wire c = redstone \/ cells wire c = stone)
         /\ cells violation c = false.
Proof.
  intros Ha Hb.
  assert (Hin := dumb_route_inside a b dims Ha Hb).
  assert (H := net_to_wire_and_violation_spec redstone stone (dumb_route a b) dims [a; b]).
  assert (N : nonneg_dims dims = true).
  { apply in_bounds_iff in Ha. destruct dims as [[h d] w]; unfold nonneg_dims.
    cbn [fst snd] in Ha.
    rewrite !andb_true_iff, !Z.leb_le; lia. }
  assert (W : writable dims (dumb_route a b) = true).
  { apply forallb_forall; intros c Hc; now apply in_bounds_writable, Hin. }
  rewrite N, W in H. destruct H as (w & v & E & _ & _ & Cv & _ & Cw).
  exists w, v; split; [exact E | ].
  intros c Hc.
  assert (F : footprint dims (dumb_route a b) c = true).
  { apply existsb_exists; exists c; split; [exact Hc | ].
    rewrite designates_self by (now apply Hin); reflexivity. }
  split; [now apply Hin | split].
  - now apply Cw.
  - rewrite Cv, F; now rewrite andb_false_r.
Qed.

Lemma initial_segment_built_witness :
  exists wire violation,
    net_to_wire_and_violation 55 1 (Some (dumb_route (1, 0, 0) (0, 2, 2))) (2, 3, 3)
      [(1, 0, 0); (0, 2, 2)] = Returned (wire, violation)
    /\ forall c, In c (dumb_route (1, 0, 0) (0, 2, 2)) ->
         in_bounds c (2, 3, 3) = true
         /\ (cells wire c = 55 \/ cells wire c = 1)
         /\ cells violation c = false.
Proof.
  apply (initial_segment_built 55 1 (1, 0, 0) (0, 2, 2) (2, 3, 3)); reflexivity.
Defined.

End InitialSegment.


(** ** The cost of a path and its violations *)

Module CostProofs.
Import Grid Violation ViolationSpec Maze MazeInv MazeGen Usage GridProofs ViolationModel
       UsageProofs.

Lemma np_norm_nonneg (dims n q : coord) :
  0 <= fst (fst n) -> 0 <= snd (fst n) -> 0 <= snd n ->
  np_norm dims n = Some q -> q = n /\ in_bounds n dims = true.
Proof.
  destruct dims as [[h d] w], n as [[y z] x]; cbn [fst snd]; intros Hy Hz Hx.
  unfold np_norm, np_index.
  destruct (Z.leb_spec 0 y), (Z.ltb_spec y h), (Z.leb_spec (- h) y), (Z.ltb_spec y 0);
    cbn [andb]; try lia; try discriminate;
  destruct (Z.leb_spec 0 z), (Z.ltb_spec z d), (Z.leb_spec (- d) z), (Z.ltb_spec z 0);
    cbn [andb]; try lia; try discriminate;
  destruct (Z.leb_spec 0 x), (Z.ltb_spec x w), (Z.leb_spec (- w) x), (Z.ltb_spec x 0);
    cbn [andb]; try lia; try discriminate;
  intros E; injection E as <-; (split; [reflexivity | apply in_bounds_iff; cbn [fst snd]; lia]).
Qed.

Lemma neighbours_nonneg (c n : coord) :
  1 <= fst (fst c) -> 1 <= snd (fst c) -> 1 <= snd c -> In n (neighbours c) ->
  0 <= fst (fst n) /\ 0 <= snd (fst n) /\ 0 <= snd n.
Proof.
  destruct c as [[y z] x]; cbn [fst snd]; intros Hy Hz Hx Hn.
  unfold neighbours, violation_directions in Hn; cbn [flat_map map app fst snd] in Hn.
  repeat (destruct Hn as [<- | Hn]; [cbn [fst snd]; lia | ]); destruct Hn.
Qed.

(** X24: the cost model of the maze router and the violation count agree
    on paths that pay no violation cost.  If no voxel of a path between the
    pins [a] and [b] is violating for the usage matrix, and the path stays
    inside the layout and, apart from the pins, off its three low faces,
    then the violation matrix of the path counts no violation against that
    usage matrix. *)
Theorem unviolating_path_counts_none (redstone stone : Z) (a b : coord)
    (placed_layout : grid Z) (usage_matrix : grid bool) (net : list coord)
    (wire : grid Z) (violation : grid bool) :
  shape usage_matrix = shape placed_layout ->
  net_to_wire_and_violation redstone stone (Some net) (shape placed_layout) [a; b]
    = Returned (wire, violation) ->
  In a net -> In b net ->
  (forall c, In c net -> in_bounds c (shape placed_layout) = true) ->
  (forall c, In c net -> c = a \/ c = b
                         \/ (1 <= fst (fst c) /\ 1 <= snd (fst c) /\ 1 <= snd c)) ->
  (forall c, In c net -> violating a b placed_layout usage_matrix c = false) ->
  compute_net_violations violation usage_matrix = Returned 0.
Proof.
  intros Su E Ha Hb Hin Hlow Hv.
  set (dims := shape placed_layout) in *.
  assert (H := net_to_wire_and_violation_spec redstone stone net dims [a; b]).
  destruct (nonneg_dims dims); [ | congruence].
  destruct (writable dims net); [ | congruence].
  destruct H as (w & v & E' & _ & Sv & Cv & _).
  rewrite E in E'; injection E' as -> ->.
  unfold compute_net_violations, np_logical_and.
  rewrite Sv, Su, broadcast_same; cbn [bind]; f_equal.
  unfold count_true; cbn [shape cells].
  rewrite LayoutProofs.filter_none; [reflexivity | ].
  intros q Hq; apply all_voxels_iff in Hq.
  rewrite stretch_in_bounds by exact Hq.
  destruct (cells v q) eqn:Vq; [cbn [andb] | reflexivity].
  rewrite Cv in Vq; apply andb_prop in Vq; destruct Vq as [M F].
  apply negb_true_iff in F.
  apply existsb_exists in M; destruct M as (c & Hc & M).
  apply andb_prop in M; destruct M as [Pc M]. apply negb_true_iff in Pc.
  apply existsb_exists in M; destruct M as (n & Hn & D).
  assert (Hpin : forall p, In p [a; b] -> footprint dims net p = true).
  { intros p Hp. apply existsb_exists; exists p; split;
      [destruct Hp as [<- | [<- | []]]; assumption | ].
    rewrite designates_self; [reflexivity | ].
    destruct Hp as [<- | [<- | []]]; now apply Hin. }
  assert (NP : ~ In c [a; b]) by (now apply mem_not_In).
  destruct (Hlow c Hc) as [-> | [-> | (Ly & Lz & Lx)]];
    [exfalso; apply NP; now left | exfalso; apply NP; right; now left | ].
  destruct (neighbours_nonneg c n Ly Lz Lx Hn) as (Ny & Nz & Nx).
  unfold designates in D. destruct (np_norm dims n) as [q' | ] eqn:En; [ | discriminate D].
  apply coord_eqb_eq in D; subst q'.
  destruct (np_norm_nonneg dims n q Ny Nz Nx En) as [-> Bn].
  specialize (Hv c Hc). unfold violating in Hv. rewrite Pc in Hv.
  assert (Hn' : existsb
                  (fun new_coord =>
                     if negb (in_bounds new_coord (shape placed_layout)) then false
                     else if mem new_coord [a; b] then false
                     else at_ usage_matrix new_coord) (neighbours c) = false) by exact Hv.
  destruct (at_ usage_matrix n) eqn:Un.
  - exfalso.
    assert (T : existsb
                  (fun new_coord =>
                     if negb (in_bounds new_coord (shape placed_layout)) then false
                     else if mem new_coord [a; b] then false
                     else at_ usage_matrix new_coord) (neighbours c) = true).
    { apply existsb_exists; exists n; split; [exact Hn | ].
      fold dims; rewrite Bn; cbn [negb].
      destruct (mem n [a; b]) eqn:Mn; [ | exact Un].
      apply mem_In in Mn. rewrite (Hpin n Mn) in F; discriminate. }
    congruence.
  - rewrite at_in_bounds in Un by (now rewrite Su). exact Un.
Qed.

Lemma unviolating_path_counts_none_witness :
  compute_net_violations (snd inner_matrices) corner_usage = Returned 0.
Proof.
  apply (unviolating_path_counts_none 55 1 (1, 1, 1) (1, 1, 3) inner_layout corner_usage
           inner_path (fst inner_matrices) (snd inner_matrices)).
  - reflexivity.
  - reflexivity.
  - right; right; now left.
  - now left.
  - intros c [<- | [<- | [<- | []]]]; reflexivity.
  - intros c [<- | [<- | [<- | []]]];
      [right; now left | right; right; cbn [fst snd]; lia | now left].
  - intros c [<- | [<- | [<- | []]]]; reflexivity.
Defined.

End CostProofs.


(** ** The outcomes of the move generator *)

Module GenerateOutcomes.
Import Placer PlacerProofs.

Lemma choice_index_range (u : Q) (len : nat) :
  (0 <= u)%Q -> (u < 1)%Q -> (0 < len)%nat ->
  0 <= choice_index u len < Z.of_nat len.
Proof.
  intros H0 H1 Hlen; unfold choice_index.
  assert (Hn : (0 < inject_Z (Z.of_nat len))%Q).
  { change 0%Q with (inject_Z 0); rewrite <- Zlt_Qlt; lia. }
  split.
  - change 0 with (Qfloor 0). apply Qfloor_resp_le.
    apply Qmult_le_0_compat; [exact H0 | now apply Qlt_le_weak].
  - apply Z.lt_nge; intros C.
    assert (C' : (inject_Z (Z.of_nat len) <= inject_Z (Qfloor (u * inject_Z (Z.of_nat len))))%Q)
      by (rewrite <- Zle_Qle; exact C).
    assert (L := Qfloor_le (u * inject_Z (Z.of_nat len))).
    assert (U : (u * inject_Z (Z.of_nat len) < inject_Z (Z.of_nat len))%Q) by nra.
    lra.
Qed.

Lemma choice_nonempty (r : rng) (pos : nat) (l : list cell_placement) :
  (forall k, 0 <= r k /\ r k < 1)%Q -> l <> [] ->
  exists i, choice r pos l = Returned (i, S pos) /\ (i < length l)%nat.
Proof.
  intros Hr Hl; unfold choice.
  assert (Hlen : (0 < length l)%nat) by (destruct l; [congruence | simpl; lia]).
  destruct (choice_index_range (r pos) (length l)) as [H0 H1];
    [apply Hr | apply Hr | exact Hlen | ].
  replace (0 <=? choice_index (r pos) (length l)) with true
    by (symmetry; now apply Z.leb_le).
  replace (choice_index (r pos) (length l) <? Z.of_nat (length l)) with true
    by (symmetry; now apply Z.ltb_lt).
  cbn [andb]; eexists; split; [reflexivity | lia].
Qed.

Lemma pick_cellB_outcome (r : rng) (l : list cell_placement) (cellA : nat) :
  (forall k, 0 <= r k /\ r k < 1)%Q -> l <> [] ->
  forall fuel pos cellB e, pick_cellB fuel r pos l cellA cellB <> Raised e.
Proof.
  intros Hr Hl; induction fuel as [ | fuel IH]; intros pos cellB e; simpl;
    destruct (Nat.eqb cellB cellA); try discriminate.
  destruct (choice_nonempty r pos l Hr Hl) as (i & -> & _); cbn [bind fst snd].
  apply IH.
Qed.

(** X25: the outcomes of [generate], for draws in [0, 1).  An empty
    placement raises [IndexError]; a ratio of 0 raises [ZeroDivisionError];
    otherwise the only exception is the [ValueError] for a method other than
    "displace" and "interchange", raised in the displace branch. *)
Theorem generate_outcomes (fuel : nat) (r : rng) (l : list cell_placement)
    (method : string) (ratio : Z) :
  (forall k, 0 <= r k /\ r k < 1)%Q ->
  (l = [] -> generate fuel r l method ratio = Raised IndexError)
  /\ (l <> [] -> ratio = 0 -> generate fuel r l method ratio = Raised ZeroDivisionError)
  /\ (l <> [] -> ratio <> 0 ->
      forall e, generate fuel r l method ratio = Raised e ->
      e = ValueError
      /\ String.eqb method "displace" = false /\ String.eqb method "interchange" = false
      /\ (r 1%nat <= 1 / inject_Z ratio)%Q).
Proof.
  intros Hr; split; [ | split].
  - intros ->; unfold generate, choice; cbn [length].
    destruct (0 <=? choice_index (r 0%nat) 0) eqn:E; [ | reflexivity].
    apply Z.leb_le in E.
    replace (choice_index (r 0%nat) 0 <? Z.of_nat 0) with false; [reflexivity | ].
    symmetry; apply Z.ltb_ge; simpl; lia.
  - intros Hl ->; unfold generate.
    destruct (choice_nonempty r 0 l Hr Hl) as (i & -> & _); reflexivity.
  - intros Hl Hratio e; unfold generate.
    destruct (choice_nonempty r 0 l Hr Hl) as (i & -> & _); cbn [bind].
    apply Z.eqb_neq in Hratio; rewrite Hratio; cbn [bind].
    destruct (Qlt_le_dec (1 / inject_Z ratio) (r 1%nat)) as [L | G].
    + assert (P := pick_cellB_outcome r l i Hr Hl fuel 2%nat i).
      destruct (pick_cellB fuel r 2 l i i) as [bp | e' | ]; cbn [bind]; try discriminate.
      intros E; injection E as ->; exfalso; exact (P e eq_refl).
    + destruct (String.eqb method "displace"); [discriminate | ].
      destruct (String.eqb method "interchange"); [discriminate | ].
      intros E; injection E as <-; repeat split; exact G.
Qed.

Lemma generate_outcomes_witness :
  ([hd default_cell two_cells] = [] ->
   generate 3 draws_displace [hd default_cell two_cells] "reorient" 5 = Raised IndexError)
  /\ ([hd default_cell two_cells] <> [] -> 5 = 0 ->
      generate 3 draws_displace [hd default_cell two_cells] "reorient" 5
      = Raised ZeroDivisionError)
  /\ ([hd default_cell two_cells] <> [] -> 5 <> 0 ->
      forall e, generate 3 draws_displace [hd default_cell two_cells] "reorient" 5 = Raised e ->
      e = ValueError
      /\ String.eqb "reorient" "displace" = false
      /\ String.eqb "reorient" "interchange" = false
      /\ (draws_displace 1%nat <= 1 / inject_Z 5)%Q).
Proof.
  apply (generate_outcomes 3 draws_displace [hd default_cell two_cells] "reorient" 5).
  intros [ | [ | k]]; split; unfold Qle, Qlt; simpl; lia.
Defined.

End GenerateOutcomes.


(** ** Pin locations and the initial routing *)

Module PinsProofs.
Import Grid Violation ViolationSpec Segmenter Pins GridProofs ViolationModel.

Lemma locate_port_located (p : Placer.cell_placement) (acc : list (string * list coord))
    (item : string * port) :
  locate_port p acc item
  = (nc <- located p item ;; Returned (append_pin acc (fst nc) (snd nc))).
Proof.
  destruct item as [pin d]; unfold locate_port, located; cbn [fst snd].
  destruct (coordinates d) as [[y z] x], (Placer.placement p) as [[yy zz] xx].
  destruct (dict_get (Placer.pins p) pin); reflexivity.
Qed.

Lemma ports_fold (p : Placer.cell_placement) (items : list (string * port)) : forall acc,
  foldM (locate_port p) items acc
  = (prs <- mapM (located p) items ;;
     Returned (fold_left (fun acc nc => append_pin acc (fst nc) (snd nc)) prs acc)).
Proof.
  induction items as [ | x t IH]; intros acc; cbn [foldM mapM]; [reflexivity | ].
  rewrite locate_port_located.
  destruct (located p x) as [nc | | ]; cbn [bind]; try reflexivity.
  rewrite IH. destruct (mapM (located p) t); reflexivity.
Qed.

Lemma placements_fold (t : cell_table) (placements : list Placer.cell_placement) :
  forall acc,
  foldM (fun net_pins p =>
           c <- lookup_cell t p ;;
           foldM (locate_port p) (ports c) net_pins) placements acc
  = (pss <- mapM (located_ports t) placements ;;
     Returned (fold_left (fun acc nc => append_pin acc (fst nc) (snd nc)) (concat pss) acc)).
Proof.
  induction placements as [ | p ps IH]; intros acc; cbn [foldM mapM]; [reflexivity | ].
  unfold located_ports at 1.
  destruct (lookup_cell t p) as [c | | ]; cbn [bind]; try reflexivity.
  rewrite ports_fold.
  destruct (mapM (located p) (ports c)) as [prs | | ]; cbn [bind]; try reflexivity.
  rewrite IH. destruct (mapM (located_ports t) ps); cbn [bind concat]; try reflexivity.
  now rewrite fold_left_app.
Qed.

Lemma dict_get_In {V : Type} (d : list (string * V)) (k : string) (v : V) :
  dict_get d k = Returned v -> In (k, v) d.
Proof.
  induction d as [ | [k' v'] t IH]; cbn [dict_get]; [discriminate | ].
  destruct (String.eqb_spec k' k) as [-> | NE].
  - intros E; injection E as ->; now left.
  - intros E; right; now apply IH.
Qed.

Lemma In_dict_get {V : Type} (d : list (string * V)) (k : string) (v : V) :
  NoDup (map fst d) -> In (k, v) d -> dict_get d k = Returned v.
Proof.
  induction d as [ | [k' v'] t IH]; intros ND Hin; [contradiction | ].
  cbn [map fst] in ND; inversion ND as [ | ? ? Hk ND']; subst.
  cbn [dict_get]. destruct (String.eqb_spec k' k) as [-> | NE].
  - destruct Hin as [E | Hin]; [now injection E as -> | ].
    exfalso; apply Hk; apply in_map_iff; now exists (k, v).
  - destruct Hin as [E | Hin]; [injection E as -> _; congruence | now apply IH].
Qed.

Lemma append_pin_keys (acc : list (string * list coord)) (m : string) (c : coord) (n : string) :
  In n (map fst (append_pin acc m c)) <-> n = m \/ In n (map fst acc).
Proof.
  induction acc as [ | [k l] t IH]; cbn [append_pin map fst].
  - simpl; intuition congruence.
  - destruct (String.eqb_spec k m) as [-> | NE]; cbn [map fst In].
    + intuition congruence.
    + rewrite IH; intuition congruence.
Qed.

Lemma append_pin_NoDup (acc : list (string * list coord)) (m : string) (c : coord) :
  NoDup (map fst acc) -> NoDup (map fst (append_pin acc m c)).
Proof.
  induction acc as [ | [k l] t IH]; cbn [append_pin map fst]; intros ND.
  - constructor; [simpl; tauto | constructor].
  - inversion ND as [ | ? ? Hk ND']; subst.
    destruct (String.eqb_spec k m) as [-> | NE]; cbn [map fst]; [now constructor | ].
    constructor; [ | now apply IH].
    intros H; apply append_pin_keys in H; destruct H as [-> | H]; [congruence | contradiction].
Qed.

Lemma append_pin_nonempty (acc : list (string * list coord)) (m : string) (c : coord) :
  (forall n l, In (n, l) acc -> l <> []) ->
  forall n l, In (n, l) (append_pin acc m c) -> l <> [].
Proof.
  induction acc as [ | [k l0] t IH]; cbn [append_pin]; intros H n l Hin.
  - destruct Hin as [E | []]; injection E as _ <-; discriminate.
  - destruct (String.eqb k m).
    + destruct Hin as [E | Hin]; [injection E as _ <- | apply (H n l); now right].
      intros C; apply app_eq_nil in C; destruct C; discriminate.
    + destruct Hin as [E | Hin]; [apply (H n l); now left | ].
      apply (IH (fun n' l' Hn' => H n' l' (or_intror Hn')) n l Hin).
Qed.

Lemma dict_get_outcome {V : Type} (d : list (string * V)) (k : string) :
  (exists v, dict_get d k = Returned v) \/ dict_get d k = Raised KeyError.
Proof.
  induction d as [ | [k' v'] t IH]; cbn [dict_get]; [now right | ].
  destruct (String.eqb k' k); [left; now eexists | exact IH].
Qed.

(** The list filed under [n] after one more pin. *)
Lemma append_pin_get (acc : list (string * list coord)) (m : string) (c : coord) (n : string) :
  match dict_get (append_pin acc m c) n with
  | Returned l =>
      l = match dict_get acc n with Returned l0 => l0 | _ => [] end
          ++ (if String.eqb m n then [c] else [])
  | _ => dict_get acc n = Raised KeyError /\ String.eqb m n = false
  end.
Proof.
  induction acc as [ | [k l0] t IH]; cbn [append_pin dict_get].
  - destruct (String.eqb m n); [reflexivity | now split].
  - destruct (String.eqb_spec k m) as [-> | NE]; cbn [dict_get].
    + destruct (String.eqb m n); [reflexivity | ].
      destruct (dict_get_outcome t n) as [[v E] | E]; rewrite E;
        [now rewrite app_nil_r | now split].
    + destruct (String.eqb_spec k n) as [-> | NE'].
      * replace (String.eqb m n) with false
          by (symmetry; apply String.eqb_neq; congruence).
        now rewrite app_nil_r.
      * exact IH.
Qed.

Lemma fold_append_spec (pairs : list (string * coord)) : forall acc,
  NoDup (map fst acc) -> (forall n l, In (n, l) acc -> l <> []) ->
  let res := fold_left (fun acc nc => append_pin acc (fst nc) (snd nc)) pairs acc in
  NoDup (map fst res)
  /\ (forall n l, In (n, l) res -> l <> [])
  /\ forall n,
       match dict_get res n with Returned l => l | _ => [] end
       = match dict_get acc n with Returned l => l | _ => [] end ++ of_net n pairs.
Proof.
  induction pairs as [ | [m c] t IH]; intros acc ND NE; cbn [fold_left fst snd].
  - split; [exact ND | split; [exact NE | ]]. intros n; unfold of_net; simpl.
    now rewrite app_nil_r.
  - destruct (IH (append_pin acc m c)) as (I1 & I2 & I3);
      [now apply append_pin_NoDup | now apply append_pin_nonempty | ].
    split; [exact I1 | split; [exact I2 | ]].
    intros n; rewrite I3.
    unfold of_net; cbn [filter fst snd].
    assert (G := append_pin_get acc m c n).
    destruct (dict_get (append_pin acc m c) n) as [l | e | ].
    + rewrite G, <- app_assoc. f_equal. destruct (String.eqb m n); reflexivity.
    + destruct G as [G1 G2]; rewrite G1, G2; reflexivity.
    + destruct G as [G1 G2]; rewrite G1, G2; reflexivity.
Qed.

Lemma extract_pin_locations_returned (t : cell_table)
    (placements : list Placer.cell_placement) (net_pins : list (string * list coord)) :
  extract_pin_locations t placements = Returned net_pins ->
  exists pss, mapM (located_ports t) placements = Returned pss
    /\ NoDup (map fst net_pins)
    /\ (forall n l, In (n, l) net_pins -> l <> [])
    /\ forall n, match dict_get net_pins n with Returned l => l | _ => [] end
                 = of_net n (concat pss).
Proof.
  unfold extract_pin_locations; rewrite placements_fold.
  destruct (mapM (located_ports t) placements) as [pss | | ]; cbn [bind]; try discriminate.
  intros E; injection E as <-. exists pss; split; [reflexivity | ].
  destruct (fold_append_spec (concat pss) []) as (I1 & I2 & I3);
    [constructor | intros n l [] | ].
  split; [exact I1 | split; [exact I2 | exact I3]].
Qed.

(** X26: when [extract_pin_locations] returns, every port of every placed
    cell is filed exactly once: under the net that the placement connects its
    pin to, at the port's coordinates moved by the placement.  The lists are
    in the order of the placements, no net has an empty list, and no net is
    listed twice. *)
Theorem extract_pin_locations_groups (t : cell_table)
    (placements : list Placer.cell_placement) (net_pins : list (string * list coord)) :
  extract_pin_locations t placements = Returned net_pins ->
  exists pss, mapM (located_ports t) placements = Returned pss
    /\ NoDup (map fst net_pins)
    /\ forall n l, In (n, l) net_pins <-> l <> [] /\ l = of_net n (concat pss).
Proof.
  intros E.
  destruct (extract_pin_locations_returned t placements net_pins E)
    as (pss & M & ND & NE & G).
  exists pss; split; [exact M | split; [exact ND | ]].
  intros n l; split.
  - intros Hin; split; [now apply (NE n l) | ].
    rewrite <- G, (In_dict_get _ _ _ ND Hin); reflexivity.
  - intros [Hl ->]. rewrite <- G in Hl |- *.
    destruct (dict_get net_pins n) as [l | e | ] eqn:D; [ | congruence | congruence].
    now apply dict_get_In.
Qed.

Lemma extract_pin_locations_groups_witness :
  exists pss, mapM (located_ports inverter_table) inverter_chain = Returned pss
    /\ NoDup (map fst inverter_pins)
    /\ forall n l, In (n, l) inverter_pins <-> l <> [] /\ l = of_net n (concat pss).
Proof.
  apply (extract_pin_locations_groups inverter_table inverter_chain inverter_pins).
  reflexivity.
Defined.

Lemma kruskal_step_edges (st : list (list coord) * list edge) (e x : edge) :
  In x (snd (kruskal_step st e)) -> x = e \/ In x (snd st).
Proof.
  destruct st as [sets A], e as [u v]; unfold kruskal_step.
  destruct (negb (find_set sets u =? find_set sets v)); cbn [snd]; [ | now right].
  unfold edge_add; destruct (existsb (edge_eqb (u, v)) A); [now right | ].
  intros [<- | H]; [now left | now right].
Qed.

Lemma kruskal_fold_edges (L : list edge) : forall st x,
  In x (snd (fold_left kruskal_step L st)) -> In x L \/ In x (snd st).
Proof.
  induction L as [ | e t IH]; intros st x H; cbn [fold_left] in H; [now right | ].
  destruct (IH _ _ H) as [H1 | H1]; [left; now right | ].
  destruct (kruskal_step_edges st e x H1) as [-> | H2]; [left; now left | now right].
Qed.

Lemma mst_edges (keys : list edge) (pins : list coord) (e : edge) :
  In e (minimum_spanning_tree keys pins) -> In e keys.
Proof.
  unfold minimum_spanning_tree; intros H.
  destruct (kruskal_fold_edges _ _ _ H) as [H1 | []].
  eapply Permutation_in; [apply KruskalTheory.sorted_perm | exact H1].
Qed.

Lemma Forall2_In_r {X Y : Type} (P : X -> Y -> Prop) (l : list X) (l' : list Y) :
  Forall2 P l l' -> forall y, In y l' -> exists x, In x l /\ P x y.
Proof.
  induction 1 as [ | x y t t' Hxy F IH]; intros y0 Hy; [contradiction | ].
  destruct Hy as [<- | Hy]; [exists x; split; [now left | exact Hxy] | ].
  destruct (IH y0 Hy) as (x0 & Hx0 & Px0); exists x0; split; [now right | exact Px0].
Qed.

Section BlockIds.

Variables redstone stone : Z.

Lemma segment_returns (a b dims : coord) :
  in_bounds a dims = true -> in_bounds b dims = true ->
  exists wv, net_to_wire_and_violation redstone stone (Some (Dumb.dumb_route a b)) dims [a; b]
             = Returned wv.
Proof.
  intros Ha Hb.
  assert (Hin := InitialSegment.dumb_route_inside a b dims Ha Hb).
  assert (H := net_to_wire_and_violation_spec redstone stone (Dumb.dumb_route a b) dims [a; b]).
  assert (N : nonneg_dims dims = true).
  { apply in_bounds_iff in Ha. destruct dims as [[h d] w]; unfold nonneg_dims.
    cbn [fst snd] in Ha. rewrite !andb_true_iff, !Z.leb_le; lia. }
  assert (W : writable dims (Dumb.dumb_route a b) = true).
  { apply forallb_forall; intros c Hc; now apply in_bounds_writable, Hin. }
  rewrite N, W in H. destruct H as (w & v & E & _). now exists (w, v).
Qed.

(** X27: when the pin locations are found and all lie inside the layout,
    the initial routing is built.  It has an entry for each net of at least
    two pins, with the pins of the net and one segment for each edge of the
    spanning tree of the pins: the segment holds the two ends of the edge as
    its pins, the initial route between them as its path, and the wire and
    violation matrices of that path. *)
Theorem initial_routing_built (keys_of : list coord -> list edge) (t : cell_table)
    (placements : list Placer.cell_placement) (layout_dimensions : coord)
    (pin_locations : list (string * list coord)) :
  extract_pin_locations t placements = Returned pin_locations ->
  (forall n l c, In (n, l) pin_locations -> In c l ->
     in_bounds c layout_dimensions = true) ->
  (forall n l, In (n, l) pin_locations -> weights_keys l (keys_of l)) ->
  exists R,
    initial_routing redstone stone keys_of t placements layout_dimensions = Returned R
    /\ map fst R = map fst (create_net_segments keys_of pin_locations)
    /\ forall n e, In (n, e) R ->
         In (n, Routing.net_pins e) pin_locations
         /\ (2 <= length (Routing.net_pins e))%nat
         /\ Forall2
              (fun edge seg =>
                 Routing.pins seg = edge
                 /\ Routing.net seg = Some (Dumb.dumb_route (fst edge) (snd edge))
                 /\ net_to_wire_and_violation redstone stone (Routing.net seg)
                      layout_dimensions [fst edge; snd edge]
                    = Returned (Routing.wire seg, Routing.violation seg))
              (minimum_spanning_tree (keys_of (Routing.net_pins e)) (Routing.net_pins e))
              (Routing.segments e).
Proof.
  intros E Hin HK.
  destruct (extract_pin_locations_returned t placements pin_locations E)
    as (pss & _ & ND & _ & _).
  unfold initial_routing; rewrite E; cbn [bind].
  set (f := fun item : string * list edge =>
              let '(net_name, segment_endpoints) := item in
              segments <- mapM (initial_segment redstone stone layout_dimensions)
                            segment_endpoints ;;
              let net_pins := default_get pin_locations net_name in
              Returned (net_name, Routing.mk_net_routing net_pins segments)).
  assert (Hitem : forall item, In item (create_net_segments keys_of pin_locations) ->
            exists l, In (fst item, l) pin_locations /\ (2 <= length l)%nat
                      /\ snd item = minimum_spanning_tree (keys_of l) l).
  { intros item Hi; unfold create_net_segments in Hi.
    apply in_flat_map in Hi; destruct Hi as ([n l] & Hnl & Hi).
    destruct (Nat.ltb_spec (length l) 2) as [L | G]; [contradiction | ].
    destruct Hi as [<- | []]; exists l; cbn [fst snd]; now repeat split. }
  assert (Hseg : forall l edge, (exists n, In (n, l) pin_locations) ->
            In edge (minimum_spanning_tree (keys_of l) l) ->
            exists seg, initial_segment redstone stone layout_dimensions edge = Returned seg).
  { intros l [a b] [n Hnl] He. apply mst_edges in He.
    destruct (HK n l Hnl) as [_ Hk]. apply Hk in He; destruct He as (Ha & Hb & _).
    destruct (segment_returns a b layout_dimensions) as [wv Ewv];
      [now apply (Hin n l) | now apply (Hin n l) | ].
    unfold initial_segment; rewrite Ewv; cbn [bind]; now eexists. }
  destruct (mapM_total f (create_net_segments keys_of pin_locations)) as [R ER].
  { intros [n A] Hi. destruct (Hitem _ Hi) as (l & Hnl & Hlen & HA); cbn [fst snd] in *.
    subst A; unfold f.
    destruct (mapM_total (initial_segment redstone stone layout_dimensions)
                (minimum_spanning_tree (keys_of l) l)) as [segs Es].
    { intros edge He; apply (Hseg l); [now exists n | exact He]. }
    rewrite Es; cbn [bind]. now eexists. }
  exists R; split; [exact ER | ].
  assert (F := mapM_Forall2 f _ _ ER).
  split.
  - clear - F. induction F as [ | [n A] y t t' Hxy F IH]; [reflexivity | ].
    cbn [map fst]; f_equal; [ | exact IH].
    unfold f in Hxy.
    destruct (mapM _ A); cbn [bind] in Hxy; try discriminate.
    now injection Hxy as <-.
  - intros n e Hne.
    destruct (Forall2_In_r _ _ _ F (n, e) Hne) as ([n' A] & Hi & Hf).
    destruct (Hitem _ Hi) as (l & Hnl & Hlen & HA); cbn [fst snd] in *.
    unfold f in Hf.
    destruct (mapM (initial_segment redstone stone layout_dimensions) A) as [segs | | ] eqn:Es;
      cbn [bind] in Hf; try discriminate.
    unfold default_get in Hf; rewrite (In_dict_get _ _ _ ND Hnl) in Hf.
    injection Hf as -> <-; cbn [Routing.net_pins Routing.segments].
    split; [exact Hnl | split; [exact Hlen | ]].
    rewrite <- HA. apply mapM_Forall2 in Es.
    eapply RoutingProofs.Forall2_impl; [ | exact Es].
    intros [a b] seg Hs; unfold initial_segment in Hs.
    destruct (net_to_wire_and_violation redstone stone _ _ _) as [[w v] | | ] eqn:W;
      cbn [bind] in Hs; try discriminate.
    injection Hs as <-; cbn [Routing.pins Routing.net Routing.wire Routing.violation fst snd].
    now repeat split.
Qed.

End BlockIds.

Lemma initial_routing_built_witness :
  exists R,
    initial_routing 55 1 insertion_keys inverter_table inverter_chain (2, 3, 4) = Returned R
    /\ map fst R = map fst (create_net_segments insertion_keys inverter_pins)
    /\ forall n e, In (n, e) R ->
         In (n, Routing.net_pins e) inverter_pins
         /\ (2 <= length (Routing.net_pins e))%nat
         /\ Forall2
              (fun edge seg =>
                 Routing.pins seg = edge
                 /\ Routing.net seg = Some (Dumb.dumb_route (fst edge) (snd edge))
                 /\ net_to_wire_and_violation 55 1 (Routing.net seg)
                      (2, 3, 4) [fst edge; snd edge]
                    = Returned (Routing.wire seg, Routing.violation seg))
              (minimum_spanning_tree (insertion_keys (Routing.net_pins e))
                 (Routing.net_pins e))
              (Routing.segments e).
Proof.
  apply (initial_routing_built 55 1 insertion_keys inverter_table inverter_chain (2, 3, 4)
           inverter_pins).
  - reflexivity.
  - intros n l c Hnl Hc; vm_compute in Hnl.
    repeat (destruct Hnl as [E | Hnl];
            [injection E as <- <-;
             repeat (destruct Hc as [<- | Hc]; [reflexivity | ]); destruct Hc | ]).
    destruct Hnl.
  - intros n l Hnl. apply SegmenterProofs.insertion_keys_ok.
Defined.

End PinsProofs.

(** ** Placer: when [generate] terminates *)

Module GenerateTermination.
Import Placer PlacerProofs GenerateOutcomes.








End GenerateTermination.

(** ** Score normalisation: equal scores *)

Module NormalizeFloatProofs.
Import Normalize NormalizeProofs NormalizeFloat.

(** On Python floats and without rounding, the model with float64 values
    is the model with rationals. *)
Lemma normalize_python_exact (ns : net_scores) (norm_margin : Q) :
  NormalizeFloat.normalize_net_scores exact python_float ns norm_margin
  = match Normalize.normalize_net_scores ns norm_margin with
    | Returned r => Returned (map (fun item => (fst item, map finite (snd item))) r)
    | Raised e => Raised e
    | OutOfFuel => OutOfFuel
    end.
Proof.
  unfold NormalizeFloat.normalize_net_scores, Normalize.normalize_net_scores.
  destruct (py_min (flat ns)) as [lo | e | ]; cbn [bind]; try reflexivity.
  destruct (py_max (flat ns)) as [hi | e | ]; cbn [bind]; try reflexivity.
  unfold fdiv, py_div, exact; cbn [fsub fmul is_zero].
  destruct (Qeq_bool (hi - lo) 0); cbn [bind]; [reflexivity | ].
  f_equal. rewrite map_map. apply map_ext; intros [n l]; cbn [fst snd].
  f_equal. rewrite map_map. reflexivity.
Qed.

Lemma fmul_not_finite (rnd : Q -> float64) (s : Q) (x : float64) :
  is_finite x = false -> is_finite (fmul rnd (finite s) x) = false.
Proof.
  destruct x as [q | t | ]; cbn [is_finite fmul]; [discriminate | | reflexivity].
  intros _; destruct (Qeq_bool s 0); reflexivity.
Qed.

Lemma fadd_not_finite (rnd : Q -> float64) (m : Q) (x : float64) :
  is_finite x = false -> is_finite (fadd rnd (finite m) x) = false.
Proof. destruct x as [q | t | ]; cbn [is_finite fadd]; [discriminate | reflexivity | reflexivity]. Qed.

Section Rounding.

Variable rnd : Q -> float64.

(** What is assumed of the rounding: zero rounds to zero. *)
Hypothesis rnd_zero : forall x, (x == 0)%Q -> is_zero (rnd x) = true.

(** C9, amended: when the largest and the smallest score coincide, the
    scale factor is a division by zero.  On Python floats the call raises
    [ZeroDivisionError]; on numpy.float64 scores, which is what
    [score_routing] hands over, the division gives an infinity or nan and the
    call returns a map with the same keys none of whose entries is a finite
    number.  When the two differ, and their difference does not round to
    zero (float64 has gradual underflow), nothing is raised and the call
    returns a map. *)
Theorem normalize_equal_scores (kind : number_kind) (ns : net_scores)
    (norm_margin lo hi : Q) :
  (forall x y, In x (flat ns) -> In y (flat ns) -> is_zero (rnd (x - y)) = true -> (x == y)%Q) ->
  py_min (flat ns) = Returned lo -> py_max (flat ns) = Returned hi ->
  ((hi == lo)%Q ->
     match kind with
     | python_float =>
         NormalizeFloat.normalize_net_scores rnd kind ns norm_margin
         = Raised ZeroDivisionError
     | numpy_float64 =>
         exists r, NormalizeFloat.normalize_net_scores rnd kind ns norm_margin = Returned r
           /\ map fst r = map fst ns
           /\ forall n l x, In (n, l) r -> In x l -> is_finite x = false
     end)
  /\ (~ (hi == lo)%Q ->
      exists r, NormalizeFloat.normalize_net_scores rnd kind ns norm_margin = Returned r
        /\ map fst r = map fst ns).
Proof.
  intros Hsub Hlo Hhi.
  assert (Keys : forall f : Q -> float64,
            map fst (map (fun item : string * list Q => (fst item, map f (snd item))) ns)
            = map fst ns).
  { intros f; rewrite map_map; apply map_ext; reflexivity. }
  unfold NormalizeFloat.normalize_net_scores; rewrite Hlo, Hhi; cbn [bind].
  set (range := fsub rnd (finite 1) (fmul rnd (finite 2) (finite norm_margin))).
  change (fsub rnd (finite hi) (finite lo)) with (rnd (hi - lo)).
  split.
  - intros E.
    assert (Z : is_zero (rnd (hi - lo)) = true) by (now apply rnd_zero, Qminus_zero_iff).
    unfold fdiv; rewrite Z.
    destruct kind; [reflexivity | cbn [bind]].
    eexists; split; [reflexivity | split; [apply Keys | ]].
    intros n l x Hin Hx.
    apply in_map_iff in Hin; destruct Hin as ([n0 l0] & E0 & _); cbn [fst snd] in E0.
    injection E0 as _ <-. apply in_map_iff in Hx; destruct Hx as (s & <- & _).
    apply fadd_not_finite, fmul_not_finite.
    destruct range as [p | t | ]; [ | reflexivity | reflexivity].
    destruct (Qeq_bool p 0); reflexivity.
  - intros NE.
    assert (Z : is_zero (rnd (hi - lo)) = false).
    { destruct (is_zero (rnd (hi - lo))) eqn:B; [ | reflexivity].
      exfalso; apply NE, Hsub;
        [apply (py_max_spec _ _ Hhi) | apply (py_min_spec _ _ Hlo) | exact B]. }
    unfold fdiv; rewrite Z; cbn [bind].
    eexists; split; [reflexivity | apply Keys].
Qed.

End Rounding.

Lemma exact_zero (x : Q) : (x == 0)%Q -> is_zero (exact x) = true.
Proof. intros H; now apply Qeq_bool_iff. Qed.

Lemma exact_sub (x y : Q) : is_zero (exact (x - y)) = true -> (x == y)%Q.
Proof. intros H; apply Qeq_bool_iff in H; now apply Qminus_zero_iff. Qed.

(** C9, as stated, refuted: two segments with the same numpy.float64 score
    0.8.  The scale factor is 0.8 / 0.0 = inf, nothing is raised, and the
    call returns a map whose entries are inf. *)
Theorem normalize_equal_scores_counterexample :
  py_min (flat equal_scores) = py_max (flat equal_scores)
  /\ NormalizeFloat.normalize_net_scores exact numpy_float64 equal_scores norm_margin_default
     = Returned [("n1", [infinity false; infinity false])].
Proof. split; reflexivity. Qed.

Lemma normalize_equal_scores_witness :
  (NormalizeFloat.normalize_net_scores exact python_float equal_scores norm_margin_default
   = Raised ZeroDivisionError)
  /\ (exists r,
        NormalizeFloat.normalize_net_scores exact numpy_float64 equal_scores
          norm_margin_default = Returned r
        /\ map fst r = map fst equal_scores
        /\ forall n l x, In (n, l) r -> In x l -> is_finite x = false)
  /\ (exists r,
        NormalizeFloat.normalize_net_scores exact numpy_float64 sample_scores
          norm_margin_default = Returned r
        /\ map fst r = map fst sample_scores).
Proof.
  split; [ | split].
  - refine (proj1 (normalize_equal_scores exact exact_zero python_float equal_scores
                     norm_margin_default (4 # 5) (4 # 5) _ eq_refl eq_refl) _);
      [intros x y _ _; apply exact_sub | reflexivity].
  - refine (proj1 (normalize_equal_scores exact exact_zero numpy_float64 equal_scores
                     norm_margin_default (4 # 5) (4 # 5) _ eq_refl eq_refl) _);
      [intros x y _ _; apply exact_sub | reflexivity].
  - refine (proj2 (normalize_equal_scores exact exact_zero numpy_float64 sample_scores
                     norm_margin_default (4 # 5) (19 # 5) _ eq_refl eq_refl) _);
      [intros x y _ _; apply exact_sub | intros E; discriminate E].
Defined.

End NormalizeFloatProofs.

(** ** Persistence: tuples come back as lists *)

Module StoredProofs.
Import Grid Routing Maze Stored.

Lemma dump_coord (c : coord) : dump (coord_py c) = coord_json c.
Proof. destruct c as [[y z] x]; reflexivity. Qed.

Lemma dump_coords (l : list coord) : map dump (map coord_py l) = map coord_json l.
Proof. rewrite map_map; apply map_ext; exact dump_coord. Qed.

Lemma dump_segment (s : segment) : dump (segment_py s) = segment_json s.
Proof.
  unfold segment_py, segment_json, segment_pins_py, path_py, path_json.
  cbn [dump map fst snd]. rewrite !dump_coord.
  destruct (net s) as [l | ]; cbn [dump]; [now rewrite dump_coords | reflexivity].
Qed.

Lemma dump_net_routing (e : net_routing) : dump (net_routing_py e) = net_routing_json e.
Proof.
  unfold net_routing_py, net_routing_json, pins_py. cbn [dump map fst snd].
  rewrite dump_coords, map_map, (map_ext _ _ dump_segment). reflexivity.
Qed.

(** The two lines written are the dumps of the routing and of the shape. *)
Lemma dump_routing (R : routing) (shape : coord) :
  serialize_routing R shape = (dump (routing_py R), dump (coord_py shape)).
Proof.
  unfold serialize_routing, routing_py; cbn [dump]. rewrite dump_coord, map_map.
  do 2 f_equal. apply map_ext; intros [n e]; cbn [fst snd]. now rewrite dump_net_routing.
Qed.

Lemma loads_coord (c : coord) :
  loads (dump (coord_py c))
  = py_list [py_int (fst (fst c)); py_int (snd (fst c)); py_int (snd c)].
Proof. destruct c as [[y z] x]; reflexivity. Qed.

(** C6: what is written is the routing as the router holds it, with every
    coordinate a tuple; what is read back holds a list for every tuple.  So
    a coordinate read back is not equal to the one written, and neither are
    the fields [pins], [segments[i].pins] and a non-empty [segments[i].net];
    a coordinate read back is unhashable, and [maze_route] called with the
    pins of a segment read back raises, where it finds a path for the pins
    as written. *)
Theorem roundtrip_lists_for_tuples :
  (forall (R : routing) (shape : coord),
     serialize_routing R shape = (dump (routing_py R), dump (coord_py shape)))
  /\ (forall c : coord,
        as_endpoint (coord_py c) = Some (held_tuple c)
        /\ as_endpoint (loads (dump (coord_py c))) = Some (held_list c)
        /\ py_eqb (loads (dump (coord_py c))) (coord_py c) = false
        /\ hashable (coord_py c) = true
        /\ hashable (loads (dump (coord_py c))) = false)
  /\ (forall ab : coord * coord,
        py_eqb (loads (dump (segment_pins_py ab))) (segment_pins_py ab) = false)
  /\ (forall (c : coord) (l : list coord),
        py_eqb (loads (dump (path_py (Some (c :: l))))) (path_py (Some (c :: l))) = false
        /\ py_eqb (loads (dump (pins_py (c :: l)))) (pins_py (c :: l)) = false)
  /\ (forall (a b : coord) (placed_layout : grid Z) (usage_matrix : grid bool) (fuel : nat),
        maze_route_held (held_list a) (held_list b) placed_layout usage_matrix fuel
        = Raised TypeError
        \/ maze_route_held (held_list a) (held_list b) placed_layout usage_matrix fuel
           = Raised IndexError)
  /\ maze_route_held (held_tuple (1, 0, 0)) (held_tuple (1, 0, 2))
       empty_wire empty_violation 70
     = Returned (Some [(1, 0, 2); (1, 0, 1); (1, 0, 0)])
  /\ maze_route_held (held_list (1, 0, 0)) (held_list (1, 0, 2))
       empty_wire empty_violation 70
     = Raised TypeError.
Proof.
  split; [exact dump_routing | ].
  split; [intros [[y z] x]; repeat split; reflexivity | ].
  split; [intros [[[y z] x] b]; reflexivity | ].
  split; [intros [[y z] x] l; split; reflexivity | ].
  split; [ | split; vm_compute; reflexivity].
  intros [[y z] x] b placed_layout usage_matrix fuel; unfold maze_route_held.
  destruct (shape placed_layout) as [[h d] w].
  destruct (np_index h y); [ | now right].
  destruct (np_index h z); [ | now right].
  destruct (np_index h x); [now left | now right].
Qed.

End StoredProofs.

(** ** Maze router: least cost along routes clear of obstacles *)

Module MazeNearProofs.
Import Grid Maze MazeInv MazeGen MazeNear GridProofs MazeMoves HeapProofs MazeGeneral.

Lemma dist_triangle (a u b : coord) : dist a b <= dist a u + dist u b.
Proof. destruct a as [[ay az] ax], u as [[uy uz] ux], b as [[by_ bz] bx]; simpl; lia. Qed.

Lemma dist_step (u c : coord) (mbc : coord * Z * Z) :
  In mbc candidate_moves -> dist u c <= dist (add u (fst (fst mbc))) c + snd mbc.
Proof.
  rewrite candidate_moves_eq; destruct u as [[uy uz] ux], c as [[y z] x]; simpl.
  intros [<- | [<- | [<- | [<- | [<- | [<- | []]]]]]]; simpl; lia.
Qed.

(** A voxel from which a voxel between [a] and [b] is one step farther
    from [a] lies between them as well. *)
Lemma between_pred (a b u : coord) (mbc : coord * Z * Z) :
  In mbc candidate_moves ->
  dist a (add u (fst (fst mbc))) = dist a u + snd mbc ->
  between a b (add u (fst (fst mbc))) -> between a b u.
Proof.
  unfold between; intros Hm Hd Hb.
  assert (T := dist_triangle a u b). assert (S := dist_step u b mbc Hm). lia.
Qed.

Lemma charge_low (a b : coord) (placed_layout : grid Z) (usage_matrix : grid bool)
    (v : coord) (mbc : coord * Z * Z) :
  In mbc candidate_moves -> snd mbc <= charge a b placed_layout usage_matrix v (snd mbc).
Proof.
  intros Hm; unfold charge.
  destruct (violating a b placed_layout usage_matrix v); [ | lia].
  rewrite candidate_moves_eq in Hm; simpl in Hm.
  destruct Hm as [<- | [<- | [<- | [<- | [<- | [<- | []]]]]]]; unfold violation_cost; simpl; lia.
Qed.

Lemma clear_routesb_sound (a b : coord) (placed_layout : grid Z) (usage_matrix : grid bool) :
  clear_routesb a b placed_layout usage_matrix = true ->
  clear_routes a b placed_layout usage_matrix.
Proof.
  unfold clear_routesb, clear_routes; intros H c [Bc Ac] Bt.
  rewrite forallb_forall in H.
  specialize (H c (proj2 (UsageProofs.all_voxels_iff _ c) Bc)).
  unfold between in Bt. apply Z.eqb_eq in Ac, Bt. rewrite Ac, Bt in H. cbn [andb negb orb] in H.
  destruct (violating a b placed_layout usage_matrix c); [discriminate | reflexivity].
Qed.

Section Near.

Variables a b : coord.
Variable placed_layout : grid Z.
Variable usage_matrix : grid bool.

Let dims : coord := shape placed_layout.

Hypothesis Ha : in_bounds a dims = true.
Hypothesis Hclear : clear_routes a b placed_layout usage_matrix.

Let Btw := Between a b placed_layout usage_matrix.
Let Dur := During a b placed_layout usage_matrix.
Let chg := charge a b placed_layout usage_matrix.
Let Ext := Exact a b.
Let Ahd := Ahead a b placed_layout.

Lemma start_exact : Ext (start_state dims a).
Proof.
  unfold start_state; split; cbn [visited min_dist_heap cost_matrix].
  - contradiction.
  - intros k v [E | []]; injection E as <- <-.
    rewrite at_put_same by exact Ha. rewrite dist_self; lia.
  - contradiction.
  - intros k v [E | []] _; injection E as <- <-.
    rewrite at_put_same by exact Ha. now rewrite dist_self.
Qed.

(** Every voxel between [a] and [b] that is not visited yet has, in the
    heap, an entry whose key is at most its distance from [a]. *)
Lemma behind_heap (st : state) :
  Btw st -> Ext st ->
  forall n x, Z.to_nat (dist a x) = n -> aligned dims a x -> between a b x ->
  ~ In x (visited st) ->
  exists k y, In (k, y) (min_dist_heap st) /\ k <= dist a x.
Proof.
  intros HI HX n; induction n as [n IH] using lt_wf_ind; intros x Hn Hx Bx Hv.
  destruct (coord_eq_dec x a) as [-> | NE].
  - destruct (g_start _ _ _ _ _ _ HI) as [C | [_ [k Hk]]]; [contradiction | ].
    assert (Hin : In (k, a) (min_dist_heap st)) by (rewrite Hk; now left).
    exists k, a; split; [exact Hin | ].
    destruct (x_heap _ _ _ HX k a Hin Bx) as [E _]; lia.
  - destruct (predecessor dims a x Ha Hx NE) as (p & mbc & Hm & Hp & Ep & Dp & Wp).
    assert (Bp : between a b p).
    { apply (between_pred a b p mbc Hm); rewrite Ep; [lia | exact Bx]. }
    destruct (in_dec coord_eq_dec p (visited st)) as [Vp | Vp].
    + assert (D : discovered st x).
      { rewrite <- Ep; apply (g_closed _ _ _ _ _ _ HI p mbc Vp Hm I).
        rewrite Ep; apply Hx. }
      destruct D as [C | C]; [contradiction | ].
      apply in_map_iff in C; destruct C as ([k v] & Ev & Hk); cbn [snd] in Ev; subst v.
      exists k, x; split; [exact Hk | ].
      destruct (x_heap _ _ _ HX k x Hk Bx) as [E _]; lia.
    + assert (Np := dist_nonneg a p).
      destruct (IH (Z.to_nat (dist a p))) with (x := p) as (k & y & Hk & Hle);
        [lia | reflexivity | exact Hp | exact Bp | exact Vp | ].
      exists k, y; split; [exact Hk | lia].
Qed.

(** Popping the smallest entry and marking its voxel visited. *)
Lemma pop_exact (st : state) (k : Z) (u : coord) (heap : list entry) :
  Btw st -> Ext st -> heappop (min_dist_heap st) = Some ((k, u), heap) ->
  Ahd u (mk_state (cost_matrix st) (backtrace_matrix st) (u :: visited st) heap).
Proof.
  intros HI HX Hpop.
  destruct (heappop_spec _ _ _ Hpop) as (Hin & Hmin & Hsub & _ & _).
  destruct (x_low_heap _ _ _ HX k u Hin) as [Lk Lc].
  split; [split; cbn [visited min_dist_heap cost_matrix] | ].
  - intros v [<- | Hv]; [exact Lc | now apply (x_low_visited _ _ _ HX)].
  - intros k' v Hk'; apply (x_low_heap _ _ _ HX k' v), Hsub, Hk'.
  - intros v [<- | Hv] Bv;
      [exact (proj2 (x_heap _ _ _ HX k u Hin Bv)) | now apply (x_visited _ _ _ HX)].
  - intros k' v Hk'; apply (x_heap _ _ _ HX k' v), Hsub, Hk'.
  - cbn [visited]; intros x Hx Bx Hn.
    destruct (behind_heap st HI HX _ x eq_refl Hx Bx) as (k' & y & Hk' & Hle).
    + intros C; apply Hn; now right.
    + specialize (Hmin _ Hk'); cbn [fst] in Hmin; lia.
Qed.

(** Setting the cost of an unvisited voxel [v] to [nc]. *)
Lemma exact_put (closed : coord -> coord * Z * Z -> Prop) (st : state) (v : coord)
    (nc btv : Z) (heap' : list entry) :
  Sound a b placed_layout usage_matrix closed st -> Ext st ->
  in_bounds v dims = true -> ~ In v (visited st) ->
  dist a v <= nc -> (between a b v -> nc = dist a v) ->
  (forall k' v0, In (k', v0) heap' ->
     (k' = nc /\ v0 = v) \/ In (k', v0) (min_dist_heap st)) ->
  (forall k', In (k', v) (min_dist_heap st) -> ~ between a b v) ->
  Ext (mk_state (put (cost_matrix st) v nc) (put (backtrace_matrix st) v btv)
                (visited st) heap').
Proof.
  intros HS HX Bv Vv Ln En Hheap Hold.
  assert (Sc := g_shape_cost _ _ _ _ _ _ HS). fold dims in Sc.
  assert (Hin : forall c, discovered st c -> in_bounds c dims = true)
    by (intros c D; exact (discovered_in_bounds _ _ _ _ _ _ _ HS D)).
  assert (Other : forall c, c <> v -> in_bounds c dims = true ->
            at_ (put (cost_matrix st) v nc) c = at_ (cost_matrix st) c).
  { intros c NE Bc. apply at_put_other; [now rewrite Sc | now rewrite Sc | exact NE]. }
  assert (Same : at_ (put (cost_matrix st) v nc) v = nc)
    by (apply at_put_same; now rewrite Sc).
  assert (Hheap_in : forall k' v0, In (k', v0) (min_dist_heap st) -> in_bounds v0 dims = true).
  { intros k' v0 H0; apply Hin; right; apply in_map_iff; exists (k', v0); now split. }
  split; cbn [visited min_dist_heap cost_matrix].
  - intros v0 Hv0.
    rewrite Other; [now apply (x_low_visited _ _ _ HX) | congruence | apply Hin; now left].
  - intros k' v0 Hk'. destruct (Hheap _ _ Hk') as [[-> ->] | Hk0].
    + rewrite Same; lia.
    + destruct (x_low_heap _ _ _ HX k' v0 Hk0) as [L1 L2].
      destruct (coord_eq_dec v0 v) as [-> | NE]; [rewrite Same; lia | ].
      rewrite Other; [lia | exact NE | now apply (Hheap_in k')].
  - intros v0 Hv0 B0.
    rewrite Other; [now apply (x_visited _ _ _ HX) | congruence | apply Hin; now left].
  - intros k' v0 Hk' B0. destruct (Hheap _ _ Hk') as [[-> ->] | Hk0].
    + rewrite Same; split; now apply En.
    + destruct (coord_eq_dec v0 v) as [-> | NE]; [exfalso; exact (Hold k' Hk0 B0) | ].
      rewrite Other; [now apply (x_heap _ _ _ HX k' v0) | exact NE | now apply (Hheap_in k')].
Qed.

(** Trying one movement from the popped voxel. *)
Lemma relax_exact (st : state) (u : coord) (done : list (coord * Z * Z)) (mbc : coord * Z * Z) :
  Dur u done st -> Ahd u st -> In mbc candidate_moves ->
  Ahd u (relax a b placed_layout usage_matrix u st mbc).
Proof.
  intros (HS & Hu & _) [HX Hahead] Hm.
  assert (Au : aligned dims a u).
  { apply (MazeProofs.reachable_aligned a placed_layout Ha), (g_visited _ _ _ _ _ _ HS u Hu). }
  destruct (move_facts dims a u mbc Hm Au) as [i MS].
  destruct MS as [_ _ _ _ MSp _ MSa MSd].
  assert (Lw := charge_low a b placed_layout usage_matrix (add u (fst (fst mbc))) mbc Hm).
  assert (Pred := between_pred a b u mbc Hm).
  destruct mbc as [[m bt] w]; cbn [fst snd] in *.
  unfold relax; fold dims.
  set (v := add u m) in *.
  destruct (in_bounds v dims) eqn:Bv; cbn [negb]; [ | now split].
  destruct (mem v (visited st)) eqn:Vv; [now split | ].
  apply mem_not_In in Vv.
  replace (if violating a b placed_layout usage_matrix v
           then at_ (cost_matrix st) u + violation_cost
           else at_ (cost_matrix st) u + w)
    with (at_ (cost_matrix st) u + chg v w)
    by (unfold chg, charge; now destruct (violating a b placed_layout usage_matrix v)).
  set (nc := at_ (cost_matrix st) u + chg v w).
  assert (Lu := x_low_visited _ _ _ HX u Hu).
  fold chg in Lw.
  assert (Ln : dist a v <= nc) by (unfold nc; lia).
  assert (En : between a b v -> nc = dist a v).
  { intros B. assert (Av := MSa eq_refl).
    assert (D := Hahead v Av B Vv).
    assert (Dv : dist a v = dist a u + w) by lia.
    assert (Bu := Pred Dv B).
    unfold nc, chg, charge. rewrite (Hclear v Av B), (x_visited _ _ _ HX u Hu Bu). lia. }
  destruct (mem v (map snd (min_dist_heap st))) eqn:Hh; cbn [negb].
  - (* already in the heap *)
    apply mem_In in Hh. apply in_map_iff in Hh; destruct Hh as ([k' v'] & Ev & Hk').
    cbn [snd] in Ev; subst v'.
    destruct ((at_ (cost_matrix st) v =? -1) || (nc <? at_ (cost_matrix st) v)) eqn:Imp.
    + assert (NB : ~ between a b v).
      { intros B. destruct (x_heap _ _ _ HX k' v Hk' B) as [_ Ec].
        rewrite Ec, (En B), Z.ltb_irrefl in Imp.
        assert (N := dist_nonneg a v).
        replace (dist a v =? -1) with false in Imp by (symmetry; apply Z.eqb_neq; lia).
        discriminate. }
      split; [ | exact Hahead].
      apply (exact_put _ st v nc bt (min_dist_heap st) HS HX Bv Vv Ln En);
        [intros k0 v0 H0; now right | intros k0 _; exact NB].
    + destruct st; split; assumption.
  - (* a new voxel *)
    apply mem_not_In in Hh.
    assert (Nd : ~ discovered st v) by (intros [C | C]; contradiction).
    rewrite (g_fresh _ _ _ _ _ _ HS v Bv Nd); cbn [Z.eqb orb].
    split; [ | exact Hahead].
    apply (exact_put _ st v nc bt (heappush (min_dist_heap st) (nc, v)) HS HX Bv Vv Ln En).
    + intros k0 v0 [E | H0]; [injection E as <- <-; now left | now right].
    + intros k0 Hk0 _; apply Hh, in_map_iff; exists (k0, v); now split.
Qed.

Lemma fold_relax_exact (u : coord) (l : list (coord * Z * Z)) : forall done st,
  Dur u done st -> Ahd u st -> (forall x, In x l -> In x candidate_moves) ->
  Ahd u (fold_left (relax a b placed_layout usage_matrix u) l st).
Proof.
  induction l as [ | x t IH]; intros done st HD HA Hl; simpl; [exact HA | ].
  apply (IH (x :: done)).
  - apply (relax_during a b placed_layout usage_matrix Ha st u done x HD); apply Hl; now left.
  - apply (relax_exact st u done x HD HA); apply Hl; now left.
  - intros y Hy; apply Hl; now right.
Qed.

(** One round of the loop keeps the bounds. *)
Lemma visit_exact (st : state) (k : Z) (u : coord) (heap : list entry) :
  Btw st -> Ext st -> heappop (min_dist_heap st) = Some ((k, u), heap) ->
  Ext (visit a b placed_layout usage_matrix u heap st).
Proof.
  intros HI HX Hpop.
  destruct (pop_during a b placed_layout usage_matrix st k u heap HI Hpop) as [HD Vu].
  unfold visit; rewrite (MazeProofs.set_add_fresh u (visited st) Vu).
  apply (fold_relax_exact u candidate_moves [] _ HD (pop_exact st k u heap HI HX Hpop)); auto.
Qed.

Lemma search_exact : forall fuel st st',
  Btw st -> Ext st -> search a b placed_layout usage_matrix fuel st = Returned st' -> Ext st'.
Proof.
  induction fuel as [ | fuel IH]; intros st st' HI HX E; simpl in E;
    destruct (heappop (min_dist_heap st)) as [[[k u] heap] | ] eqn:Hpop; try discriminate E.
  - now injection E as <-.
  - apply (IH _ _ (proj1 (visit_sound a b placed_layout usage_matrix Ha st k u heap HI Hpop))
             (visit_exact st k u heap HI HX Hpop) E).
  - now injection E as <-.
Qed.

(** With the routes between [a] and [b] clear, [b] costs its distance from
    [a], and the path returned costs as much. *)
Lemma clear_cost :
  aligned dims a b ->
  forall fuel, (S (length (all_voxels dims)) + Z.to_nat (dist a b) <= fuel)%nat ->
  exists st net,
    maze_search a b placed_layout usage_matrix fuel = Returned st
    /\ at_ (cost_matrix st) b = lower_bound a b
    /\ maze_route a b placed_layout usage_matrix fuel = Returned (Some net)
    /\ net_cost a b placed_layout usage_matrix net = Some (lower_bound a b)
    /\ hd a net = b /\ last net a = a.
Proof.
  intros Hb fuel Hf.
  assert (S0 := start_sound a b placed_layout usage_matrix Ha).
  destruct (search_total a b placed_layout usage_matrix Ha (S (length (all_voxels dims)))
              (start_state dims a) S0) as (st & Es);
    [unfold dims, start_state; cbn [visited length]; lia | ].
  destruct (search_sound a b placed_layout usage_matrix Ha _ _ _ S0 Es) as [HI He].
  assert (HX : Ext st) by (apply (search_exact _ _ _ S0 start_exact Es)).
  assert (Em : maze_search a b placed_layout usage_matrix fuel = Returned st).
  { unfold maze_search; rewrite (MazeProofs.initial_state_eq a placed_layout Ha).
    apply (search_mono _ _ _ _ _ _ _ Es); lia. }
  assert (Hv : In b (visited st)).
  { apply (final_reachable a b placed_layout usage_matrix st b HI He).
    now apply (MazeProofs.reachable_aligned a placed_layout Ha). }
  assert (Cb : at_ (cost_matrix st) b = dist a b).
  { apply (x_visited _ _ _ HX b Hv). unfold between. rewrite dist_self; lia. }
  destruct (backtrace_total a b placed_layout usage_matrix st HI _ b eq_refl Hv fuel)
    as (net & Eb); [rewrite Cb; lia | ].
  destruct (backtrace_sound a b placed_layout usage_matrix st HI fuel b net Hv Eb)
    as (Hh & Hl & _ & _ & Hc).
  exists st, net. rewrite (MazeProofs.lower_bound_aligned a placed_layout Ha b Hb).
  split; [exact Em | split; [exact Cb | split; [ | split; [ | split; assumption]]]].
  - unfold maze_route; rewrite Em; cbn [bind].
    apply mem_In in Hv; rewrite Hv, Eb; reflexivity.
  - now rewrite Hc, Cb.
Qed.

End Near.

(** C1: the start [a] lies in the layout, and the usage matrix has the
    shape of the layout, as [generate_usage_matrix] makes it.  Some amount of
    fuel suffices for every call.  If [b] can be reached (it lies in the
    layout on a layer that differs from the layer of [a] by a multiple of
    three, which by [MazeProofs.reachable_aligned] is reachability by the six
    movements) and no voxel on a shortest route from [a] to [b] is violating,
    the search ends with [cost_matrix[b]] equal to
    |dz| + |dx| + 3 * ceil(|dy| / 3), and the net returned runs from [b] back
    to [a] by steps whose costs add up to the same number; obstacles
    elsewhere in the layout do not matter.  If [b] cannot be reached, the
    result is [None]. *)
Theorem maze_route_optimal (a b : coord) (placed_layout : grid Z) (usage_matrix : grid bool) :
  in_bounds a (shape placed_layout) = true ->
  shape usage_matrix = shape placed_layout ->
  exists N, forall fuel, (N <= fuel)%nat ->
    (aligned (shape placed_layout) a b -> clear_routes a b placed_layout usage_matrix ->
       exists st net,
         maze_search a b placed_layout usage_matrix fuel = Returned st
         /\ at_ (cost_matrix st) b = lower_bound a b
         /\ maze_route a b placed_layout usage_matrix fuel = Returned (Some net)
         /\ net_cost a b placed_layout usage_matrix net = Some (lower_bound a b)
         /\ hd a net = b /\ last net a = a)
    /\ (~ aligned (shape placed_layout) a b ->
        maze_route a b placed_layout usage_matrix fuel = Returned None).
Proof.
  intros Ha _.
  exists (S (length (all_voxels (shape placed_layout))) + Z.to_nat (dist a b))%nat.
  intros fuel Hf; split.
  - intros Hb Hclear. now apply clear_cost.
  - intros Hn.
    assert (S0 := start_sound a b placed_layout usage_matrix Ha).
    destruct (search_total a b placed_layout usage_matrix Ha
                (S (length (all_voxels (shape placed_layout))))
                (start_state (shape placed_layout) a) S0) as (st & Es);
      [unfold start_state; cbn [visited length]; lia | ].
    destruct (search_sound a b placed_layout usage_matrix Ha _ _ _ S0 Es) as [HI He].
    unfold maze_route, maze_search.
    rewrite (MazeProofs.initial_state_eq a placed_layout Ha); cbn [bind].
    rewrite (search_mono _ _ _ _ _ _ _ Es) by lia; cbn [bind].
    destruct (mem b (visited st)) eqn:Hv; [ | reflexivity].
    exfalso; apply Hn, (MazeProofs.reachable_aligned a placed_layout Ha).
    apply (final_reachable a b placed_layout usage_matrix st b HI He), mem_In, Hv.
Qed.

Lemma maze_route_optimal_witness :
  violating (0, 0, 0) (3, 2, 1) block_layout block_usage (0, 1, 2) = true
  /\ exists N, forall fuel, (N <= fuel)%nat ->
       exists st net,
         maze_search (0, 0, 0) (3, 2, 1) block_layout block_usage fuel = Returned st
         /\ at_ (cost_matrix st) (3, 2, 1) = 6
         /\ maze_route (0, 0, 0) (3, 2, 1) block_layout block_usage fuel
            = Returned (Some net)
         /\ net_cost (0, 0, 0) (3, 2, 1) block_layout block_usage net = Some 6
         /\ hd (0, 0, 0) net = (3, 2, 1) /\ last net (0, 0, 0) = (0, 0, 0).
Proof.
  split; [reflexivity | ].
  destruct (maze_route_optimal (0, 0, 0) (3, 2, 1) block_layout block_usage eq_refl eq_refl)
    as [N H].
  exists N; intros fuel Hf.
  apply (proj1 (H fuel Hf)).
  - split; reflexivity.
  - apply clear_routesb_sound; vm_compute; reflexivity.
Defined.

End MazeNearProofs.
